(** * The FS object layer, the GCS multipart gateway and the config validator

    A shallow embedding of [cmd/fs-v1.go] and of the multipart part of
    [cmd/gateway/gcs/gateway-gcs.go].  Go functions become functions in a
    state-and-error monad over an in-memory model of the export tree; the
    collaborators whose code lives in other files of the repository
    (argument checks, error mapping, the MIME table, ...) are fields of a
    record the object layer is parameterised by. *)

From Stdlib Require Import ZArith String Ascii List Bool Lia.
From stdpp Require Import base option list sorting gmap strings pretty.

Local Open Scope string_scope.
Local Open Scope Z_scope.

Set Warnings "-register-all".


(** ** Go's [strings] package, on byte strings *)

Module GoStrings.

Definition HasPrefix (s prefix : string) : bool := String.prefix prefix s.

Definition HasSuffix (s suffix : string) : bool :=
  String.prefix (String.rev suffix) (String.rev s).

(** [strings.TrimPrefix]: [s] without the leading [prefix], or [s] itself. *)
Definition TrimPrefix (s prefix : string) : string :=
  if HasPrefix s prefix
  then String.substring (String.length prefix) (String.length s - String.length prefix) s
  else s.

Definition lower_ascii (a : ascii) : ascii :=
  let n := N_of_ascii a in
  if ((65 <=? n) && (n <=? 90))%N then ascii_of_N (n + 32) else a.

(** [strings.ToLower], on the ASCII letters (other bytes are kept). *)
Fixpoint ToLower (s : string) : string :=
  match s with
  | EmptyString => EmptyString
  | String a s' => String (lower_ascii a) (ToLower s')
  end.

(** [strings.Join]. *)
Fixpoint Join (elems : list string) (sep : string) : string :=
  match elems with
  | [] => ""
  | [e] => e
  | e :: rest => e +:+ sep +:+ Join rest sep
  end.

End GoStrings.

(** ** Go's [path] package *)

Module GoPath.

(** The elements of a path between its slashes, empty ones included. *)
Fixpoint split_go (cur : string) (s : string) : list string :=
  match s with
  | EmptyString => [String.rev cur]
  | String a s' =>
      if Ascii.eqb a "/" then String.rev cur :: split_go "" s'
      else split_go (String a cur) s'
  end.

Definition elements (p : string) : list string := split_go "" p.

(** One step of [path.Clean] over the elements kept so far, newest first. *)
Definition clean_step (rooted : bool) (kept : list string) (c : string) : list string :=
  if String.eqb c "" || String.eqb c "." then kept
  else if String.eqb c ".." then
    match kept with
    | top :: rest => if String.eqb top ".." then c :: kept else rest
    | [] => if rooted then [] else [c]
    end
  else c :: kept.

(** [path.Clean]: single slashes, no [.] element, no inner [..], no
    trailing slash except for the root; the empty path is [.]. *)
Definition Clean (p : string) : string :=
  let rooted := GoStrings.HasPrefix p "/" in
  let kept := rev (fold_left (clean_step rooted) (elements p) []) in
  let body := GoStrings.Join kept "/" in
  if rooted then "/" +:+ body
  else if String.eqb body "" then "." else body.

(** [path.Join]: empty elements are ignored, the result is cleaned, and
    joining nothing but empty elements gives the empty string. *)
Definition Join (elem : list string) : string :=
  match filter (fun e => e <> "") elem with
  | [] => ""
  | es => Clean (GoStrings.Join es "/")
  end.

Fixpoint drop_to_slash (r : string) : string :=
  match r with
  | EmptyString => EmptyString
  | String a r' => if Ascii.eqb a "/" then r else drop_to_slash r'
  end.

(** [path.Dir]: everything up to the last slash, cleaned. *)
Definition Dir (p : string) : string :=
  Clean (String.rev (drop_to_slash (String.rev p))).

Fixpoint ext_go (acc : string) (r : string) : string :=
  match r with
  | EmptyString => ""
  | String a r' =>
      if Ascii.eqb a "/" then ""
      else if Ascii.eqb a "." then String a acc
      else ext_go (String a acc) r'
  end.

(** [path.Ext]: the suffix from the last dot of the last element. *)
Definition Ext (p : string) : string := ext_go "" (String.rev p).

End GoPath.

(** Go's [int64]: sums and differences wrap around. *)
Module GoInt64.

Definition wrap (z : Z) : Z := (z + 2 ^ 63) mod 2 ^ 64 - 2 ^ 63.
Definition add (a b : Z) : Z := wrap (a + b).
Definition sub (a b : Z) : Z := wrap (a - b).
Definition MaxInt64 : Z := 2 ^ 63 - 1.
Definition MinInt64 : Z := - 2 ^ 63.

End GoInt64.

Definition slashSeparator : string := "/".

Definition hasPrefix (s prefix : string) : bool := GoStrings.HasPrefix s prefix.
Definition hasSuffix (s suffix : string) : bool := GoStrings.HasSuffix s suffix.
Definition isStringEqual (s1 s2 : string) : bool := String.eqb s1 s2.

(** [pathJoin]: [path.Join] that keeps the trailing slash of its last element. *)
Definition pathJoin (elem : list string) : string :=
  let trailingSlash :=
    match last elem with
    | Some e => if hasSuffix e slashSeparator then "/" else ""
    | None => ""
    end in
  GoPath.Join elem +:+ trailingSlash.

Example Clean_examples :
  map GoPath.Clean ["a//b/./c/.."; "/../a"; ""; "../../x"; "a/.."; "/"; "a/b/"]
  = ["a/b"; "/a"; "."; "../../x"; "."; "/"; "a/b"].
Proof. reflexivity. Qed.

Example Dir_examples :
  map GoPath.Dir ["a/b/c"; "a"; "/a"; "a/b/"; ""] = ["a/b"; "."; "/"; "a/b"; "."].
Proof. reflexivity. Qed.

Example Ext_examples :
  map GoPath.Ext ["a/b.txt"; "a.b/c"; "x.tar.gz"; "noext"; ".hidden"]
  = [".txt"; ""; ".gz"; ""; ".hidden"].
Proof. reflexivity. Qed.

Example pathJoin_examples :
  map pathJoin [["/export"; "b"; "dir/"]; ["/export"; ".minio.sys/tmp"; "u"; "t"]; ["b"; ""]]
  = ["/export/b/dir/"; "/export/.minio.sys/tmp/u/t"; "b"].
Proof. reflexivity. Qed.

(** ** Errors *)

(** The Go errors the object layer returns or tests for: the storage
    errors ([errVolumeNotFound], ...), [io.EOF], and the typed
    object-layer errors. *)
Inductive error : Type :=
  | errInvalidArgument
  | errUnexpected
  | errVolumeNotFound
  | errVolumeExists
  | errVolumeNotEmpty
  | errVolumeAccessDenied
  | errDiskNotFound
  | errFileNotFound
  | errFileAccessDenied
  | errIsNotRegular
  | errCorruptedFormat
  | errReadBlock
  | io_EOF
  | io_ErrClosedPipe
  | BucketNameInvalid (bucket : string)
  | BucketNotFound (bucket : string)
  | BucketAlreadyOwnedByYou (bucket : string)
  | BucketNotEmpty (bucket : string)
  | ObjectNotFound (bucket object : string)
  | PrefixAccessDenied (bucket object : string)
  | InvalidETag
  | InvalidRange (offset length size : Z)
  | IncompleteBody
  | ObjectAlreadyExists (bucket object : string)
  | OperationTimedOut (bucket object : string)
  | NotImplemented
  | OtherError (msg : string).

Global Instance error_eq_dec : EqDecision error.
Proof. solve_decision. Defined.

(** ** Data *)

(** Default etag is used for pre-existing objects. *)
Definition defaultEtag : string := "00000000000000000000000000000000-1".

Definition minioMetaBucket : string := ".minio.sys".
Definition minioMetaTmpBucket : string := ".minio.sys/tmp".
Definition minioMetaMultipartBucket : string := ".minio.sys/multipart".
Definition bucketMetaPrefix : string := "buckets".
Definition fsMetaJSONFile : string := "fs.json".

(** What [os.FileInfo] is used for here. *)
Record FileInfo := mkFileInfo { fi_Size : Z; fi_IsDir : bool }.

Record ObjectPartInfo := mkPart {
  part_Number : Z; part_Name : string; part_ETag : string; part_Size : Z }.

(** [fs.json]: [fsMetaV1]. *)
Record fsMetaV1 := mkFsMeta {
  Version : string;
  Format : string;
  Meta : gmap string string;
  Parts : list ObjectPartInfo }.

Definition set_Meta (m : fsMetaV1) (meta : gmap string string) : fsMetaV1 :=
  {| Version := Version m; Format := Format m; Meta := meta; Parts := Parts m |}.

(** A [hash.Reader] over a request body: the declared size, the bytes the
    stream delivers, and the error that ends the stream early, if any. *)
Record Reader := mkReader {
  rd_Size : Z;
  rd_body : string;
  rd_err : option error }.

(** [ObjectInfo], with the fields the object layer reads. [UserDefined]
    is [None] for Go's nil map. *)
Record ObjectInfo := mkObjectInfo {
  Bucket : string;
  Name : string;
  Size : Z;
  IsDir : bool;
  ETag : string;
  ContentType : string;
  UserDefined : option (gmap string string);
  oi_Parts : list ObjectPartInfo;
  metadataOnly : bool;
  oi_ReaderSize : Z }.

Record ListObjectsInfo := mkListObjectsInfo {
  IsTruncated : bool;
  NextMarker : string;
  Objects : list ObjectInfo;
  Prefixes : list string }.

(** The zero value [ListObjectsInfo{}]. *)
Definition emptyListObjectsInfo : ListObjectsInfo :=
  {| IsTruncated := false; NextMarker := ""; Objects := []; Prefixes := [] |}.

(** What the tree walker sends on its result channel. *)
Record walkResult := mkWalkResult {
  entry : string;
  walk_err : option error;
  walk_end : bool }.

Record listParams := mkListParams {
  lp_bucket : string;
  lp_recursive : bool;
  lp_marker : string;
  lp_prefix : string;
  lp_heal : bool }.

Global Instance listParams_eq_dec : EqDecision listParams.
Proof. solve_decision. Defined.

(** ** The state the object layer works on *)

(** A regular file holds bytes; a sidecar written by [fsMeta.WriteTo] is
    kept parsed (the JSON codec is not part of this development). *)
Inductive FileBody : Type :=
  | Bytes (b : string)
  | FsJSON (m : fsMetaV1).

(** The state of one namespace lock. *)
Inductive NSLockState : Type :=
  | WriteLocked
  | ReadLocked (others : nat).   (* [others] + 1 readers *)

(** The calls into the helpers of the object layer, as they are logged. *)
Inductive IOCall : Type :=
  | IOStatVolume (p : string)
  | IOMkdir (p : string)
  | IORemoveDir (p : string)
  | IORemoveAll (p : string)
  | IOStatFile (p : string)
  | IOStatDir (p : string)
  | IOIsFile (p : string)
  | IOIsDir (p : string)
  | IOMkdirAll (p : string)
  | IOCreateFile (p : string)
  | IORemoveFile (p : string)
  | IORenameFile (src dst : string)
  | IODeleteFile (base p : string)
  | IOOpenFile (p : string)
  | IOReadDir (p : string)
  | IOPoolOpen (p : string)
  | IOPoolWrite (p : string)
  | IOPoolCreate (p : string)
  | IOPoolClose (p : string)
  | IOMetaRead (p : string)
  | IOMetaWrite (p : string)
  | IODeleteBucketMetadata (bucket : string)
  | IOTreeWalk (bucket prefix marker : string).

Global Instance IOCall_eq_dec : EqDecision IOCall.
Proof. solve_decision. Defined.

Inductive Event : Type :=
  | EvIO (c : IOCall)
  | EvLock (bucket object : string)
  | EvRLock (bucket object : string)
  | EvUnlock (bucket object : string)
  | EvRUnlock (bucket object : string)
  | EvLockTimeout (bucket object : string).

Global Instance Event_eq_dec : EqDecision Event.
Proof. solve_decision. Defined.

(** The export tree (regular files and directories by cleaned path), the
    namespace locks held, the parked listings, the number of random
    names drawn so far, and the log of lock and helper calls (oldest
    first). *)
Record World := mkWorld {
  files : gmap string FileBody;
  dirs : gset string;
  nsLocks : gmap (string * string) NSLockState;
  listPool : list (listParams * list walkResult);
  rndNext : nat;
  events : list Event }.

Definition set_files (f : gmap string FileBody) (w : World) : World :=
  {| files := f; dirs := dirs w; nsLocks := nsLocks w; listPool := listPool w;
     rndNext := rndNext w; events := events w |}.
Definition set_dirs (d : gset string) (w : World) : World :=
  {| files := files w; dirs := d; nsLocks := nsLocks w; listPool := listPool w;
     rndNext := rndNext w; events := events w |}.
Definition set_nsLocks (l : gmap (string * string) NSLockState) (w : World) : World :=
  {| files := files w; dirs := dirs w; nsLocks := l; listPool := listPool w;
     rndNext := rndNext w; events := events w |}.
Definition set_listPool (l : list (listParams * list walkResult)) (w : World) : World :=
  {| files := files w; dirs := dirs w; nsLocks := nsLocks w; listPool := l;
     rndNext := rndNext w; events := events w |}.
Definition set_rndNext (n : nat) (w : World) : World :=
  {| files := files w; dirs := dirs w; nsLocks := nsLocks w; listPool := listPool w;
     rndNext := n; events := events w |}.
Definition log (e : Event) (w : World) : World :=
  {| files := files w; dirs := dirs w; nsLocks := nsLocks w; listPool := listPool w;
     rndNext := rndNext w; events := (events w ++ [e])%list |}.

(** ** The monad: state, Go errors and panics *)

Inductive Res (E A : Type) : Type :=
  | Ok (a : A)
  | Err (e : E)
  | Panic (msg : string).
Arguments Ok {E A} a.
Arguments Err {E A} e.
Arguments Panic {E A} msg.

(** Computations over a state [S] that return, fail with a Go error of
    type [E], or panic. *)
Definition ST (S E A : Type) : Type := S -> Res E A * S.

Definition ret {S E A} (a : A) : ST S E A := fun w => (Ok a, w).
Definition fail {S E A} (e : E) : ST S E A := fun w => (Err e, w).
Definition panic {S E A} (msg : string) : ST S E A := fun w => (Panic msg, w).

Definition bind {S E A B} (m : ST S E A) (k : A -> ST S E B) : ST S E B := fun w =>
  match m w with
  | (Ok a, w') => k a w'
  | (Err e, w') => (Err e, w')
  | (Panic msg, w') => (Panic msg, w')
  end.

Declare Scope go_scope.
Delimit Scope go_scope with go.
Notation "'let*' x := m 'in' k" := (bind m (fun x => k))
  (at level 10, x name, m at level 100, k at level 200, only parsing) : go_scope.
Notation "'let*' ' p := m 'in' k" := (bind m (fun x => let 'p := x in k))
  (at level 10, p pattern, m at level 100, k at level 200, only parsing) : go_scope.
Notation "'do' m 'in' k" := (bind m (fun _ => k))
  (at level 10, m at level 100, k at level 200, only parsing) : go_scope.
Local Open Scope go_scope.

(** [return ..., f(err)]: the error of [m], if any, goes through [f]. *)
Definition mapErr {S E A} (f : E -> E) (m : ST S E A) : ST S E A := fun w =>
  match m w with
  | (Err e, w') => (Err (f e), w')
  | r => r
  end.

(** [m] with its outcome made a value: [x, err := m()]. *)
Definition try {S E A} (m : ST S E A) : ST S E (A + E) := fun w =>
  match m w with
  | (Ok a, w') => (Ok (inl a), w')
  | (Err e, w') => (Ok (inr e), w')
  | (Panic msg, w') => (Panic msg, w')
  end.

(** [defer d()] before [body]: [d] runs when [body] is left, whatever
    its outcome; [d]'s own result is dropped. *)
Definition defer {S E A B} (d : ST S E B) (body : ST S E A) : ST S E A := fun w =>
  let '(r, w') := body w in (r, snd (d w')).

(** A deferred closure that acts when the named result [retErr] is set. *)
Definition deferOnErr {S E A B} (d : ST S E B) (body : ST S E A) : ST S E A := fun w =>
  let '(r, w') := body w in
  match r with
  | Err _ => (r, snd (d w'))
  | _ => (r, w')
  end.

Definition get {S E} : ST S E S := fun w => (Ok w, w).
Definition modify {S E} (f : S -> S) : ST S E unit := fun w => (Ok tt, f w).

(** [m] run for its effect, its result dropped. *)
Definition discard {S E A} (m : ST S E A) : ST S E unit := fun w => (Ok tt, snd (m w)).

Definition lift {S E A} (r : Res E A) : ST S E A := fun w => (r, w).

(** The object layer's computations. *)
Definition M (A : Type) : Type := ST World error A.

(** ** What the object layer takes from the rest of the repository

    The functions below are called by [fs-v1.go] and defined in other
    files; the object layer is parameterised by them.  [ioFault] says
    which helper calls fail for reasons outside the model (disk full,
    permissions, ...), [rndString] is the source of UUIDs. *)
Record Deps := mkDeps {
  toObjectErr : error -> list string -> error;
  IsValidBucketName : string -> bool;
  checkPutObjectArgs : World -> string -> string -> Z -> option error;
  checkGetObjArgs : string -> string -> option error;
  checkDelObjArgs : string -> string -> option error;
  checkListObjsArgs : World -> string -> string -> string -> string -> option error;
  mimedb_DB : string -> option string;
  ToObjectInfo : fsMetaV1 -> string -> string -> FileInfo -> ObjectInfo;
  newFSMetaV1 : fsMetaV1;
  isFSMetaValid : string -> bool;
  extractETag : gmap string string -> string;
  isCompressed : gmap string string -> bool;
  getDecompressedSize : ObjectInfo -> Z;
  md5hex : string -> string;
  genETagFrom : string -> string;
  rndString : nat -> string;
  globalWORMEnabled : bool;
  startTreeWalk : World -> string -> string -> string -> bool -> list walkResult;
  ioFault : IOCall -> option error }.

(** Modelled from the spec: [maxObjectList], the page size listings are
    clamped to ("maxKeys <= 0 or > 1000 -> 1000"); the constant is
    declared outside [fs-v1.go]. *)
Definition maxObjectList : Z := 1000.

(** ** The helpers over the in-memory tree *)

(** Modelled from the spec: the file-system helpers of
    [fs-v1-helpers.go], the lock pool and the namespace locks, which
    [fs-v1.go] calls and does not define ("disk I/O
    (open/read/write/stat/rename/unlink)", "mkdir -p", "Atomically
    rename temp -> <export>/<bucket>/<key>"); these are their effects on
    the model.  Every helper logs its call, and fails with the fault
    planned for it, if any, before touching the tree. *)

Section Helpers.

Context (deps : Deps).

(** The file system resolves a path to its cleaned form. *)
Definition fskey (p : string) : string := GoPath.Clean p.

Definition isRegular (w : World) (p : string) : bool :=
  bool_decide (is_Some (files w !! fskey p)).

Definition isDirectory (w : World) (p : string) : bool :=
  bool_decide (fskey p ∈ dirs w).

Definition io {A} (c : IOCall) (body : M A) : M A := fun w =>
  let w1 := log (EvIO c) w in
  match ioFault deps c with
  | Some e => (Err e, w1)
  | None => body w1
  end.

Fixpoint ancestors_go (fuel : nat) (p : string) : list string :=
  match fuel with
  | O => []
  | S n =>
      let d := GoPath.Dir p in
      if String.eqb d p || String.eqb d "." || String.eqb d "/" then []
      else d :: ancestors_go n d
  end.

(** The directories above [p], nearest first, without the root. *)
Definition ancestors (p : string) : list string :=
  ancestors_go (String.length p) (fskey p).

Definition isRootKey (k : string) : bool := String.eqb k "." || String.eqb k "/".

(** The entries directly under the directory [p]. *)
Definition childrenOf (w : World) (p : string) : list string :=
  filter (fun q => GoPath.Dir q = fskey p ∧ q ≠ fskey p)
         (elements (dom (files w) ∪ dirs w)).

(** [os.MkdirAll]: [None] when a regular file is in the way. *)
Definition mkdirAllIn (p : string) (w : World) : option World :=
  let targets := filter (fun k => isRootKey k = false) (fskey p :: ancestors p) in
  if existsb (isRegular w) targets then None
  else Some (set_dirs (dirs w ∪ list_to_set targets) w).

Definition fsStatVolume (p : string) : M FileInfo :=
  io (IOStatVolume p) (fun w =>
    if isDirectory w p then (Ok (mkFileInfo 0 true), w)
    else if isRegular w p then (Err errVolumeAccessDenied, w)
    else (Err errVolumeNotFound, w)).

Definition fsMkdir (p : string) : M unit :=
  io (IOMkdir p) (fun w =>
    if isDirectory w p || isRegular w p then (Err errVolumeExists, w)
    else (Ok tt, set_dirs (dirs w ∪ {[fskey p]}) w)).

Definition fsRemoveDir (p : string) : M unit :=
  io (IORemoveDir p) (fun w =>
    if negb (isDirectory w p) then (Err errVolumeNotFound, w)
    else match childrenOf w p with
         | [] => (Ok tt, set_dirs (dirs w ∖ {[fskey p]}) w)
         | _ :: _ => (Err errVolumeNotEmpty, w)
         end).

Definition under (p q : string) : Prop :=
  q = fskey p ∨ hasPrefix q (fskey p +:+ "/") = true.

Global Instance under_dec p q : Decision (under p q).
Proof. unfold under. apply _. Defined.

Definition fsRemoveAll (p : string) : M unit :=
  io (IORemoveAll p) (fun w =>
    (Ok tt, set_dirs (filter (fun q => ¬ under p q) (dirs w))
              (set_files (filter (fun kv => ¬ under p kv.1) (files w)) w))).

Definition bodySize (b : FileBody) : Z :=
  match b with
  | Bytes s => Z.of_nat (String.length s)
  | FsJSON _ => 1
  end.

Definition fsStatFile (p : string) : M FileInfo :=
  io (IOStatFile p) (fun w =>
    match files w !! fskey p with
    | Some b => (Ok (mkFileInfo (bodySize b) false), w)
    | None => if isDirectory w p then (Err errFileAccessDenied, w)
              else (Err errFileNotFound, w)
    end).

Definition fsStatDir (p : string) : M FileInfo :=
  io (IOStatDir p) (fun w =>
    if isDirectory w p then (Ok (mkFileInfo 0 true), w)
    else if isRegular w p then (Err errFileAccessDenied, w)
    else (Err errFileNotFound, w)).

(** [fsIsFile], [fsIsDir]: any failure of the stat is a [false]. *)
Definition fsIsFile (p : string) : M bool := fun w =>
  let w1 := log (EvIO (IOIsFile p)) w in
  match ioFault deps (IOIsFile p) with
  | Some _ => (Ok false, w1)
  | None => (Ok (isRegular w1 p), w1)
  end.

Definition fsIsDir (p : string) : M bool := fun w =>
  let w1 := log (EvIO (IOIsDir p)) w in
  match ioFault deps (IOIsDir p) with
  | Some _ => (Ok false, w1)
  | None => (Ok (isDirectory w1 p), w1)
  end.

Definition mkdirAll (p : string) : M unit :=
  io (IOMkdirAll p) (fun w =>
    match mkdirAllIn p w with
    | Some w' => (Ok tt, w')
    | None => (Err errFileAccessDenied, w)
    end).

(** [fsCreateFile]: the parent directories are made, the file is
    created and the stream copied into it; when the stream breaks the
    bytes copied so far stay in the file. Returns the bytes written. *)
Definition fsCreateFile (p : string) (data : Reader) : M Z :=
  io (IOCreateFile p) (fun w =>
    match mkdirAllIn (GoPath.Dir p) w with
    | None => (Err errFileAccessDenied, w)
    | Some w1 =>
        if isDirectory w1 p then (Err errIsNotRegular, w1)
        else
          let w2 := set_files (<[fskey p := Bytes (rd_body data)]> (files w1)) w1 in
          match rd_err data with
          | Some e => (Err e, w2)
          | None => (Ok (Z.of_nat (String.length (rd_body data))), w2)
          end
    end).

(** [fsRemoveFile]: [os.Remove] of a file (or of an empty directory). *)
Definition fsRemoveFile (p : string) : M unit :=
  io (IORemoveFile p) (fun w =>
    if isRegular w p then (Ok tt, set_files (delete (fskey p) (files w)) w)
    else if isDirectory w p then
      match childrenOf w p with
      | [] => (Ok tt, set_dirs (dirs w ∖ {[fskey p]}) w)
      | _ :: _ => (Err errVolumeNotEmpty, w)
      end
    else (Err errFileNotFound, w)).

(** [fsRenameFile]: the source must exist; the parents of the
    destination are made; a file is not renamed onto a directory. *)
Definition fsRenameFile (src dst : string) : M unit :=
  io (IORenameFile src dst) (fun w =>
    match files w !! fskey src with
    | None => (Err errFileNotFound, w)
    | Some b =>
        match mkdirAllIn (GoPath.Dir dst) w with
        | None => (Err errFileAccessDenied, w)
        | Some w1 =>
            if isDirectory w1 dst then (Err errFileAccessDenied, w1)
            else (Ok tt, set_files (<[fskey dst := b]> (delete (fskey src) (files w1))) w1)
        end
    end).

(** The parents of a deleted entry are removed while they are empty, up
    to [base]. *)
Fixpoint pruneDirs (fuel : nat) (base p : string) (w : World) : World :=
  match fuel with
  | O => w
  | S n =>
      if String.eqb (fskey p) (fskey base) || isRootKey (fskey p) then w
      else if isDirectory w p then
        match childrenOf w p with
        | [] => pruneDirs n base (GoPath.Dir (fskey p)) (set_dirs (dirs w ∖ {[fskey p]}) w)
        | _ :: _ => w
        end
      else w
  end.

Definition deleteFileIn (base p : string) (w : World) : Res error unit * World :=
  if String.eqb (fskey p) (fskey base) then (Ok tt, w)
  else if isRegular w p then
    (Ok tt, pruneDirs (String.length p) base (GoPath.Dir (fskey p))
              (set_files (delete (fskey p) (files w)) w))
  else if isDirectory w p then (Ok tt, pruneDirs (String.length p) base p w)
  else (Err errFileNotFound, w).

Definition fsDeleteFile (base p : string) : M unit :=
  io (IODeleteFile base p) (deleteFileIn base p).

(** [fsRemoveMeta]: [fsDeleteFile] of the sidecar (the rename through
    [tmpDir] is the Windows path). *)
Definition fsRemoveMeta (base p tmpDir : string) : M unit :=
  fsDeleteFile base p.

(** [fsOpenFile]: the bytes from [offset] on, and the size of the file. *)
Definition fsOpenFile (p : string) (offset : Z) : M (string * Z) :=
  io (IOOpenFile p) (fun w =>
    match files w !! fskey p with
    | Some (Bytes s) =>
        let n := String.length s in
        (Ok (String.substring (Z.to_nat offset) (n - Z.to_nat offset) s, Z.of_nat n), w)
    | Some (FsJSON _) => (Ok ("", 1), w)
    | None => if isDirectory w p then (Err errIsNotRegular, w)
              else (Err errFileNotFound, w)
    end).

(** [readDirN]: at most [n] entries of the directory. *)
Definition readDirN (p : string) (n : nat) : M (list string) :=
  io (IOReadDir p) (fun w =>
    if isDirectory w p then (Ok (take n (childrenOf w p)), w)
    else (Err errFileNotFound, w)).

(** *** The lock pool [fs.rwPool]; a handle is the path it was opened on *)

Definition rwPool_Open (p : string) : M string :=
  io (IOPoolOpen p) (fun w =>
    if isRegular w p then (Ok p, w)
    else if isDirectory w p then (Err errIsNotRegular, w)
    else (Err errFileNotFound, w)).

Definition rwPool_Write (p : string) : M string :=
  io (IOPoolWrite p) (fun w =>
    if isRegular w p then (Ok p, w)
    else if isDirectory w p then (Err errIsNotRegular, w)
    else (Err errFileNotFound, w)).

(** [Create] makes the parents and opens the file, creating it empty
    when it is not there. *)
Definition rwPool_Create (p : string) : M string :=
  io (IOPoolCreate p) (fun w =>
    match mkdirAllIn (GoPath.Dir p) w with
    | None => (Err errFileAccessDenied, w)
    | Some w1 =>
        if isDirectory w1 p then (Err errIsNotRegular, w1)
        else if isRegular w1 p then (Ok p, w1)
        else (Ok p, set_files (<[fskey p := Bytes ""]> (files w1)) w1)
    end).

Definition rwPool_Close (p : string) : M unit := fun w =>
  (Ok tt, log (EvIO (IOPoolClose p)) w).

(** [wlk.Close()] on a locked file. *)
Definition lockedFile_Close (p : string) : M unit := rwPool_Close p.

(** *** [fsMetaV1.ReadFrom] and [WriteTo] on a locked [fs.json] *)

(** An empty file is [io.EOF]; anything that is not a sidecar of a known
    version is [errCorruptedFormat]. *)
Definition fsMeta_ReadFrom (lk : string) : M fsMetaV1 :=
  io (IOMetaRead lk) (fun w =>
    match files w !! fskey lk with
    | Some (FsJSON m) =>
        if isFSMetaValid deps (Version m) then (Ok m, w)
        else (Err errCorruptedFormat, w)
    | Some (Bytes s) =>
        if String.eqb s "" then (Err io_EOF, w) else (Err errCorruptedFormat, w)
    | None => (Err errFileNotFound, w)
    end).

Definition fsMeta_WriteTo (m : fsMetaV1) (lk : string) : M unit :=
  io (IOMetaWrite lk) (fun w =>
    (Ok tt, set_files (<[fskey lk := FsJSON m]> (files w)) w)).

(** *** Namespace locks [fs.nsMutex]

    Modelled from the spec: "handle.RLock(timeout) / handle.Lock(timeout)
    acquires shared / exclusive; fails with OperationTimedOut after
    timeout"; "when refcount reaches zero the entry is removed".  In one
    sequential run a lock somebody else holds is never released, so the
    acquisition times out. *)

Definition GetLock (bucket object : string) : M unit := fun w =>
  match nsLocks w !! (bucket, object) with
  | None =>
      (Ok tt, log (EvLock bucket object)
                (set_nsLocks (<[(bucket, object) := WriteLocked]> (nsLocks w)) w))
  | Some _ => (Err (OperationTimedOut bucket object), log (EvLockTimeout bucket object) w)
  end.

Definition GetRLock (bucket object : string) : M unit := fun w =>
  match nsLocks w !! (bucket, object) with
  | None =>
      (Ok tt, log (EvRLock bucket object)
                (set_nsLocks (<[(bucket, object) := ReadLocked 0]> (nsLocks w)) w))
  | Some (ReadLocked n) =>
      (Ok tt, log (EvRLock bucket object)
                (set_nsLocks (<[(bucket, object) := ReadLocked (S n)]> (nsLocks w)) w))
  | Some WriteLocked =>
      (Err (OperationTimedOut bucket object), log (EvLockTimeout bucket object) w)
  end.

Definition Unlock (bucket object : string) : M unit := fun w =>
  (Ok tt, log (EvUnlock bucket object)
            (set_nsLocks (delete (bucket, object) (nsLocks w)) w)).

Definition RUnlock (bucket object : string) : M unit := fun w =>
  let l :=
    match nsLocks w !! (bucket, object) with
    | Some (ReadLocked (S n)) => <[(bucket, object) := ReadLocked n]> (nsLocks w)
    | _ => delete (bucket, object) (nsLocks w)
    end in
  (Ok tt, log (EvRUnlock bucket object) (set_nsLocks l w)).

(** *** Random names *)

Definition mustGetUUID : M string := fun w =>
  (Ok (rndString deps (rndNext w)), set_rndNext (S (rndNext w)) w).

(** [GenETag]: an etag made from a fresh UUID. *)
Definition GenETag : M string :=
  let* u := mustGetUUID in ret (genETagFrom deps u).

(** *** The list pool [fs.listPool] *)

Fixpoint poolRelease (params : listParams) (pool : list (listParams * list walkResult))
  : option (list walkResult) * list (listParams * list walkResult) :=
  match pool with
  | [] => (None, [])
  | (p, ch) :: rest =>
      if decide (p = params) then (Some ch, rest)
      else let '(r, rest') := poolRelease params rest in (r, (p, ch) :: rest')
  end.

(** [listPool.Release]: the newest parked walker for [params], if any. *)
Definition listPool_Release (params : listParams) : M (option (list walkResult)) := fun w =>
  let '(r, pool') := poolRelease params (listPool w) in
  (Ok r, set_listPool pool' w).

Definition listPool_Set (params : listParams) (ch : list walkResult) : M unit := fun w =>
  (Ok tt, set_listPool ((params, ch) :: listPool w) w).

Definition deleteBucketMetadata (bucket : string) : M unit := fun w =>
  (Ok tt, log (EvIO (IODeleteBucketMetadata bucket)) w).

End Helpers.

(** ** [fs-v1.go]: the FS object layer *)

(** The fields of [FSObjects] the operations read. *)
Record FSObjects := mkFSObjects {
  fsPath : string;        (* Path to be exported over S3 API. *)
  metaJSONFile : string;  (* meta json filename *)
  fsUUID : string }.      (* Unique value for all temporary transactions. *)

Record BucketInfo := mkBucketInfo { bi_Name : string }.

(** An [io.Writer]: [nil], one that takes every write, or one whose
    writes fail. *)
Inductive Writer : Type :=
  | NilWriter
  | GoodWriter
  | BrokenWriter (e : error).

Global Instance Writer_eq_dec : EqDecision Writer.
Proof. solve_decision. Defined.

Definition check (c : World -> option error) : M unit := fun w =>
  match c w with
  | Some e => (Err e, w)
  | None => (Ok tt, w)
  end.

(** [isObjectDir(object, size)]: a key ending in a slash, with no body. *)
Definition isObjectDir (object : string) (size : Z) : bool :=
  hasSuffix object slashSeparator && (size =? 0).

Definition userDefinedOf (oi : ObjectInfo) : gmap string string :=
  default ∅ (UserDefined oi).

Section FSObjectLayer.

Context (deps : Deps) (fs : FSObjects).

(** [return ..., toObjectErr(err, params...)]. *)
Definition toErr {A} (params : list string) (m : M A) : M A :=
  mapErr (fun e => toObjectErr deps e params) m.

(** getBucketDir - will convert incoming bucket names to corresponding
    valid bucket names on the backend. *)
Definition getBucketDir (bucket : string) : Res error string :=
  if String.eqb bucket "" || String.eqb bucket "." || String.eqb bucket ".."
  then Err errVolumeNotFound
  else Ok (pathJoin [fsPath fs; bucket]).

Definition statBucketDir (bucket : string) : M FileInfo :=
  let* bucketDir := lift (getBucketDir bucket) in
  fsStatVolume deps bucketDir.

(** MakeBucketWithLocation - create a new bucket. *)
Definition MakeBucketWithLocation (bucket location : string) : M unit :=
  do GetLock bucket "" in
  defer (Unlock bucket "")
    (if negb (IsValidBucketName deps bucket) then fail (BucketNameInvalid bucket)
     else
       let* bucketDir := toErr [bucket] (lift (getBucketDir bucket)) in
       toErr [bucket] (fsMkdir deps bucketDir)).

(** GetBucketInfo - fetch bucket metadata info. *)
Definition GetBucketInfo (bucket : string) : M BucketInfo :=
  do GetRLock bucket "" in
  defer (RUnlock bucket "")
    (let* st := toErr [bucket] (statBucketDir bucket) in
     ret (mkBucketInfo bucket)).

(** DeleteBucket - delete a bucket and all the metadata associated with
    the bucket. *)
Definition DeleteBucket (bucket : string) : M unit :=
  do GetLock bucket "" in
  defer (Unlock bucket "")
    (let* bucketDir := toErr [bucket] (lift (getBucketDir bucket)) in
     do toErr [bucket] (fsRemoveDir deps bucketDir) in
     let minioMetadataBucketDir :=
       pathJoin [fsPath fs; minioMetaBucket; bucketMetaPrefix; bucket] in
     do toErr [bucket] (fsRemoveAll deps minioMetadataBucketDir) in
     deleteBucketMetadata bucket).

(** The sidecar of [bucket]/[object]. *)
Definition fsMetaPathOf (bucket object : string) : string :=
  pathJoin [fsPath fs; minioMetaBucket; bucketMetaPrefix; bucket; object; metaJSONFile fs].

(** The guess both [createFsJSON] and [defaultFsJSON] make from the
    extension of the key. *)
Definition withContentType (object : string) (meta : gmap string string)
  : gmap string string :=
  let objectExt := GoPath.Ext object in
  if String.eqb objectExt "" then meta
  else
    match mimedb_DB deps (GoStrings.ToLower (GoStrings.TrimPrefix objectExt ".")) with
    | Some contentType => <["content-type" := contentType]> meta
    | None => <["content-type" := "application/octet-stream"]> meta
    end.

(** Create a new fs.json file, if the existing one is corrupt. *)
Definition createFsJSON (object fsMetaPath : string) : M unit :=
  let* etag := GenETag deps in
  let fsMeta := set_Meta (newFSMetaV1 deps) (withContentType object {["etag" := etag]}) in
  let* werr := try (rwPool_Create deps fsMetaPath) in
  match werr with
  | inl wlk =>
      let* err := try (fsMeta_WriteTo deps fsMeta wlk) in
      do lockedFile_Close wlk in
      match err with
      | inl _ => ret tt
      | inr e => fail e
      end
  | inr e => fail e
  end.

(** Used to return default etag values when a pre-existing object's meta
    data is queried. *)
Definition defaultFsJSON (object : string) : fsMetaV1 :=
  set_Meta (newFSMetaV1 deps) (withContentType object {["etag" := defaultEtag]}).

(** The zero value [fsMetaV1{}]. *)
Definition zeroFsMeta : fsMetaV1 :=
  {| Version := ""; Format := ""; Meta := ∅; Parts := [] |}.

(** [fs.isObjectDir]: the prefix exists and is an empty directory. *)
Definition fs_isObjectDir (bucket prefix : string) : M bool :=
  let* entries := try (readDirN deps (pathJoin [fsPath fs; bucket; prefix]) 1) in
  match entries with
  | inl es => ret (bool_decide (es = []))
  | inr _ => ret false
  end.

(** getObjectInfo - wrapper for reading object metadata and constructs
    ObjectInfo. *)
Definition getObjectInfo (bucket object : string) : M ObjectInfo :=
  if hasSuffix object slashSeparator then
    let* isdir := fsIsDir deps (pathJoin [fsPath fs; bucket; object]) in
    if negb isdir then fail errFileNotFound
    else
      let* fi := fsStatDir deps (pathJoin [fsPath fs; bucket; object]) in
      ret (ToObjectInfo deps zeroFsMeta bucket object fi)
  else
    let fsMetaPath := fsMetaPathOf bucket object in
    let* rlk := try (rwPool_Open deps fsMetaPath) in
    let* fsMeta :=
      match rlk with
      | inl lk =>
          let* rerr := try (fsMeta_ReadFrom deps lk) in
          do rwPool_Close fsMetaPath in
          match rerr with
          | inl m => ret m
          | inr e => fail e
          end
      | inr err =>
          if decide (err = errFileNotFound) then ret (defaultFsJSON object)
          else fail err
      end in
    let* fi := fsStatFile deps (pathJoin [fsPath fs; bucket; object]) in
    ret (ToObjectInfo deps fsMeta bucket object fi).

(** getObjectInfoWithLock - reads object metadata and replies back
    ObjectInfo. *)
Definition getObjectInfoWithLock (bucket object : string) : M ObjectInfo :=
  do GetRLock bucket object in
  defer (RUnlock bucket object)
    (do check (fun _ => checkGetObjArgs deps bucket object) in
     do toErr [bucket] (statBucketDir bucket) in
     let* isEmptyDir :=
       (if hasSuffix object slashSeparator then fs_isObjectDir bucket object
        else ret true) in
     if hasSuffix object slashSeparator && negb isEmptyDir then fail errFileNotFound
     else getObjectInfo bucket object).

(** GetObjectInfo - reads object metadata and replies back ObjectInfo. *)
Definition GetObjectInfo (bucket object : string) : M ObjectInfo :=
  let* r := try (getObjectInfoWithLock bucket object) in
  match r with
  | inr err =>
      if decide (err = errCorruptedFormat ∨ err = io_EOF) then
        do toErr [bucket; object] (GetLock bucket object) in
        let fsMetaPath := fsMetaPathOf bucket object in
        let* cerr := try (createFsJSON object fsMetaPath) in
        do Unlock bucket object in
        match cerr with
        | inr e => fail (toObjectErr deps e [bucket; object])
        | inl _ => toErr [bucket; object] (getObjectInfoWithLock bucket object)
        end
      else fail (toObjectErr deps err [bucket; object])
  | inl oi => ret oi
  end.

(** Whether a sidecar holds an etag: the tail of [getObjectETag]. *)
Definition etagOfSidecar (bucket entry : string) (b : FileBody) : Res error string :=
  match b with
  | Bytes s =>
      if String.eqb s "" then Ok ""
      else if isFSMetaValid deps "" then Ok (extractETag deps ∅)
      else Err (toObjectErr deps errCorruptedFormat [bucket; entry])
  | FsJSON m =>
      if isFSMetaValid deps (Version m) then Ok (extractETag deps (Meta m))
      else Err (toObjectErr deps errCorruptedFormat [bucket; entry])
  end.

(** getObjectETag is a helper function, which returns only the md5sum of
    the file on the disk. *)
Definition getObjectETag (bucket entry : string) (lock : bool) : M string :=
  let fsMetaPath := fsMetaPathOf bucket entry in
  if lock then
    let* rlk := try (rwPool_Open deps fsMetaPath) in
    match rlk with
    | inr err =>
        if decide (err = errFileNotFound) then ret ""
        else fail (toObjectErr deps err [bucket; entry])
    | inl lk =>
        defer (rwPool_Close fsMetaPath)
          (let* w := get in
           match files w !! fskey lk with
           | Some b => lift (etagOfSidecar bucket entry b)
           | None => fail (toObjectErr deps errFileNotFound [bucket; entry])
           end)
    end
  else
    do toErr [bucket; entry] (fsOpenFile deps fsMetaPath 0) in
    let* w := get in
    match files w !! fskey fsMetaPath with
    | Some b => lift (etagOfSidecar bucket entry b)
    | None => fail (toObjectErr deps errFileNotFound [bucket; entry])
    end.

(** getObject - wrapper for GetObject. Returns the bytes written to
    [writer]. *)
Definition getObject (bucket object : string) (offset length : Z) (writer : Writer)
    (etag : string) (lock : bool) : M string :=
  do toErr [bucket] (statBucketDir bucket) in
  if offset <? 0 then fail (toObjectErr deps errUnexpected [bucket; object])
  else if decide (writer = NilWriter) then fail (toObjectErr deps errUnexpected [bucket; object])
  else if hasSuffix object slashSeparator then
    match writer with
    | BrokenWriter e => fail (toObjectErr deps e [bucket; object])
    | _ => ret ""
    end
  else
    let fsMetaPath := fsMetaPathOf bucket object in
    let withMetaLock (body : M string) : M string :=
      if negb (String.eqb bucket minioMetaBucket) && lock then
        let* r := try (rwPool_Open deps fsMetaPath) in
        match r with
        | inr err =>
            if decide (err = errFileNotFound) then defer (rwPool_Close fsMetaPath) body
            else fail (toObjectErr deps err [bucket; object])
        | inl _ => defer (rwPool_Close fsMetaPath) body
        end
      else body in
    withMetaLock
      (do (if negb (String.eqb etag "") && negb (String.eqb etag defaultEtag) then
             let* objEtag := toErr [bucket; object] (getObjectETag bucket object lock) in
             if negb (String.eqb objEtag etag)
             then fail (toObjectErr deps InvalidETag [bucket; object])
             else ret tt
           else ret tt) in
       let fsObjPath := pathJoin [fsPath fs; bucket; object] in
       let* '(reader, size) := toErr [bucket; object] (fsOpenFile deps fsObjPath offset) in
       let length := if length <? 0 then GoInt64.sub size offset else length in
       if (offset >? size) || (GoInt64.add offset length >? size)
       then fail (InvalidRange offset length size)
       else
         match writer with
         | BrokenWriter e =>
             if decide (e = io_ErrClosedPipe) then ret ""
             else fail (toObjectErr deps e [bucket; object])
         | _ => ret (String.substring 0 (Z.to_nat length) reader)
         end).

(** The size check [GetObject] makes on a compressed object; indexing
    past the re-read parts panics. *)
Fixpoint partSizesDiffer (parts modParts : list ObjectPartInfo) : Res error bool :=
  match parts, modParts with
  | [], _ => Ok false
  | _ :: _, [] => Panic "index out of range"
  | p :: ps, q :: qs =>
      if negb (part_Size p =? part_Size q) then Ok true else partSizesDiffer ps qs
  end.

Definition compressSizeModified (objInfo modObjInfo : ObjectInfo) : Res error bool :=
  match oi_Parts objInfo, oi_Parts modObjInfo with
  | [], [] =>
      let objDecompressedSize := getDecompressedSize deps objInfo in
      let modDecompressedSize := getDecompressedSize deps modObjInfo in
      Ok (((objDecompressedSize >? 0) || (modDecompressedSize >? 0))
          && negb (objDecompressedSize =? modDecompressedSize))
  | _ :: _, _ :: _ => partSizesDiffer (oi_Parts objInfo) (oi_Parts modObjInfo)
  | _, _ => Ok true
  end.

(** GetObject - reads an object from the disk. *)
Definition GetObject (bucket object : string) (offset length : Z) (writer : Writer)
    (etag : string) (objInfo : ObjectInfo) : M string :=
  do check (fun _ => checkGetObjArgs deps bucket object) in
  do GetRLock bucket object in
  defer (RUnlock bucket object)
    (if negb (isCompressed deps (userDefinedOf objInfo)) then
       getObject bucket object offset length writer etag true
     else
       let* modObjInfo := getObjectInfo bucket object in
       let* modified := lift (compressSizeModified objInfo modObjInfo) in
       if modified then fail (toObjectErr deps errReadBlock [])
       else getObject bucket object offset length writer etag true).

(** This function does the following check, suppose object is "a/b/c/d",
    stat makes sure that objects "a/b/c", "a/b" and "a" do not exist.
    The recursion over [path.Dir] is bounded by the length of the path. *)
Fixpoint isParentDirObject (fuel : nat) (bucket p : string) : M bool :=
  match fuel with
  | O => panic "isParentDirObject: recursion bound"
  | S n =>
      if String.eqb p "." || String.eqb p "/" then ret false
      else
        let* isFile := fsIsFile deps (pathJoin [fsPath fs; bucket; p]) in
        if isFile then ret true
        else isParentDirObject n bucket (GoPath.Dir p)
  end.

Definition parentDirIsObject (bucket parent : string) : M bool :=
  isParentDirObject (S (String.length parent)) bucket parent.

(** The temporary file [putObject] streams the body into. *)
Definition fsTmpObjPathOf (tempObj : string) : string :=
  pathJoin [fsPath fs; minioMetaTmpBucket; fsUUID fs; tempObj].

(** putObject - wrapper for PutObject *)
Definition putObject (bucket object : string) (data : Reader)
    (metadata : gmap string string) : M ObjectInfo :=
  let meta := metadata in
  do toErr [bucket] (statBucketDir bucket) in
  let fsMeta := set_Meta (newFSMetaV1 deps) meta in
  if isObjectDir object (rd_Size data) then
    let* isObj := parentDirIsObject bucket (GoPath.Dir object) in
    if isObj then fail (toObjectErr deps errFileAccessDenied [bucket; object])
    else
      do toErr [bucket; object] (mkdirAll deps (pathJoin [fsPath fs; bucket; object])) in
      let* fi := toErr [bucket; object] (fsStatDir deps (pathJoin [fsPath fs; bucket; object])) in
      ret (ToObjectInfo deps fsMeta bucket object fi)
  else
    do check (fun w => checkPutObjectArgs deps w bucket object (rd_Size data)) in
    let* isObj := parentDirIsObject bucket (GoPath.Dir object) in
    if isObj then fail (toObjectErr deps errFileAccessDenied [bucket; object])
    else if rd_Size data <? 0 then fail errInvalidArgument
    else
      let bucketMetaDir := pathJoin [fsPath fs; minioMetaBucket; bucketMetaPrefix] in
      let fsMetaPath := pathJoin [bucketMetaDir; bucket; object; metaJSONFile fs] in
      let withSidecar (body : option string -> M ObjectInfo) : M ObjectInfo :=
        if negb (String.eqb bucket minioMetaBucket) then
          let* wlk := toErr [bucket; object] (rwPool_Create deps fsMetaPath) in
          defer (lockedFile_Close wlk)
            (deferOnErr
               (let tmpDir := pathJoin [fsPath fs; minioMetaTmpBucket; fsUUID fs] in
                fsRemoveMeta deps bucketMetaDir fsMetaPath tmpDir)
               (body (Some wlk)))
        else body None in
      withSidecar (fun wlk =>
        let* tempObj := mustGetUUID deps in
        let fsTmpObjPath := fsTmpObjPathOf tempObj in
        let* written := try (fsCreateFile deps fsTmpObjPath data) in
        match written with
        | inr err =>
            do discard (fsRemoveFile deps fsTmpObjPath) in
            fail (toObjectErr deps err [bucket; object])
        | inl bytesWritten =>
            let fsMeta := set_Meta fsMeta (<["etag" := md5hex deps (rd_body data)]> (Meta fsMeta)) in
            if negb (isCompressed deps (Meta fsMeta)) && (bytesWritten <? rd_Size data) then
              do discard (fsRemoveFile deps fsTmpObjPath) in
              fail IncompleteBody
            else
              defer (fsRemoveFile deps fsTmpObjPath)
                (let fsNSObjPath := pathJoin [fsPath fs; bucket; object] in
                 let* denied :=
                   (if globalWORMEnabled deps then
                      let* st := try (fsStatFile deps fsNSObjPath) in
                      ret (match st with inl _ => true | inr _ => false end)
                    else ret false) in
                 if denied then fail (ObjectAlreadyExists bucket object)
                 else
                   do toErr [bucket; object] (fsRenameFile deps fsTmpObjPath fsNSObjPath) in
                   do (match wlk with
                       | Some lk => toErr [bucket; object] (fsMeta_WriteTo deps fsMeta lk)
                       | None => ret tt
                       end) in
                   let* fi := toErr [bucket; object]
                                (fsStatFile deps (pathJoin [fsPath fs; bucket; object])) in
                   ret (ToObjectInfo deps fsMeta bucket object fi))
        end).

(** PutObject - creates an object upon reading from the input stream
    until EOF, writes data directly to configured filesystem path. *)
Definition PutObject (bucket object : string) (data : Reader)
    (metadata : gmap string string) : M ObjectInfo :=
  do check (fun w => checkPutObjectArgs deps w bucket object (rd_Size data)) in
  do GetLock bucket object in
  defer (Unlock bucket object) (putObject bucket object data metadata).

(** CopyObject - copy object source object to destination object. if
    source object and destination object are same we only update
    metadata.  The goroutine that reads the source into the pipe is run
    to its end before the destination is written; the pipe's reader then
    delivers what was written. *)
Definition CopyObject (srcBucket srcObject dstBucket dstObject : string)
    (srcInfo : ObjectInfo) : M ObjectInfo :=
  let cpSrcDstSame :=
    isStringEqual (pathJoin [srcBucket; srcObject]) (pathJoin [dstBucket; dstObject]) in
  do GetLock dstBucket dstObject in
  defer (Unlock dstBucket dstObject)
    (let withSourceLock (body : M ObjectInfo) : M ObjectInfo :=
       if negb cpSrcDstSame then
         do GetRLock srcBucket srcObject in
         defer (RUnlock srcBucket srcObject) body
       else body in
     withSourceLock
       (do toErr [srcBucket] (statBucketDir srcBucket) in
        if cpSrcDstSame && metadataOnly srcInfo then
          let fsMetaPath := fsMetaPathOf srcBucket srcObject in
          let* wlk := toErr [srcBucket; srcObject] (rwPool_Write deps fsMetaPath) in
          defer (lockedFile_Close wlk)
            (let* fsMeta := toErr [srcBucket; srcObject] (fsMeta_ReadFrom deps wlk) in
             match UserDefined srcInfo with
             | None => panic "assignment to entry in nil map"
             | Some userDefined =>
                 let fsMeta := set_Meta fsMeta (<["etag" := ETag srcInfo]> userDefined) in
                 do toErr [srcBucket; srcObject] (fsMeta_WriteTo deps fsMeta wlk) in
                 let* fi := toErr [srcBucket; srcObject]
                              (fsStatFile deps (pathJoin [fsPath fs; srcBucket; srcObject])) in
                 ret (ToObjectInfo deps fsMeta srcBucket srcObject fi)
             end)
        else
          let* piped := try (getObject srcBucket srcObject 0 (Size srcInfo) GoodWriter
                               (ETag srcInfo) (negb cpSrcDstSame)) in
          let reader :=
            {| rd_Size := oi_ReaderSize srcInfo;
               rd_body := match piped with inl out => out | inr _ => "" end;
               rd_err := None |} in
          toErr [dstBucket; dstObject]
            (putObject dstBucket dstObject reader (userDefinedOf srcInfo)))).

(** DeleteObject - deletes an object from a bucket, this operation is
    destructive and there are no rollbacks supported. *)
Definition DeleteObject (bucket object : string) : M unit :=
  do GetLock bucket object in
  defer (Unlock bucket object)
    (do check (fun _ => checkDelObjArgs deps bucket object) in
     do toErr [bucket] (statBucketDir bucket) in
     let minioMetaBucketDir := pathJoin [fsPath fs; minioMetaBucket] in
     let fsMetaPath :=
       pathJoin [minioMetaBucketDir; bucketMetaPrefix; bucket; object; metaJSONFile fs] in
     let withMetaLock (body : M unit) : M unit :=
       if negb (String.eqb bucket minioMetaBucket) then
         let* lerr := try (rwPool_Write deps fsMetaPath) in
         match lerr with
         | inl rwlk => defer (lockedFile_Close rwlk) body
         | inr e =>
             if decide (e = errFileNotFound) then body
             else fail (toObjectErr deps e [bucket; object])
         end
       else body in
     withMetaLock
       (do toErr [bucket; object]
             (fsDeleteFile deps (pathJoin [fsPath fs; bucket])
                (pathJoin [fsPath fs; bucket; object])) in
        if negb (String.eqb bucket minioMetaBucket) then
          let* err := try (fsDeleteFile deps minioMetaBucketDir fsMetaPath) in
          match err with
          | inr e =>
              if decide (e = errFileNotFound) then ret tt
              else fail (toObjectErr deps e [bucket; object])
          | inl _ => ret tt
          end
        else ret tt)).

(** *** ListObjects *)

(** Convert entry to ObjectInfo, under the read lock of the entry. *)
Definition entryToObjectInfo (bucket entry : string) : M ObjectInfo :=
  do GetRLock bucket entry in
  defer (RUnlock bucket entry) (getObjectInfo bucket entry).

(** How the loop over the walker's channel is left: by a [return], or
    with the object infos gathered, [eof], [nextMarker] and the rest of
    the channel. *)
Inductive LoopExit : Type :=
  | LoopReturn (loi : ListObjectsInfo) (err : option error)
  | LoopDone (objInfos : list ObjectInfo) (eof : bool) (nextMarker : string)
             (walkResultCh : list walkResult).

(** [for i := 0; i < maxKeys; { ... }]: [n] is [maxKeys - i]; the
    channel is the list of results still to come, closed after them. *)
Fixpoint listLoop (n : nat) (bucket prefix : string) (loi : ListObjectsInfo)
    (walkResultCh : list walkResult) (objInfos : list ObjectInfo) (nextMarker : string)
  : M LoopExit :=
  match n with
  | O => ret (LoopDone objInfos false nextMarker walkResultCh)
  | S n' =>
      match walkResultCh with
      | [] => ret (LoopDone objInfos true nextMarker [])
      | walkResult :: ch =>
          match walk_err walkResult with
          | Some e =>
              if decide (e = errFileNotFound) then ret (LoopReturn loi None)
              else ret (LoopReturn loi (Some (toObjectErr deps e [bucket; prefix])))
          | None =>
              let* r := try (entryToObjectInfo bucket (entry walkResult)) in
              match r with
              | inr _ => ret (LoopReturn loi None)
              | inl objInfo =>
                  let nextMarker := Name objInfo in
                  let objInfos := (objInfos ++ [objInfo])%list in
                  if walk_end walkResult then ret (LoopDone objInfos true nextMarker ch)
                  else listLoop n' bucket prefix loi ch objInfos nextMarker
              end
          end
      end
  end.

(** The result page built from the object infos gathered. *)
Fixpoint fillResult (delimiter : string) (objInfos : list ObjectInfo)
    (result : ListObjectsInfo) : ListObjectsInfo :=
  match objInfos with
  | [] => result
  | objInfo :: rest =>
      let result :=
        if IsDir objInfo && String.eqb delimiter slashSeparator then
          {| IsTruncated := IsTruncated result; NextMarker := Name objInfo;
             Objects := Objects result; Prefixes := (Prefixes result ++ [Name objInfo])%list |}
        else
          {| IsTruncated := IsTruncated result; NextMarker := Name objInfo;
             Objects := (Objects result ++ [objInfo])%list; Prefixes := Prefixes result |} in
      fillResult delimiter rest result
  end.

(** The page size the loop runs with: "Over flowing count - reset to
    maxObjectList". *)
Definition effectiveMaxKeys (maxKeys : Z) : Z :=
  if (maxKeys <? 0) || (maxKeys >? maxObjectList) then maxObjectList else maxKeys.

(** ListObjects - list all objects at prefix upto maxKeys, optionally
    delimited by '/'. Maintains the list pool state for future
    re-entrant list requests.  Returns Go's pair [(loi, e)]. *)
Definition ListObjects (bucket prefix marker delimiter : string) (maxKeys : Z)
  : M (ListObjectsInfo * option error) :=
  let loi := emptyListObjectsInfo in
  let* w0 := get in
  match checkListObjsArgs deps w0 bucket prefix marker delimiter with
  | Some err => ret (loi, Some err)
  | None =>
      if negb (String.eqb marker "") && negb (hasPrefix marker prefix)
      then ret (emptyListObjectsInfo, None)
      else
        let* st := try (statBucketDir bucket) in
        match st with
        | inr err => ret (loi, Some err)
        | inl _ =>
            if maxKeys =? 0 then ret (loi, None)
            else if String.eqb delimiter slashSeparator && String.eqb prefix slashSeparator
            then ret (loi, None)
            else
              let maxKeys := effectiveMaxKeys maxKeys in
              let recursive := negb (String.eqb delimiter slashSeparator) in
              let heal := false in
              let* released :=
                listPool_Release (mkListParams bucket recursive marker prefix heal) in
              let* walkResultCh :=
                match released with
                | Some ch => ret ch
                | None =>
                    let* w := get in
                    do modify (log (EvIO (IOTreeWalk bucket prefix marker))) in
                    ret (startTreeWalk deps w bucket prefix marker recursive)
                end in
              let* out := listLoop (Z.to_nat maxKeys) bucket prefix loi walkResultCh [] "" in
              match out with
              | LoopReturn l e => ret (l, e)
              | LoopDone objInfos eof nextMarker ch =>
                  let params := mkListParams bucket recursive nextMarker prefix heal in
                  do (if negb eof then listPool_Set params ch else ret tt) in
                  let result :=
                    {| IsTruncated := negb eof; NextMarker := ""; Objects := []; Prefixes := [] |} in
                  ret (fillResult delimiter objInfos result, None)
              end
        end
  end.

End FSObjectLayer.

(** ** [gateway-gcs.go]: multipart uploads on the GCS gateway *)

Module GCS.

(** The prefix the gateway keeps its own objects under
    ("minio.sys.tmp/multipart/v1/<upload-id>/gcs.json"). *)
Definition GatewayMinioSysTmp : string := "minio.sys.tmp/".

(** Path where multipart objects are saved. *)
Definition gcsMinioMultipartPathV1 : string := GatewayMinioSysTmp +:+ "multipart/v1".

(** Multipart meta file. *)
Definition gcsMinioMultipartMeta : string := "gcs.json".

(** gcs.json version number *)
Definition gcsMinioMultipartMetaCurrentVersion : string := "1".

(** Maximum component object count to create a composite object. *)
Definition gcsMaxComponents : Z := 32.

(** [humanize.MiByte]. *)
Definition MiByte : Z := 1048576.

(** One entry of a [googleapi.Error]. *)
Record ErrorItem := mkErrorItem { Reason : string; Message : string }.

(** The Go errors of the gateway: errors made by [errors.New] or
    [fmt.Errorf] (the sentinels of the storage client among them), the
    client's [googleapi.Error], a failed JSON decoding, and the typed
    object-layer errors. *)
Inductive gerror : Type :=
  | ErrNew (msg : string)
  | GoogleAPIError (errors : list ErrorItem)
  | JSONDecodeError
  | BucketNotFound (bucket : string)
  | ObjectNotFound (bucket object : string)
  | InvalidUploadID (uploadID : string)
  | PrefixAccessDenied (bucket object : string)
  | BucketNameInvalid (bucket : string)
  | BucketAlreadyOwnedByYou (bucket : string)
  | BucketAlreadyExists (bucket : string)
  | BucketNotEmpty (bucket : string)
  | PartTooSmall (PartNumber : Z) (PartSize : Z) (PartETag : string).

Global Instance ErrorItem_eq_dec : EqDecision ErrorItem.
Proof. solve_decision. Defined.
Global Instance gerror_eq_dec : EqDecision gerror.
Proof. solve_decision. Defined.

Definition ErrObjectNotExist : gerror := ErrNew "storage: object doesn't exist".
Definition ErrBucketNotExist : gerror := ErrNew "storage: bucket doesn't exist".

(** Invalid format. *)
Definition errGCSFormat : gerror := ErrNew "Unknown format".

(** Stored in gcs.json. *)
Record gcsMultipartMetaV1 := mkMultipartMeta {
  Version : string;  (* Version number *)
  Bucket : string;   (* Bucket name *)
  Object : string }. (* Object name *)

Record CompletePart := mkCompletePart { PartNumber : Z; ETag : string }.

(** The attributes of an object a writer or composer sets. *)
Record ObjectAttrs := mkAttrs {
  ContentType : string;
  ContentEncoding : string;
  CacheControl : string;
  ContentDisposition : string;
  ContentLanguage : string;
  Metadata : gmap string string }.

(** What an object holds: bytes, or a [gcs.json] (kept parsed). *)
Inductive Content : Type :=
  | Data (bytes : string)
  | MetaJSON (m : gcsMultipartMetaV1).

Record StoredObject := mkStored { attrs : ObjectAttrs; content : Content }.

(** The calls on the storage client. *)
Inductive Call : Type :=
  | CallAttrs (bucket name : string)
  | CallNewReader (bucket name : string)
  | CallCompose (bucket dst : string) (srcs : list string)
  | CallList (bucket prefix : string)
  | CallDelete (bucket name : string).

Global Instance Call_eq_dec : EqDecision Call.
Proof. solve_decision. Defined.

(** The remote store: its objects by bucket and name, and the log of
    the calls made on the client (oldest first). *)
Record Store := mkStore {
  objects : gmap (string * string) StoredObject;
  calls : list Call }.

Definition set_objects (o : gmap (string * string) StoredObject) (s : Store) : Store :=
  {| objects := o; calls := calls s |}.
Definition logCall (c : Call) (s : Store) : Store :=
  {| objects := objects s; calls := (calls s ++ [c])%list |}.

(** What the gateway takes from elsewhere: the [Error()] text of the
    errors that are not made from a message, the etag the object layer
    derives from the CRC of the bytes, and the calls that fail on the
    client's side. *)
Record GDeps := mkGDeps {
  typedErrorString : gerror -> string;
  crcETag : string -> string;
  clientFault : Call -> option gerror }.

Definition G (A : Type) : Type := ST Store gerror A.

(** The JSON text of a [gcs.json] (names are not escaped). *)
Definition quoted (s : string) : string :=
  String (ascii_of_nat 34) s +:+ String (ascii_of_nat 34) EmptyString.

Definition encodeMeta (m : gcsMultipartMetaV1) : string :=
  "{" +:+ quoted "version" +:+ ":" +:+ quoted (Version m) +:+ ","
  +:+ quoted "bucket" +:+ ":" +:+ quoted (Bucket m) +:+ ","
  +:+ quoted "object" +:+ ":" +:+ quoted (Object m) +:+ "}".

Definition bytesOf (c : Content) : string :=
  match c with
  | Data b => b
  | MetaJSON m => encodeMeta m
  end.

Definition sizeOf (o : StoredObject) : Z := Z.of_nat (String.length (bytesOf (content o))).

Fixpoint zeros (n : nat) : string :=
  match n with
  | O => ""
  | S n' => "0" +:+ zeros n'
  end.

(** [fmt.Sprintf("%05d", n)]. *)
Definition fmt05d (n : Z) : string :=
  let digits := pretty (Z.abs_N n) in
  if n <? 0 then "-" +:+ zeros (4 - String.length digits) +:+ digits
  else zeros (5 - String.length digits) +:+ digits.

(** Returns name of the multipart meta object. *)
Definition gcsMultipartMetaName (uploadID : string) : string :=
  gcsMinioMultipartPathV1 +:+ "/" +:+ uploadID +:+ "/" +:+ gcsMinioMultipartMeta.

(** Returns name of the part object. *)
Definition gcsMultipartDataName (uploadID : string) (partNumber : Z) (etag : string) : string :=
  gcsMinioMultipartPathV1 +:+ "/" +:+ uploadID +:+ "/" +:+ fmt05d partNumber +:+ "." +:+ etag.

(** Returns name of the composed object. *)
Definition gcsMultipartComposeName (uploadID : string) (composeNumber : Z) : string :=
  GatewayMinioSysTmp +:+ "/tmp/" +:+ uploadID +:+ "/composed-object-" +:+ fmt05d composeNumber.

Section Gateway.

Context (gdeps : GDeps).

(** [err.Error()]. *)
Definition Error (err : gerror) : string :=
  match err with
  | ErrNew msg => msg
  | _ => typedErrorString gdeps err
  end.

(** Convert Minio errors to minio object layer errors, for [err != nil]. *)
Definition gcsToObjectError (err : gerror) (params : list string) : gerror :=
  let bucket := if decide (1 <= length params)%nat then default "" (params !! 0%nat) else "" in
  let object := if decide (length params = 2%nat) then default "" (params !! 1%nat) else "" in
  let uploadID := if decide (length params = 3%nat) then default "" (params !! 2%nat) else "" in
  if String.eqb (Error err) "storage: bucket doesn't exist" then BucketNotFound bucket
  else if String.eqb (Error err) "storage: object doesn't exist" then
    (if negb (String.eqb uploadID "") then InvalidUploadID uploadID
     else ObjectNotFound bucket object)
  else
    match err with
    | GoogleAPIError [] => err
    | GoogleAPIError (first :: _) =>
        let reason := Reason first in
        let message := Message first in
        if String.eqb reason "required" || String.eqb reason "keyInvalid"
           || String.eqb reason "forbidden"
        then PrefixAccessDenied bucket object
        else if String.eqb reason "invalid" then BucketNameInvalid bucket
        else if String.eqb reason "notFound" then
          (if negb (String.eqb object "") then ObjectNotFound bucket object
           else BucketNotFound bucket)
        else if String.eqb reason "conflict" then
          (if String.eqb message "You already own this bucket. Please select another name."
           then BucketAlreadyOwnedByYou bucket
           else if String.eqb message
                     "Sorry, that name is not available. Please try a different one."
           then BucketAlreadyExists bucket
           else BucketNotEmpty bucket)
        else ErrNew ("Unsupported error reason: " +:+ reason)
    | _ => err
    end.

(** A call on the client: logged, and failed when the client fails. *)
Definition call {A} (c : Call) (body : G A) : G A := fun s =>
  let s1 := logCall c s in
  match clientFault gdeps c with
  | Some e => (Err e, s1)
  | None => body s1
  end.

(** [Bucket(bucket).Object(name).Attrs(ctx)]: the attributes and the size. *)
Definition object_Attrs (bucket name : string) : G (ObjectAttrs * Z) :=
  call (CallAttrs bucket name) (fun s =>
    match objects s !! (bucket, name) with
    | Some o => (Ok (attrs o, sizeOf o), s)
    | None => (Err ErrObjectNotExist, s)
    end).

(** [Object(name).NewReader(ctx)]. *)
Definition object_NewReader (bucket name : string) : G Content :=
  call (CallNewReader bucket name) (fun s =>
    match objects s !! (bucket, name) with
    | Some o => (Ok (content o), s)
    | None => (Err ErrObjectNotExist, s)
    end).

(** [json.NewDecoder(r).Decode(&multipartMeta)]. *)
Definition decodeMultipartMeta (r : Content) : Res gerror gcsMultipartMetaV1 :=
  match r with
  | MetaJSON m => Ok m
  | Data _ => Err JSONDecodeError
  end.

(** The contents of the named objects, in order; [None] if one is missing. *)
Fixpoint gather (s : Store) (bucket : string) (srcs : list string) : option string :=
  match srcs with
  | [] => Some ""
  | n :: rest =>
      match objects s !! (bucket, n), gather s bucket rest with
      | Some o, Some tl => Some (bytesOf (content o) +:+ tl)
      | _, _ => None
      end
  end.

(** [dst.ComposerFrom(srcs...)] with the composer's attributes set, then
    [Run]: between 1 and 32 sources, all present, are concatenated. *)
Definition composer_Run (bucket dst : string) (srcs : list string) (a : ObjectAttrs)
  : G (ObjectAttrs * Z) :=
  call (CallCompose bucket dst srcs) (fun s =>
    if decide (length srcs = 0%nat ∨ (32 < length srcs)%nat)
    then (Err (GoogleAPIError [mkErrorItem "invalid" "components"]), s)
    else
      match gather s bucket srcs with
      | None => (Err (GoogleAPIError [mkErrorItem "notFound" "component"]), s)
      | Some bytes =>
          let o := mkStored a (Data bytes) in
          (Ok (a, sizeOf o), set_objects (<[(bucket, dst) := o]> (objects s)) s)
      end).

(** Checks if minio.sys.tmp/multipart/v1/<upload-id>/gcs.json exists. *)
Definition checkUploadIDExists (bucket key uploadID : string) : G unit :=
  do mapErr (fun err => gcsToObjectError err [bucket; key; uploadID])
       (object_Attrs bucket (gcsMultipartMetaName uploadID)) in
  ret tt.

(** Called by AbortMultipartUpload and CompleteMultipartUpload for
    cleaning up: every object under the upload's prefix is deleted. *)
Definition cleanupMultipartUpload (bucket key uploadID : string) : G unit :=
  let prefix := gcsMinioMultipartPathV1 +:+ "/" +:+ uploadID +:+ "/" in
  mapErr (fun err => gcsToObjectError err [bucket; key])
    (call (CallList bucket prefix) (fun s =>
       (Ok tt, set_objects
                 (filter (fun kv => ¬ (kv.1.1 = bucket ∧ hasPrefix kv.1.2 prefix = true))
                         (objects s)) s))).

(** AbortMultipartUpload aborts a ongoing multipart upload *)
Definition AbortMultipartUpload (bucket key uploadID : string) : G unit :=
  do checkUploadIDExists bucket key uploadID in
  cleanupMultipartUpload bucket key uploadID.

(** The first loop of [CompleteMultipartUpload]: the part objects and
    their sizes. *)
Fixpoint partAttrs (bucket key uploadID : string) (uploadedParts : list CompletePart)
  : G (list string * list Z) :=
  match uploadedParts with
  | [] => ret ([], [])
  | uploadedPart :: rest =>
      let name := gcsMultipartDataName uploadID (PartNumber uploadedPart) (ETag uploadedPart) in
      let* '(_, size) := mapErr (fun pErr => gcsToObjectError pErr [bucket; key; uploadID])
                           (object_Attrs bucket name) in
      let* '(parts, partSizes) := partAttrs bucket key uploadID rest in
      ret (name :: parts, size :: partSizes)
  end.

(** Error out if parts except last part sizing < 5MiB: the loop over
    [partSizes[:len(partSizes)-1]]. *)
Fixpoint checkPartSizes (uploadedParts : list CompletePart) (partSizes : list Z)
  : Res gerror unit :=
  match uploadedParts, partSizes with
  | p :: ps, size :: ((_ :: _) as sizes) =>
      if size <? 5 * MiByte then Err (PartTooSmall (PartNumber p) size (ETag p))
      else checkPartSizes ps sizes
  | _, _ => Ok tt
  end.

(** [parts[start:end]] for the [i]-th compose of 32 parts. *)
Definition composeSlice (parts : list string) (i : nat) : list string :=
  take (Z.to_nat gcsMaxComponents) (drop (i * Z.to_nat gcsMaxComponents) parts).

(** Create composes of every 32 parts: the loop [for i := from; i <
    composeCount; i++], with [n] iterations left. *)
Fixpoint composeTiers (n : nat) (i : nat) (bucket key uploadID : string)
    (parts : list string) (partZeroAttrs : ObjectAttrs) : G (list string) :=
  match n with
  | O => ret []
  | S n' =>
      let composed := gcsMultipartComposeName uploadID (Z.of_nat i) in
      let a := {| ContentType := ContentType partZeroAttrs; ContentEncoding := "";
                  CacheControl := ""; ContentDisposition := ""; ContentLanguage := "";
                  Metadata := Metadata partZeroAttrs |} in
      do mapErr (fun err => gcsToObjectError err [bucket; key])
           (composer_Run bucket composed (composeSlice parts i) a) in
      let* rest := composeTiers n' (S i) bucket key uploadID parts partZeroAttrs in
      ret (composed :: rest)
  end.

(** What [fromGCSAttrsToObjectInfo] returns. *)
Record ObjectInfo := mkObjectInfo {
  oi_Name : string;
  oi_Bucket : string;
  oi_Size : Z;
  oi_ETag : string;
  oi_UserDefined : gmap string string;
  oi_ContentType : string;
  oi_ContentEncoding : string }.

Definition setIfNonEmpty (k v : string) (m : gmap string string) : gmap string string :=
  if String.eqb v "" then m else <[k := v]> m.

(** fromGCSAttrsToObjectInfo converts GCS BucketAttrs to gateway ObjectInfo *)
Definition fromGCSAttrsToObjectInfo (bucket name bytes : string) (a : ObjectAttrs) (size : Z)
  : ObjectInfo :=
  let metadata :=
    setIfNonEmpty "content-language" (ContentLanguage a)
      (setIfNonEmpty "content-disposition" (ContentDisposition a)
         (setIfNonEmpty "cache-control" (CacheControl a)
            (setIfNonEmpty "content-encoding" (ContentEncoding a)
               (setIfNonEmpty "content-type" (ContentType a) (Metadata a))))) in
  {| oi_Name := name; oi_Bucket := bucket; oi_Size := size;
     oi_ETag := crcETag gdeps bytes; oi_UserDefined := metadata;
     oi_ContentType := ContentType a; oi_ContentEncoding := ContentEncoding a |}.

(** CompleteMultipartUpload completes ongoing multipart upload and
    finalizes object. *)
Definition CompleteMultipartUpload (bucket key uploadID : string)
    (uploadedParts : list CompletePart) : G ObjectInfo :=
  let meta := gcsMultipartMetaName uploadID in
  let* '(partZeroAttrs, _) :=
    mapErr (fun err => gcsToObjectError err [bucket; key; uploadID]) (object_Attrs bucket meta) in
  let* r := mapErr (fun err => gcsToObjectError err [bucket; key]) (object_NewReader bucket meta) in
  (* Check version compatibility of the meta file before compose() *)
  let* multipartMeta :=
    mapErr (fun err => gcsToObjectError err [bucket; key]) (lift (decodeMultipartMeta r)) in
  if negb (String.eqb (Version multipartMeta) gcsMinioMultipartMetaCurrentVersion) then
    fail (gcsToObjectError errGCSFormat [bucket; key])
  (* Validate if the gcs.json stores valid entries for the bucket and key. *)
  else if negb (String.eqb (Bucket multipartMeta) bucket)
          || negb (String.eqb (Object multipartMeta) key) then
    fail (gcsToObjectError (InvalidUploadID uploadID) [bucket; key])
  else
    let* '(parts, partSizes) := partAttrs bucket key uploadID uploadedParts in
    match partSizes with
    | [] => panic "slice bounds out of range"
    | _ :: _ =>
        do lift (checkPartSizes uploadedParts partSizes) in
        let composeCount :=
          (Z.of_nat (length parts) + gcsMaxComponents - 1) / gcsMaxComponents in
        let* parts :=
          (if composeCount >? 1 then
             composeTiers (Z.to_nat composeCount) 0 bucket key uploadID parts partZeroAttrs
           else ret parts) in
        let* '(a, size) :=
          mapErr (fun err => gcsToObjectError err [bucket; key])
            (composer_Run bucket key parts partZeroAttrs) in
        let* s := get in
        let bytes := match objects s !! (bucket, key) with
                     | Some o => bytesOf (content o)
                     | None => ""
                     end in
        do mapErr (fun err => gcsToObjectError err [bucket; key])
             (cleanupMultipartUpload bucket key uploadID) in
        ret (fromGCSAttrsToObjectInfo bucket key bytes a size)
    end.

End Gateway.

End GCS.

(** ** The configuration validator *)

Module Config.

(** A JSON value; an object keeps its members in order, repeated keys
    included. *)
Inductive JSON : Type :=
  | JNull
  | JBool (b : bool)
  | JNumber (n : Z)
  | JString (s : string)
  | JArray (items : list JSON)
  | JObject (members : list (string * JSON)).

(** The bytes of a configuration file: not JSON at all, or a value. *)
Inductive Document : Type :=
  | Malformed
  | Parsed (j : JSON).

Inductive ConfigError : Type :=
  | ErrMalformedJSON
  | ErrDuplicateKey
  | ErrVersion
  | ErrBrowser
  | ErrCredential
  | ErrNotify (target id : string).

Record Credential := mkCredential { accessKey : string; secretKey : string }.

Record ServerConfig := mkServerConfig {
  version : string;
  browser : string;
  region : string;
  credential : Credential }.

Definition globalMinioDefaultRegion : string := "us-east-1".

Fixpoint noDuplicateKeys (j : JSON) : bool :=
  match j with
  | JArray items => forallb noDuplicateKeys items
  | JObject members =>
      bool_decide (NoDup (map fst members))
      && forallb (fun kv => noDuplicateKeys (snd kv)) members
  | _ => true
  end.

Fixpoint member (k : string) (members : list (string * JSON)) : option JSON :=
  match members with
  | [] => None
  | (k', v) :: rest => if String.eqb k k' then Some v else member k rest
  end.

(** A member that is a non-empty string. *)
Definition nonEmptyString (k : string) (members : list (string * JSON)) : bool :=
  match member k members with
  | Some (JString s) => negb (String.eqb s "")
  | _ => false
  end.

Definition nonEmptyArray (k : string) (members : list (string * JSON)) : bool :=
  match member k members with
  | Some (JArray (_ :: _)) => true
  | _ => false
  end.

Definition enabled (members : list (string * JSON)) : bool :=
  match member "enable" members with
  | Some (JBool true) => true
  | _ => false
  end.

(** The fields an enabled target of each kind must fill. *)
Definition requiredFields (target : string) (members : list (string * JSON)) : bool :=
  if String.eqb target "amqp" then nonEmptyString "url" members
  else if String.eqb target "nats" then nonEmptyString "address" members
  else if String.eqb target "elasticsearch" then
    nonEmptyString "url" members && nonEmptyString "index" members
  else if String.eqb target "redis" then
    nonEmptyString "address" members && nonEmptyString "key" members
  else if String.eqb target "postgresql" then nonEmptyString "host" members
  else if String.eqb target "mysql" then nonEmptyString "host" members
  else if String.eqb target "kafka" then nonEmptyArray "brokers" members
  else if String.eqb target "webhook" then nonEmptyString "endpoint" members
  else if String.eqb target "mqtt" then
    nonEmptyString "broker" members && nonEmptyString "topic" members
  else if String.eqb target "nsq" then
    nonEmptyString "nsqdAddress" members && nonEmptyString "topic" members
  else true.

Section Validator.

(** The server's current schema version, and the formats a target
    accepts. *)
Context (serverConfigVersion : string) (acceptedFormats : list string).

Definition formatAccepted (members : list (string * JSON)) : bool :=
  match member "format" members with
  | None => true
  | Some (JString f) => bool_decide (f ∈ acceptedFormats)
  | Some _ => false
  end.

(** A target's [Validate()]. *)
Definition validTarget (target : string) (t : JSON) : bool :=
  match t with
  | JObject members =>
      (if enabled members then requiredFields target members else true)
      && formatAccepted members
  | _ => false
  end.

Fixpoint validTargets (target : string) (ids : list (string * JSON)) : option ConfigError :=
  match ids with
  | [] => None
  | (id, t) :: rest =>
      if validTarget target t then validTargets target rest
      else Some (ErrNotify target id)
  end.

Fixpoint validNotify (targets : list (string * JSON)) : option ConfigError :=
  match targets with
  | [] => None
  | (target, JObject ids) :: rest =>
      match validTargets target ids with
      | Some e => Some e
      | None => validNotify rest
      end
  | (target, _) :: rest => Some (ErrNotify target "")
  end.

(** Modelled from the spec: the configuration validator (its code is not
    among the sources; [TestValidateConfig] exercises it).  "Validates a
    JSON document with these rules (evaluated in order; first failure
    wins): 1. Well-formed JSON, no duplicate keys at any level. 2.
    version equals the server's current schema version string. 3.
    browser (if present) in {on, off} - absent defaults on. 4.
    credential.accessKey non-empty; credential.secretKey non-empty.
    Missing credential -> error. 5. region absent -> defaults to
    us-east-1. 6. For every configured notification target, apply that
    target's Validate()". *)
Definition getValidConfig (doc : Document) : ConfigError + ServerConfig :=
  match doc with
  | Malformed => inl ErrMalformedJSON
  | Parsed j =>
      if negb (noDuplicateKeys j) then inl ErrDuplicateKey
      else
        let members := match j with JObject ms => ms | _ => [] end in
        match member "version" members with
        | Some (JString v) =>
            if negb (String.eqb v serverConfigVersion) then inl ErrVersion
            else
              let browserField :=
                match member "browser" members with
                | None => Some "on"
                | Some (JString b) =>
                    if String.eqb b "on" || String.eqb b "off" then Some b else None
                | Some _ => None
                end in
              match browserField with
              | None => inl ErrBrowser
              | Some b =>
                  match member "credential" members with
                  | Some (JObject cred) =>
                      match member "accessKey" cred, member "secretKey" cred with
                      | Some (JString ak), Some (JString sk) =>
                          if String.eqb ak "" || String.eqb sk "" then inl ErrCredential
                          else
                            let r :=
                              match member "region" members with
                              | Some (JString r) => r
                              | _ => globalMinioDefaultRegion
                              end in
                            let notify :=
                              match member "notify" members with
                              | Some (JObject targets) => validNotify targets
                              | _ => None
                              end in
                            match notify with
                            | Some e => inl e
                            | None => inr (mkServerConfig v b r (mkCredential ak sk))
                            end
                      | _, _ => inl ErrCredential
                      end
                  | _ => inl ErrCredential
                  end
              end
        | _ => inl ErrVersion
        end
  end.

End Validator.

End Config.

(** ** A concrete instance

    The collaborators as the spec describes them, a small export tree
    and a small remote store, to run the operations on. *)

Module Demo.

(** Modelled from the spec: [toObjectErr], the single function that maps
    low-level errors to S3 errors ("ENOENT on bucket dir ->
    BucketNotFound; on object -> NoSuchKey", "EACCES/EPERM ->
    AccessDenied", "return BucketAlreadyOwnedByYou on EEXIST", "fails if
    non-empty with BucketNotEmpty"); other errors pass unchanged. *)
Definition toObjectErr_spec (e : error) (params : list string) : error :=
  let bucket := default "" (params !! 0%nat) in
  let object := default "" (params !! 1%nat) in
  match e with
  | errVolumeNotFound => BucketNotFound bucket
  | errVolumeExists => BucketAlreadyOwnedByYou bucket
  | errVolumeNotEmpty => BucketNotEmpty bucket
  | errFileNotFound => ObjectNotFound bucket object
  | errFileAccessDenied => PrefixAccessDenied bucket object
  | _ => e
  end.

Definition isLowerOrDigit (a : ascii) : bool :=
  let n := N_of_ascii a in
  (((97 <=? n) && (n <=? 122)) || ((48 <=? n) && (n <=? 57)))%N.

Fixpoint allChars (f : ascii -> bool) (s : string) : bool :=
  match s with
  | EmptyString => true
  | String a s' => f a && allChars f s'
  end.

(** Modelled from the spec: [IsValidBucketName], "Name must match S3
    rules (3-63 chars, lowercase, DNS-safe, not starting with reserved
    prefixes)": lowercase letters, digits, dots and dashes, between
    letters or digits. *)
Definition IsValidBucketName_spec (bucket : string) : bool :=
  let n := String.length bucket in
  (3 <=? n)%nat && (n <=? 63)%nat
  && allChars (fun a => isLowerOrDigit a || Ascii.eqb a "." || Ascii.eqb a "-") bucket
  && match bucket with
     | String a _ => isLowerOrDigit a
     | EmptyString => false
     end
  && match String.rev bucket with
     | String a _ => isLowerOrDigit a
     | EmptyString => false
     end.

(** Modelled from the spec: [ToObjectInfo], which "composes the on-wire
    ObjectInfo from sidecar + stat"; "Etag is sourced from the sidecar". *)
Definition ToObjectInfo_spec (m : fsMetaV1) (bucket object : string) (fi : FileInfo) : ObjectInfo :=
  {| Bucket := bucket; Name := object;
     Size := if fi_IsDir fi then 0 else fi_Size fi;
     IsDir := fi_IsDir fi;
     ETag := default "" (Meta m !! "etag");
     ContentType := default "" (Meta m !! "content-type");
     UserDefined := Some (delete "etag" (Meta m));
     oi_Parts := Parts m;
     metadataOnly := false;
     oi_ReaderSize := 0 |}.

Definition mimedb (ext : string) : option string :=
  if String.eqb ext "txt" then Some "text/plain"
  else if String.eqb ext "json" then Some "application/json"
  else if String.eqb ext "png" then Some "image/png"
  else None.

Fixpoint markLast (keys : list string) : list walkResult :=
  match keys with
  | [] => []
  | [k] => [mkWalkResult k None true]
  | k :: rest => mkWalkResult k None false :: markLast rest
  end.

(** Modelled from the spec: the tree walker, which "produces keys in
    byte-lexicographic order from a starting marker, honouring prefix",
    [end] set "on the final emission"; here for recursive listings of
    the export [/export]. *)
Definition treeWalk (w : World) (bucket prefix marker : string) (recursive : bool)
  : list walkResult :=
  let root := "/export/" +:+ bucket +:+ "/" in
  let keys :=
    omap (fun kv : string * FileBody =>
            if hasPrefix kv.1 root then Some (GoStrings.TrimPrefix kv.1 root) else None)
         (map_to_list (files w)) in
  let keys := filter (fun k => hasPrefix k prefix = true ∧ String.ltb marker k = true) keys in
  markLast (merge_sort String.le keys).

(** The collaborators, with the faults and the WORM switch to choose. *)
Definition deps (faults : IOCall -> option error) (worm : bool) : Deps :=
  {| toObjectErr := toObjectErr_spec;
     IsValidBucketName := IsValidBucketName_spec;
     checkPutObjectArgs := fun _ _ _ _ => None;
     checkGetObjArgs := fun _ _ => None;
     checkDelObjArgs := fun _ _ => None;
     checkListObjsArgs := fun _ _ _ _ _ => None;
     mimedb_DB := mimedb;
     ToObjectInfo := ToObjectInfo_spec;
     newFSMetaV1 := {| Version := "1.0.1"; Format := "fs"; Meta := ∅; Parts := [] |};
     isFSMetaValid := fun v => String.eqb v "1.0.1";
     extractETag := fun meta => default "" (meta !! "etag");
     isCompressed := fun meta => bool_decide (is_Some (meta !! "X-Minio-Internal-compression"));
     getDecompressedSize := fun oi => Size oi;
     md5hex := fun body => "md5(" +:+ body +:+ ")";
     genETagFrom := fun uuid => uuid +:+ "-1";
     rndString := fun n => "uuid" +:+ pretty n;
     globalWORMEnabled := worm;
     startTreeWalk := treeWalk;
     ioFault := faults |}.

Definition noFaults : IOCall -> option error := fun _ => None.

(** One helper call fails, all others go through. *)
Definition failingAt (c : IOCall) (e : error) : IOCall -> option error :=
  fun c' => if decide (c' = c) then Some e else None.

Definition fs : FSObjects :=
  {| fsPath := "/export"; metaJSONFile := fsMetaJSONFile; fsUUID := "srv" |}.

(** An export with the bucket [b1] holding the object [hello], written
    by the server (its sidecar is there), and nothing locked. *)
Definition world : World :=
  {| files :=
       {[ "/export/b1/hello" := Bytes "hi";
          "/export/b1/docs/a.txt" := Bytes "plain";
          "/export/.minio.sys/buckets/b1/hello/fs.json" :=
            FsJSON {| Version := "1.0.1"; Format := "fs";
                      Meta := {[ "etag" := "md5(hi)" ]}; Parts := [] |} ]};
     dirs := {[ "/export"; "/export/b1"; "/export/b1/docs"; "/export/.minio.sys";
                "/export/.minio.sys/buckets"; "/export/.minio.sys/buckets/b1";
                "/export/.minio.sys/buckets/b1/hello"; "/export/.minio.sys/tmp";
                "/export/.minio.sys/tmp/srv" ]};
     nsLocks := ∅;
     listPool := [];
     rndNext := 0;
     events := [] |}.



End Demo.

(** ** A small remote store

    One pending upload "u1" of object "obj" in bucket "b" with two
    recorded parts of three bytes each, and the same upload with a
    [gcs.json] of another version or of another object. *)

Module GCSDemo.
Import GCS.

Definition typedErrorString_spec (err : gerror) : string :=
  match err with
  | InvalidUploadID uploadID => "Invalid upload id " +:+ uploadID
  | BucketNotFound bucket => "Bucket not found: " +:+ bucket
  | ObjectNotFound bucket object => "Object not found: " +:+ bucket +:+ "#" +:+ object
  | PartTooSmall _ _ _ => "Part size is smaller than the allowed limit"
  | _ => "error"
  end.

Definition gdeps : GDeps :=
  {| typedErrorString := typedErrorString_spec;
     crcETag := fun bytes => "crc(" +:+ bytes +:+ ")";
     clientFault := fun _ => None |}.

Definition noAttrs : ObjectAttrs :=
  {| ContentType := ""; ContentEncoding := ""; CacheControl := "";
     ContentDisposition := ""; ContentLanguage := ""; Metadata := ∅ |}.

Definition uploadedParts : list CompletePart :=
  [ mkCompletePart 1 "e1"; mkCompletePart 2 "e2" ].

Definition storeWith (m : gcsMultipartMetaV1) : Store :=
  {| objects :=
       <[ ("b", gcsMultipartMetaName "u1") := mkStored noAttrs (MetaJSON m) ]>
       (<[ ("b", gcsMultipartDataName "u1" 1 "e1") := mkStored noAttrs (Data "aaa") ]>
       (<[ ("b", gcsMultipartDataName "u1" 2 "e2") := mkStored noAttrs (Data "bbb") ]> ∅));
     calls := [] |}.

Definition store : Store := storeWith (mkMultipartMeta "1" "b" "obj").
Definition storeOtherVersion : Store := storeWith (mkMultipartMeta "2" "b" "obj").
Definition storeOtherObject : Store := storeWith (mkMultipartMeta "1" "b" "other").

End GCSDemo.

(** ** The table of [TestValidateConfig]

    The configuration documents of the test, parsed, each with whether
    the validator is to accept it; [v] is the server's schema version. *)

Module ConfigTest.
Import Config.

Definition str (k v : string) : string * JSON := (k, JString v).
Definition num (k : string) (n : Z) : string * JSON := (k, JNumber n).
Definition flag (k : string) (b : bool) : string * JSON := (k, JBool b).

Definition minioCredential : string * JSON :=
  ("credential", JObject [str "accessKey" "minio"; str "secretKey" "minio123"]).

(** The documents of tests 11 to 28: one target "1" of one kind. *)
Definition withTarget (v target : string) (fields : list (string * JSON)) : Document :=
  Parsed (JObject [ str "version" v; minioCredential; str "region" "us-east-1";
                    str "browser" "on";
                    ("notify", JObject [(target, JObject [("1", JObject fields)])]) ]).

Definition queue : list (string * JSON) := [str "queueDir" ""; num "queueLimit" 0].

Definition sqlFields (dsn format table host port : string) : list (string * JSON) :=
  ([flag "enable" true; str dsn ""]
   ++ (if String.eqb format "" then [] else [str "format" format])
   ++ [str "table" table; str "host" host; str "port" port])%list.

Definition testCases (v : string) : list (Document * bool) :=
  [ (* Test 1 - wrong json *)
    (Malformed, false);
    (* Test 2 - empty json *)
    (Parsed (JObject []), false);
    (* Test 3 - wrong config version *)
    (Parsed (JObject [str "version" "10"]), false);
    (* Test 4 - wrong browser parameter *)
    (Parsed (JObject [str "version" v; str "browser" "foo"]), false);
    (* Test 5 - missing credential *)
    (Parsed (JObject [str "version" v; str "browser" "on"]), false);
    (* Test 6 - missing secret key *)
    (Parsed (JObject [str "version" v; str "browser" "on";
                      ("credential", JObject [str "accessKey" "minio"; str "secretKey" ""])]),
     false);
    (* Test 7 - missing region should pass, defaults to 'us-east-1'. *)
    (Parsed (JObject [str "version" v; str "browser" "on"; minioCredential]), true);
    (* Test 8 - missing browser should pass, defaults to 'on'. *)
    (Parsed (JObject [str "version" v; str "region" "us-east-1"; minioCredential]), true);
    (* Test 9 - success *)
    (Parsed (JObject [str "version" v; str "browser" "on"; str "region" "us-east-1";
                      minioCredential]), true);
    (* Test 10 - duplicated json keys *)
    (Parsed (JObject [str "version" v; str "browser" "on"; str "browser" "on";
                      str "region" "us-east-1"; minioCredential]), false);
    (* Test 11 - Test AMQP *)
    (withTarget v "amqp"
       ([flag "enable" true; str "url" ""; str "exchange" ""; str "routingKey" "";
         str "exchangeType" ""; flag "mandatory" false; flag "immediate" false;
         flag "durable" false; flag "internal" false; flag "noWait" false;
         flag "autoDeleted" false] ++ queue)%list, false);
    (* Test 12 - Test NATS *)
    (withTarget v "nats"
       ([flag "enable" true; str "address" ""; str "subject" ""; str "username" "";
         str "password" ""; str "token" ""; flag "secure" false; num "pingInterval" 0]
        ++ queue
        ++ [("streaming", JObject [flag "enable" false; str "clusterID" "";
                                   flag "async" false; num "maxPubAcksInflight" 0])])%list,
     false);
    (* Test 13 - Test ElasticSearch *)
    (withTarget v "elasticsearch" [flag "enable" true; str "url" ""; str "index" ""], false);
    (* Test 14 - Test Redis *)
    (withTarget v "redis"
       [flag "enable" true; str "address" ""; str "password" ""; str "key" ""], false);
    (* Test 15 - Test PostgreSQL *)
    (withTarget v "postgresql"
       (sqlFields "connectionString" "" "" "" ""
        ++ [str "user" ""; str "password" ""; str "database" ""] ++ queue)%list, false);
    (* Test 16 - Test Kafka *)
    (withTarget v "kafka"
       ([flag "enable" true; ("brokers", JNull); str "topic" ""] ++ queue)%list, false);
    (* Test 17 - Test Webhook *)
    (withTarget v "webhook" ([flag "enable" true; str "endpoint" ""] ++ queue)%list, false);
    (* Test 18 - Test MySQL *)
    (withTarget v "mysql"
       (sqlFields "dsnString" "" "" "" ""
        ++ [str "user" ""; str "password" ""; str "database" ""] ++ queue)%list, false);
    (* Test 19 - Test Format for MySQL *)
    (withTarget v "mysql"
       (sqlFields "dsnString" "invalid" "xxx" "10.0.0.1" "3306"
        ++ [str "user" "abc"; str "password" "pqr"; str "database" "test1"])%list, false);
    (* Test 20 - Test valid Format for MySQL *)
    (withTarget v "mysql"
       (sqlFields "dsnString" "namespace" "xxx" "10.0.0.1" "3306"
        ++ [str "user" "abc"; str "password" "pqr"; str "database" "test1"])%list, true);
    (* Test 21 - Test Format for PostgreSQL *)
    (withTarget v "postgresql"
       (sqlFields "connectionString" "invalid" "xxx" "myhost" "5432"
        ++ [str "user" "abc"; str "password" "pqr"; str "database" "test1"])%list, false);
    (* Test 22 - Test valid Format for PostgreSQL *)
    (withTarget v "postgresql"
       (sqlFields "connectionString" "namespace" "xxx" "myhost" "5432"
        ++ [str "user" "abc"; str "password" "pqr"; str "database" "test1"])%list, true);
    (* Test 23 - Test Format for ElasticSearch *)
    (withTarget v "elasticsearch"
       [flag "enable" true; str "format" "invalid"; str "url" "example.com";
        str "index" "myindex"], false);
    (* Test 24 - Test valid Format for ElasticSearch *)
    (withTarget v "elasticsearch"
       ([flag "enable" true; str "format" "namespace"; str "url" "example.com";
         str "index" "myindex"] ++ queue)%list, true);
    (* Test 25 - Test Format for Redis *)
    (withTarget v "redis"
       ([flag "enable" true; str "format" "invalid"; str "address" "example.com:80";
         str "password" "xxx"; str "key" "key1"] ++ queue)%list, false);
    (* Test 26 - Test valid Format for Redis *)
    (withTarget v "redis"
       [flag "enable" true; str "format" "namespace"; str "address" "example.com:80";
        str "password" "xxx"; str "key" "key1"], true);
    (* Test 27 - Test MQTT *)
    (withTarget v "mqtt"
       ([flag "enable" true; str "broker" ""; str "topic" ""; num "qos" 0;
         str "username" ""; str "password" ""] ++ queue)%list, false);
    (* Test 28 - Test NSQ *)
    (withTarget v "nsq"
       ([flag "enable" true; str "nsqdAddress" ""; str "topic" ""] ++ queue)%list, false) ].

(** The loop of the test: the cases on which the validator's verdict is
    not the expected one, by number. *)
Definition failures (getValidConfig : Document → ConfigError + ServerConfig)
    (cases : list (Document * bool)) : list nat :=
  omap (fun '(i, (doc, shouldPass)) =>
          match getValidConfig doc, shouldPass with
          | inr _, false => Some (S i)
          | inl _, true => Some (S i)
          | _, _ => None
          end)
       (imap (fun i c => (i, c)) cases).

End ConfigTest.

(** * Properties *)

(** ** Listing *)

Section ListingFacts.

Context (deps : Deps) (fs : FSObjects).




(** A [return] from inside the loop hands back the page it was given. *)
Lemma listLoop_return (n : nat) :
  ∀ bucket prefix loi ch objInfos nextMarker w l e w',
    listLoop deps fs n bucket prefix loi ch objInfos nextMarker w
      = (Ok (LoopReturn l e), w') → l = loi.
Proof.
  induction n as [|n IH]; intros bucket prefix loi ch objInfos nextMarker w l e w' H.
  - simpl in H. unfold ret in H. inversion H.
  - simpl in H. destruct ch as [|res ch].
    + unfold ret in H. inversion H.
    + destruct (walk_err res) as [err|].
      * destruct (decide (err = errFileNotFound)); unfold ret in H; inversion H; reflexivity.
      * unfold bind at 1 in H.
        destruct (try (entryToObjectInfo deps fs bucket (entry res)) w) as [[r| |] w1] eqn:E;
          try discriminate.
        destruct r as [objInfo|err].
        -- destruct (walk_end res).
           ++ unfold ret in H. inversion H.
           ++ apply IH in H. exact H.
        -- unfold ret in H. inversion H. reflexivity.
Qed.


Lemma fillResult_length (delimiter : string) (objInfos : list ObjectInfo) :
  ∀ result,
    (length (Objects (fillResult delimiter objInfos result))
     + length (Prefixes (fillResult delimiter objInfos result))
     = length objInfos + length (Objects result) + length (Prefixes result))%nat.
Proof.
  induction objInfos as [|o rest IH]; intros result; simpl; [lia|].
  rewrite IH. destruct (IsDir o && String.eqb delimiter slashSeparator); simpl;
    rewrite length_app; simpl; lia.
Qed.

End ListingFacts.






(** ** What a computation leaves unchanged *)

Definition isLockEvent (e : Event) : bool :=
  match e with
  | EvIO _ => false
  | _ => true
  end.

(** The namespace-lock events of a log, in order. *)
Definition lockEvents (evs : list Event) : list Event := List.filter isLockEvent evs.
Arguments lockEvents : simpl never.

Definition lockLog (w : World) : list Event := lockEvents (events w).

(** The helper calls of a log, in order. *)
Definition ioCalls (evs : list Event) : list IOCall :=
  omap (fun e => match e with EvIO c => Some c | _ => None end) evs.

(** [m] never changes what [f] observes of the state. *)
Definition preserves {A B} (f : World → B) (m : M A) : Prop :=
  ∀ w, f (snd (m w)) = f w.

Section Combinators.

Context {B : Type} (f : World → B).

Lemma preserves_ret {A} (a : A) : preserves f (ret a).
Proof. intros w. reflexivity. Qed.

Lemma preserves_fail {A} (e : error) : preserves f (@fail World error A e).
Proof. intros w. reflexivity. Qed.

Lemma preserves_panic {A} (msg : string) : preserves f (@panic World error A msg).
Proof. intros w. reflexivity. Qed.

Lemma preserves_lift {A} (r : Res error A) : preserves f (lift r).
Proof. intros w. reflexivity. Qed.

Lemma preserves_get : preserves f get.
Proof. intros w. reflexivity. Qed.

Lemma preserves_check (c : World → option error) : preserves f (check c).
Proof. intros w. unfold check. destruct (c w); reflexivity. Qed.

Lemma preserves_bind {A C} (m : M A) (k : A → M C) :
  preserves f m → (∀ a, preserves f (k a)) → preserves f (bind m k).
Proof.
  intros Hm Hk w. unfold bind. specialize (Hm w).
  destruct (m w) as [[a|e|msg] w1]; simpl in *; try assumption.
  rewrite Hk. assumption.
Qed.

Lemma preserves_defer {A C} (d : M C) (body : M A) :
  preserves f d → preserves f body → preserves f (defer d body).
Proof.
  intros Hd Hb w. unfold defer. specialize (Hb w).
  destruct (body w) as [r w1]. simpl in *. rewrite Hd. assumption.
Qed.

Lemma preserves_deferOnErr {A C} (d : M C) (body : M A) :
  preserves f d → preserves f body → preserves f (deferOnErr d body).
Proof.
  intros Hd Hb w. unfold deferOnErr. specialize (Hb w).
  destruct (body w) as [[a|e|msg] w1]; simpl in *; try assumption.
  rewrite Hd. assumption.
Qed.

Lemma preserves_try {A} (m : M A) : preserves f m → preserves f (try m).
Proof.
  intros Hm w. unfold try. specialize (Hm w).
  destruct (m w) as [[a|e|msg] w1]; simpl in *; assumption.
Qed.

Lemma preserves_mapErr {A} (g : error → error) (m : M A) :
  preserves f m → preserves f (mapErr g m).
Proof.
  intros Hm w. unfold mapErr. specialize (Hm w).
  destruct (m w) as [[a|e|msg] w1]; simpl in *; assumption.
Qed.

Lemma preserves_discard {A} (m : M A) : preserves f m → preserves f (discard m).
Proof. intros Hm w. unfold discard. simpl. apply Hm. Qed.

End Combinators.

Create HintDb frames.
Create HintDb helpers.

#[global] Hint Unfold fsStatVolume fsMkdir fsRemoveDir fsRemoveAll fsStatFile fsStatDir
  fsIsFile fsIsDir mkdirAll fsCreateFile fsRemoveFile fsRenameFile fsDeleteFile
  fsRemoveMeta deleteFileIn fsOpenFile readDirN rwPool_Open rwPool_Write rwPool_Create
  rwPool_Close lockedFile_Close fsMeta_ReadFrom fsMeta_WriteTo GetLock GetRLock Unlock
  RUnlock mustGetUUID GenETag listPool_Release listPool_Set deleteBucketMetadata
  io bind ret : helpers.

Lemma lockEvents_io (evs : list Event) (c : IOCall) :
  lockEvents (evs ++ [EvIO c]) = lockEvents evs.
Proof. unfold lockEvents. rewrite List.filter_app. simpl. apply app_nil_r. Qed.

Lemma lockEvents_lock (evs : list Event) (e : Event) :
  isLockEvent e = true → lockEvents (evs ++ [e]) = (lockEvents evs ++ [e])%list.
Proof. intros H. unfold lockEvents. rewrite List.filter_app. simpl. rewrite H. reflexivity. Qed.

Lemma ioCalls_lock (evs : list Event) (e : Event) :
  isLockEvent e = true → ioCalls (evs ++ [e]) = ioCalls evs.
Proof.
  intros H. unfold ioCalls. rewrite omap_app. simpl.
  destruct e; try discriminate; apply app_nil_r.
Qed.

Lemma mkdirAllIn_events (p : string) (w w' : World) :
  mkdirAllIn p w = Some w' → events w' = events w.
Proof. unfold mkdirAllIn. destruct (existsb _ _); intros H; inversion H; reflexivity. Qed.

Lemma mkdirAllIn_files (p : string) (w w' : World) :
  mkdirAllIn p w = Some w' → files w' = files w.
Proof. unfold mkdirAllIn. destruct (existsb _ _); intros H; inversion H; reflexivity. Qed.

Lemma pruneDirs_events (fuel : nat) :
  ∀ base p w, events (pruneDirs fuel base p w) = events w.
Proof.
  induction fuel as [|n IH]; intros base p w; simpl; [reflexivity|].
  destruct (_ || _); [reflexivity|].
  destruct (isDirectory w p); [|reflexivity].
  destruct (childrenOf w p); [|reflexivity]. rewrite IH. reflexivity.
Qed.

Lemma pruneDirs_files (fuel : nat) :
  ∀ base p w, files (pruneDirs fuel base p w) = files w.
Proof.
  induction fuel as [|n IH]; intros base p w; simpl; [reflexivity|].
  destruct (_ || _); [reflexivity|].
  destruct (isDirectory w p); [|reflexivity].
  destruct (childrenOf w p); [|reflexivity]. rewrite IH. reflexivity.
Qed.

(** A helper is unfolded and its cases are run. *)
Ltac prim :=
  intros w; unfold lockLog; autounfold with helpers; cbn;
  repeat (first [ progress cbn
                | rewrite lockEvents_io
                | rewrite pruneDirs_events
                | rewrite pruneDirs_files
                | match goal with
                  | H : mkdirAllIn _ _ = Some _ |- _ =>
                      let H1 := fresh in
                      let H2 := fresh in
                      pose proof (mkdirAllIn_events _ _ _ H) as H1;
                      pose proof (mkdirAllIn_files _ _ _ H) as H2;
                      clear H; cbn in H1, H2
                  | H : events ?a = _ |- context [events ?a] => rewrite H
                  | H : files ?a = _ |- context [files ?a] => rewrite H
                  | |- context [match ?x with _ => _ end] => destruct x eqn:?
                  end ]);
  try reflexivity.

(** One step through the structure of a computation. *)
Ltac frame_step :=
  lazymatch goal with
  | |- preserves _ (bind _ _) => apply preserves_bind; [|intros]
  | |- preserves _ (defer _ _) => apply preserves_defer
  | |- preserves _ (deferOnErr _ _) => apply preserves_deferOnErr
  | |- preserves _ (try _) => apply preserves_try
  | |- preserves _ (mapErr _ _) => apply preserves_mapErr
  | |- preserves _ (toErr _ _ _) => apply preserves_mapErr
  | |- preserves _ (discard _) => apply preserves_discard
  | |- preserves _ (ret _) => apply preserves_ret
  | |- preserves _ (fail _) => apply preserves_fail
  | |- preserves _ (panic _) => apply preserves_panic
  | |- preserves _ (lift _) => apply preserves_lift
  | |- preserves _ get => apply preserves_get
  | |- preserves _ (check _) => apply preserves_check
  | |- preserves _ (if ?b then _ else _) => destruct b
  | |- preserves _ (match ?x with _ => _ end) => destruct x
  | |- preserves _ _ => solve [eauto with frames]
  end.

Ltac frame := cbv beta zeta; repeat (frame_step; cbv beta zeta).

Section HelperFrames.

Context (deps : Deps).

(** No helper of the file system takes or releases a namespace lock. *)
Lemma fsStatVolume_lockLog p : preserves lockLog (fsStatVolume deps p).
Proof. prim. Qed.
Lemma fsStatFile_lockLog p : preserves lockLog (fsStatFile deps p).
Proof. prim. Qed.
Lemma fsStatDir_lockLog p : preserves lockLog (fsStatDir deps p).
Proof. prim. Qed.
Lemma fsIsFile_lockLog p : preserves lockLog (fsIsFile deps p).
Proof. prim. Qed.
Lemma fsIsDir_lockLog p : preserves lockLog (fsIsDir deps p).
Proof. prim. Qed.
Lemma mkdirAll_lockLog p : preserves lockLog (mkdirAll deps p).
Proof. prim. Qed.
Lemma fsCreateFile_lockLog p d : preserves lockLog (fsCreateFile deps p d).
Proof. prim. Qed.
Lemma fsRemoveFile_lockLog p : preserves lockLog (fsRemoveFile deps p).
Proof. prim. Qed.
Lemma fsRenameFile_lockLog p q : preserves lockLog (fsRenameFile deps p q).
Proof. prim. Qed.
Lemma fsRemoveMeta_lockLog b p t : preserves lockLog (fsRemoveMeta deps b p t).
Proof. prim. Qed.
Lemma fsOpenFile_lockLog p o : preserves lockLog (fsOpenFile deps p o).
Proof. prim. Qed.
Lemma rwPool_Open_lockLog p : preserves lockLog (rwPool_Open deps p).
Proof. prim. Qed.
Lemma rwPool_Write_lockLog p : preserves lockLog (rwPool_Write deps p).
Proof. prim. Qed.
Lemma rwPool_Create_lockLog p : preserves lockLog (rwPool_Create deps p).
Proof. prim. Qed.
Lemma rwPool_Close_lockLog p : preserves lockLog (rwPool_Close p).
Proof. prim. Qed.
Lemma lockedFile_Close_lockLog p : preserves lockLog (lockedFile_Close p).
Proof. prim. Qed.
Lemma fsMeta_ReadFrom_lockLog p : preserves lockLog (fsMeta_ReadFrom deps p).
Proof. prim. Qed.
Lemma fsMeta_WriteTo_lockLog m p : preserves lockLog (fsMeta_WriteTo deps m p).
Proof. prim. Qed.
Lemma mustGetUUID_lockLog : preserves lockLog (mustGetUUID deps).
Proof. prim. Qed.

(** The helpers that only read the tree. *)
Lemma fsStatVolume_files p : preserves files (fsStatVolume deps p).
Proof. prim. Qed.
Lemma fsStatFile_files p : preserves files (fsStatFile deps p).
Proof. prim. Qed.
Lemma fsStatDir_files p : preserves files (fsStatDir deps p).
Proof. prim. Qed.
Lemma fsIsFile_files p : preserves files (fsIsFile deps p).
Proof. prim. Qed.
Lemma fsIsDir_files p : preserves files (fsIsDir deps p).
Proof. prim. Qed.
Lemma mkdirAll_files p : preserves files (mkdirAll deps p).
Proof. prim. Qed.
Lemma fsOpenFile_files p o : preserves files (fsOpenFile deps p o).
Proof. prim. Qed.
Lemma readDirN_files p n : preserves files (readDirN deps p n).
Proof. prim. Qed.
Lemma rwPool_Open_files p : preserves files (rwPool_Open deps p).
Proof. prim. Qed.
Lemma rwPool_Write_files p : preserves files (rwPool_Write deps p).
Proof. prim. Qed.
Lemma rwPool_Close_files p : preserves files (rwPool_Close p).
Proof. prim. Qed.
Lemma lockedFile_Close_files p : preserves files (lockedFile_Close p).
Proof. prim. Qed.
Lemma fsMeta_ReadFrom_files p : preserves files (fsMeta_ReadFrom deps p).
Proof. prim. Qed.
Lemma mustGetUUID_files : preserves files (mustGetUUID deps).
Proof. prim. Qed.
Lemma GetLock_files b o : preserves files (GetLock b o).
Proof. prim. Qed.
Lemma GetRLock_files b o : preserves files (GetRLock b o).
Proof. prim. Qed.
Lemma Unlock_files b o : preserves files (Unlock b o).
Proof. prim. Qed.
Lemma RUnlock_files b o : preserves files (RUnlock b o).
Proof. prim. Qed.

End HelperFrames.

#[global] Hint Resolve fsStatVolume_lockLog fsStatFile_lockLog fsStatDir_lockLog
  fsIsFile_lockLog fsIsDir_lockLog mkdirAll_lockLog fsCreateFile_lockLog
  fsRemoveFile_lockLog fsRenameFile_lockLog fsRemoveMeta_lockLog fsOpenFile_lockLog
  rwPool_Open_lockLog rwPool_Write_lockLog rwPool_Create_lockLog rwPool_Close_lockLog
  lockedFile_Close_lockLog fsMeta_ReadFrom_lockLog fsMeta_WriteTo_lockLog
  mustGetUUID_lockLog
  fsStatVolume_files fsStatFile_files fsStatDir_files fsIsFile_files fsIsDir_files
  mkdirAll_files fsOpenFile_files readDirN_files rwPool_Open_files rwPool_Write_files
  rwPool_Close_files lockedFile_Close_files fsMeta_ReadFrom_files mustGetUUID_files
  GetLock_files GetRLock_files Unlock_files RUnlock_files : frames.

(** ** Counting helper calls in the log *)

(** How many logged helper calls satisfy [P]. *)
Definition countIO (P : IOCall → bool) (w : World) : nat :=
  length (List.filter (fun e => match e with EvIO c => P c | _ => false end) (events w)).

(** The calls [putObject] makes after the rename, and the close of the
    sidecar it has opened. *)
Definition isSidecarWrite (c : IOCall) : bool :=
  match c with IOMetaWrite _ => true | _ => false end.
Definition isFileStat (c : IOCall) : bool :=
  match c with IOStatFile _ => true | _ => false end.
Definition isPoolClose (c : IOCall) : bool :=
  match c with IOPoolClose _ => true | _ => false end.

Definition sidecarWrites : World → nat := countIO isSidecarWrite.
Definition fileStats : World → nat := countIO isFileStat.
Definition poolCloses : World → nat := countIO isPoolClose.

Lemma countIO_log_io (P : IOCall → bool) (c : IOCall) (w : World) :
  countIO P (log (EvIO c) w) = (countIO P w + (if P c then 1 else 0))%nat.
Proof.
  unfold countIO. cbn. rewrite List.filter_app, length_app. cbn.
  destruct (P c); reflexivity.
Qed.

Lemma countIO_log_lock (P : IOCall → bool) (e : Event) (w : World) :
  isLockEvent e = true → countIO P (log e w) = countIO P w.
Proof.
  intros He. unfold countIO. cbn. rewrite List.filter_app, length_app.
  destruct e; try discriminate; cbn; lia.
Qed.

Lemma countIO_events (P : IOCall → bool) (w w' : World) :
  events w' = events w → countIO P w' = countIO P w.
Proof. unfold countIO. intros ->. reflexivity. Qed.

Section CallCounts.

Context (deps : Deps) (P : IOCall → bool).

(** A helper that logs the one call [c] and no other. *)
Lemma io_countIO {A} (c : IOCall) (body : M A) :
  P c = false →
  (∀ w, events (snd (body w)) = events w) →
  preserves (countIO P) (io deps c body).
Proof.
  intros Hc Hb w. unfold io. destruct (ioFault deps c); cbn [snd].
  - rewrite countIO_log_io, Hc. lia.
  - rewrite (countIO_events P _ _ (Hb _)). rewrite countIO_log_io, Hc. lia.
Qed.

Ltac body_events :=
  intros ?w; cbn;
  repeat (first [ progress cbn
                | rewrite pruneDirs_events
                | match goal with
                  | |- context [mkdirAllIn ?p ?w0] =>
                      let E := fresh in
                      destruct (mkdirAllIn p w0) eqn:E;
                      [apply mkdirAllIn_events in E; cbn in E|]
                  | H : events ?a = _ |- context [events ?a] => rewrite H
                  | |- context [match ?x with _ => _ end] => destruct x eqn:?
                  end ]);
  try reflexivity.

Lemma fsStatVolume_countIO p :
  P (IOStatVolume p) = false → preserves (countIO P) (fsStatVolume deps p).
Proof. intros H. apply io_countIO; [exact H|body_events]. Qed.
Lemma fsStatFile_countIO p :
  P (IOStatFile p) = false → preserves (countIO P) (fsStatFile deps p).
Proof. intros H. apply io_countIO; [exact H|body_events]. Qed.
Lemma fsStatDir_countIO p :
  P (IOStatDir p) = false → preserves (countIO P) (fsStatDir deps p).
Proof. intros H. apply io_countIO; [exact H|body_events]. Qed.
Lemma fsIsFile_countIO p :
  P (IOIsFile p) = false → preserves (countIO P) (fsIsFile deps p).
Proof.
  intros H w. unfold fsIsFile. destruct (ioFault deps _); cbn [snd];
    rewrite countIO_log_io, H; lia.
Qed.
Lemma mkdirAll_countIO p :
  P (IOMkdirAll p) = false → preserves (countIO P) (mkdirAll deps p).
Proof. intros H. apply io_countIO; [exact H|body_events]. Qed.
Lemma fsCreateFile_countIO p d :
  P (IOCreateFile p) = false → preserves (countIO P) (fsCreateFile deps p d).
Proof. intros H. apply io_countIO; [exact H|body_events]. Qed.
Lemma fsRemoveFile_countIO p :
  P (IORemoveFile p) = false → preserves (countIO P) (fsRemoveFile deps p).
Proof. intros H. apply io_countIO; [exact H|body_events]. Qed.
Lemma fsRenameFile_countIO p q :
  P (IORenameFile p q) = false → preserves (countIO P) (fsRenameFile deps p q).
Proof. intros H. apply io_countIO; [exact H|body_events]. Qed.
Lemma fsRemoveMeta_countIO b p t :
  P (IODeleteFile b p) = false → preserves (countIO P) (fsRemoveMeta deps b p t).
Proof.
  intros H. apply io_countIO; [exact H|]. unfold deleteFileIn. body_events.
Qed.
Lemma rwPool_Create_countIO p :
  P (IOPoolCreate p) = false → preserves (countIO P) (rwPool_Create deps p).
Proof. intros H. apply io_countIO; [exact H|body_events]. Qed.
Lemma lockedFile_Close_countIO p :
  P (IOPoolClose p) = false → preserves (countIO P) (lockedFile_Close p).
Proof.
  intros H w. unfold lockedFile_Close, rwPool_Close. cbn [snd].
  rewrite countIO_log_io, H. lia.
Qed.
Lemma fsMeta_WriteTo_countIO m p :
  P (IOMetaWrite p) = false → preserves (countIO P) (fsMeta_WriteTo deps m p).
Proof. intros H. apply io_countIO; [exact H|body_events]. Qed.
Lemma mustGetUUID_countIO : preserves (countIO P) (mustGetUUID deps).
Proof. intros w. reflexivity. Qed.
Lemma GetLock_countIO b o : preserves (countIO P) (GetLock b o).
Proof.
  intros w. unfold GetLock. destruct (nsLocks w !! (b, o)); cbn [snd];
    rewrite countIO_log_lock by reflexivity; reflexivity.
Qed.
Lemma Unlock_countIO b o : preserves (countIO P) (Unlock b o).
Proof.
  intros w. unfold Unlock. cbn [snd]. rewrite countIO_log_lock by reflexivity. reflexivity.
Qed.

End CallCounts.

Section OperationFrames.

Context (deps : Deps) (fs : FSObjects).

Lemma statBucketDir_lockLog bucket : preserves lockLog (statBucketDir deps fs bucket).
Proof. unfold statBucketDir. frame. Qed.

Lemma statBucketDir_files bucket : preserves files (statBucketDir deps fs bucket).
Proof. unfold statBucketDir. frame. Qed.

Lemma isParentDirObject_lockLog fuel :
  ∀ bucket p, preserves lockLog (isParentDirObject deps fs fuel bucket p).
Proof. induction fuel as [|n IH]; intros bucket p; simpl; frame. Qed.

Lemma isParentDirObject_files fuel :
  ∀ bucket p, preserves files (isParentDirObject deps fs fuel bucket p).
Proof. induction fuel as [|n IH]; intros bucket p; simpl; frame. Qed.

Lemma parentDirIsObject_lockLog bucket p :
  preserves lockLog (parentDirIsObject deps fs bucket p).
Proof. apply isParentDirObject_lockLog. Qed.

Lemma parentDirIsObject_files bucket p :
  preserves files (parentDirIsObject deps fs bucket p).
Proof. apply isParentDirObject_files. Qed.

Hint Resolve statBucketDir_lockLog statBucketDir_files parentDirIsObject_lockLog
  parentDirIsObject_files : frames.

Lemma getObjectETag_lockLog bucket entry lock :
  preserves lockLog (getObjectETag deps fs bucket entry lock).
Proof. unfold getObjectETag. frame. Qed.

Hint Resolve getObjectETag_lockLog : frames.

(** Reading an object takes no namespace lock. *)
Lemma getObject_lockLog bucket object offset length writer etag lock :
  preserves lockLog (getObject deps fs bucket object offset length writer etag lock).
Proof. unfold getObject. frame. Qed.

(** Writing an object takes no namespace lock. *)
Lemma putObject_lockLog bucket object data metadata :
  preserves lockLog (putObject deps fs bucket object data metadata).
Proof. unfold putObject. frame. Qed.

End OperationFrames.

#[global] Hint Resolve statBucketDir_lockLog statBucketDir_files parentDirIsObject_lockLog
  parentDirIsObject_files getObjectETag_lockLog getObject_lockLog putObject_lockLog : frames.

(** ** CopyObject: the order of the namespace locks *)

(** The keys of the locks a log shows as acquired, in order. *)
Definition acquisitions (evs : list Event) : list (string * string) :=
  omap (fun e => match e with
                 | EvLock b o => Some (b, o)
                 | EvRLock b o => Some (b, o)
                 | _ => None
                 end) evs.

(** The [srcInfo] of a plain copy of a two-byte object. *)
Definition copyInfo : ObjectInfo :=
  {| Bucket := "b1"; Name := ""; Size := 2; IsDir := false; ETag := ""; ContentType := "";
     UserDefined := Some ∅; oi_Parts := []; metadataOnly := false; oi_ReaderSize := 2 |}.

(** C3 (as amended). A CopyObject call whose source and destination
    differ takes the write lock of the destination first and the read
    lock of the source second: the lock events of the call are the
    timeout on the destination; or the destination's write lock, the
    timeout on the source and the unlock; or the destination's write
    lock, the source's read lock and the two unlocks, in this order. *)
Theorem CopyObject_locks_destination_first (deps : Deps) (fs : FSObjects)
    (srcBucket srcObject dstBucket dstObject : string) (srcInfo : ObjectInfo) (w : World) :
  pathJoin [srcBucket; srcObject] ≠ pathJoin [dstBucket; dstObject] →
  lockLog (snd (CopyObject deps fs srcBucket srcObject dstBucket dstObject srcInfo w))
  = (lockLog w ++
     match nsLocks w !! (dstBucket, dstObject), nsLocks w !! (srcBucket, srcObject) with
     | Some _, _ => [EvLockTimeout dstBucket dstObject]
     | None, Some WriteLocked =>
         [EvLock dstBucket dstObject; EvLockTimeout srcBucket srcObject;
          EvUnlock dstBucket dstObject]
     | None, _ =>
         [EvLock dstBucket dstObject; EvRLock srcBucket srcObject;
          EvRUnlock srcBucket srcObject; EvUnlock dstBucket dstObject]
     end)%list.
Proof.
  intros Hne.
  assert (Hkey : (dstBucket, dstObject) ≠ (srcBucket, srcObject)) by congruence.
  unfold CopyObject. unfold isStringEqual.
  apply String.eqb_neq in Hne. rewrite Hne. cbv beta zeta. simpl negb. cbv iota.
  match goal with
  | |- context [defer (RUnlock srcBucket srcObject) ?b] => set (body := b)
  end.
  assert (Hbody : preserves lockLog body) by (subst body; frame).
  clearbody body.
  unfold bind at 1. unfold GetLock at 1.
  destruct (nsLocks w !! (dstBucket, dstObject)) as [l|] eqn:Ed.
  { unfold lockLog. simpl. apply lockEvents_lock. reflexivity. }
  unfold defer at 1. unfold bind at 1. unfold GetRLock at 1. cbn [nsLocks set_nsLocks log].
  rewrite lookup_insert_ne by exact Hkey.
  destruct (nsLocks w !! (srcBucket, srcObject)) as [[|n]|] eqn:Es.
  - unfold lockLog. simpl. rewrite !lockEvents_lock by reflexivity.
    rewrite <- !app_assoc. reflexivity.
  - unfold defer.
    match goal with
    | |- context [body ?w1] => pose proof (Hbody w1) as Hb; destruct (body w1) as [r w2]
    end.
    unfold lockLog in *. simpl in *. rewrite !lockEvents_lock by reflexivity.
    rewrite Hb. rewrite !lockEvents_lock by reflexivity.
    rewrite <- !app_assoc. reflexivity.
  - unfold defer.
    match goal with
    | |- context [body ?w1] => pose proof (Hbody w1) as Hb; destruct (body w1) as [r w2]
    end.
    unfold lockLog in *. simpl in *. rewrite !lockEvents_lock by reflexivity.
    rewrite Hb. rewrite !lockEvents_lock by reflexivity.
    rewrite <- !app_assoc. reflexivity.
Qed.

Lemma CopyObject_locks_destination_first_witness :
  lockLog (snd (CopyObject (Demo.deps Demo.noFaults false) Demo.fs
                  "b1" "hello" "b1" "copy" copyInfo Demo.world))
  = [EvLock "b1" "copy"; EvRLock "b1" "hello"; EvRUnlock "b1" "hello"; EvUnlock "b1" "copy"].
Proof.
  rewrite CopyObject_locks_destination_first by (vm_compute; discriminate).
  reflexivity.
Defined.

(** C3, as stated, fails: the copy of [hello] to [copy] acquires the key
    of [copy] and then that of [hello], the copy of [copy] to [hello]
    acquires them the other way round, so no order on the keys has every
    copy acquire its locks in increasing order. *)
Lemma CopyObject_swapped_endpoints_opposite_orders :
  acquisitions (events (snd (CopyObject (Demo.deps Demo.noFaults false) Demo.fs
                               "b1" "hello" "b1" "copy" copyInfo Demo.world)))
  = [("b1", "copy"); ("b1", "hello")]
  ∧ acquisitions (events (snd (CopyObject (Demo.deps Demo.noFaults false) Demo.fs
                                 "b1" "copy" "b1" "hello" copyInfo Demo.world)))
    = [("b1", "hello"); ("b1", "copy")]
  ∧ ¬ ∃ before : string * string → string * string → Prop,
        (∀ a b, before a b → ¬ before b a)
        ∧ ∀ srcBucket srcObject dstBucket dstObject,
            pathJoin [srcBucket; srcObject] ≠ pathJoin [dstBucket; dstObject] →
            Sorted before
              (acquisitions (events (snd (CopyObject (Demo.deps Demo.noFaults false) Demo.fs
                  srcBucket srcObject dstBucket dstObject copyInfo Demo.world)))).
Proof.
  assert (E1 : acquisitions (events (snd (CopyObject (Demo.deps Demo.noFaults false) Demo.fs
                               "b1" "hello" "b1" "copy" copyInfo Demo.world)))
               = [("b1", "copy"); ("b1", "hello")]) by (vm_compute; reflexivity).
  assert (E2 : acquisitions (events (snd (CopyObject (Demo.deps Demo.noFaults false) Demo.fs
                               "b1" "copy" "b1" "hello" copyInfo Demo.world)))
               = [("b1", "hello"); ("b1", "copy")]) by (vm_compute; reflexivity).
  split; [exact E1|]. split; [exact E2|].
  intros (before & Hasym & Hsorted).
  pose proof (Hsorted "b1" "hello" "b1" "copy") as H1.
  pose proof (Hsorted "b1" "copy" "b1" "hello") as H2.
  specialize (H1 ltac:(vm_compute; discriminate)).
  specialize (H2 ltac:(vm_compute; discriminate)).
  rewrite E1 in H1. rewrite E2 in H2.
  inversion H1 as [|? ? _ Hd1]; subst. inversion Hd1; subst.
  inversion H2 as [|? ? _ Hd2]; subst. inversion Hd2; subst.
  eapply Hasym; eassumption.
Qed.

(** ** The bucket names [getBucketDir] refuses *)

Definition reservedBucket (bucket : string) : Prop :=
  bucket = "" ∨ bucket = "." ∨ bucket = "..".

(** [m], run from [w], fails with [e] and has made no helper call: the
    tree is as it was. *)
Definition rejects {A} (m : M A) (e : error) (w : World) : Prop :=
  fst (m w) = Err e
  ∧ files (snd (m w)) = files w
  ∧ dirs (snd (m w)) = dirs w
  ∧ ioCalls (events (snd (m w))) = ioCalls (events w).

Lemma getBucketDir_reserved (fs : FSObjects) (bucket : string) :
  reservedBucket bucket → getBucketDir fs bucket = Err errVolumeNotFound.
Proof. intros [-> | [-> | ->]]; reflexivity. Qed.

Section ReservedBuckets.

Context (deps : Deps) (fs : FSObjects).

Ltac lock_events := repeat (rewrite ioCalls_lock by reflexivity).

Ltac reject_with Hb :=
  unfold rejects, bind, defer, toErr, mapErr, statBucketDir, lift, check;
  rewrite ?(getBucketDir_reserved fs _ Hb);
  unfold GetLock, GetRLock, Unlock, RUnlock.

Lemma GetBucketInfo_reserved bucket w :
  reservedBucket bucket → nsLocks w !! (bucket, "") ≠ Some WriteLocked →
  rejects (GetBucketInfo deps fs bucket) (toObjectErr deps errVolumeNotFound [bucket]) w.
Proof.
  intros Hb Hl. unfold GetBucketInfo. reject_with Hb.
  destruct (nsLocks w !! (bucket, "")) as [[|n]|] eqn:E; [congruence| |]; simpl;
    lock_events; auto.
Qed.

Lemma DeleteBucket_reserved bucket w :
  reservedBucket bucket → nsLocks w !! (bucket, "") = None →
  rejects (DeleteBucket deps fs bucket) (toObjectErr deps errVolumeNotFound [bucket]) w.
Proof.
  intros Hb Hl. unfold DeleteBucket. reject_with Hb. rewrite Hl. simpl. lock_events. auto.
Qed.

Lemma MakeBucketWithLocation_reserved bucket location w :
  reservedBucket bucket → nsLocks w !! (bucket, "") = None →
  rejects (MakeBucketWithLocation deps fs bucket location)
    (if IsValidBucketName deps bucket then toObjectErr deps errVolumeNotFound [bucket]
     else BucketNameInvalid bucket) w.
Proof.
  intros Hb Hl. unfold MakeBucketWithLocation. reject_with Hb. rewrite Hl.
  destruct (IsValidBucketName deps bucket); simpl; lock_events; auto.
Qed.

Lemma PutObject_reserved bucket object data metadata w :
  reservedBucket bucket →
  checkPutObjectArgs deps w bucket object (rd_Size data) = None →
  nsLocks w !! (bucket, object) = None →
  rejects (PutObject deps fs bucket object data metadata)
    (toObjectErr deps errVolumeNotFound [bucket]) w.
Proof.
  intros Hb Hc Hl. unfold PutObject, putObject. reject_with Hb. rewrite Hc, Hl.
  simpl. lock_events. auto.
Qed.

Lemma GetObject_reserved bucket object offset length writer etag objInfo w :
  reservedBucket bucket →
  checkGetObjArgs deps bucket object = None →
  nsLocks w !! (bucket, object) ≠ Some WriteLocked →
  isCompressed deps (userDefinedOf objInfo) = false →
  rejects (GetObject deps fs bucket object offset length writer etag objInfo)
    (toObjectErr deps errVolumeNotFound [bucket]) w.
Proof.
  intros Hb Hc Hl Hz. unfold GetObject, getObject. reject_with Hb. rewrite Hc, Hz.
  destruct (nsLocks w !! (bucket, object)) as [[|n]|] eqn:E; [congruence| |]; simpl;
    lock_events; auto.
Qed.

Lemma GetObjectInfo_reserved bucket object w :
  reservedBucket bucket →
  checkGetObjArgs deps bucket object = None →
  nsLocks w !! (bucket, object) ≠ Some WriteLocked →
  toObjectErr deps errVolumeNotFound [bucket] ≠ errCorruptedFormat →
  toObjectErr deps errVolumeNotFound [bucket] ≠ io_EOF →
  rejects (GetObjectInfo deps fs bucket object)
    (toObjectErr deps (toObjectErr deps errVolumeNotFound [bucket]) [bucket; object]) w.
Proof.
  intros Hb Hc Hl H1 H2. unfold GetObjectInfo, getObjectInfoWithLock. unfold try.
  reject_with Hb. rewrite Hc.
  destruct (nsLocks w !! (bucket, object)) as [[|n]|] eqn:E; [congruence| |]; simpl;
    (destruct (decide _) as [[?|?]|?]; [congruence|congruence|]); simpl; lock_events; auto.
Qed.

Lemma DeleteObject_reserved bucket object w :
  reservedBucket bucket →
  checkDelObjArgs deps bucket object = None →
  nsLocks w !! (bucket, object) = None →
  rejects (DeleteObject deps fs bucket object) (toObjectErr deps errVolumeNotFound [bucket]) w.
Proof.
  intros Hb Hc Hl. unfold DeleteObject. reject_with Hb. rewrite Hc, Hl.
  simpl. lock_events. auto.
Qed.

Lemma ListObjects_reserved bucket prefix marker delimiter maxKeys w :
  reservedBucket bucket →
  checkListObjsArgs deps w bucket prefix marker delimiter = None →
  marker = "" ∨ hasPrefix marker prefix = true →
  ListObjects deps fs bucket prefix marker delimiter maxKeys w
  = (Ok (emptyListObjectsInfo, Some errVolumeNotFound), w).
Proof.
  intros Hb Hc Hm. unfold ListObjects. unfold bind at 1. simpl. rewrite Hc.
  assert ((negb (String.eqb marker "") && negb (hasPrefix marker prefix)) = false) as ->.
  { destruct Hm as [-> | ->]; [reflexivity|]. apply andb_false_r. }
  unfold bind, try, statBucketDir, lift. rewrite (getBucketDir_reserved fs _ Hb). reflexivity.
Qed.

End ReservedBuckets.

(** C9 (as amended). [getBucketDir] refuses the bucket names "", "." and
    ".." with [errVolumeNotFound] before it joins any path.  Every
    operation that reaches it with such a name - its namespace lock
    acquired, its own argument check passed - fails with that error, as
    [toObjectErr] maps it (unmapped in ListObjects, mapped twice in
    GetObjectInfo), without a helper call: the tree is untouched.
    MakeBucketWithLocation validates the name first and fails with
    BucketNameInvalid for a name its validator rejects; GetObject reaches
    the check only when the object info it is given is not marked
    compressed, ListObjects only when the marker is empty or has the
    prefix. *)
Theorem reserved_bucket_rejected (deps : Deps) (fs : FSObjects) (bucket : string) :
  reservedBucket bucket →
  getBucketDir fs bucket = Err errVolumeNotFound
  ∧ (∀ w, nsLocks w !! (bucket, "") ≠ Some WriteLocked →
       rejects (GetBucketInfo deps fs bucket) (toObjectErr deps errVolumeNotFound [bucket]) w)
  ∧ (∀ w, nsLocks w !! (bucket, "") = None →
       rejects (DeleteBucket deps fs bucket) (toObjectErr deps errVolumeNotFound [bucket]) w)
  ∧ (∀ w location, nsLocks w !! (bucket, "") = None →
       rejects (MakeBucketWithLocation deps fs bucket location)
         (if IsValidBucketName deps bucket then toObjectErr deps errVolumeNotFound [bucket]
          else BucketNameInvalid bucket) w)
  ∧ (∀ w object data metadata,
       checkPutObjectArgs deps w bucket object (rd_Size data) = None →
       nsLocks w !! (bucket, object) = None →
       rejects (PutObject deps fs bucket object data metadata)
         (toObjectErr deps errVolumeNotFound [bucket]) w)
  ∧ (∀ w object offset length writer etag objInfo,
       checkGetObjArgs deps bucket object = None →
       nsLocks w !! (bucket, object) ≠ Some WriteLocked →
       isCompressed deps (userDefinedOf objInfo) = false →
       rejects (GetObject deps fs bucket object offset length writer etag objInfo)
         (toObjectErr deps errVolumeNotFound [bucket]) w)
  ∧ (∀ w object,
       checkGetObjArgs deps bucket object = None →
       nsLocks w !! (bucket, object) ≠ Some WriteLocked →
       toObjectErr deps errVolumeNotFound [bucket] ≠ errCorruptedFormat →
       toObjectErr deps errVolumeNotFound [bucket] ≠ io_EOF →
       rejects (GetObjectInfo deps fs bucket object)
         (toObjectErr deps (toObjectErr deps errVolumeNotFound [bucket]) [bucket; object]) w)
  ∧ (∀ w object,
       checkDelObjArgs deps bucket object = None →
       nsLocks w !! (bucket, object) = None →
       rejects (DeleteObject deps fs bucket object)
         (toObjectErr deps errVolumeNotFound [bucket]) w)
  ∧ (∀ w prefix marker delimiter maxKeys,
       checkListObjsArgs deps w bucket prefix marker delimiter = None →
       marker = "" ∨ hasPrefix marker prefix = true →
       ListObjects deps fs bucket prefix marker delimiter maxKeys w
       = (Ok (emptyListObjectsInfo, Some errVolumeNotFound), w)).
Proof.
  intros Hb.
  split; [apply getBucketDir_reserved; assumption|].
  split; [intros; apply GetBucketInfo_reserved; assumption|].
  split; [intros; apply DeleteBucket_reserved; assumption|].
  split; [intros; apply MakeBucketWithLocation_reserved; assumption|].
  split; [intros; apply PutObject_reserved; assumption|].
  split; [intros; apply GetObject_reserved; assumption|].
  split; [intros; apply GetObjectInfo_reserved; assumption|].
  split; [intros; apply DeleteObject_reserved; assumption|].
  intros; apply ListObjects_reserved; assumption.
Qed.

(** On the demo export: [getBucketDir] refuses "..", and GetBucketInfo
    and PutObject on ".." fail with BucketNotFound without touching the
    tree. *)
Lemma reserved_bucket_rejected_witness :
  getBucketDir Demo.fs ".." = Err errVolumeNotFound
  ∧ rejects (GetBucketInfo (Demo.deps Demo.noFaults false) Demo.fs "..")
      (BucketNotFound "..") Demo.world
  ∧ rejects (PutObject (Demo.deps Demo.noFaults false) Demo.fs ".." "x"
               (mkReader 2 "hi" None) ∅)
      (BucketNotFound "..") Demo.world.
Proof.
  destruct (reserved_bucket_rejected (Demo.deps Demo.noFaults false) Demo.fs ".."
              (or_intror (or_intror eq_refl)))
    as (Hdir & Hinfo & _ & _ & Hput & _).
  split; [exact Hdir|]. split.
  - apply (Hinfo Demo.world). vm_compute. discriminate.
  - apply (Hput Demo.world "x" (mkReader 2 "hi" None) ∅); reflexivity.
Defined.

(** C9, as stated, fails for MakeBucketWithLocation: the bucket name is
    validated before [getBucketDir] is reached, so the empty name is
    refused with BucketNameInvalid, which is neither [errVolumeNotFound]
    nor what [toObjectErr] makes of it. *)
Lemma MakeBucketWithLocation_empty_name_is_BucketNameInvalid :
  fst (MakeBucketWithLocation (Demo.deps Demo.noFaults false) Demo.fs "" "us-east-1"
         Demo.world) = Err (BucketNameInvalid "")
  ∧ BucketNameInvalid "" ≠ errVolumeNotFound
  ∧ BucketNameInvalid "" ≠ toObjectErr (Demo.deps Demo.noFaults false) errVolumeNotFound [""].
Proof.
  split; [vm_compute; reflexivity|]. split; [discriminate|]. vm_compute. discriminate.
Qed.

(** ** Completing a multipart upload on the GCS gateway *)

Section GatewayFacts.

Import GCS.
Context (gdeps : GDeps).

(** The composer runs among the calls made on the client. *)
Definition isCompose (c : Call) : bool :=
  match c with CallCompose _ _ _ => true | _ => false end.
Definition composeCalls (cs : list Call) : list Call := List.filter isCompose cs.
Arguments composeCalls : simpl never.

Lemma composeCalls_log (cs : list Call) (c : Call) :
  isCompose c = false → composeCalls (cs ++ [c]) = composeCalls cs.
Proof. intros H. unfold composeCalls. rewrite List.filter_app. simpl. rewrite H. apply app_nil_r. Qed.

(** What is stored for a part, and how large. *)
Definition storedSize (s : Store) (bucket uploadID : string) (p : CompletePart) (size : Z) : Prop :=
  ∃ o, objects s !! (bucket, gcsMultipartDataName uploadID (PartNumber p) (ETag p)) = Some o
       ∧ sizeOf o = size.


Lemma object_Attrs_inv bucket name s r s' :
  object_Attrs gdeps bucket name s = (r, s') →
  s' = logCall (CallAttrs bucket name) s
  ∧ ∀ a size, r = Ok (a, size) →
      ∃ o, objects s !! (bucket, name) = Some o ∧ a = attrs o ∧ size = sizeOf o.
Proof.
  unfold object_Attrs, call. destruct (clientFault gdeps _).
  - intros H; inversion H; subst. split; [reflexivity|]. intros; discriminate.
  - simpl. destruct (objects s !! (bucket, name)) as [o|] eqn:E; intros H; inversion H; subst.
    + split; [reflexivity|]. intros a size Ha. inversion Ha; subst. eauto.
    + split; [reflexivity|]. intros; discriminate.
Qed.

Lemma partAttrs_inv bucket key uploadID (uploadedParts : list CompletePart) :
  ∀ s r s', partAttrs gdeps bucket key uploadID uploadedParts s = (r, s') →
    objects s' = objects s
    ∧ composeCalls (calls s') = composeCalls (calls s)
    ∧ (∀ msg, r ≠ Panic msg)
    ∧ ∀ parts partSizes, r = Ok (parts, partSizes) →
        Forall2 (storedSize s bucket uploadID) uploadedParts partSizes.
Proof.
  induction uploadedParts as [|p rest IH]; intros s r s' H.
  - simpl in H. unfold ret in H. inversion H; subst.
    repeat split; try discriminate. intros ? ? Hr. inversion Hr. constructor.
  - simpl in H. unfold bind at 1 in H.
    destruct (mapErr _ (object_Attrs gdeps bucket _) s) as [[[a size]|e|msg] s1] eqn:E1.
    + unfold mapErr in E1.
      destruct (object_Attrs gdeps bucket _ s) as [[[a' size']|e'|msg'] s1'] eqn:E1'; try discriminate.
      inversion E1; subst. apply object_Attrs_inv in E1' as (-> & Hst).
      destruct (Hst _ _ eq_refl) as (o & Ho & -> & ->).
      unfold bind at 1 in H.
      destruct (partAttrs gdeps bucket key uploadID rest _) as [[[ps szs]|e|msg] s2] eqn:E2.
      * apply IH in E2 as (Hobj & Hcc & _ & Hall). simpl in Hobj, Hcc.
        unfold ret in H. inversion H; subst. rewrite composeCalls_log in Hcc by reflexivity.
        repeat split; try assumption; try discriminate.
        intros ? ? Hr. inversion Hr; subst. constructor.
        -- exists o. split; [assumption|reflexivity].
        -- specialize (Hall _ _ eq_refl). eapply Forall2_impl; [exact Hall|].
           intros q sz (o' & Ho' & Hs'). exists o'. split; assumption.
      * apply IH in E2 as (Hobj & Hcc & _ & Hall). simpl in Hobj, Hcc.
        inversion H; subst. rewrite composeCalls_log in Hcc by reflexivity.
        repeat split; try assumption; try discriminate.
      * apply IH in E2 as (Hobj & Hcc & Hnp & Hall). exfalso. eapply Hnp. reflexivity.
    + unfold mapErr in E1.
      destruct (object_Attrs gdeps bucket _ s) as [[[a' size']|e'|msg'] s1'] eqn:E1'; try discriminate.
      inversion E1; subst. apply object_Attrs_inv in E1' as (-> & Hst).
      inversion H; subst. simpl. rewrite composeCalls_log by reflexivity.
      repeat split; try discriminate.
    + unfold mapErr in E1.
      destruct (object_Attrs gdeps bucket _ s) as [[[a' size']|e'|msg'] s1'] eqn:E1'; try discriminate.
      unfold object_Attrs, call in E1'. destruct (clientFault gdeps _); [discriminate|].
      simpl in E1'. destruct (objects s !! _); discriminate.
Qed.

(** A part other than the last. *)
Definition notLast (p : CompletePart) (uploadedParts : list CompletePart) : Prop :=
  ∃ before after, uploadedParts = (before ++ p :: after)%list ∧ after ≠ [].

Lemma checkPartSizes_small (R : CompletePart → Z → Prop) (uploadedParts : list CompletePart) :
  ∀ partSizes,
    Forall2 R uploadedParts partSizes →
    (∃ p size, notLast p uploadedParts ∧ R p size ∧ size < 5 * MiByte) →
    (∀ p s1 s2, R p s1 → R p s2 → s1 = s2) →
    ∃ p size, notLast p uploadedParts ∧ R p size ∧ size < 5 * MiByte
              ∧ checkPartSizes uploadedParts partSizes
                = Err (PartTooSmall (PartNumber p) size (ETag p)).
Proof.
  induction uploadedParts as [|q rest IH]; intros partSizes Hall (p & size & (pre & post & Heq & Hpost) & HR & Hsmall) Hfun.
  - destruct pre; discriminate.
  - inversion Hall as [|? sz ? szs HRq Hrest]; subst.
    destruct rest as [|q' rest'].
    { destruct pre as [|? pre]; simpl in Heq; inversion Heq; subst; [congruence|].
      destruct pre; discriminate. }
    inversion Hrest as [|? sz' ? szs' HRq' Hrest']; subst.
    cbn [checkPartSizes].
    destruct (sz <? 5 * MiByte) eqn:Es.
    + exists q, sz. split; [exists [], (q' :: rest'); split; [reflexivity|discriminate]|].
      split; [assumption|]. split; [lia|reflexivity].
    + destruct pre as [|q0 pre]; simpl in Heq; inversion Heq; subst.
      { rewrite (Hfun _ _ _ HR HRq) in Hsmall. lia. }
      destruct (IH (sz' :: szs') Hrest) as (p1 & size1 & (pre1 & post1 & Heq1 & Hpost1) & HR1 & Hs1 & Hc1).
      { exists p, size. split; [exists pre, post; split; [assumption|assumption]|]. split; assumption. }
      { exact Hfun. }
      exists p1, size1. split.
      { exists (q0 :: pre1), post1. split; [simpl; rewrite Heq1; reflexivity|assumption]. }
      split; [assumption|]. split; [assumption|exact Hc1].
Qed.

Lemma gcsToObjectError_format (params : list string) :
  gcsToObjectError gdeps errGCSFormat params = errGCSFormat.
Proof. reflexivity. Qed.

Lemma gcsToObjectError_InvalidUploadID (uploadID : string) (params : list string) :
  Error gdeps (InvalidUploadID uploadID) ≠ "storage: bucket doesn't exist" →
  Error gdeps (InvalidUploadID uploadID) ≠ "storage: object doesn't exist" →
  gcsToObjectError gdeps (InvalidUploadID uploadID) params = InvalidUploadID uploadID.
Proof.
  intros H1 H2. unfold gcsToObjectError.
  apply String.eqb_neq in H1. apply String.eqb_neq in H2. rewrite H1, H2. reflexivity.
Qed.

(** The first three steps of [CompleteMultipartUpload] on a sidecar that
    is there and decodes. *)
Lemma sidecar_read bucket key uploadID s o m :
  objects s !! (bucket, gcsMultipartMetaName uploadID) = Some o →
  content o = MetaJSON m →
  clientFault gdeps (CallAttrs bucket (gcsMultipartMetaName uploadID)) = None →
  clientFault gdeps (CallNewReader bucket (gcsMultipartMetaName uploadID)) = None →
  let s2 := logCall (CallNewReader bucket (gcsMultipartMetaName uploadID))
              (logCall (CallAttrs bucket (gcsMultipartMetaName uploadID)) s) in
  mapErr (fun err => gcsToObjectError gdeps err [bucket; key; uploadID])
    (object_Attrs gdeps bucket (gcsMultipartMetaName uploadID)) s
  = (Ok (attrs o, sizeOf o), logCall (CallAttrs bucket (gcsMultipartMetaName uploadID)) s)
  ∧ mapErr (fun err => gcsToObjectError gdeps err [bucket; key])
      (object_NewReader gdeps bucket (gcsMultipartMetaName uploadID))
      (logCall (CallAttrs bucket (gcsMultipartMetaName uploadID)) s)
    = (Ok (MetaJSON m), s2).
Proof.
  intros Ho Hc Hf1 Hf2. unfold mapErr, object_Attrs, object_NewReader, call.
  rewrite Hf1, Hf2. simpl. rewrite Ho. rewrite Hc. split; reflexivity.
Qed.

(** C6 (as amended). When the [gcs.json] of the upload is there and
    decodes, and records another version, another bucket or another
    object than the request's, CompleteMultipartUpload fails after the
    two reads of the sidecar and nothing else: no part is looked at, no
    composer runs and no object is stored.  The error is InvalidUploadID
    when the version is "1" and the bucket or the object differs, and
    the format error "Unknown format" when the version differs. *)
Theorem CompleteMultipartUpload_sidecar_mismatch (bucket key uploadID : string)
    (uploadedParts : list CompletePart) (s : Store) (o : StoredObject)
    (m : gcsMultipartMetaV1) :
  objects s !! (bucket, gcsMultipartMetaName uploadID) = Some o →
  content o = MetaJSON m →
  clientFault gdeps (CallAttrs bucket (gcsMultipartMetaName uploadID)) = None →
  clientFault gdeps (CallNewReader bucket (gcsMultipartMetaName uploadID)) = None →
  Error gdeps (InvalidUploadID uploadID) ≠ "storage: bucket doesn't exist" →
  Error gdeps (InvalidUploadID uploadID) ≠ "storage: object doesn't exist" →
  Version m ≠ gcsMinioMultipartMetaCurrentVersion ∨ Bucket m ≠ bucket ∨ Object m ≠ key →
  CompleteMultipartUpload gdeps bucket key uploadID uploadedParts s
  = (Err (if decide (Version m = gcsMinioMultipartMetaCurrentVersion)
          then InvalidUploadID uploadID else errGCSFormat),
     logCall (CallNewReader bucket (gcsMultipartMetaName uploadID))
       (logCall (CallAttrs bucket (gcsMultipartMetaName uploadID)) s)).
Proof.
  intros Ho Hc Hf1 Hf2 He1 He2 Hbad.
  destruct (sidecar_read bucket key uploadID s o m Ho Hc Hf1 Hf2) as (E1 & E2).
  unfold CompleteMultipartUpload. unfold bind at 1. rewrite E1.
  unfold bind at 1. rewrite E2. unfold bind at 1. simpl.
  destruct (decide (Version m = gcsMinioMultipartMetaCurrentVersion)) as [Hv|Hv].
  - rewrite Hv. simpl.
    assert ((negb (String.eqb (Bucket m) bucket) || negb (String.eqb (Object m) key)) = true) as ->.
    { destruct Hbad as [?|[Hb|Hk]]; [congruence| |].
      - apply String.eqb_neq in Hb. rewrite Hb. reflexivity.
      - apply String.eqb_neq in Hk. rewrite Hk. apply orb_true_r. }
    unfold fail. rewrite gcsToObjectError_InvalidUploadID by assumption. reflexivity.
  - apply String.eqb_neq in Hv. rewrite Hv. reflexivity.
Qed.

Lemma partAttrs_ok bucket key uploadID (uploadedParts : list CompletePart) (s0 : Store) :
  (∀ name, clientFault gdeps (CallAttrs bucket name) = None) →
  Forall (fun p => ∃ size, storedSize s0 bucket uploadID p size) uploadedParts →
  ∀ s, objects s = objects s0 →
    ∃ parts partSizes s',
      partAttrs gdeps bucket key uploadID uploadedParts s = (Ok (parts, partSizes), s').
Proof.
  intros Hf Hall. induction Hall as [|p rest (size & o & Ho & Hs) Hrest IH]; intros s Hobj.
  - simpl. unfold ret. eauto.
  - simpl. unfold bind at 1. unfold mapErr, object_Attrs, call. rewrite Hf. simpl.
    rewrite Hobj, Ho.
    destruct (IH (logCall (CallAttrs bucket
                (gcsMultipartDataName uploadID (PartNumber p) (ETag p))) s) Hobj)
      as (ps & szs & s' & E).
    unfold bind at 1. rewrite E. unfold ret. eauto.
Qed.

Lemma storedSize_functional s bucket uploadID p s1 s2 :
  storedSize s bucket uploadID p s1 → storedSize s bucket uploadID p s2 → s1 = s2.
Proof. intros (o1 & H1 & <-) (o2 & H2 & <-). congruence. Qed.

Lemma storedSize_same_objects s s' bucket uploadID p size :
  objects s' = objects s → storedSize s' bucket uploadID p size →
  storedSize s bucket uploadID p size.
Proof. intros E (o & Ho & Hs). exists o. rewrite <- E. split; assumption. Qed.

Local Open Scope go_scope.

(** From the part loop on: with a small part that is not the last, the
    size check is never passed, whatever would follow it. *)
Lemma parts_phase_small {A} (bucket key uploadID : string)
    (uploadedParts : list CompletePart) (s s2 : Store)
    (k : list string * list Z → G A) :
  objects s2 = objects s →
  (∃ p size, notLast p uploadedParts ∧ storedSize s bucket uploadID p size
             ∧ size < 5 * MiByte) →
  (∀ parts sz szs e s3,
     checkPartSizes uploadedParts (sz :: szs) = Err e →
     k (parts, sz :: szs) s3 = (Err e, s3)) →
  let r := bind (partAttrs gdeps bucket key uploadID uploadedParts) k s2 in
  (∃ e, fst r = Err e)
  ∧ objects (snd r) = objects s
  ∧ composeCalls (calls (snd r)) = composeCalls (calls s2)
  ∧ (∀ parts partSizes s3,
       partAttrs gdeps bucket key uploadID uploadedParts s2 = (Ok (parts, partSizes), s3) →
       ∃ p size, notLast p uploadedParts ∧ storedSize s bucket uploadID p size
                 ∧ size < 5 * MiByte
                 ∧ fst r = Err (PartTooSmall (PartNumber p) size (ETag p))).
Proof.
  intros Hobj Hsmall Hk r. subst r. unfold bind.
  destruct (partAttrs gdeps bucket key uploadID uploadedParts s2)
    as [[[parts partSizes]|e|msg] s3] eqn:E.
  - apply partAttrs_inv in E as (Ho3 & Hc3 & _ & Hall). specialize (Hall _ _ eq_refl).
    assert (Hall' : Forall2 (storedSize s bucket uploadID) uploadedParts partSizes).
    { eapply Forall2_impl; [exact Hall|]. intros. eapply storedSize_same_objects; eauto. }
    destruct (checkPartSizes_small (storedSize s bucket uploadID) uploadedParts partSizes
                Hall' Hsmall (storedSize_functional s bucket uploadID))
      as (p & size & Hnl & Hst & Hlt & Hchk).
    destruct partSizes as [|sz szs].
    { inversion Hall'; subst. destruct Hnl as (pre & post & Heq & _). destruct pre; discriminate. }
    rewrite (Hk _ _ _ _ s3 Hchk). simpl.
    split; [eauto|]. split; [congruence|]. split; [assumption|].
    intros ? ? ? Heq. inversion Heq; subst. eauto 10.
  - apply partAttrs_inv in E as (Ho3 & Hc3 & _ & _). simpl.
    split; [eauto|]. split; [congruence|]. split; [assumption|]. intros; discriminate.
  - apply partAttrs_inv in E as (_ & _ & Hnp & _). exfalso. eapply Hnp. reflexivity.
Qed.

Lemma mapped_Attrs_inv (f : gerror → gerror) bucket name s r s1 :
  mapErr f (object_Attrs gdeps bucket name) s = (r, s1) →
  s1 = logCall (CallAttrs bucket name) s ∧ ∀ msg, r ≠ Panic msg.
Proof.
  unfold mapErr, object_Attrs, call. destruct (clientFault gdeps _); simpl.
  - intros H; inversion H; subst. split; [reflexivity|discriminate].
  - destruct (objects s !! (bucket, name)); intros H; inversion H; subst;
      (split; [reflexivity|discriminate]).
Qed.

Lemma mapped_NewReader_inv (f : gerror → gerror) bucket name s r s1 :
  mapErr f (object_NewReader gdeps bucket name) s = (r, s1) →
  s1 = logCall (CallNewReader bucket name) s ∧ ∀ msg, r ≠ Panic msg.
Proof.
  unfold mapErr, object_NewReader, call. destruct (clientFault gdeps _); simpl.
  - intros H; inversion H; subst. split; [reflexivity|discriminate].
  - destruct (objects s !! (bucket, name)); intros H; inversion H; subst;
      (split; [reflexivity|discriminate]).
Qed.

(** With a small part that is not the last, the call fails, stores
    nothing and runs no composer. *)
Lemma CompleteMultipartUpload_small_fails (bucket key uploadID : string)
    (uploadedParts : list CompletePart) (s : Store) :
  (∃ p size, notLast p uploadedParts ∧ storedSize s bucket uploadID p size
             ∧ size < 5 * MiByte) →
  (∃ e, fst (CompleteMultipartUpload gdeps bucket key uploadID uploadedParts s) = Err e)
  ∧ objects (snd (CompleteMultipartUpload gdeps bucket key uploadID uploadedParts s))
    = objects s
  ∧ composeCalls (calls (snd (CompleteMultipartUpload gdeps bucket key uploadID
                                uploadedParts s)))
    = composeCalls (calls s).
Proof.
  intros Hsmall.
  destruct (CompleteMultipartUpload gdeps bucket key uploadID uploadedParts s)
    as [r s'] eqn:H.
  simpl. unfold CompleteMultipartUpload in H. unfold bind at 1 in H.
  destruct (mapErr _ (object_Attrs gdeps bucket (gcsMultipartMetaName uploadID)) s)
    as [[[a sz]|e|msg] s1] eqn:E1;
    apply mapped_Attrs_inv in E1 as (-> & Hnp1);
    [ | inversion H; subst; simpl; rewrite composeCalls_log by reflexivity; eauto
      | exfalso; eapply Hnp1; reflexivity ].
  unfold bind at 1 in H.
  match type of H with
  | context [mapErr ?f (object_NewReader gdeps bucket ?n) ?s1] =>
      destruct (mapErr f (object_NewReader gdeps bucket n) s1) as [[c|e|msg] s2] eqn:E2
  end;
    apply mapped_NewReader_inv in E2 as (-> & Hnp2);
    [ | inversion H; subst; simpl; rewrite !composeCalls_log by reflexivity; eauto
      | exfalso; eapply Hnp2; reflexivity ].
  unfold bind at 1 in H.
  destruct c as [bytes|m];
    [inversion H; subst; simpl; rewrite !composeCalls_log by reflexivity; eauto|].
  simpl in H.
  destruct (negb (String.eqb (Version m) gcsMinioMultipartMetaCurrentVersion));
    [inversion H; subst; simpl; rewrite !composeCalls_log by reflexivity; eauto|].
  destruct (negb (String.eqb (Bucket m) bucket) || negb (String.eqb (Object m) key));
    [inversion H; subst; simpl; rewrite !composeCalls_log by reflexivity; eauto|].
  match type of H with
  | bind (partAttrs gdeps bucket key uploadID uploadedParts) ?k ?s2 = _ =>
      pose proof (parts_phase_small bucket key uploadID uploadedParts s s2 k
                    eq_refl Hsmall) as Hp
  end.
  cbv beta zeta in Hp. rewrite H in Hp.
  destruct Hp as (He & Ho & Hc & _).
  { intros parts z zs e s3 Hchk. unfold bind, lift. rewrite Hchk. reflexivity. }
  simpl in He, Ho, Hc.
  split; [exact He|]. split; [exact Ho|].
  rewrite Hc. rewrite !composeCalls_log by reflexivity. reflexivity.
Qed.

(** C7 (as amended). When a supplied part other than the last is stored
    with fewer than 5 MiB, CompleteMultipartUpload fails, the stored
    objects are those from before and no composer has run.  The error is
    PartTooSmall (the object-layer error behind the S3 code
    EntityTooSmall) for such a part, with its number, size and etag,
    when the checks that run before the size check pass: the sidecar is
    that of the request, every supplied part is stored and the client
    calls that read them do not fail. *)
Theorem CompleteMultipartUpload_part_too_small (bucket key uploadID : string)
    (uploadedParts : list CompletePart) (s : Store) :
  (∃ p size, notLast p uploadedParts ∧ storedSize s bucket uploadID p size
             ∧ size < 5 * MiByte) →
  (∃ e, fst (CompleteMultipartUpload gdeps bucket key uploadID uploadedParts s) = Err e)
  ∧ objects (snd (CompleteMultipartUpload gdeps bucket key uploadID uploadedParts s))
    = objects s
  ∧ composeCalls (calls (snd (CompleteMultipartUpload gdeps bucket key uploadID
                                uploadedParts s)))
    = composeCalls (calls s)
  ∧ ∀ o,
      objects s !! (bucket, gcsMultipartMetaName uploadID) = Some o →
      content o = MetaJSON (mkMultipartMeta gcsMinioMultipartMetaCurrentVersion bucket key) →
      (∀ name, clientFault gdeps (CallAttrs bucket name) = None) →
      clientFault gdeps (CallNewReader bucket (gcsMultipartMetaName uploadID)) = None →
      Forall (fun p => ∃ size, storedSize s bucket uploadID p size) uploadedParts →
      ∃ p size, notLast p uploadedParts ∧ storedSize s bucket uploadID p size
                ∧ size < 5 * MiByte
                ∧ fst (CompleteMultipartUpload gdeps bucket key uploadID uploadedParts s)
                  = Err (PartTooSmall (PartNumber p) size (ETag p)).
Proof.
  intros Hsmall.
  destruct (CompleteMultipartUpload_small_fails bucket key uploadID uploadedParts s Hsmall)
    as (He & Ho & Hc).
  split; [exact He|]. split; [exact Ho|]. split; [exact Hc|].
  intros o Hobj Hcontent Hf1 Hf2 Hall.
  destruct (sidecar_read bucket key uploadID s o _ Hobj Hcontent (Hf1 _) Hf2) as (E1 & E2).
  unfold CompleteMultipartUpload. unfold bind at 1. rewrite E1.
  unfold bind at 1. rewrite E2. unfold bind at 1. simpl.
  rewrite !String.eqb_refl. simpl.
  match goal with
  | |- context [bind (partAttrs gdeps bucket key uploadID uploadedParts) ?k ?s2] =>
      destruct (partAttrs_ok bucket key uploadID uploadedParts s Hf1 Hall s2 eq_refl)
        as (ps & szs & s3 & Eok)
  end.
  match goal with
  | |- context [bind (partAttrs gdeps bucket key uploadID uploadedParts) ?k ?s2] =>
      pose proof (parts_phase_small bucket key uploadID uploadedParts s s2 k
                    eq_refl Hsmall) as Hp
  end.
  cbv beta zeta in Hp. destruct Hp as (_ & _ & _ & Hp).
  { intros parts z zs e s4 Hchk. unfold bind, lift. rewrite Hchk. reflexivity. }
  exact (Hp _ _ _ Eok).
Qed.

End GatewayFacts.

Section GatewayRuns.

Import GCS.

Lemma CompleteMultipartUpload_sidecar_mismatch_witness :
  CompleteMultipartUpload GCSDemo.gdeps "b" "obj" "u1" GCSDemo.uploadedParts
    GCSDemo.storeOtherObject
  = (Err (InvalidUploadID "u1"),
     logCall (CallNewReader "b" (gcsMultipartMetaName "u1"))
       (logCall (CallAttrs "b" (gcsMultipartMetaName "u1")) GCSDemo.storeOtherObject)).
Proof.
  apply (CompleteMultipartUpload_sidecar_mismatch GCSDemo.gdeps "b" "obj" "u1"
           GCSDemo.uploadedParts GCSDemo.storeOtherObject
           (mkStored GCSDemo.noAttrs (MetaJSON (mkMultipartMeta "1" "b" "other")))
           (mkMultipartMeta "1" "b" "other")).
  - vm_compute. reflexivity.
  - reflexivity.
  - reflexivity.
  - reflexivity.
  - vm_compute. discriminate.
  - vm_compute. discriminate.
  - right. right. simpl. discriminate.
Defined.

(** C6, as stated, fails: on a sidecar of version "2" the call fails with
    the format error, which is not InvalidUploadID. *)
Lemma CompleteMultipartUpload_other_version_is_format_error :
  fst (CompleteMultipartUpload GCSDemo.gdeps "b" "obj" "u1" GCSDemo.uploadedParts
         GCSDemo.storeOtherVersion)
  = Err (ErrNew "Unknown format")
  ∧ ErrNew "Unknown format" ≠ InvalidUploadID "u1"
  ∧ gcsToObjectError GCSDemo.gdeps (InvalidUploadID "u1") ["b"; "obj"]
    = InvalidUploadID "u1".
Proof.
  split; [vm_compute; reflexivity|]. split; [discriminate|]. reflexivity.
Qed.

Lemma CompleteMultipartUpload_part_too_small_witness :
  (∃ e, fst (CompleteMultipartUpload GCSDemo.gdeps "b" "obj" "u1" GCSDemo.uploadedParts
               GCSDemo.store) = Err e)
  ∧ objects (snd (CompleteMultipartUpload GCSDemo.gdeps "b" "obj" "u1"
                    GCSDemo.uploadedParts GCSDemo.store))
    = objects GCSDemo.store
  ∧ composeCalls (calls (snd (CompleteMultipartUpload GCSDemo.gdeps "b" "obj" "u1"
                                GCSDemo.uploadedParts GCSDemo.store)))
    = composeCalls (calls GCSDemo.store)
  ∧ ∃ p size, notLast p GCSDemo.uploadedParts
              ∧ storedSize GCSDemo.store "b" "u1" p size
              ∧ size < 5 * MiByte
              ∧ fst (CompleteMultipartUpload GCSDemo.gdeps "b" "obj" "u1"
                       GCSDemo.uploadedParts GCSDemo.store)
                = Err (PartTooSmall (PartNumber p) size (ETag p)).
Proof.
  assert (Hstored : ∀ n e bytes,
            objects GCSDemo.store !! ("b", gcsMultipartDataName "u1" n e)
            = Some (mkStored GCSDemo.noAttrs (Data bytes)) →
            storedSize GCSDemo.store "b" "u1" (mkCompletePart n e)
              (Z.of_nat (String.length bytes))).
  { intros n e bytes H. eexists. split; [exact H|reflexivity]. }
  destruct (CompleteMultipartUpload_part_too_small GCSDemo.gdeps "b" "obj" "u1"
              GCSDemo.uploadedParts GCSDemo.store) as (He & Ho & Hc & Hp).
  { exists (mkCompletePart 1 "e1"), 3. split.
    - exists [], [mkCompletePart 2 "e2"]. split; [reflexivity|discriminate].
    - split; [apply (Hstored 1 "e1" "aaa"); vm_compute; reflexivity|reflexivity]. }
  split; [exact He|]. split; [exact Ho|]. split; [exact Hc|].
  apply (Hp (mkStored GCSDemo.noAttrs
               (MetaJSON (mkMultipartMeta gcsMinioMultipartMetaCurrentVersion "b" "obj")))).
  - vm_compute. reflexivity.
  - reflexivity.
  - intros name. reflexivity.
  - reflexivity.
  - repeat constructor.
    + exists 3. apply (Hstored 1 "e1" "aaa"). vm_compute. reflexivity.
    + exists 3. apply (Hstored 2 "e2" "bbb"). vm_compute. reflexivity.
Defined.

(** C7, as stated, fails: the sidecar is checked before any part is
    looked at; with a sidecar that records another object the call
    fails with InvalidUploadID although the first of its two parts is
    stored with three bytes. *)
Lemma CompleteMultipartUpload_small_part_other_error :
  notLast (mkCompletePart 1 "e1") GCSDemo.uploadedParts
  ∧ storedSize GCSDemo.storeOtherObject "b" "u1" (mkCompletePart 1 "e1") 3
  ∧ 3 < 5 * MiByte
  ∧ fst (CompleteMultipartUpload GCSDemo.gdeps "b" "obj" "u1" GCSDemo.uploadedParts
           GCSDemo.storeOtherObject)
    = Err (InvalidUploadID "u1")
  ∧ InvalidUploadID "u1" ≠ PartTooSmall 1 3 "e1".
Proof.
  split.
  { exists [], [mkCompletePart 2 "e2"]. split; [reflexivity|discriminate]. }
  split.
  { eexists. split; [vm_compute; reflexivity|reflexivity]. }
  split; [reflexivity|]. split; [vm_compute; reflexivity|discriminate].
Qed.

End GatewayRuns.

(** ** The configuration validator *)

Section ConfigFacts.

Import Config.
Context (serverConfigVersion : string) (acceptedFormats : list string).

Let getValidConfig := Config.getValidConfig serverConfigVersion acceptedFormats.

(** What an accepted document holds, and what the configuration read
    from it is. *)
Definition acceptedAs (members : list (string * JSON)) (cfg : ServerConfig) : Prop :=
  member "version" members = Some (JString serverConfigVersion)
  ∧ version cfg = serverConfigVersion
  ∧ match member "browser" members with
    | None => browser cfg = "on"
    | Some b => b = JString (browser cfg) ∧ (browser cfg = "on" ∨ browser cfg = "off")
    end
  ∧ (∃ cred,
       member "credential" members = Some (JObject cred)
       ∧ member "accessKey" cred = Some (JString (accessKey (credential cfg)))
       ∧ member "secretKey" cred = Some (JString (secretKey (credential cfg))))
  ∧ accessKey (credential cfg) ≠ ""
  ∧ secretKey (credential cfg) ≠ ""
  ∧ (member "region" members = None → region cfg = "us-east-1").

Lemma getValidConfig_inr (doc : Document) (cfg : ServerConfig) :
  getValidConfig doc = inr cfg →
  ∃ members, doc = Parsed (JObject members) ∧ acceptedAs members cfg.
Proof.
  unfold getValidConfig, Config.getValidConfig. destruct doc as [|j]; [discriminate|].
  destruct (negb (noDuplicateKeys j)); [discriminate|].
  destruct j as [| | | | |members]; try discriminate.
  destruct (member "version" members) as [[| | |v| |]|] eqn:Ev; try discriminate.
  destruct (String.eqb v serverConfigVersion) eqn:Evv; [|discriminate].
  apply String.eqb_eq in Evv. subst v. simpl.
  intros H.
  match type of H with
  | match ?x with _ => _ end = _ => destruct x as [b|] eqn:Eb; [|discriminate]
  end.
  destruct (member "credential" members) as [[| | | | |cred]|] eqn:Ec; try discriminate.
  destruct (member "accessKey" cred) as [[| | |ak| |]|] eqn:Ea; try discriminate.
  destruct (member "secretKey" cred) as [[| | |sk| |]|] eqn:Es; try discriminate.
  destruct (String.eqb ak "") eqn:Eak; [discriminate|].
  destruct (String.eqb sk "") eqn:Esk; [discriminate|]. simpl in H.
  apply String.eqb_neq in Eak. apply String.eqb_neq in Esk.
  destruct (match member "notify" members with
            | Some (JObject targets) => validNotify acceptedFormats targets
            | _ => None end); [discriminate|].
  inversion H; subst cfg; clear H.
  exists members. split; [reflexivity|]. unfold acceptedAs. simpl.
  split; [exact Ev|]. split; [reflexivity|]. split.
  { destruct (member "browser" members) as [[| | |b'| |]|]; try discriminate.
    - destruct (String.eqb b' "on") eqn:Eon; simpl in Eb.
      + apply String.eqb_eq in Eon. inversion Eb. subst. auto.
      + destruct (String.eqb b' "off") eqn:Eoff; [|discriminate].
        apply String.eqb_eq in Eoff. inversion Eb. subst. auto.
    - inversion Eb. reflexivity. }
  split; [exists cred; auto|]. split; [exact Eak|]. split; [exact Esk|].
  intros ->. reflexivity.
Qed.

(** C8. The validator accepts a document only if it is an object whose
    version is the server's schema version, whose browser member, when
    there is one, is "on" or "off", and whose credential has a non-empty
    accessKey and a non-empty secretKey; the configuration read has
    browser "on" when the member is absent and region "us-east-1" when
    that member is absent.  And a document without repeated keys that
    meets these conditions (and configures no notification target) is
    accepted, with or without a region, with or without a browser. *)
Theorem getValidConfig_accepts_only_valid :
  (∀ doc cfg, getValidConfig doc = inr cfg →
     ∃ members, doc = Parsed (JObject members) ∧ acceptedAs members cfg)
  ∧ (∀ members cred ak sk,
       noDuplicateKeys (JObject members) = true →
       member "version" members = Some (JString serverConfigVersion) →
       member "browser" members = None
       ∨ member "browser" members = Some (JString "on")
       ∨ member "browser" members = Some (JString "off") →
       member "credential" members = Some (JObject cred) →
       member "accessKey" cred = Some (JString ak) →
       member "secretKey" cred = Some (JString sk) →
       ak ≠ "" → sk ≠ "" →
       member "notify" members = None →
       getValidConfig (Parsed (JObject members))
       = inr {| version := serverConfigVersion;
                browser := match member "browser" members with
                           | Some (JString b) => b
                           | _ => "on"
                           end;
                region := match member "region" members with
                          | Some (JString r) => r
                          | _ => "us-east-1"
                          end;
                credential := mkCredential ak sk |}).
Proof.
  split; [exact getValidConfig_inr|].
  intros members cred ak sk Hnd Hv Hb Hc Ha Hs Hak Hsk Hn.
  unfold getValidConfig, Config.getValidConfig. rewrite Hnd. simpl.
  rewrite Hv, String.eqb_refl. simpl.
  apply String.eqb_neq in Hak. apply String.eqb_neq in Hsk.
  destruct Hb as [Hb|[Hb|Hb]]; rewrite Hb; simpl;
    rewrite Hc, Ha, Hs, Hak, Hsk, Hn; reflexivity.
Qed.

End ConfigFacts.

Section ConfigRuns.

Import Config.

(** The validator passes [TestValidateConfig]. *)
Example TestValidateConfig_passes :
  ConfigTest.failures (getValidConfig "33" ["namespace"; "access"])
    (ConfigTest.testCases "33") = [].
Proof. vm_compute. reflexivity. Qed.

(** Test 7, missing region, and test 8, missing browser. *)
Lemma getValidConfig_accepts_only_valid_witness :
  getValidConfig "33" ["namespace"; "access"]
    (Parsed (JObject [ConfigTest.str "version" "33"; ConfigTest.str "browser" "on";
                      ConfigTest.minioCredential]))
  = inr (mkServerConfig "33" "on" "us-east-1" (mkCredential "minio" "minio123"))
  ∧ getValidConfig "33" ["namespace"; "access"]
      (Parsed (JObject [ConfigTest.str "version" "33"; ConfigTest.str "region" "us-east-1";
                        ConfigTest.minioCredential]))
    = inr (mkServerConfig "33" "on" "us-east-1" (mkCredential "minio" "minio123"))
  ∧ acceptedAs "33"
      [ConfigTest.str "version" "33"; ConfigTest.str "browser" "on";
       ConfigTest.minioCredential]
      (mkServerConfig "33" "on" "us-east-1" (mkCredential "minio" "minio123"))
  ∧ acceptedAs "33"
      [ConfigTest.str "version" "33"; ConfigTest.str "region" "us-east-1";
       ConfigTest.minioCredential]
      (mkServerConfig "33" "on" "us-east-1" (mkCredential "minio" "minio123")).
Proof.
  destruct (getValidConfig_accepts_only_valid "33" ["namespace"; "access"]) as (Honly & Hacc).
  pose proof (Hacc [ConfigTest.str "version" "33"; ConfigTest.str "browser" "on";
                    ConfigTest.minioCredential]
                [ConfigTest.str "accessKey" "minio"; ConfigTest.str "secretKey" "minio123"]
                "minio" "minio123" eq_refl eq_refl (or_intror (or_introl eq_refl))
                eq_refl eq_refl eq_refl) as H7.
  pose proof (Hacc [ConfigTest.str "version" "33"; ConfigTest.str "region" "us-east-1";
                    ConfigTest.minioCredential]
                [ConfigTest.str "accessKey" "minio"; ConfigTest.str "secretKey" "minio123"]
                "minio" "minio123" eq_refl eq_refl (or_introl eq_refl)
                eq_refl eq_refl eq_refl) as H8.
  assert (Hne : "minio" ≠ "" ∧ "minio123" ≠ "") by (split; discriminate).
  specialize (H7 (proj1 Hne) (proj2 Hne) eq_refl).
  specialize (H8 (proj1 Hne) (proj2 Hne) eq_refl).
  split; [exact H7|]. split; [exact H8|]. split.
  - destruct (Honly _ _ H7) as (members & Heq & Hok). injection Heq as <-. exact Hok.
  - destruct (Honly _ _ H8) as (members & Heq & Hok). injection Heq as <-. exact Hok.
Defined.

End ConfigRuns.

(** ** A failed PutObject *)

(** *** How a computation came to its outcome *)

Section Inversion.

Context {S E : Type}.

Lemma bind_Err {A B} (m : ST S E A) (k : A → ST S E B) (w w' : S) (e : E) :
  bind m k w = (Err e, w') →
  m w = (Err e, w') ∨ ∃ a w1, m w = (Ok a, w1) ∧ k a w1 = (Err e, w').
Proof.
  unfold bind. destruct (m w) as [[a|e0|msg] w1]; intros H.
  - right. eauto.
  - left. inversion H. reflexivity.
  - discriminate.
Qed.

Lemma bind_Ok {A B} (m : ST S E A) (k : A → ST S E B) (w w' : S) (b : B) :
  bind m k w = (Ok b, w') →
  ∃ a w1, m w = (Ok a, w1) ∧ k a w1 = (Ok b, w').
Proof.
  unfold bind. destruct (m w) as [[a|e0|msg] w1]; intros H; try discriminate. eauto.
Qed.

Lemma mapErr_Err {A} (f : E → E) (m : ST S E A) (w w' : S) (e : E) :
  mapErr f m w = (Err e, w') → ∃ e0, m w = (Err e0, w').
Proof.
  unfold mapErr. destruct (m w) as [[a|e0|msg] w1]; intros H; inversion H; subst; eauto.
Qed.

Lemma mapErr_Ok {A} (f : E → E) (m : ST S E A) (w w' : S) (a : A) :
  mapErr f m w = (Ok a, w') → m w = (Ok a, w').
Proof.
  unfold mapErr. destruct (m w) as [[a0|e0|msg] w1]; intros H; inversion H; subst; eauto.
Qed.

Lemma try_Ok {A} (m : ST S E A) (w w' : S) (r : A + E) :
  try m w = (Ok r, w') →
  match r with
  | inl a => m w = (Ok a, w')
  | inr e => m w = (Err e, w')
  end.
Proof.
  unfold try. destruct (m w) as [[a0|e0|msg] w1]; intros H; inversion H; subst; reflexivity.
Qed.

Lemma try_Err {A} (m : ST S E A) (w w' : S) (e : E) : try m w ≠ (Err e, w').
Proof. unfold try. destruct (m w) as [[a0|e0|msg] w1]; discriminate. Qed.

Lemma defer_inv {A B} (d : ST S E B) (body : ST S E A) (w w' : S) (r : Res E A) :
  defer d body w = (r, w') → ∃ w1, body w = (r, w1) ∧ w' = snd (d w1).
Proof.
  unfold defer. destruct (body w) as [r1 w1]. intros H. inversion H; subst. eauto.
Qed.

Lemma deferOnErr_Err {A B} (d : ST S E B) (body : ST S E A) (w w' : S) (e : E) :
  deferOnErr d body w = (Err e, w') → ∃ w1, body w = (Err e, w1) ∧ w' = snd (d w1).
Proof.
  unfold deferOnErr. destruct (body w) as [[a|e0|msg] w1]; intros H; inversion H; subst. eauto.
Qed.

End Inversion.

(** *** What the helpers that write do to the files *)

Section WriteEffects.

Context (deps : Deps).

Lemma isRegular_lookup (w : World) (p : string) :
  isRegular w p = false → files w !! fskey p = None.
Proof.
  unfold isRegular. intros H. apply bool_decide_eq_false in H.
  destruct (files w !! fskey p) eqn:E; [|reflexivity]. exfalso. apply H. eauto.
Qed.

Lemma isRegular_true (w : World) (p : string) :
  isRegular w p = true → is_Some (files w !! fskey p).
Proof. unfold isRegular. intros H. apply bool_decide_eq_true in H. exact H. Qed.

(** Removing a file deletes its key, and nothing else; a removal that
    fails on its own changes no file. *)
Lemma fsRemoveFile_effect (p : string) (w : World) :
  rndNext (snd (fsRemoveFile deps p w)) = rndNext w
  ∧ (∀ k, k ≠ fskey p → files (snd (fsRemoveFile deps p w)) !! k = files w !! k)
  ∧ (files w !! fskey p = None → files (snd (fsRemoveFile deps p w)) !! fskey p = None)
  ∧ (ioFault deps (IORemoveFile p) = None →
     files (snd (fsRemoveFile deps p w)) !! fskey p = None).
Proof.
  unfold fsRemoveFile, io. destruct (ioFault deps _) as [e|]; cbn.
  { split; [reflexivity|]. split; [reflexivity|]. split; [auto|discriminate]. }
  destruct (isRegular _ p) eqn:Er; cbn.
  { split; [reflexivity|]. split; [intros k Hk; apply lookup_delete_ne; congruence|].
    split; intros _; apply lookup_delete_eq. }
  apply isRegular_lookup in Er. cbn in Er.
  destruct (isDirectory _ p); [destruct (childrenOf _ p)|]; cbn;
    (split; [reflexivity|]; split; [reflexivity|]; split; intros _; exact Er).
Qed.

Lemma fsRemoveMeta_effect (base p tmpDir : string) (w : World) :
  fskey p ≠ fskey base →
  (∀ k, k ≠ fskey p → files (snd (fsRemoveMeta deps base p tmpDir w)) !! k = files w !! k)
  ∧ (files w !! fskey p = None →
     files (snd (fsRemoveMeta deps base p tmpDir w)) !! fskey p = None)
  ∧ (ioFault deps (IODeleteFile base p) = None →
     files (snd (fsRemoveMeta deps base p tmpDir w)) !! fskey p = None).
Proof.
  intros Hne. unfold fsRemoveMeta, fsDeleteFile, io.
  destruct (ioFault deps _) as [e|]; cbn.
  { split; [reflexivity|]. split; [auto|discriminate]. }
  unfold deleteFileIn. apply String.eqb_neq in Hne. rewrite Hne.
  destruct (isRegular _ p) eqn:Er; cbn.
  { rewrite pruneDirs_files. cbn.
    split; [intros k Hk; apply lookup_delete_ne; congruence|].
    split; intros _; apply lookup_delete_eq. }
  apply isRegular_lookup in Er. cbn in Er.
  destruct (isDirectory _ p); cbn; rewrite ?pruneDirs_files; cbn;
    (split; [reflexivity|]; split; intros _; exact Er).
Qed.

(** Opening the sidecar for writing: on failure no file has changed; on
    success the sidecar is there, created empty when it was not, and no
    other file has changed. *)
Lemma rwPool_Create_effect (p : string) (w : World) :
  rndNext (snd (rwPool_Create deps p w)) = rndNext w
  ∧ match fst (rwPool_Create deps p w) with
    | Ok lk =>
        lk = p
        ∧ is_Some (files (snd (rwPool_Create deps p w)) !! fskey p)
        ∧ ∀ k, k ≠ fskey p →
            files (snd (rwPool_Create deps p w)) !! k = files w !! k
    | Err _ => files (snd (rwPool_Create deps p w)) = files w
    | Panic _ => False
    end.
Proof.
  unfold rwPool_Create, io. destruct (ioFault deps _); cbn; [split; reflexivity|].
  destruct (mkdirAllIn _ _) as [w1|] eqn:Em; cbn; [|split; reflexivity].
  pose proof (mkdirAllIn_files _ _ _ Em) as Hf. cbn in Hf.
  assert (Hr : rndNext w1 = rndNext w).
  { unfold mkdirAllIn in Em. destruct (existsb _ _); inversion Em; reflexivity. }
  destruct (isDirectory w1 p); cbn; [split; assumption|].
  destruct (isRegular w1 p) eqn:Er; cbn.
  - split; [assumption|]. split; [reflexivity|]. split.
    + apply isRegular_true in Er. exact Er.
    + intros k _. rewrite Hf. reflexivity.
  - split; [assumption|]. split; [reflexivity|]. split.
    + rewrite lookup_insert_eq. eauto.
    + intros k Hk. rewrite lookup_insert_ne by congruence. rewrite Hf. reflexivity.
Qed.

(** Writing the temporary file changes no other file. *)
Lemma fsCreateFile_effect (p : string) (data : Reader) (w : World) :
  rndNext (snd (fsCreateFile deps p data w)) = rndNext w
  ∧ (∀ k, k ≠ fskey p → files (snd (fsCreateFile deps p data w)) !! k = files w !! k)
  ∧ ∀ msg, fst (fsCreateFile deps p data w) ≠ Panic msg.
Proof.
  unfold fsCreateFile, io. destruct (ioFault deps _); cbn;
    [split; [reflexivity|split; [reflexivity|discriminate]]|].
  destruct (mkdirAllIn _ _) as [w1|] eqn:Em; cbn;
    [|split; [reflexivity|split; [reflexivity|discriminate]]].
  pose proof (mkdirAllIn_files _ _ _ Em) as Hf. cbn in Hf.
  assert (Hr : rndNext w1 = rndNext w).
  { unfold mkdirAllIn in Em. destruct (existsb _ _); inversion Em; reflexivity. }
  destruct (isDirectory w1 p); cbn.
  { split; [assumption|]. split; [intros; rewrite Hf; reflexivity|discriminate]. }
  destruct (rd_err data); cbn; (split; [assumption|]);
    (split; [intros k Hk; rewrite lookup_insert_ne by congruence; rewrite Hf; reflexivity
            |discriminate]).
Qed.

(** A temporary file that was written holds the body of the request. *)
Lemma fsCreateFile_written (p : string) (data : Reader) (w w' : World) (n : Z) :
  fsCreateFile deps p data w = (Ok n, w') →
  files w' !! fskey p = Some (Bytes (rd_body data)).
Proof.
  unfold fsCreateFile, io. destruct (ioFault deps _); [discriminate|].
  destruct (mkdirAllIn _ _) as [w1|]; [|discriminate].
  destruct (isDirectory w1 p); [discriminate|].
  destruct (rd_err data); intros H; inversion H; cbn; apply lookup_insert_eq.
Qed.

(** Renaming moves the body of the source onto the destination, or
    fails and changes no file. *)
Lemma fsRenameFile_effect (src dst : string) (w : World) :
  rndNext (snd (fsRenameFile deps src dst w)) = rndNext w
  ∧ match fst (fsRenameFile deps src dst w) with
    | Ok _ =>
        ∃ b, files w !! fskey src = Some b
             ∧ files (snd (fsRenameFile deps src dst w))
               = <[fskey dst := b]> (delete (fskey src) (files w))
    | Err _ => files (snd (fsRenameFile deps src dst w)) = files w
    | Panic _ => False
    end.
Proof.
  unfold fsRenameFile, io. destruct (ioFault deps _); cbn; [split; reflexivity|].
  destruct (files w !! fskey src) as [b|] eqn:Eb; cbn; [|split; reflexivity].
  destruct (mkdirAllIn _ _) as [w1|] eqn:Em; cbn; [|split; reflexivity].
  pose proof (mkdirAllIn_files _ _ _ Em) as Hf. cbn in Hf.
  assert (Hr : rndNext w1 = rndNext w).
  { unfold mkdirAllIn in Em. destruct (existsb _ _); inversion Em; reflexivity. }
  destruct (isDirectory w1 dst); cbn; [split; assumption|].
  split; [assumption|]. exists b. split; [reflexivity|]. rewrite Hf. reflexivity.
Qed.

(** Writing the sidecar stores it, unless the write itself fails. *)
Lemma fsMeta_WriteTo_effect (m : fsMetaV1) (lk : string) (w : World) :
  match fst (fsMeta_WriteTo deps m lk w) with
  | Ok _ => files (snd (fsMeta_WriteTo deps m lk w)) = <[fskey lk := FsJSON m]> (files w)
  | Err _ => ioFault deps (IOMetaWrite lk) ≠ None
             ∧ files (snd (fsMeta_WriteTo deps m lk w)) = files w
  | Panic _ => False
  end.
Proof.
  unfold fsMeta_WriteTo, io. destruct (ioFault deps _); cbn; [split; [discriminate|reflexivity]|].
  reflexivity.
Qed.

(** A stat of a file that is there fails only when the call itself does. *)
Lemma fsStatFile_effect (p : string) (w : World) :
  files (snd (fsStatFile deps p w)) = files w
  ∧ match fst (fsStatFile deps p w) with
    | Ok _ => True
    | Err _ => ioFault deps (IOStatFile p) ≠ None ∨ files w !! fskey p = None
    | Panic _ => False
    end.
Proof.
  unfold fsStatFile, io. destruct (ioFault deps _); cbn; [split; [reflexivity|left; discriminate]|].
  destruct (files w !! fskey p); cbn; [split; [reflexivity|exact I]|].
  destruct (isDirectory _ p); cbn; (split; [reflexivity|right; reflexivity]).
Qed.

End WriteEffects.

(** *** The files after a failed PutObject *)

Section PutFailure.

Context (deps : Deps) (fs : FSObjects).
Context (bucket object : string) (data : Reader) (metadata : gmap string string).

Local Open Scope go_scope.

(** The paths of [putObject]: [fsNSObjPath], [bucketMetaDir],
    [fsMetaPath], and the [fsTmpObjPath] of a call made in [w]. *)
Definition putDataPath : string := pathJoin [fsPath fs; bucket; object].
Definition putMetaDir : string := pathJoin [fsPath fs; minioMetaBucket; bucketMetaPrefix].
Definition putMetaPath : string := pathJoin [putMetaDir; bucket; object; metaJSONFile fs].
Definition putTmpPath (w : World) : string :=
  fsTmpObjPathOf fs (rndString deps (rndNext w)).

Lemma statBucketDir_rndNext : preserves rndNext (statBucketDir deps fs bucket).
Proof. unfold statBucketDir. frame. prim. Qed.

Lemma isParentDirObject_rndNext fuel :
  ∀ p, preserves rndNext (isParentDirObject deps fs fuel bucket p).
Proof. induction fuel as [|n IH]; intros p; simpl; frame. prim. Qed.

(** [putObject] from the temporary object on, as a function of the
    handle on the sidecar. *)
Definition putObject_stream (wlk : option string) : M ObjectInfo :=
  let fsMeta := set_Meta (newFSMetaV1 deps) metadata in
  let* tempObj := mustGetUUID deps in
  let fsTmpObjPath := fsTmpObjPathOf fs tempObj in
  let* written := try (fsCreateFile deps fsTmpObjPath data) in
  match written with
  | inr err =>
      do discard (fsRemoveFile deps fsTmpObjPath) in
      fail (toObjectErr deps err [bucket; object])
  | inl bytesWritten =>
      let fsMeta := set_Meta fsMeta (<["etag" := md5hex deps (rd_body data)]> (Meta fsMeta)) in
      if negb (isCompressed deps (Meta fsMeta)) && (bytesWritten <? rd_Size data) then
        do discard (fsRemoveFile deps fsTmpObjPath) in
        fail IncompleteBody
      else
        defer (fsRemoveFile deps fsTmpObjPath)
          (let fsNSObjPath := pathJoin [fsPath fs; bucket; object] in
           let* denied :=
             (if globalWORMEnabled deps then
                let* st := try (fsStatFile deps fsNSObjPath) in
                ret (match st with inl _ => true | inr _ => false end)
              else ret false) in
           if denied then fail (ObjectAlreadyExists bucket object)
           else
             do toErr deps [bucket; object] (fsRenameFile deps fsTmpObjPath fsNSObjPath) in
             do (match wlk with
                 | Some lk => toErr deps [bucket; object] (fsMeta_WriteTo deps fsMeta lk)
                 | None => ret tt
                 end) in
             let* fi := toErr deps [bucket; object]
                          (fsStatFile deps (pathJoin [fsPath fs; bucket; object])) in
             ret (ToObjectInfo deps fsMeta bucket object fi))
  end.

Lemma statBucketDir_countIO (P : IOCall → bool) :
  (∀ p, P (IOStatVolume p) = false) →
  preserves (countIO P) (statBucketDir deps fs bucket).
Proof. intros HP. unfold statBucketDir. frame. apply fsStatVolume_countIO. apply HP. Qed.

Lemma isParentDirObject_countIO (P : IOCall → bool) fuel :
  (∀ p, P (IOIsFile p) = false) →
  ∀ p, preserves (countIO P) (isParentDirObject deps fs fuel bucket p).
Proof.
  intros HP. induction fuel as [|n IH]; intros p; simpl; frame.
  apply fsIsFile_countIO. apply HP.
Qed.

(** A write of the sidecar is logged, whether it goes through or not. *)
Lemma fsMeta_WriteTo_counted (m : fsMetaV1) (lk : string) (w : World) :
  sidecarWrites (snd (fsMeta_WriteTo deps m lk w)) = S (sidecarWrites w).
Proof.
  unfold sidecarWrites, fsMeta_WriteTo, io. destruct (ioFault deps _); cbn [snd].
  - rewrite countIO_log_io. cbn. lia.
  - rewrite (countIO_events _ (log (EvIO (IOMetaWrite lk)) w)) by reflexivity.
    rewrite countIO_log_io. cbn. lia.
Qed.

(** What a failed [putObject] has made of the files of [w], seen from
    the temporary object on: [wlk] is the handle on the sidecar. *)
Definition streamFailure (wlk : option string) (tmpPath : string) (w w' : World) : Prop :=
  (ioFault deps (IORemoveFile tmpPath) = None → files w' !! fskey tmpPath = None)
  ∧ (∀ k, k ≠ fskey putDataPath → k ≠ fskey putMetaPath → k ≠ fskey tmpPath →
          files w' !! k = files w !! k)
  ∧ (wlk = None → files w' !! fskey putMetaPath = files w !! fskey putMetaPath)
  ∧ (ioFault deps (IOMetaWrite putMetaPath) = None →
     ioFault deps (IOStatFile putDataPath) = None →
     files w' !! fskey putDataPath = files w !! fskey putDataPath)
  ∧ (files w' !! fskey putDataPath = files w !! fskey putDataPath
     ∨ files w' !! fskey putDataPath = Some (Bytes (rd_body data)))
  ∧ (sidecarWrites w' ≠ sidecarWrites w →
     files w' !! fskey putDataPath = Some (Bytes (rd_body data)))
  ∧ (globalWORMEnabled deps = false → fileStats w' ≠ fileStats w →
     files w' !! fskey putDataPath = Some (Bytes (rd_body data)))
  ∧ (wlk = Some putMetaPath → sidecarWrites w' = sidecarWrites w →
     files w' !! fskey putDataPath = files w !! fskey putDataPath).

Lemma putObject_stream_failure (wlk : option string) (w w' : World) (e : error) :
  let tmpPath := fsTmpObjPathOf fs (rndString deps (rndNext w)) in
  putObject_stream wlk w = (Err e, w') →
  (wlk = None ∨ wlk = Some putMetaPath) →
  fskey tmpPath ≠ fskey putDataPath →
  fskey tmpPath ≠ fskey putMetaPath →
  fskey putDataPath ≠ fskey putMetaPath →
  files w !! fskey tmpPath = None →
  streamFailure wlk tmpPath w w'.
Proof.
  intros tmpPath H Hwlk HTD HTS HDS HT.
  (* a failure before the rename: only the temporary file may differ *)
  assert (Hclean : ∀ w1 : World,
            (∀ k, k ≠ fskey tmpPath → files w1 !! k = files w !! k) →
            sidecarWrites w1 = sidecarWrites w →
            (globalWORMEnabled deps = false → fileStats w1 = fileStats w) →
            w' = snd (fsRemoveFile deps tmpPath w1) →
            streamFailure wlk tmpPath w w').
  { intros w1 Hw1 Hsw Hfs ->.
    destruct (fsRemoveFile_effect deps tmpPath w1) as (_ & Hother & _ & Hgone).
    pose proof (fsRemoveFile_countIO deps isSidecarWrite tmpPath eq_refl w1) as C1.
    pose proof (fsRemoveFile_countIO deps isFileStat tmpPath eq_refl w1) as C2.
    assert (HD : files (snd (fsRemoveFile deps tmpPath w1)) !! fskey putDataPath
                 = files w !! fskey putDataPath).
    { rewrite Hother by congruence. apply Hw1. congruence. }
    split; [exact Hgone|]. split.
    { intros k _ _ HkT. rewrite Hother by exact HkT. apply Hw1. exact HkT. }
    split.
    { intros _. rewrite Hother by congruence. apply Hw1. congruence. }
    split; [intros _ _; exact HD|]. split; [left; exact HD|]. split; [|split].
    - intros Hne. exfalso. apply Hne. unfold sidecarWrites in *. rewrite C1. exact Hsw.
    - intros Hw Hne. exfalso. apply Hne. unfold fileStats in *. rewrite C2. apply Hfs.
      exact Hw.
    - intros _ _. exact HD. }
  (* a failure after the rename: the new bytes are at the key *)
  assert (Hlate : ∀ w1 : World,
            w' = snd (fsRemoveFile deps tmpPath w1) →
            files w1 !! fskey putDataPath = Some (Bytes (rd_body data)) →
            files w1 !! fskey tmpPath = None →
            (∀ k, k ≠ fskey putDataPath → k ≠ fskey putMetaPath → k ≠ fskey tmpPath →
                  files w1 !! k = files w !! k) →
            (wlk = None → files w1 !! fskey putMetaPath = files w !! fskey putMetaPath) →
            (wlk = Some putMetaPath → sidecarWrites w1 = S (sidecarWrites w)) →
            ioFault deps (IOMetaWrite putMetaPath) ≠ None
            ∨ ioFault deps (IOStatFile putDataPath) ≠ None →
            streamFailure wlk tmpPath w w').
  { intros w1 -> HD1 HT1 Hk HS Hcnt Hfault.
    destruct (fsRemoveFile_effect deps tmpPath w1) as (_ & Hother & Habs & _).
    pose proof (fsRemoveFile_countIO deps isSidecarWrite tmpPath eq_refl w1) as C1.
    fold sidecarWrites in C1.
    assert (HD : files (snd (fsRemoveFile deps tmpPath w1)) !! fskey putDataPath
                 = Some (Bytes (rd_body data))).
    { rewrite Hother by congruence. exact HD1. }
    split; [intros _; apply Habs; exact HT1|]. split.
    { intros k HkD HkS HkT. rewrite Hother by exact HkT. apply Hk; assumption. }
    split.
    { intros Hn. rewrite Hother by congruence. apply HS. exact Hn. }
    split.
    { intros Hm Hs. exfalso. destruct Hfault as [Hf|Hf]; apply Hf; assumption. }
    split; [right; exact HD|]. split; [intros; exact HD|]. split; [intros; exact HD|].
    intros Hw Heq. exfalso. rewrite C1, (Hcnt Hw) in Heq. lia. }
  unfold putObject_stream in H. cbv zeta in H.
  apply bind_Err in H as [H|(tempObj & w1 & H1 & H)]; [discriminate|].
  unfold mustGetUUID in H1. inversion H1; subst tempObj w1; clear H1.
  fold tmpPath in H.
  apply bind_Err in H as [H|(written & w2 & H2 & H)]; [exfalso; eapply try_Err; exact H|].
  apply try_Ok in H2.
  assert (F2 : (∀ k, k ≠ fskey tmpPath → files w2 !! k = files w !! k)
               ∧ sidecarWrites w2 = sidecarWrites w ∧ fileStats w2 = fileStats w).
  { destruct (fsCreateFile_effect deps tmpPath data (set_rndNext (S (rndNext w)) w))
      as (_ & Hf & _).
    pose proof (fsCreateFile_countIO deps isSidecarWrite tmpPath data eq_refl
                  (set_rndNext (S (rndNext w)) w)) as C1.
    pose proof (fsCreateFile_countIO deps isFileStat tmpPath data eq_refl
                  (set_rndNext (S (rndNext w)) w)) as C2.
    destruct written; rewrite H2 in Hf, C1, C2; (split; [exact Hf|split; assumption]). }
  destruct F2 as (F2 & S2 & T2).
  destruct written as [bytesWritten|err].
  2:{ apply bind_Err in H as [H|([] & w3 & H3 & H)]; [discriminate|].
      unfold discard in H3. inversion H3; subst w3; clear H3.
      inversion H; subst. apply (Hclean w2 F2 S2); [intros _; exact T2|reflexivity]. }
  apply fsCreateFile_written in H2. rename H2 into B2.
  destruct (negb _ && _).
  { apply bind_Err in H as [H|([] & w3 & H3 & H)]; [discriminate|].
    unfold discard in H3. inversion H3; subst w3; clear H3.
    inversion H; subst. apply (Hclean w2 F2 S2); [intros _; exact T2|reflexivity]. }
  apply defer_inv in H as (w3 & H & Hw').
  fold putDataPath in H.
  apply bind_Err in H as [H|(denied & w4 & H4 & H)].
  { exfalso. destruct (globalWORMEnabled deps); [|discriminate].
    apply bind_Err in H as [H|(st & w4 & _ & H)]; [eapply try_Err; exact H|discriminate]. }
  assert (F4 : files w4 = files w2 ∧ sidecarWrites w4 = sidecarWrites w2
               ∧ (globalWORMEnabled deps = false → fileStats w4 = fileStats w2)).
  { destruct (globalWORMEnabled deps).
    - apply bind_Ok in H4 as (st & w5 & H5 & H4). inversion H4; subst w5.
      apply try_Ok in H5.
      destruct (fsStatFile_effect deps putDataPath w2) as (Hf & _).
      pose proof (fsStatFile_countIO deps isSidecarWrite putDataPath eq_refl w2) as C1.
      destruct st; rewrite H5 in Hf, C1; (split; [exact Hf|split; [exact C1|discriminate]]).
    - inversion H4. split; [reflexivity|split; reflexivity]. }
  destruct F4 as (F4 & S4 & T4). clear H4.
  destruct denied.
  { inversion H; subst w3. apply (Hclean w4); [| | |exact Hw'].
    - intros k Hk. rewrite F4. apply F2. exact Hk.
    - rewrite S4. exact S2.
    - intros Hw. rewrite T4 by exact Hw. exact T2. }
  apply bind_Err in H as [H|([] & w5 & H5 & H)].
  { apply mapErr_Err in H as (e0 & H).
    destruct (fsRenameFile_effect deps tmpPath putDataPath w4) as (_ & Hf).
    pose proof (fsRenameFile_countIO deps isSidecarWrite tmpPath putDataPath eq_refl w4) as C1.
    pose proof (fsRenameFile_countIO deps isFileStat tmpPath putDataPath eq_refl w4) as C2.
    rewrite H in Hf, C1, C2. cbn in Hf, C1, C2. apply (Hclean w3); [| | |exact Hw'].
    - intros k Hk. rewrite Hf, F4. apply F2. exact Hk.
    - unfold sidecarWrites in *. rewrite C1, S4. exact S2.
    - intros Hw. unfold fileStats in *. rewrite C2, T4 by exact Hw. exact T2. }
  apply mapErr_Ok in H5.
  assert (C5 : sidecarWrites w5 = sidecarWrites w).
  { pose proof (fsRenameFile_countIO deps isSidecarWrite tmpPath putDataPath eq_refl w4)
      as C1.
    rewrite H5 in C1. cbn [snd] in C1. fold sidecarWrites in C1.
    rewrite C1, S4. exact S2. }
  assert (F5 : files w5 = <[fskey putDataPath := Bytes (rd_body data)]>
                            (delete (fskey tmpPath) (files w2))).
  { destruct (fsRenameFile_effect deps tmpPath putDataPath w4) as (_ & Hf).
    rewrite H5 in Hf. cbn in Hf. destruct Hf as (b & Hb & Hf). rewrite Hf, F4.
    rewrite F4, B2 in Hb. inversion Hb. reflexivity. }
  clear H5.
  assert (K5 : ∀ k, k ≠ fskey putDataPath → k ≠ fskey putMetaPath → k ≠ fskey tmpPath →
                    files w5 !! k = files w !! k).
  { intros k HkD HkS HkT. rewrite F5.
    rewrite lookup_insert_ne by congruence. rewrite lookup_delete_ne by congruence.
    apply F2. exact HkT. }
  assert (S5 : files w5 !! fskey putMetaPath = files w !! fskey putMetaPath).
  { rewrite F5. rewrite lookup_insert_ne by congruence.
    rewrite lookup_delete_ne by congruence. apply F2. congruence. }
  assert (D5 : files w5 !! fskey putDataPath = Some (Bytes (rd_body data))).
  { rewrite F5. apply lookup_insert_eq. }
  assert (T5 : files w5 !! fskey tmpPath = None).
  { rewrite F5. rewrite lookup_insert_ne by congruence. apply lookup_delete_eq. }
  apply bind_Err in H as [H|([] & w6 & H6 & H)].
  { (* the sidecar is not written *)
    destruct Hwlk as [->| ->]; [discriminate|].
    apply mapErr_Err in H as (e0 & H).
    pose proof (fsMeta_WriteTo_effect deps
                  (set_Meta (set_Meta (newFSMetaV1 deps) metadata)
                     (<["etag" := md5hex deps (rd_body data)]>
                        (Meta (set_Meta (newFSMetaV1 deps) metadata))))
                  putMetaPath w5) as Hf.
    rewrite H in Hf. cbn in Hf. destruct Hf as (Hfault & Hf).
    pose proof (fsMeta_WriteTo_counted
                  (set_Meta (set_Meta (newFSMetaV1 deps) metadata)
                     (<["etag" := md5hex deps (rd_body data)]>
                        (Meta (set_Meta (newFSMetaV1 deps) metadata))))
                  putMetaPath w5) as C6.
    rewrite H in C6. cbn [snd] in C6.
    apply (Hlate w3 Hw').
    - rewrite Hf. exact D5.
    - rewrite Hf. exact T5.
    - intros k HkD HkS HkT. rewrite Hf. apply K5; assumption.
    - discriminate.
    - intros _. rewrite C6, C5. reflexivity.
    - left. exact Hfault. }
  assert (F6 : files w6 !! fskey putDataPath = Some (Bytes (rd_body data))
               ∧ files w6 !! fskey tmpPath = None
               ∧ (∀ k, k ≠ fskey putDataPath → k ≠ fskey putMetaPath → k ≠ fskey tmpPath →
                       files w6 !! k = files w !! k)
               ∧ (wlk = None → files w6 !! fskey putMetaPath = files w !! fskey putMetaPath)
               ∧ (wlk = Some putMetaPath → sidecarWrites w6 = S (sidecarWrites w))).
  { destruct Hwlk as [->| ->].
    - inversion H6; subst w6. repeat split; auto. discriminate.
    - apply mapErr_Ok in H6.
      pose proof (fsMeta_WriteTo_counted
                    (set_Meta (set_Meta (newFSMetaV1 deps) metadata)
                       (<["etag" := md5hex deps (rd_body data)]>
                          (Meta (set_Meta (newFSMetaV1 deps) metadata))))
                    putMetaPath w5) as C6.
      rewrite H6 in C6. cbn [snd] in C6. rewrite C5 in C6.
      pose proof (fsMeta_WriteTo_effect deps
                    (set_Meta (set_Meta (newFSMetaV1 deps) metadata)
                       (<["etag" := md5hex deps (rd_body data)]>
                          (Meta (set_Meta (newFSMetaV1 deps) metadata))))
                    putMetaPath w5) as Hf.
      rewrite H6 in Hf. cbn in Hf. rewrite Hf.
      split; [rewrite lookup_insert_ne by congruence; exact D5|].
      split; [rewrite lookup_insert_ne by congruence; exact T5|].
      split; [|split; [discriminate|intros _; exact C6]].
      intros k HkD HkS HkT. rewrite lookup_insert_ne by congruence. apply K5; assumption. }
  destruct F6 as (D6 & T6 & K6 & S6 & C6). clear H6.
  apply bind_Err in H as [H|(fi & w7 & _ & H)]; [|discriminate].
  apply mapErr_Err in H as (e0 & H).
  destruct (fsStatFile_effect deps putDataPath w6) as (Hf & Hwhy).
  rewrite H in Hf, Hwhy. cbn in Hf, Hwhy.
  pose proof (fsStatFile_countIO deps isSidecarWrite putDataPath eq_refl w6) as C7.
  rewrite H in C7. cbn [snd] in C7. fold sidecarWrites in C7.
  apply (Hlate w3 Hw').
  - rewrite Hf. exact D6.
  - rewrite Hf. exact T6.
  - intros k HkD HkS HkT. rewrite Hf. apply K6; assumption.
  - intros Hn. rewrite Hf. apply S6. exact Hn.
  - intros Hw. rewrite C7. apply C6. exact Hw.
  - right. destruct Hwhy as [Hfault|Hnone]; [exact Hfault|congruence].
Qed.

Lemma GetLock_rndNext b o : preserves rndNext (GetLock b o).
Proof. prim. Qed.

Lemma parentDirIsObject_rndNext p :
  preserves rndNext (parentDirIsObject deps fs bucket p).
Proof. apply isParentDirObject_rndNext. Qed.

(** What a failed PutObject has made of the files of [w]. *)
Definition putFailure (tmpPath : string) (w w' : World) : Prop :=
  (ioFault deps (IORemoveFile tmpPath) = None → files w' !! fskey tmpPath = None)
  ∧ (∀ k, k ≠ fskey putDataPath → k ≠ fskey putMetaPath → k ≠ fskey tmpPath →
          files w' !! k = files w !! k)
  ∧ (ioFault deps (IODeleteFile putMetaDir putMetaPath) = None →
     files w !! fskey putMetaPath = None → files w' !! fskey putMetaPath = None)
  ∧ (ioFault deps (IOMetaWrite putMetaPath) = None →
     ioFault deps (IOStatFile putDataPath) = None →
     files w' !! fskey putDataPath = files w !! fskey putDataPath)
  ∧ (files w' !! fskey putDataPath = files w !! fskey putDataPath
     ∨ files w' !! fskey putDataPath = Some (Bytes (rd_body data)))
  ∧ (sidecarWrites w' ≠ sidecarWrites w →
     files w' !! fskey putDataPath = Some (Bytes (rd_body data)))
  ∧ (globalWORMEnabled deps = false → fileStats w' ≠ fileStats w →
     files w' !! fskey putDataPath = Some (Bytes (rd_body data)))
  ∧ (String.eqb bucket minioMetaBucket = false → sidecarWrites w' = sidecarWrites w →
     files w' !! fskey putDataPath = files w !! fskey putDataPath).

Lemma putFailure_same (tmpPath : string) (w w1 : World) :
  files w !! fskey tmpPath = None →
  files w1 = files w → sidecarWrites w1 = sidecarWrites w → fileStats w1 = fileStats w →
  putFailure tmpPath w w1.
Proof.
  intros HT Hfiles Hs Hf. unfold putFailure. rewrite Hfiles.
  split; [intros _; exact HT|]. split; [reflexivity|]. split; [auto|].
  split; [reflexivity|]. split; [left; reflexivity|].
  split; [intros; congruence|]. split; [intros; congruence|reflexivity].
Qed.

Lemma putObject_failure (w w' : World) (e : error) :
  let tmpPath := fsTmpObjPathOf fs (rndString deps (rndNext w)) in
  putObject deps fs bucket object data metadata w = (Err e, w') →
  fskey tmpPath ≠ fskey putDataPath →
  fskey tmpPath ≠ fskey putMetaPath →
  fskey putDataPath ≠ fskey putMetaPath →
  fskey putMetaPath ≠ fskey putMetaDir →
  files w !! fskey tmpPath = None →
  putFailure tmpPath w w'.
Proof.
  intros tmpPath H HTD HTS HDS HSB HT.
  pose proof (putFailure_same tmpPath w) as Hsame. specialize (fun w1 => Hsame w1 HT).
  unfold putObject in H. cbv zeta in H.
  pose proof (statBucketDir_files deps fs bucket w) as F1.
  pose proof (statBucketDir_rndNext w) as R1.
  pose proof (statBucketDir_countIO isSidecarWrite (fun _ => eq_refl) w) as S1.
  pose proof (statBucketDir_countIO isFileStat (fun _ => eq_refl) w) as T1.
  apply bind_Err in H as [H|(? & w1 & H1 & H)].
  { apply mapErr_Err in H as (e0 & H). rewrite H in F1, S1, T1.
    apply Hsame; assumption. }
  apply mapErr_Ok in H1. rewrite H1 in F1, R1, S1, T1. cbn in F1, R1, S1, T1. clear H1.
  destruct (isObjectDir object (rd_Size data)).
  { (* a directory object: no file is written *)
    match type of H with
    | ?m w1 = _ =>
        assert (X : preserves files m) by frame;
        assert (Y : preserves (countIO isSidecarWrite) m)
          by (frame; first [ apply isParentDirObject_countIO; reflexivity
                           | apply mkdirAll_countIO; reflexivity
                           | apply fsStatDir_countIO; reflexivity ]);
        assert (Z : preserves (countIO isFileStat) m)
          by (frame; first [ apply isParentDirObject_countIO; reflexivity
                           | apply mkdirAll_countIO; reflexivity
                           | apply fsStatDir_countIO; reflexivity ]);
        specialize (X w1); specialize (Y w1); specialize (Z w1)
    end.
    rewrite H in X, Y, Z. cbn in X, Y, Z.
    apply Hsame; [rewrite X; exact F1| |].
    - unfold sidecarWrites. rewrite Y. exact S1.
    - unfold fileStats. rewrite Z. exact T1. }
  apply bind_Err in H as [H|([] & w2 & H2 & H)].
  { unfold check in H. destruct (checkPutObjectArgs _ _ _ _ _); inversion H.
    subst. apply Hsame; assumption. }
  unfold check in H2. destruct (checkPutObjectArgs _ _ _ _ _); inversion H2. subst w2.
  clear H2.
  pose proof (parentDirIsObject_files deps fs bucket (GoPath.Dir object) w1) as F2.
  pose proof (parentDirIsObject_rndNext (GoPath.Dir object) w1) as R2.
  pose proof (isParentDirObject_countIO isSidecarWrite (S (String.length (GoPath.Dir object)))
                (fun _ => eq_refl) (GoPath.Dir object) w1) as S2.
  pose proof (isParentDirObject_countIO isFileStat (S (String.length (GoPath.Dir object)))
                (fun _ => eq_refl) (GoPath.Dir object) w1) as T2.
  fold (parentDirIsObject deps fs bucket (GoPath.Dir object)) in S2, T2.
  apply bind_Err in H as [H|(isObj & w2 & H2 & H)].
  { rewrite H in F2, S2, T2. cbn in F2, S2, T2.
    apply Hsame; [rewrite F2; exact F1| |].
    - unfold sidecarWrites in *. rewrite S2. exact S1.
    - unfold fileStats in *. rewrite T2. exact T1. }
  rewrite H2 in F2, R2, S2, T2. cbn in F2, R2, S2, T2.
  rewrite F1 in F2. rewrite R1 in R2.
  assert (S2' : sidecarWrites w2 = sidecarWrites w)
    by (unfold sidecarWrites in *; rewrite S2; exact S1).
  assert (T2' : fileStats w2 = fileStats w)
    by (unfold fileStats in *; rewrite T2; exact T1).
  clear H2 F1 R1 S1 T1 S2 T2 w1.
  destruct isObj; [inversion H; subst; apply Hsame; assumption|].
  destruct (rd_Size data <? 0); [inversion H; subst; apply Hsame; assumption|].
  fold putMetaDir in H. fold putMetaPath in H.
  destruct (bucket =? minioMetaBucket)%string eqn:Eb; cbn [negb] in H.
  { (* the meta bucket keeps no sidecar *)
    change (putObject_stream None w2 = (Err e, w')) in H.
    pose proof (putObject_stream_failure None w2 w' e) as X.
    cbv zeta in X. rewrite R2, F2 in X.
    destruct (X H (or_introl eq_refl) HTD HTS HDS HT)
      as (H1 & H2 & H3 & H4 & H5 & H6 & H7 & _).
    rewrite F2 in H2, H3, H4, H5. rewrite S2' in H6. rewrite T2' in H7.
    split; [exact H1|]. split; [exact H2|]. split.
    { intros _ Hn. rewrite H3 by reflexivity. exact Hn. }
    split; [exact H4|]. split; [exact H5|]. split; [exact H6|]. split; [exact H7|].
    intros Hb. congruence. }
  pose proof (rwPool_Create_effect deps putMetaPath w2) as (R3 & Hf).
  pose proof (rwPool_Create_countIO deps isSidecarWrite putMetaPath eq_refl w2) as S3.
  pose proof (rwPool_Create_countIO deps isFileStat putMetaPath eq_refl w2) as T3.
  apply bind_Err in H as [H|(lk & w3 & H3 & H)].
  { apply mapErr_Err in H as (e0 & H).
    rewrite H in Hf, S3, T3. cbn in Hf, S3, T3. apply Hsame.
    - rewrite Hf. exact F2.
    - unfold sidecarWrites in *. rewrite S3. exact S2'.
    - unfold fileStats in *. rewrite T3. exact T2'. }
  apply mapErr_Ok in H3.
  rewrite H3 in R3, Hf, S3, T3. cbn in R3, Hf, S3, T3. destruct Hf as (-> & _ & K3).
  clear H3.
  apply defer_inv in H as (w4 & H & ->).
  apply deferOnErr_Err in H as (w5 & H & ->).
  change (putObject_stream (Some putMetaPath) w3 = (Err e, w5)) in H.
  pose proof (putObject_stream_failure (Some putMetaPath) w3 w5 e) as X.
  cbv zeta in X. rewrite R3, R2 in X.
  destruct (X H (or_intror eq_refl) HTD HTS HDS)
    as (H1 & H2 & _ & H4 & H5 & H6 & H7 & H8).
  { rewrite K3 by exact HTS. rewrite F2. exact HT. }
  clear X.
  set (tmpDir := pathJoin [fsPath fs; minioMetaTmpBucket; fsUUID fs]).
  destruct (fsRemoveMeta_effect deps putMetaDir putMetaPath tmpDir w5 HSB)
    as (Mother & _ & Mgone).
  pose proof (fsRemoveMeta_countIO deps isSidecarWrite putMetaDir putMetaPath tmpDir
                eq_refl w5) as S6.
  pose proof (fsRemoveMeta_countIO deps isFileStat putMetaDir putMetaPath tmpDir
                eq_refl w5) as T6.
  pose proof (lockedFile_Close_countIO isSidecarWrite putMetaPath eq_refl
                (snd (fsRemoveMeta deps putMetaDir putMetaPath tmpDir w5))) as S7.
  pose proof (lockedFile_Close_countIO isFileStat putMetaPath eq_refl
                (snd (fsRemoveMeta deps putMetaDir putMetaPath tmpDir w5))) as T7.
  assert (SW : sidecarWrites (snd (lockedFile_Close putMetaPath
                 (snd (fsRemoveMeta deps putMetaDir putMetaPath tmpDir w5))))
               = sidecarWrites w5)
    by (unfold sidecarWrites; rewrite S7; exact S6).
  assert (FS : fileStats (snd (lockedFile_Close putMetaPath
                 (snd (fsRemoveMeta deps putMetaDir putMetaPath tmpDir w5))))
               = fileStats w5)
    by (unfold fileStats; rewrite T7; exact T6).
  assert (S3' : sidecarWrites w3 = sidecarWrites w)
    by (unfold sidecarWrites in *; rewrite S3; exact S2').
  assert (T3' : fileStats w3 = fileStats w)
    by (unfold fileStats in *; rewrite T3; exact T2').
  assert (D3 : files w3 !! fskey putDataPath = files w !! fskey putDataPath)
    by (rewrite K3 by assumption; rewrite F2; reflexivity).
  unfold putFailure. rewrite SW, FS. rewrite lockedFile_Close_files.
  split; [|split; [|split; [|split; [|split; [|split; [|split]]]]]].
  - intros Hr. rewrite Mother by congruence. apply H1. exact Hr.
  - intros k HkD HkS HkT. rewrite Mother by exact HkS.
    rewrite H2 by assumption. rewrite K3 by assumption. rewrite F2. reflexivity.
  - intros Hm _. apply Mgone. exact Hm.
  - intros Hm Hs. rewrite Mother by congruence. rewrite H4 by assumption. exact D3.
  - rewrite Mother by congruence. rewrite <- D3. exact H5.
  - intros Hne. rewrite Mother by congruence. apply H6. rewrite S3'. exact Hne.
  - intros Hw Hne. rewrite Mother by congruence. apply H7; [exact Hw|]. rewrite T3'.
    exact Hne.
  - intros _ Heq. rewrite Mother by congruence. rewrite H8; [exact D3|reflexivity|].
    rewrite S3'. exact Heq.
Qed.

(** C1 (as amended). After a PutObject that returned an error, with the
    temporary object, the object and its sidecar at three different
    paths and the temporary name fresh: every file other than the
    object, its sidecar and the temporary file is as it was; the
    cleanup is attempted and its results are dropped, so no temporary
    file is left when its removal does not fail, and a sidecar that was
    absent is absent when its removal does not fail; the object's file
    is as it was or holds the bytes of the request, and it is as it was
    unless the failure came after the rename, from the write of the
    sidecar or from the final stat; once the call has reached the write
    of the sidecar (or, without WORM, the final stat), which come after
    the rename, the bytes of the request stay at the key; and in a
    bucket other than the meta bucket the object's file is as it was
    when the call has not reached the write of the sidecar. *)
Theorem PutObject_failure_effect (w w' : World) (e : error) :
  PutObject deps fs bucket object data metadata w = (Err e, w') →
  fskey (putTmpPath w) ≠ fskey putDataPath →
  fskey (putTmpPath w) ≠ fskey putMetaPath →
  fskey putDataPath ≠ fskey putMetaPath →
  fskey putMetaPath ≠ fskey putMetaDir →
  files w !! fskey (putTmpPath w) = None →
  (ioFault deps (IORemoveFile (putTmpPath w)) = None →
   files w' !! fskey (putTmpPath w) = None)
  ∧ (∀ k, k ≠ fskey putDataPath → k ≠ fskey putMetaPath → k ≠ fskey (putTmpPath w) →
          files w' !! k = files w !! k)
  ∧ (ioFault deps (IODeleteFile putMetaDir putMetaPath) = None →
     files w !! fskey putMetaPath = None → files w' !! fskey putMetaPath = None)
  ∧ (ioFault deps (IOMetaWrite putMetaPath) = None →
     ioFault deps (IOStatFile putDataPath) = None →
     files w' !! fskey putDataPath = files w !! fskey putDataPath)
  ∧ (files w' !! fskey putDataPath = files w !! fskey putDataPath
     ∨ files w' !! fskey putDataPath = Some (Bytes (rd_body data)))
  ∧ (sidecarWrites w' ≠ sidecarWrites w →
     files w' !! fskey putDataPath = Some (Bytes (rd_body data)))
  ∧ (globalWORMEnabled deps = false → fileStats w' ≠ fileStats w →
     files w' !! fskey putDataPath = Some (Bytes (rd_body data)))
  ∧ (String.eqb bucket minioMetaBucket = false → sidecarWrites w' = sidecarWrites w →
     files w' !! fskey putDataPath = files w !! fskey putDataPath).
Proof.
  intros H HTD HTS HDS HSB HT.
  change (putFailure (putTmpPath w) w w').
  pose proof (putFailure_same (putTmpPath w) w) as Hsame.
  specialize (fun w1 => Hsame w1 HT).
  unfold PutObject in H.
  apply bind_Err in H as [H|([] & w1 & H1 & H)].
  { unfold check in H. destruct (checkPutObjectArgs _ _ _ _ _); inversion H.
    subst. apply Hsame; reflexivity. }
  unfold check in H1. destruct (checkPutObjectArgs _ _ _ _ _); inversion H1. subst w1.
  clear H1.
  pose proof (GetLock_files bucket object w) as F1.
  pose proof (GetLock_rndNext bucket object w) as R1.
  pose proof (GetLock_countIO isSidecarWrite bucket object w) as S1.
  pose proof (GetLock_countIO isFileStat bucket object w) as T1.
  apply bind_Err in H as [H|([] & w1 & H1 & H)].
  { rewrite H in F1, S1, T1. apply Hsame; assumption. }
  rewrite H1 in F1, R1, S1, T1. cbn in F1, R1, S1, T1. clear H1.
  apply defer_inv in H as (w2 & H & ->).
  pose proof (putObject_failure w1 w2 e) as X. cbv zeta in X.
  rewrite R1, F1 in X.
  destruct (X H HTD HTS HDS HSB HT) as (H1 & H2 & H3 & H4 & H5 & H6 & H7 & H8). clear X.
  rewrite F1 in H2, H3, H4, H5.
  pose proof (Unlock_countIO isSidecarWrite bucket object w2) as S2.
  pose proof (Unlock_countIO isFileStat bucket object w2) as T2.
  unfold putFailure. rewrite Unlock_files.
  fold sidecarWrites in S1, S2. fold fileStats in T1, T2. rewrite S2, T2.
  rewrite S1 in H6, H8. rewrite T1 in H7. rewrite F1 in H8.
  split; [exact H1|]. split; [exact H2|]. split; [exact H3|]. split; [exact H4|].
  split; [exact H5|]. split; [exact H6|]. split; [exact H7|exact H8].
Qed.

End PutFailure.

(** A body shorter than the declared size: IncompleteBody, before the
    rename. *)
Lemma PutObject_failure_effect_witness :
  fst (PutObject (Demo.deps Demo.noFaults false) Demo.fs "b1" "hello"
         (mkReader 5 "new" None) ∅ Demo.world) = Err IncompleteBody
  ∧ files (snd (PutObject (Demo.deps Demo.noFaults false) Demo.fs "b1" "hello"
                  (mkReader 5 "new" None) ∅ Demo.world))
      !! "/export/.minio.sys/tmp/srv/uuid0" = None
  ∧ files (snd (PutObject (Demo.deps Demo.noFaults false) Demo.fs "b1" "hello"
                  (mkReader 5 "new" None) ∅ Demo.world))
      !! "/export/b1/hello" = Some (Bytes "hi")
  ∧ files (snd (PutObject (Demo.deps Demo.noFaults false) Demo.fs "b1" "hello"
                  (mkReader 5 "new" None) ∅ Demo.world))
      !! "/export/b1/docs/a.txt" = Some (Bytes "plain").
Proof.
  assert (E : fst (PutObject (Demo.deps Demo.noFaults false) Demo.fs "b1" "hello"
                     (mkReader 5 "new" None) ∅ Demo.world) = Err IncompleteBody)
    by (vm_compute; reflexivity).
  destruct (PutObject_failure_effect (Demo.deps Demo.noFaults false) Demo.fs "b1" "hello"
              (mkReader 5 "new" None) ∅ Demo.world
              (snd (PutObject (Demo.deps Demo.noFaults false) Demo.fs "b1" "hello"
                      (mkReader 5 "new" None) ∅ Demo.world))
              IncompleteBody)
    as (HT & Hk & _ & HD & _).
  - rewrite <- E. apply surjective_pairing.
  - vm_compute. discriminate.
  - vm_compute. discriminate.
  - vm_compute. discriminate.
  - vm_compute. discriminate.
  - vm_compute. reflexivity.
  - split; [exact E|]. split; [exact (HT eq_refl)|]. split.
    + transitivity (files Demo.world !! fskey (putDataPath Demo.fs "b1" "hello"));
        [exact (HD eq_refl eq_refl)|vm_compute; reflexivity].
    + transitivity (files Demo.world !! "/export/b1/docs/a.txt");
        [|vm_compute; reflexivity].
      apply Hk; vm_compute; discriminate.
Defined.

(** C1, as stated, fails: when the write of the sidecar fails, the
    object has already been renamed into place; the call returns the
    error and the new bytes stay where the old ones were. *)
Lemma PutObject_failed_sidecar_write_replaces_object :
  fst (PutObject
         (Demo.deps (Demo.failingAt
                       (IOMetaWrite "/export/.minio.sys/buckets/b1/hello/fs.json")
                       (OtherError "disk full")) false)
         Demo.fs "b1" "hello" (mkReader 3 "new" None) ∅ Demo.world)
  = Err (OtherError "disk full")
  ∧ files Demo.world !! "/export/b1/hello" = Some (Bytes "hi")
  ∧ files (snd (PutObject
                  (Demo.deps (Demo.failingAt
                                (IOMetaWrite "/export/.minio.sys/buckets/b1/hello/fs.json")
                                (OtherError "disk full")) false)
                  Demo.fs "b1" "hello" (mkReader 3 "new" None) ∅ Demo.world))
      !! "/export/b1/hello" = Some (Bytes "new").
Proof. vm_compute. repeat split; reflexivity. Qed.

(** ** The etag of a sidecar *)

(** The etag a sidecar holds. *)
Definition storedETag (w : World) (p : string) : option string :=
  match files w !! fskey p with
  | Some (FsJSON m) => Meta m !! "etag"
  | _ => None
  end.

(** ** A metadata update through CopyObject *)

Section MetadataCopy.

Context (deps : Deps) (fs : FSObjects).

Lemma ioCalls_io (evs : list Event) (c : IOCall) :
  ioCalls (evs ++ [EvIO c]) = (ioCalls evs ++ [c])%list.
Proof. unfold ioCalls. rewrite omap_app. reflexivity. Qed.

(** The helpers of a metadata update, when they succeed: the files and
    the log after them. *)
Lemma GetLock_Ok (b o : string) (w w1 : World) :
  GetLock b o w = (Ok tt, w1) →
  files w1 = files w ∧ events w1 = (events w ++ [EvLock b o])%list.
Proof.
  unfold GetLock. destruct (nsLocks w !! (b, o)); intros H; inversion H. split; reflexivity.
Qed.

Lemma statBucketDir_Ok (bucket : string) (fi : FileInfo) (w w1 : World) :
  statBucketDir deps fs bucket w = (Ok fi, w1) →
  files w1 = files w
  ∧ events w1 = (events w ++ [EvIO (IOStatVolume (pathJoin [fsPath fs; bucket]))])%list.
Proof.
  unfold statBucketDir, getBucketDir, bind, lift.
  destruct (_ || _); [discriminate|].
  unfold fsStatVolume, io. destruct (ioFault deps _); [discriminate|].
  destruct (isDirectory _ _); [|destruct (isRegular _ _); discriminate].
  intros H; inversion H. split; reflexivity.
Qed.

Lemma rwPool_Write_Ok (p lk : string) (w w1 : World) :
  rwPool_Write deps p w = (Ok lk, w1) →
  lk = p ∧ files w1 = files w ∧ events w1 = (events w ++ [EvIO (IOPoolWrite p)])%list.
Proof.
  unfold rwPool_Write, io. destruct (ioFault deps _); [discriminate|].
  destruct (isRegular _ _); [|destruct (isDirectory _ _); discriminate].
  intros H; inversion H. repeat split; reflexivity.
Qed.

Lemma fsMeta_ReadFrom_Ok (lk : string) (m : fsMetaV1) (w w1 : World) :
  fsMeta_ReadFrom deps lk w = (Ok m, w1) →
  files w !! fskey lk = Some (FsJSON m)
  ∧ files w1 = files w ∧ events w1 = (events w ++ [EvIO (IOMetaRead lk)])%list.
Proof.
  unfold fsMeta_ReadFrom, io. destruct (ioFault deps _); [discriminate|]. cbn.
  destruct (files w !! fskey lk) as [[s|m']|]; try discriminate.
  - destruct (String.eqb s ""); discriminate.
  - destruct (isFSMetaValid deps _); [|discriminate].
    intros H; inversion H. repeat split; reflexivity.
Qed.

Lemma fsMeta_WriteTo_Ok (m : fsMetaV1) (lk : string) (w w1 : World) :
  fsMeta_WriteTo deps m lk w = (Ok tt, w1) →
  files w1 = <[fskey lk := FsJSON m]> (files w)
  ∧ events w1 = (events w ++ [EvIO (IOMetaWrite lk)])%list.
Proof.
  unfold fsMeta_WriteTo, io. destruct (ioFault deps _); [discriminate|].
  intros H; inversion H. split; reflexivity.
Qed.

Lemma fsStatFile_Ok (p : string) (fi : FileInfo) (w w1 : World) :
  fsStatFile deps p w = (Ok fi, w1) →
  is_Some (files w !! fskey p)
  ∧ files w1 = files w ∧ events w1 = (events w ++ [EvIO (IOStatFile p)])%list.
Proof.
  unfold fsStatFile, io. destruct (ioFault deps _); [discriminate|]. cbn.
  destruct (files w !! fskey p); [|destruct (isDirectory _ _); discriminate].
  intros H; inversion H. repeat split; eauto.
Qed.

Lemma CopyObject_metadataOnly_effect (bucket object : string) (srcInfo oi : ObjectInfo)
    (w w' : World) :
  metadataOnly srcInfo = true →
  CopyObject deps fs bucket object bucket object srcInfo w = (Ok oi, w') →
  ∃ old userDefined,
    files w !! fskey (fsMetaPathOf fs bucket object) = Some (FsJSON old)
    ∧ UserDefined srcInfo = Some userDefined
    ∧ files w'
      = <[fskey (fsMetaPathOf fs bucket object)
          := FsJSON (set_Meta old (<["etag" := ETag srcInfo]> userDefined))]> (files w)
    ∧ ioCalls (events w')
      = (ioCalls (events w)
         ++ [IOStatVolume (pathJoin [fsPath fs; bucket]);
             IOPoolWrite (fsMetaPathOf fs bucket object);
             IOMetaRead (fsMetaPathOf fs bucket object);
             IOMetaWrite (fsMetaPathOf fs bucket object);
             IOStatFile (pathJoin [fsPath fs; bucket; object]);
             IOPoolClose (fsMetaPathOf fs bucket object)])%list.
Proof.
  intros Hmo H. unfold CopyObject in H. cbv zeta in H.
  unfold isStringEqual in H. rewrite String.eqb_refl, Hmo in H. cbn [negb andb] in H.
  apply bind_Ok in H as ([] & w1 & H1 & H).
  apply defer_inv in H as (w2 & H & ->).
  apply bind_Ok in H as (fi0 & w3 & H3 & H). apply mapErr_Ok in H3.
  apply bind_Ok in H as (wlk & w4 & H4 & H). apply mapErr_Ok in H4.
  apply defer_inv in H as (w5 & H & ->).
  apply bind_Ok in H as (old & w6 & H6 & H). apply mapErr_Ok in H6.
  destruct (UserDefined srcInfo) as [userDefined|] eqn:Eud; [|discriminate].
  apply bind_Ok in H as ([] & w7 & H7 & H). apply mapErr_Ok in H7.
  apply bind_Ok in H as (fi & w8 & H8 & H). apply mapErr_Ok in H8.
  inversion H; subst oi w8; clear H.
  apply GetLock_Ok in H1 as (F1 & E1).
  apply statBucketDir_Ok in H3 as (F3 & E3).
  apply rwPool_Write_Ok in H4 as (-> & F4 & E4).
  apply fsMeta_ReadFrom_Ok in H6 as (Hold & F6 & E6).
  apply fsMeta_WriteTo_Ok in H7 as (F7 & E7).
  apply fsStatFile_Ok in H8 as (_ & F8 & E8).
  exists old, userDefined.
  split; [rewrite <- F1, <- F3, <- F4; exact Hold|]. split; [reflexivity|].
  split.
  - cbn. rewrite F8, F7, F6, F4, F3, F1. reflexivity.
  - cbn. rewrite E8, E7, E6, E4, E3, E1.
    rewrite ioCalls_lock by reflexivity. rewrite !ioCalls_io.
    rewrite ioCalls_lock by reflexivity. rewrite <- !app_assoc. reflexivity.
Qed.
(** C2 (as amended). A CopyObject of an object onto itself with
    [metadataOnly] set that succeeds makes six helper calls, none of
    which writes the data file, and changes one file, the sidecar: its
    [meta] becomes the user metadata of [srcInfo] with the key "etag"
    set to the etag of [srcInfo].  So the etag stored before is the etag
    stored after when it is the one [srcInfo] carries. *)
Theorem CopyObject_metadataOnly_same (bucket object : string) (srcInfo oi : ObjectInfo)
    (w w' : World) :
  metadataOnly srcInfo = true →
  CopyObject deps fs bucket object bucket object srcInfo w = (Ok oi, w') →
  (∀ k, k ≠ fskey (fsMetaPathOf fs bucket object) → files w' !! k = files w !! k)
  ∧ ioCalls (events w')
    = (ioCalls (events w)
       ++ [IOStatVolume (pathJoin [fsPath fs; bucket]);
           IOPoolWrite (fsMetaPathOf fs bucket object);
           IOMetaRead (fsMetaPathOf fs bucket object);
           IOMetaWrite (fsMetaPathOf fs bucket object);
           IOStatFile (pathJoin [fsPath fs; bucket; object]);
           IOPoolClose (fsMetaPathOf fs bucket object)])%list
  ∧ (∃ old userDefined,
       files w !! fskey (fsMetaPathOf fs bucket object) = Some (FsJSON old)
       ∧ UserDefined srcInfo = Some userDefined
       ∧ files w' !! fskey (fsMetaPathOf fs bucket object)
         = Some (FsJSON (set_Meta old (<["etag" := ETag srcInfo]> userDefined))))
  ∧ storedETag w' (fsMetaPathOf fs bucket object) = Some (ETag srcInfo)
  ∧ (storedETag w (fsMetaPathOf fs bucket object) = Some (ETag srcInfo) →
     storedETag w' (fsMetaPathOf fs bucket object)
     = storedETag w (fsMetaPathOf fs bucket object)).
Proof.
  intros Hmo H.
  destruct (CopyObject_metadataOnly_effect bucket object srcInfo oi w w' Hmo H)
    as (old & userDefined & Hold & Hud & Hfiles & Hcalls).
  assert (Hnew : files w' !! fskey (fsMetaPathOf fs bucket object)
                 = Some (FsJSON (set_Meta old (<["etag" := ETag srcInfo]> userDefined)))).
  { rewrite Hfiles. apply lookup_insert_eq. }
  assert (Hetag : storedETag w' (fsMetaPathOf fs bucket object) = Some (ETag srcInfo)).
  { unfold storedETag. rewrite Hnew. cbn. apply lookup_insert_eq. }
  split; [intros k Hk; rewrite Hfiles; apply lookup_insert_ne; congruence|].
  split; [exact Hcalls|].
  split; [exists old, userDefined; auto|].
  split; [exact Hetag|].
  intros Hsame. rewrite Hetag, Hsame. reflexivity.
Qed.

End MetadataCopy.

(** The [srcInfo] of a metadata update of [hello] that carries [etag]. *)
Definition metadataInfo (etag : string) : ObjectInfo :=
  {| Bucket := "b1"; Name := "hello"; Size := 2; IsDir := false; ETag := etag;
     ContentType := ""; UserDefined := Some {[ "x-amz-meta-foo" := "bar" ]};
     oi_Parts := []; metadataOnly := true; oi_ReaderSize := 2 |}.

Definition okOr {A} (d : A) (r : Res error A) : A :=
  match r with Ok a => a | _ => d end.

Lemma CopyObject_metadataOnly_same_witness :
  files (snd (CopyObject (Demo.deps Demo.noFaults false) Demo.fs
                "b1" "hello" "b1" "hello" (metadataInfo "md5(hi)") Demo.world))
    !! "/export/b1/hello"
  = files Demo.world !! "/export/b1/hello"
  ∧ storedETag (snd (CopyObject (Demo.deps Demo.noFaults false) Demo.fs
                       "b1" "hello" "b1" "hello" (metadataInfo "md5(hi)") Demo.world))
      "/export/.minio.sys/buckets/b1/hello/fs.json"
    = storedETag Demo.world "/export/.minio.sys/buckets/b1/hello/fs.json".
Proof.
  destruct (CopyObject_metadataOnly_same (Demo.deps Demo.noFaults false) Demo.fs
              "b1" "hello" (metadataInfo "md5(hi)")
              (okOr (metadataInfo "")
                 (fst (CopyObject (Demo.deps Demo.noFaults false) Demo.fs
                         "b1" "hello" "b1" "hello" (metadataInfo "md5(hi)") Demo.world)))
              Demo.world
              (snd (CopyObject (Demo.deps Demo.noFaults false) Demo.fs
                      "b1" "hello" "b1" "hello" (metadataInfo "md5(hi)") Demo.world)))
    as (Hk & _ & _ & _ & Hsame).
  - reflexivity.
  - vm_compute. reflexivity.
  - split; [apply Hk; vm_compute; discriminate|]. apply Hsame. vm_compute. reflexivity.
Defined.

(** C2, as stated, fails: the etag written is the one [srcInfo] carries,
    whatever the sidecar held. *)
Lemma CopyObject_metadataOnly_overwrites_etag :
  (∃ oi, fst (CopyObject (Demo.deps Demo.noFaults false) Demo.fs
                "b1" "hello" "b1" "hello" (metadataInfo "xyz") Demo.world) = Ok oi)
  ∧ storedETag Demo.world "/export/.minio.sys/buckets/b1/hello/fs.json" = Some "md5(hi)"
  ∧ storedETag (snd (CopyObject (Demo.deps Demo.noFaults false) Demo.fs
                       "b1" "hello" "b1" "hello" (metadataInfo "xyz") Demo.world))
      "/export/.minio.sys/buckets/b1/hello/fs.json" = Some "xyz".
Proof.
  split; [eexists; vm_compute; reflexivity|]. split; vm_compute; reflexivity.
Qed.

(** ** GetObjectInfo on a corrupt sidecar *)

Section SidecarRepair.

Context (deps : Deps) (fs : FSObjects).





End SidecarRepair.





(** ** The namespace locks after an operation *)

Lemma mkdirAllIn_nsLocks (p : string) (w w' : World) :
  mkdirAllIn p w = Some w' → nsLocks w' = nsLocks w.
Proof. unfold mkdirAllIn. destruct (existsb _ _); intros H; inversion H; reflexivity. Qed.

Lemma pruneDirs_nsLocks (fuel : nat) :
  ∀ base p w, nsLocks (pruneDirs fuel base p w) = nsLocks w.
Proof.
  induction fuel as [|n IH]; intros base p w; simpl; [reflexivity|].
  destruct (_ || _); [reflexivity|].
  destruct (isDirectory w p); [|reflexivity].
  destruct (childrenOf w p); [|reflexivity]. rewrite IH. reflexivity.
Qed.

(** A helper is unfolded and its cases are run, for the locks. *)
Ltac prim_locks :=
  intros w; autounfold with helpers; cbn;
  repeat (first [ progress cbn
                | rewrite pruneDirs_nsLocks
                | match goal with
                  | H : mkdirAllIn _ _ = Some _ |- _ =>
                      let H1 := fresh in
                      pose proof (mkdirAllIn_nsLocks _ _ _ H) as H1;
                      clear H; cbn in H1
                  | H : nsLocks ?a = _ |- context [nsLocks ?a] => rewrite H
                  | |- context [match ?x with _ => _ end] => destruct x eqn:?
                  end ]);
  try reflexivity.

Section HelperLocks.

Context (deps : Deps).

Lemma fsStatVolume_nsLocks p : preserves nsLocks (fsStatVolume deps p).
Proof. prim_locks. Qed.
Lemma fsMkdir_nsLocks p : preserves nsLocks (fsMkdir deps p).
Proof. prim_locks. Qed.
Lemma fsRemoveDir_nsLocks p : preserves nsLocks (fsRemoveDir deps p).
Proof. prim_locks. Qed.
Lemma fsRemoveAll_nsLocks p : preserves nsLocks (fsRemoveAll deps p).
Proof. prim_locks. Qed.
Lemma fsStatFile_nsLocks p : preserves nsLocks (fsStatFile deps p).
Proof. prim_locks. Qed.
Lemma fsStatDir_nsLocks p : preserves nsLocks (fsStatDir deps p).
Proof. prim_locks. Qed.
Lemma fsIsFile_nsLocks p : preserves nsLocks (fsIsFile deps p).
Proof. prim_locks. Qed.
Lemma fsIsDir_nsLocks p : preserves nsLocks (fsIsDir deps p).
Proof. prim_locks. Qed.
Lemma mkdirAll_nsLocks p : preserves nsLocks (mkdirAll deps p).
Proof. prim_locks. Qed.
Lemma fsCreateFile_nsLocks p d : preserves nsLocks (fsCreateFile deps p d).
Proof. prim_locks. Qed.
Lemma fsRemoveFile_nsLocks p : preserves nsLocks (fsRemoveFile deps p).
Proof. prim_locks. Qed.
Lemma fsRenameFile_nsLocks p q : preserves nsLocks (fsRenameFile deps p q).
Proof. prim_locks. Qed.
Lemma fsDeleteFile_nsLocks b p : preserves nsLocks (fsDeleteFile deps b p).
Proof. prim_locks. Qed.
Lemma fsRemoveMeta_nsLocks b p t : preserves nsLocks (fsRemoveMeta deps b p t).
Proof. prim_locks. Qed.
Lemma fsOpenFile_nsLocks p o : preserves nsLocks (fsOpenFile deps p o).
Proof. prim_locks. Qed.
Lemma readDirN_nsLocks p n : preserves nsLocks (readDirN deps p n).
Proof. prim_locks. Qed.
Lemma rwPool_Open_nsLocks p : preserves nsLocks (rwPool_Open deps p).
Proof. prim_locks. Qed.
Lemma rwPool_Write_nsLocks p : preserves nsLocks (rwPool_Write deps p).
Proof. prim_locks. Qed.
Lemma rwPool_Create_nsLocks p : preserves nsLocks (rwPool_Create deps p).
Proof. prim_locks. Qed.
Lemma rwPool_Close_nsLocks p : preserves nsLocks (rwPool_Close p).
Proof. prim_locks. Qed.
Lemma lockedFile_Close_nsLocks p : preserves nsLocks (lockedFile_Close p).
Proof. prim_locks. Qed.
Lemma fsMeta_ReadFrom_nsLocks p : preserves nsLocks (fsMeta_ReadFrom deps p).
Proof. prim_locks. Qed.
Lemma fsMeta_WriteTo_nsLocks m p : preserves nsLocks (fsMeta_WriteTo deps m p).
Proof. prim_locks. Qed.
Lemma mustGetUUID_nsLocks : preserves nsLocks (mustGetUUID deps).
Proof. prim_locks. Qed.
Lemma GenETag_nsLocks : preserves nsLocks (GenETag deps).
Proof. prim_locks. Qed.
Lemma listPool_Release_nsLocks p : preserves nsLocks (listPool_Release p).
Proof. prim_locks. Qed.
Lemma listPool_Set_nsLocks p ch : preserves nsLocks (listPool_Set p ch).
Proof. prim_locks. Qed.
Lemma deleteBucketMetadata_nsLocks b : preserves nsLocks (deleteBucketMetadata b).
Proof. prim_locks. Qed.

End HelperLocks.

#[global] Hint Resolve fsStatVolume_nsLocks fsMkdir_nsLocks fsRemoveDir_nsLocks
  fsRemoveAll_nsLocks fsStatFile_nsLocks fsStatDir_nsLocks fsIsFile_nsLocks fsIsDir_nsLocks
  mkdirAll_nsLocks fsCreateFile_nsLocks fsRemoveFile_nsLocks fsRenameFile_nsLocks
  fsDeleteFile_nsLocks fsRemoveMeta_nsLocks fsOpenFile_nsLocks readDirN_nsLocks
  rwPool_Open_nsLocks rwPool_Write_nsLocks rwPool_Create_nsLocks rwPool_Close_nsLocks
  lockedFile_Close_nsLocks fsMeta_ReadFrom_nsLocks fsMeta_WriteTo_nsLocks
  mustGetUUID_nsLocks GenETag_nsLocks listPool_Release_nsLocks listPool_Set_nsLocks
  deleteBucketMetadata_nsLocks : frames.

Section LockPairs.

(** A write lock taken and released around a body that leaves the locks
    alone: the locks are as before, whether the lock was granted or not. *)
Lemma locked_nsLocks {A} (bucket object : string) (body : M A) :
  preserves nsLocks body →
  preserves nsLocks (do GetLock bucket object in defer (Unlock bucket object) body).
Proof.
  intros Hb w. unfold bind, GetLock.
  destruct (nsLocks w !! (bucket, object)) eqn:E; [reflexivity|].
  unfold defer.
  match goal with |- context [body ?w1] => specialize (Hb w1); destruct (body w1) as [r w2] end.
  cbn in *. rewrite Hb. apply delete_insert_id. exact E.
Qed.

(** The same for a read lock: the count of readers is what it was. *)
Lemma rlocked_nsLocks {A} (bucket object : string) (body : M A) :
  preserves nsLocks body →
  preserves nsLocks (do GetRLock bucket object in defer (RUnlock bucket object) body).
Proof.
  intros Hb w. unfold bind, GetRLock.
  destruct (nsLocks w !! (bucket, object)) as [[|n]|] eqn:E; [reflexivity| |].
  - unfold defer.
    match goal with |- context [body ?w1] => specialize (Hb w1); destruct (body w1) as [r w2] end.
    cbn in *. rewrite Hb. rewrite lookup_insert_eq. cbn.
    rewrite insert_insert_eq. apply insert_id. exact E.
  - unfold defer.
    match goal with |- context [body ?w1] => specialize (Hb w1); destruct (body w1) as [r w2] end.
    cbn in *. rewrite Hb. rewrite lookup_insert_eq. cbn.
    apply delete_insert_id. exact E.
Qed.

End LockPairs.

Section OperationLocks.

Context (deps : Deps) (fs : FSObjects).

Lemma statBucketDir_nsLocks bucket : preserves nsLocks (statBucketDir deps fs bucket).
Proof. unfold statBucketDir. frame. Qed.

Lemma isParentDirObject_nsLocks fuel :
  ∀ bucket p, preserves nsLocks (isParentDirObject deps fs fuel bucket p).
Proof. induction fuel as [|n IH]; intros bucket p; simpl; frame. Qed.

Lemma parentDirIsObject_nsLocks bucket p :
  preserves nsLocks (parentDirIsObject deps fs bucket p).
Proof. apply isParentDirObject_nsLocks. Qed.

Hint Resolve statBucketDir_nsLocks parentDirIsObject_nsLocks : frames.

Lemma fs_isObjectDir_nsLocks bucket prefix :
  preserves nsLocks (fs_isObjectDir deps fs bucket prefix).
Proof. unfold fs_isObjectDir. frame. Qed.

Lemma getObjectETag_nsLocks bucket entry lock :
  preserves nsLocks (getObjectETag deps fs bucket entry lock).
Proof. unfold getObjectETag. frame. Qed.

Hint Resolve fs_isObjectDir_nsLocks getObjectETag_nsLocks : frames.

Lemma getObject_nsLocks bucket object offset length writer etag lock :
  preserves nsLocks (getObject deps fs bucket object offset length writer etag lock).
Proof. unfold getObject. frame. Qed.

Lemma putObject_nsLocks bucket object data metadata :
  preserves nsLocks (putObject deps fs bucket object data metadata).
Proof. unfold putObject. frame. Qed.

Lemma getObjectInfo_nsLocks bucket object :
  preserves nsLocks (getObjectInfo deps fs bucket object).
Proof. unfold getObjectInfo. frame. Qed.

Lemma createFsJSON_nsLocks object p : preserves nsLocks (createFsJSON deps object p).
Proof. unfold createFsJSON. frame. Qed.

Hint Resolve getObject_nsLocks putObject_nsLocks getObjectInfo_nsLocks
  createFsJSON_nsLocks : frames.

Lemma getObjectInfoWithLock_nsLocks bucket object :
  preserves nsLocks (getObjectInfoWithLock deps fs bucket object).
Proof. unfold getObjectInfoWithLock. apply rlocked_nsLocks. frame. Qed.

Lemma entryToObjectInfo_nsLocks bucket entry :
  preserves nsLocks (entryToObjectInfo deps fs bucket entry).
Proof. unfold entryToObjectInfo. apply rlocked_nsLocks. frame. Qed.

Hint Resolve getObjectInfoWithLock_nsLocks entryToObjectInfo_nsLocks : frames.

Lemma listLoop_nsLocks n :
  ∀ bucket prefix loi ch objInfos nextMarker,
    preserves nsLocks (listLoop deps fs n bucket prefix loi ch objInfos nextMarker).
Proof.
  induction n as [|n IH]; intros bucket prefix loi ch objInfos nextMarker; simpl; frame.
Qed.

Hint Resolve listLoop_nsLocks : frames.

Lemma MakeBucketWithLocation_nsLocks bucket location :
  preserves nsLocks (MakeBucketWithLocation deps fs bucket location).
Proof. unfold MakeBucketWithLocation. apply locked_nsLocks. frame. Qed.

Lemma GetBucketInfo_nsLocks bucket : preserves nsLocks (GetBucketInfo deps fs bucket).
Proof. unfold GetBucketInfo. apply rlocked_nsLocks. frame. Qed.

Lemma DeleteBucket_nsLocks bucket : preserves nsLocks (DeleteBucket deps fs bucket).
Proof. unfold DeleteBucket. apply locked_nsLocks. frame. Qed.

Lemma PutObject_nsLocks bucket object data metadata :
  preserves nsLocks (PutObject deps fs bucket object data metadata).
Proof.
  unfold PutObject. apply preserves_bind; [apply preserves_check|intros _].
  apply locked_nsLocks. frame.
Qed.

Lemma GetObject_nsLocks bucket object offset length writer etag objInfo :
  preserves nsLocks (GetObject deps fs bucket object offset length writer etag objInfo).
Proof.
  unfold GetObject. apply preserves_bind; [apply preserves_check|intros _].
  apply rlocked_nsLocks. frame.
Qed.

Lemma DeleteObject_nsLocks bucket object :
  preserves nsLocks (DeleteObject deps fs bucket object).
Proof. unfold DeleteObject. apply locked_nsLocks. frame. Qed.

Lemma CopyObject_nsLocks srcBucket srcObject dstBucket dstObject srcInfo :
  preserves nsLocks (CopyObject deps fs srcBucket srcObject dstBucket dstObject srcInfo).
Proof.
  unfold CopyObject. cbv zeta. apply locked_nsLocks.
  destruct (negb _); [apply rlocked_nsLocks|]; frame.
Qed.

Lemma createFsJSON_no_panic object p (w : World) (msg : string) :
  fst (createFsJSON deps object p w) ≠ Panic msg.
Proof.
  unfold createFsJSON, GenETag, mustGetUUID. cbv zeta. unfold bind at 1 2, ret at 1.
  cbn [fst snd]. unfold bind at 1, try at 1.
  match goal with
  | |- context [rwPool_Create deps p ?w1] =>
      pose proof (rwPool_Create_effect deps p w1) as (_ & Hc);
      destruct (rwPool_Create deps p w1) as [[lk|e|m] w2]
  end; cbn in Hc; [|discriminate|contradiction].
  unfold bind at 1, try at 1.
  match goal with
  | |- context [fsMeta_WriteTo deps ?m p ?w1] => idtac
  | |- context [fsMeta_WriteTo deps ?m lk ?w1] =>
      pose proof (fsMeta_WriteTo_effect deps m lk w1) as Hw;
      destruct (fsMeta_WriteTo deps m lk w1) as [[[]|e|m'] w3]
  end; cbn in Hw; [| |contradiction]; cbn; discriminate.
Qed.

Lemma GetObjectInfo_nsLocks bucket object :
  preserves nsLocks (GetObjectInfo deps fs bucket object).
Proof.
  unfold GetObjectInfo. intros w. unfold bind at 1, try at 1.
  pose proof (getObjectInfoWithLock_nsLocks bucket object w) as H1.
  destruct (getObjectInfoWithLock deps fs bucket object w) as [[oi|err|msg] w1];
    cbn in H1; [exact H1| |exact H1].
  destruct (decide _); [|exact H1].
  unfold bind at 1, toErr at 1, mapErr at 1, GetLock.
  destruct (nsLocks w1 !! (bucket, object)) eqn:E; [exact H1|].
  unfold bind at 1, try at 1.
  match goal with
  | |- context [createFsJSON deps object ?p ?w2] =>
      pose proof (createFsJSON_nsLocks object p w2) as H2;
      pose proof (createFsJSON_no_panic object p w2) as Hnp;
      destruct (createFsJSON deps object p w2) as [[[]|e|msg] w3]
  end; cbn in H2, Hnp.
  - unfold bind at 1, Unlock. cbn [fst snd].
    match goal with
    | |- context [toErr deps ?ps (getObjectInfoWithLock deps fs bucket object) ?w4] =>
        pose proof (preserves_mapErr nsLocks (fun e => toObjectErr deps e ps) _
                      (getObjectInfoWithLock_nsLocks bucket object) w4) as H3
    end.
    unfold toErr. rewrite H3. cbn. rewrite H2. cbn.
    rewrite delete_insert_id by exact E. exact H1.
  - unfold bind at 1, Unlock. cbn. rewrite H2. cbn.
    rewrite delete_insert_id by exact E. exact H1.
  - exfalso. eapply Hnp. reflexivity.
Qed.

Lemma ListObjects_nsLocks bucket prefix marker delimiter maxKeys :
  preserves nsLocks (ListObjects deps fs bucket prefix marker delimiter maxKeys).
Proof. unfold ListObjects. frame. prim_locks. Qed.

(** Every operation of the layer gives back the namespace locks it
    took, on every path: after the call the table of locks is what it
    was before, whether the call succeeded, failed or panicked, and
    whatever its helpers did. *)
Theorem operations_release_their_locks :
  (∀ bucket location, preserves nsLocks (MakeBucketWithLocation deps fs bucket location))
  ∧ (∀ bucket, preserves nsLocks (GetBucketInfo deps fs bucket))
  ∧ (∀ bucket, preserves nsLocks (DeleteBucket deps fs bucket))
  ∧ (∀ srcBucket srcObject dstBucket dstObject srcInfo,
       preserves nsLocks (CopyObject deps fs srcBucket srcObject dstBucket dstObject srcInfo))
  ∧ (∀ bucket object offset length writer etag objInfo,
       preserves nsLocks (GetObject deps fs bucket object offset length writer etag objInfo))
  ∧ (∀ bucket object, preserves nsLocks (GetObjectInfo deps fs bucket object))
  ∧ (∀ bucket object data metadata,
       preserves nsLocks (PutObject deps fs bucket object data metadata))
  ∧ (∀ bucket object, preserves nsLocks (DeleteObject deps fs bucket object))
  ∧ (∀ bucket prefix marker delimiter maxKeys,
       preserves nsLocks (ListObjects deps fs bucket prefix marker delimiter maxKeys)).
Proof.
  repeat split; intros.
  - apply MakeBucketWithLocation_nsLocks.
  - apply GetBucketInfo_nsLocks.
  - apply DeleteBucket_nsLocks.
  - apply CopyObject_nsLocks.
  - apply GetObject_nsLocks.
  - apply GetObjectInfo_nsLocks.
  - apply PutObject_nsLocks.
  - apply DeleteObject_nsLocks.
  - apply ListObjects_nsLocks.
Qed.

End OperationLocks.

(** ** The operations that only read *)

(** The export tree: its files and its directories. *)
Definition tree (w : World) : gmap string FileBody * gset string := (files w, dirs w).

Ltac prim_tree :=
  intros w; unfold tree; autounfold with helpers; cbn;
  repeat (first [ progress cbn
                | match goal with
                  | |- context [match ?x with _ => _ end] => destruct x eqn:?
                  end ]);
  try reflexivity.

Section ReadOnly.

Context (deps : Deps) (fs : FSObjects).

Lemma fsStatVolume_tree p : preserves tree (fsStatVolume deps p).
Proof. prim_tree. Qed.
Lemma fsStatFile_tree p : preserves tree (fsStatFile deps p).
Proof. prim_tree. Qed.
Lemma fsStatDir_tree p : preserves tree (fsStatDir deps p).
Proof. prim_tree. Qed.
Lemma fsIsFile_tree p : preserves tree (fsIsFile deps p).
Proof. prim_tree. Qed.
Lemma fsIsDir_tree p : preserves tree (fsIsDir deps p).
Proof. prim_tree. Qed.
Lemma fsOpenFile_tree p o : preserves tree (fsOpenFile deps p o).
Proof. prim_tree. Qed.
Lemma readDirN_tree p n : preserves tree (readDirN deps p n).
Proof. prim_tree. Qed.
Lemma rwPool_Open_tree p : preserves tree (rwPool_Open deps p).
Proof. prim_tree. Qed.
Lemma rwPool_Close_tree p : preserves tree (rwPool_Close p).
Proof. prim_tree. Qed.
Lemma fsMeta_ReadFrom_tree p : preserves tree (fsMeta_ReadFrom deps p).
Proof. prim_tree. Qed.
Lemma GetRLock_tree b o : preserves tree (GetRLock b o).
Proof. prim_tree. Qed.
Lemma RUnlock_tree b o : preserves tree (RUnlock b o).
Proof. prim_tree. Qed.
Lemma listPool_Release_tree p : preserves tree (listPool_Release p).
Proof. prim_tree. Qed.
Lemma listPool_Set_tree p ch : preserves tree (listPool_Set p ch).
Proof. prim_tree. Qed.

Hint Resolve fsStatVolume_tree fsStatFile_tree fsStatDir_tree fsIsFile_tree fsIsDir_tree
  fsOpenFile_tree readDirN_tree rwPool_Open_tree rwPool_Close_tree fsMeta_ReadFrom_tree
  GetRLock_tree RUnlock_tree listPool_Release_tree listPool_Set_tree : frames.

Lemma statBucketDir_tree bucket : preserves tree (statBucketDir deps fs bucket).
Proof. unfold statBucketDir. frame. Qed.

Lemma fs_isObjectDir_tree bucket prefix : preserves tree (fs_isObjectDir deps fs bucket prefix).
Proof. unfold fs_isObjectDir. frame. Qed.

Lemma getObjectETag_tree bucket entry lock :
  preserves tree (getObjectETag deps fs bucket entry lock).
Proof. unfold getObjectETag. frame. Qed.

Hint Resolve statBucketDir_tree fs_isObjectDir_tree getObjectETag_tree : frames.

Lemma getObject_tree bucket object offset length writer etag lock :
  preserves tree (getObject deps fs bucket object offset length writer etag lock).
Proof. unfold getObject. frame. Qed.

Lemma getObjectInfo_tree bucket object : preserves tree (getObjectInfo deps fs bucket object).
Proof. unfold getObjectInfo. frame. Qed.

Hint Resolve getObject_tree getObjectInfo_tree : frames.

Lemma getObjectInfoWithLock_tree bucket object :
  preserves tree (getObjectInfoWithLock deps fs bucket object).
Proof. unfold getObjectInfoWithLock. frame. Qed.

Lemma entryToObjectInfo_tree bucket entry :
  preserves tree (entryToObjectInfo deps fs bucket entry).
Proof. unfold entryToObjectInfo. frame. Qed.

Hint Resolve entryToObjectInfo_tree : frames.

Lemma listLoop_tree n :
  ∀ bucket prefix loi ch objInfos nextMarker,
    preserves tree (listLoop deps fs n bucket prefix loi ch objInfos nextMarker).
Proof.
  induction n as [|n IH]; intros bucket prefix loi ch objInfos nextMarker; simpl; frame.
Qed.

Hint Resolve listLoop_tree : frames.

(** GetBucketInfo, GetObject and ListObjects read the export and
    write nothing to it: after them every file and every directory is
    what it was, whatever they return. *)
Theorem reads_leave_the_tree :
  (∀ bucket, preserves tree (GetBucketInfo deps fs bucket))
  ∧ (∀ bucket object offset length writer etag objInfo,
       preserves tree (GetObject deps fs bucket object offset length writer etag objInfo))
  ∧ (∀ bucket prefix marker delimiter maxKeys,
       preserves tree (ListObjects deps fs bucket prefix marker delimiter maxKeys)).
Proof.
  split; [|split].
  - intros bucket. unfold GetBucketInfo. frame.
  - intros. unfold GetObject. frame.
  - intros. unfold ListObjects. frame. prim_tree.
Qed.

End ReadOnly.

(** ** PutObject under WORM *)

Lemma bind_inv {S E A B} (m : ST S E A) (k : A → ST S E B) (w w' : S) (r : Res E B) :
  bind m k w = (r, w') →
  (∃ a w1, m w = (Ok a, w1) ∧ k a w1 = (r, w'))
  ∨ (∃ e, m w = (Err e, w') ∧ r = Err e)
  ∨ (∃ msg, m w = (Panic msg, w') ∧ r = Panic msg).
Proof.
  unfold bind. destruct (m w) as [[a|e|msg] w1]; intros H.
  - left. eauto.
  - right. left. inversion H. eauto.
  - right. right. inversion H. eauto.
Qed.

Lemma deferOnErr_inv {S E A B} (d : ST S E B) (body : ST S E A) (w w' : S) (r : Res E A) :
  deferOnErr d body w = (r, w') →
  ∃ w1, body w = (r, w1) ∧ w' = match r with Err _ => snd (d w1) | _ => w1 end.
Proof.
  unfold deferOnErr. destruct (body w) as [[a|e|msg] w1]; intros H; inversion H; subst; eauto.
Qed.

Lemma mapErr_inv {S E A} (f : E → E) (m : ST S E A) (w w' : S) (r : Res E A) :
  mapErr f m w = (r, w') →
  ∃ r0, m w = (r0, w')
        ∧ r = match r0 with
              | Ok a => Ok a
              | Err e => Err (f e)
              | Panic msg => Panic msg
              end.
Proof.
  unfold mapErr. destruct (m w) as [[a|e|msg] w1]; intros H; inversion H; subst; eauto.
Qed.

Section Worm.

Context (deps : Deps) (fs : FSObjects).
Context (bucket object : string) (data : Reader) (metadata : gmap string string).

Lemma fsRemoveMeta_other (base p tmpDir k : string) (w : World) :
  k ≠ fskey p → files (snd (fsRemoveMeta deps base p tmpDir w)) !! k = files w !! k.
Proof.
  intros Hk. unfold fsRemoveMeta, fsDeleteFile, io.
  destruct (ioFault deps _); [reflexivity|]. cbn [snd]. unfold deleteFileIn.
  destruct (String.eqb _ _); [reflexivity|].
  destruct (isRegular _ p); cbn.
  { rewrite pruneDirs_files. cbn. apply lookup_delete_ne. congruence. }
  destruct (isDirectory _ p); cbn; rewrite ?pruneDirs_files; reflexivity.
Qed.

(** [putObject] from the temporary object on closes no lock of the
    pool. *)
Lemma putObject_stream_poolCloses (wlk : option string) :
  preserves poolCloses (putObject_stream deps fs bucket object data metadata wlk).
Proof.
  unfold poolCloses, putObject_stream. frame;
    first [ apply mustGetUUID_countIO
          | apply fsCreateFile_countIO; reflexivity
          | apply fsRemoveFile_countIO; reflexivity
          | apply fsStatFile_countIO; reflexivity
          | apply fsRenameFile_countIO; reflexivity
          | apply fsMeta_WriteTo_countIO; reflexivity ].
Qed.

(** From the temporary object on: with WORM enabled and the object
    there, the rename is not reached. *)
Lemma putObject_stream_WORM (wlk : option string) (w : World) :
  globalWORMEnabled deps = true →
  ioFault deps (IOStatFile (putDataPath fs bucket object)) = None →
  is_Some (files w !! fskey (putDataPath fs bucket object)) →
  fskey (putTmpPath deps fs w) ≠ fskey (putDataPath fs bucket object) →
  (∃ e, fst (putObject_stream deps fs bucket object data metadata wlk w) = Err e)
  ∧ files (snd (putObject_stream deps fs bucket object data metadata wlk w)) !! fskey (putDataPath fs bucket object)
    = files w !! fskey (putDataPath fs bucket object).
Proof.
  intros Hworm Hstat Hthere HT.
  destruct (putObject_stream deps fs bucket object data metadata wlk w) as [r w'] eqn:HR.
  cbn [fst snd].
  unfold putObject_stream in HR. cbv zeta in HR. unfold bind at 1, mustGetUUID at 1 in HR.
  fold (putTmpPath deps fs w) in HR.
  unfold bind at 1, try at 1 in HR.
  pose proof (fsCreateFile_effect deps (putTmpPath deps fs w) data
                (set_rndNext (S (rndNext w)) w)) as (_ & Hc & Hnp).
  assert (Hrm : ∀ w1 : World,
            files (snd (fsRemoveFile deps (putTmpPath deps fs w) w1))
              !! fskey (putDataPath fs bucket object)
            = files w1 !! fskey (putDataPath fs bucket object)).
  { intros w1. destruct (fsRemoveFile_effect deps (putTmpPath deps fs w) w1)
      as (_ & Hother & _). apply Hother. congruence. }
  destruct (fsCreateFile deps (putTmpPath deps fs w) data (set_rndNext (S (rndNext w)) w))
    as [[n|e|msg] w1]; cbn [fst snd] in Hc, Hnp; [| |exfalso; eapply Hnp; reflexivity].
  2:{ unfold bind, discard, fail in HR. inversion HR; subst r w'; clear HR.
      split; [eauto|]. rewrite Hrm. apply Hc. congruence. }
  assert (HD1 : files w1 !! fskey (putDataPath fs bucket object)
                = files w !! fskey (putDataPath fs bucket object)) by (apply Hc; congruence).
  destruct (negb _ && _).
  { unfold bind, discard, fail in HR. inversion HR; subst r w'; clear HR.
    split; [eauto|]. rewrite Hrm. exact HD1. }
  unfold defer in HR. rewrite Hworm in HR.
  fold (putDataPath fs bucket object) in HR.
  unfold bind at 1 in HR. unfold bind at 1, try at 1 in HR.
  assert (Hs : ∃ fi, fsStatFile deps (putDataPath fs bucket object) w1
                     = (Ok fi, log (EvIO (IOStatFile (putDataPath fs bucket object))) w1)).
  { unfold fsStatFile, io. rewrite Hstat. cbn. rewrite HD1.
    destruct Hthere as (b & ->). eauto. }
  destruct Hs as (fi & Hs). rewrite Hs in HR. unfold ret at 1 in HR. unfold fail in HR.
  inversion HR; subst r w'; clear HR.
  split; [eauto|]. rewrite Hrm. exact HD1.
Qed.

(** What a PutObject under WORM makes of an object that is there. *)
Definition wormEffect (w : World) (r : Res error ObjectInfo) (w' : World) : Prop :=
  files w' !! fskey (putDataPath fs bucket object)
  = files w !! fskey (putDataPath fs bucket object)
  ∧ (isObjectDir object (rd_Size data) = false → ∀ oi, r ≠ Ok oi)
  ∧ (poolCloses w' ≠ poolCloses w →
     ioFault deps (IODeleteFile (putMetaDir fs) (putMetaPath fs bucket object)) = None →
     fskey (putMetaPath fs bucket object) ≠ fskey (putMetaDir fs) →
     files w' !! fskey (putMetaPath fs bucket object) = None).

Lemma wormEffect_same (w w1 : World) (r : Res error ObjectInfo) :
  files w1 = files w → poolCloses w1 = poolCloses w → (∀ oi, r ≠ Ok oi) →
  wormEffect w r w1.
Proof.
  intros Hf Hp Hr. unfold wormEffect. rewrite Hf.
  split; [reflexivity|]. split; [intros _; exact Hr|]. intros Hne. contradiction.
Qed.

Lemma putObject_WORM (w : World) :
  globalWORMEnabled deps = true →
  ioFault deps (IOStatFile (putDataPath fs bucket object)) = None →
  is_Some (files w !! fskey (putDataPath fs bucket object)) →
  fskey (putTmpPath deps fs w) ≠ fskey (putDataPath fs bucket object) →
  fskey (putMetaPath fs bucket object) ≠ fskey (putDataPath fs bucket object) →
  wormEffect w (fst (putObject deps fs bucket object data metadata w))
    (snd (putObject deps fs bucket object data metadata w)).
Proof.
  intros Hworm Hstat Hthere HT HS.
  destruct (putObject deps fs bucket object data metadata w) as [r w'] eqn:HR.
  cbn [fst snd].
  pose proof (wormEffect_same w) as Hsame.
  unfold putObject in HR. cbv zeta in HR.
  pose proof (statBucketDir_files deps fs bucket w) as F1.
  pose proof (statBucketDir_rndNext deps fs bucket w) as R1.
  pose proof (statBucketDir_countIO deps fs bucket isPoolClose (fun _ => eq_refl) w) as P1.
  fold poolCloses in P1.
  apply bind_inv in HR as [(fi0 & w1 & H1 & HR)|[(e & H1 & ->)|(msg & H1 & ->)]].
  2,3: apply mapErr_inv in H1 as (r0 & H1 & _); rewrite H1 in F1, P1; cbn [fst snd] in F1, P1;
       apply Hsame; first [assumption|discriminate].
  apply mapErr_inv in H1 as (r0 & H1 & _).
  rewrite H1 in F1, R1, P1. cbn [fst snd] in F1, R1, P1. clear H1 r0.
  destruct (isObjectDir object (rd_Size data)) eqn:Edir.
  { match type of HR with
    | ?m w1 = _ =>
        assert (X : preserves files m) by frame;
        assert (Y : preserves poolCloses m)
          by (unfold poolCloses; frame;
              first [ apply isParentDirObject_countIO; reflexivity
                    | apply mkdirAll_countIO; reflexivity
                    | apply fsStatDir_countIO; reflexivity ]);
        specialize (X w1); specialize (Y w1)
    end.
    rewrite HR in X, Y. cbn [fst snd] in X, Y. unfold wormEffect.
    split; [rewrite X, F1; reflexivity|]. split; [intros Hd; congruence|].
    intros Hne. exfalso. apply Hne. rewrite Y. exact P1. }
  apply bind_inv in HR as [([] & w2 & H2 & HR)|[(e & H2 & ->)|(msg & H2 & ->)]].
  2,3: unfold check in H2; destruct (checkPutObjectArgs _ _ _ _ _); inversion H2; subst;
       apply Hsame; first [assumption|discriminate].
  unfold check in H2. destruct (checkPutObjectArgs _ _ _ _ _); inversion H2. subst w2.
  clear H2.
  pose proof (parentDirIsObject_files deps fs bucket (GoPath.Dir object) w1) as F2.
  pose proof (parentDirIsObject_rndNext deps fs bucket (GoPath.Dir object) w1) as R2.
  pose proof (isParentDirObject_countIO deps fs bucket isPoolClose
                (S (String.length (GoPath.Dir object))) (fun _ => eq_refl)
                (GoPath.Dir object) w1) as P2.
  fold (parentDirIsObject deps fs bucket (GoPath.Dir object)) in P2. fold poolCloses in P2.
  apply bind_inv in HR as [(isObj & w2 & H2 & HR)|[(e & H2 & ->)|(msg & H2 & ->)]].
  2,3: rewrite H2 in F2, P2; cbn [fst snd] in F2, P2;
       apply Hsame; first [congruence|discriminate].
  rewrite H2 in F2, R2, P2. cbn [fst snd] in F2, R2, P2.
  rewrite F1 in F2. rewrite R1 in R2. rewrite P1 in P2.
  clear H2 F1 R1 P1 w1.
  destruct isObj; [inversion HR; subst; apply Hsame; first [assumption|discriminate]|].
  destruct (rd_Size data <? 0);
    [inversion HR; subst; apply Hsame; first [assumption|discriminate]|].
  fold (putMetaDir fs) in HR. fold (putMetaPath fs bucket object) in HR.
  destruct (negb (bucket =? minioMetaBucket)%string).
  2:{ change (putObject_stream deps fs bucket object data metadata None w2 = (r, w')) in HR.
      destruct (putObject_stream_WORM None w2 Hworm Hstat) as ((e & He) & HD).
      - rewrite F2. exact Hthere.
      - unfold putTmpPath in *. rewrite R2. exact HT.
      - pose proof (putObject_stream_poolCloses None w2) as P3.
        rewrite HR in He, HD, P3. cbn [fst snd] in He, HD, P3. subst r. unfold wormEffect.
        split; [rewrite HD, F2; reflexivity|]. split; [discriminate|].
        intros Hne. exfalso. apply Hne. rewrite P3. exact P2. }
  pose proof (rwPool_Create_effect deps (putMetaPath fs bucket object) w2) as (R3 & Hc).
  pose proof (rwPool_Create_countIO deps isPoolClose (putMetaPath fs bucket object)
                eq_refl w2) as P3.
  fold poolCloses in P3.
  apply bind_inv in HR as [(lk & w3 & H3 & HR)|[(e & H3 & ->)|(msg & H3 & ->)]].
  2,3: apply mapErr_inv in H3 as (r0 & H3 & Hr0);
       rewrite H3 in Hc, P3; cbn [fst snd] in Hc, P3; destruct r0; try contradiction; try discriminate;
       apply Hsame; first [congruence|discriminate].
  apply mapErr_inv in H3 as (r0 & H3 & Hok).
  assert (r0 = Ok lk) as -> by (destruct r0; inversion Hok; reflexivity).
  rewrite H3 in R3, Hc, P3. cbn [fst snd] in R3, Hc, P3. destruct Hc as (-> & _ & K3). clear H3 Hok.
  apply defer_inv in HR as (w4 & HR & ->).
  apply deferOnErr_inv in HR as (w5 & HR & ->).
  change (putObject_stream deps fs bucket object data metadata
            (Some (putMetaPath fs bucket object)) w3 = (r, w5)) in HR.
  destruct (putObject_stream_WORM (Some (putMetaPath fs bucket object)) w3 Hworm Hstat)
    as ((e & He) & HD).
  { rewrite K3 by congruence. rewrite F2. exact Hthere. }
  { unfold putTmpPath in *. rewrite R3, R2. exact HT. }
  rewrite HR in He, HD. cbn [fst snd] in He, HD. subst r.
  unfold wormEffect. rewrite lockedFile_Close_files.
  split; [|split; [discriminate|]].
  - rewrite fsRemoveMeta_other by congruence.
    rewrite HD. rewrite K3 by congruence. rewrite F2. reflexivity.
  - intros _ Hfault Hne.
    destruct (fsRemoveMeta_effect deps (putMetaDir fs) (putMetaPath fs bucket object)
                (pathJoin [fsPath fs; minioMetaTmpBucket; fsUUID fs]) w5 Hne)
      as (_ & _ & Mgone).
    apply Mgone. exact Hfault.
Qed.

(** With WORM enabled, a PutObject onto a key that holds an object
    leaves the bytes at the key as they were and, unless it puts a
    directory, does not succeed.  It does not leave the object
    untouched: the cleanup of the sidecar is set up before the WORM
    check, so once the call has opened the sidecar of the object (it
    closes it again at its end), the failed call has removed that
    sidecar, when the removal itself does not fail.  The stat that looks
    for the object must itself go through: when it fails, the code
    takes the object to be absent. *)
Theorem PutObject_WORM_keeps_object (w : World) :
  globalWORMEnabled deps = true →
  ioFault deps (IOStatFile (putDataPath fs bucket object)) = None →
  is_Some (files w !! fskey (putDataPath fs bucket object)) →
  fskey (putTmpPath deps fs w) ≠ fskey (putDataPath fs bucket object) →
  fskey (putMetaPath fs bucket object) ≠ fskey (putDataPath fs bucket object) →
  files (snd (PutObject deps fs bucket object data metadata w))
    !! fskey (putDataPath fs bucket object)
  = files w !! fskey (putDataPath fs bucket object)
  ∧ (isObjectDir object (rd_Size data) = false →
     ∀ oi, fst (PutObject deps fs bucket object data metadata w) ≠ Ok oi)
  ∧ (poolCloses (snd (PutObject deps fs bucket object data metadata w)) ≠ poolCloses w →
     ioFault deps (IODeleteFile (putMetaDir fs) (putMetaPath fs bucket object)) = None →
     fskey (putMetaPath fs bucket object) ≠ fskey (putMetaDir fs) →
     files (snd (PutObject deps fs bucket object data metadata w))
       !! fskey (putMetaPath fs bucket object) = None).
Proof.
  intros Hworm Hstat Hthere HT HS.
  change (wormEffect w (fst (PutObject deps fs bucket object data metadata w))
            (snd (PutObject deps fs bucket object data metadata w))).
  destruct (PutObject deps fs bucket object data metadata w) as [r w'] eqn:HR.
  cbn [fst snd]. unfold PutObject in HR.
  apply bind_inv in HR as [([] & w1 & H1 & HR)|[(e & H1 & ->)|(msg & H1 & ->)]].
  2,3: unfold check in H1; destruct (checkPutObjectArgs _ _ _ _ _); inversion H1; subst;
       apply wormEffect_same; first [reflexivity|discriminate].
  unfold check in H1. destruct (checkPutObjectArgs _ _ _ _ _); inversion H1. subst w1.
  clear H1.
  pose proof (GetLock_files bucket object w) as F1.
  pose proof (GetLock_rndNext bucket object w) as R1.
  pose proof (GetLock_countIO isPoolClose bucket object w) as P1. fold poolCloses in P1.
  apply bind_inv in HR as [([] & w1 & H1 & HR)|[(e & H1 & ->)|(msg & H1 & ->)]].
  2,3: rewrite H1 in F1, P1; cbn [fst snd] in F1, P1;
       apply wormEffect_same; first [assumption|discriminate].
  rewrite H1 in F1, R1, P1. cbn [fst snd] in F1, R1, P1. clear H1.
  apply defer_inv in HR as (w2 & HR & ->).
  destruct (putObject_WORM w1 Hworm Hstat) as (HD & Hok & Hside).
  - rewrite F1. exact Hthere.
  - unfold putTmpPath in *. rewrite R1. exact HT.
  - exact HS.
  - rewrite HR in HD, Hok, Hside. cbn [fst snd] in HD, Hok, Hside.
    pose proof (Unlock_countIO isPoolClose bucket object w2) as P2. fold poolCloses in P2.
    unfold wormEffect. rewrite Unlock_files, P2. rewrite HD, F1.
    split; [reflexivity|]. split; [exact Hok|].
    intros Hne. apply Hside. rewrite P1. exact Hne.
Qed.

End Worm.

(** With WORM on, a PutObject over [hello] leaves its two bytes and
    fails; the sidecar of [hello], which was there, is gone. *)
Lemma PutObject_WORM_keeps_object_witness :
  files (snd (PutObject (Demo.deps Demo.noFaults true) Demo.fs "b1" "hello"
                (mkReader 3 "new" None) ∅ Demo.world))
    !! "/export/b1/hello" = Some (Bytes "hi")
  ∧ fst (PutObject (Demo.deps Demo.noFaults true) Demo.fs "b1" "hello"
           (mkReader 3 "new" None) ∅ Demo.world)
    ≠ Ok (mkObjectInfo "b1" "hello" 3 false "" "" None [] false 3)
  ∧ is_Some (files Demo.world !! "/export/.minio.sys/buckets/b1/hello/fs.json")
  ∧ files (snd (PutObject (Demo.deps Demo.noFaults true) Demo.fs "b1" "hello"
                  (mkReader 3 "new" None) ∅ Demo.world))
      !! "/export/.minio.sys/buckets/b1/hello/fs.json" = None.
Proof.
  destruct (PutObject_WORM_keeps_object (Demo.deps Demo.noFaults true) Demo.fs "b1" "hello"
              (mkReader 3 "new" None) ∅ Demo.world) as (HD & Hok & Hside).
  - reflexivity.
  - reflexivity.
  - vm_compute. eauto.
  - vm_compute. discriminate.
  - vm_compute. discriminate.
  - split; [|split; [|split]].
    + transitivity (files Demo.world !! fskey (putDataPath Demo.fs "b1" "hello"));
        [exact HD|vm_compute; reflexivity].
    + apply Hok. vm_compute. reflexivity.
    + vm_compute. eauto.
    + transitivity (files (snd (PutObject (Demo.deps Demo.noFaults true) Demo.fs "b1" "hello"
                                  (mkReader 3 "new" None) ∅ Demo.world))
                      !! fskey (putMetaPath Demo.fs "b1" "hello"));
        [vm_compute; reflexivity|].
      apply Hside; [vm_compute; discriminate|reflexivity|vm_compute; discriminate].
Defined.

(** ** What GetObject returns *)

Lemma substring_substring (s : string) :
  ∀ o l n, (o + l <= n)%nat →
    String.substring 0 l (String.substring o (n - o) s) = String.substring o l s.
Proof.
  induction s as [|a s IH]; intros o l n H.
  - destruct o as [|o], l as [|l]; cbn; repeat (destruct (_ - _)%nat; cbn); reflexivity.
  - destruct o as [|o].
    + rewrite Nat.sub_0_r. destruct l as [|l]; [destruct n; reflexivity|].
      destruct n as [|n]; [lia|]. cbn. f_equal.
      specialize (IH 0%nat l n). rewrite Nat.sub_0_r in IH. apply IH. lia.
    + destruct n as [|n]; [lia|]. cbn [String.substring Nat.sub]. apply IH. lia.
Qed.

Lemma substring_length_le (s : string) :
  ∀ o l, (String.length (String.substring o l s) <= l)%nat.
Proof.
  induction s as [|a s IH]; intros o l.
  - destruct o, l; cbn; lia.
  - destruct o as [|o].
    + destruct l as [|l]; cbn; [lia|]. specialize (IH 0%nat l). lia.
    + cbn. apply IH.
Qed.

Lemma substring_whole (s : string) :
  ∀ m, (String.length s <= m)%nat → String.substring 0 m s = s.
Proof.
  induction s as [|a s IH]; intros m H.
  - destruct m; reflexivity.
  - destruct m as [|m]; cbn in H; [lia|]. cbn. rewrite IH by lia. reflexivity.
Qed.

(** Sums of [int64] values: inside the range they are the sums of the
    integers, and a sum of two values of the range that is above it
    comes out 2^64 lower. *)
Lemma wrap_small (z : Z) :
  GoInt64.MinInt64 ≤ z ≤ GoInt64.MaxInt64 → GoInt64.wrap z = z.
Proof.
  unfold GoInt64.wrap, GoInt64.MinInt64, GoInt64.MaxInt64.
  change (2 ^ 63) with 9223372036854775808. change (2 ^ 64) with 18446744073709551616.
  intros H. rewrite Z.mod_small; lia.
Qed.

Lemma wrap_over (z : Z) :
  GoInt64.MaxInt64 < z ≤ 2 * GoInt64.MaxInt64 → GoInt64.wrap z = z - 2 ^ 64.
Proof.
  unfold GoInt64.wrap, GoInt64.MaxInt64.
  change (2 ^ 63) with 9223372036854775808. change (2 ^ 64) with 18446744073709551616.
  intros H.
  replace (z + 9223372036854775808)
    with (z - 9223372036854775808 + 1 * 18446744073709551616) by lia.
  rewrite Z.mod_add by lia. rewrite Z.mod_small; lia.
Qed.

Section GetObjectRange.

Context (deps : Deps) (fs : FSObjects).

(** What a GetObject that nothing hinders makes of a range. *)
Definition rangeResult (body : string) (offset length : Z) : Res error string :=
  let size := Z.of_nat (String.length body) in
  let length' := if length <? 0 then size - offset else length in
  if offset >? size then Err (InvalidRange offset length' size)
  else if offset + length' >? GoInt64.MaxInt64
  then Ok (String.substring (Z.to_nat offset) (Z.to_nat (size - offset)) body)
  else if offset + length' >? size then Err (InvalidRange offset length' size)
  else Ok (String.substring (Z.to_nat offset) (Z.to_nat length') body).

Lemma GetObject_range_run (bucket object body : string) (offset length : Z)
    (objInfo : ObjectInfo) (w : World) :
  checkGetObjArgs deps bucket object = None →
  nsLocks w !! (bucket, object) ≠ Some WriteLocked →
  isCompressed deps (userDefinedOf objInfo) = false →
  (∀ c, ioFault deps c = None) →
  getBucketDir fs bucket = Ok (pathJoin [fsPath fs; bucket]) →
  isDirectory w (pathJoin [fsPath fs; bucket]) = true →
  hasSuffix object slashSeparator = false →
  isRegular w (fsMetaPathOf fs bucket object) = true
  ∨ isDirectory w (fsMetaPathOf fs bucket object) = false →
  files w !! fskey (pathJoin [fsPath fs; bucket; object]) = Some (Bytes body) →
  0 ≤ offset ≤ GoInt64.MaxInt64 →
  GoInt64.MinInt64 ≤ length ≤ GoInt64.MaxInt64 →
  Z.of_nat (String.length body) ≤ GoInt64.MaxInt64 →
  fst (GetObject deps fs bucket object offset length GoodWriter "" objInfo w)
  = rangeResult body offset length.
Proof.
  intros Hargs Hlock Hplain Hio Hbucket Hdir Hkey Hmeta Hbody Hoff Hlen Hsize.
  unfold GetObject. unfold bind at 1, check at 1. rewrite Hargs.
  unfold bind at 1.
  assert (HL : ∃ l, GetRLock bucket object w
                    = (Ok tt, log (EvRLock bucket object) (set_nsLocks l w))).
  { unfold GetRLock. destruct (nsLocks w !! (bucket, object)) as [[|n]|]; eauto.
    contradiction. }
  destruct HL as (l & ->). unfold defer. rewrite Hplain. cbn [negb].
  match goal with
  | |- context [getObject deps fs bucket object offset length GoodWriter "" true ?w1] =>
      assert (HG : fst (getObject deps fs bucket object offset length GoodWriter "" true w1)
                   = rangeResult body offset length);
      [|destruct (getObject deps fs bucket object offset length GoodWriter "" true w1);
        exact HG]
  end.
  unfold getObject. cbv zeta.
  unfold bind at 1, toErr at 1, mapErr at 1, statBucketDir, bind at 1, lift.
  rewrite Hbucket. unfold fsStatVolume, io. rewrite Hio.
  change (isDirectory (log _ (log _ (set_nsLocks l w))) (pathJoin [fsPath fs; bucket]))
    with (isDirectory w (pathJoin [fsPath fs; bucket])).
  rewrite Hdir.
  destruct (offset <? 0) eqn:Eo; [lia|].
  destruct (decide (GoodWriter = NilWriter)) as [Hn|_]; [discriminate|].
  rewrite Hkey. cbv zeta.
  assert (HB : ∀ w1, files w1 = files w →
            fst ((do (if negb (String.eqb "" "") && negb (String.eqb "" defaultEtag) then
                        let* objEtag := toErr deps [bucket; object]
                                          (getObjectETag deps fs bucket object true) in
                        if negb (String.eqb objEtag "")
                        then fail (toObjectErr deps InvalidETag [bucket; object])
                        else ret tt
                      else ret tt) in
                  let* '(reader, size) :=
                    toErr deps [bucket; object]
                      (fsOpenFile deps (pathJoin [fsPath fs; bucket; object]) offset) in
                  let length := if length <? 0 then GoInt64.sub size offset else length in
                  if (offset >? size) || (GoInt64.add offset length >? size)
                  then fail (InvalidRange offset length size)
                  else
                    match GoodWriter with
                    | BrokenWriter e =>
                        if decide (e = io_ErrClosedPipe) then ret ""
                        else fail (toObjectErr deps e [bucket; object])
                    | _ => ret (String.substring 0 (Z.to_nat length) reader)
                    end) w1)
            = rangeResult body offset length).
  { intros w1 Hf. cbn [String.eqb negb andb]. unfold bind at 1, ret at 1.
    unfold bind at 1, toErr, mapErr, fsOpenFile, io. rewrite Hio.
    change (files (log _ w1)) with (files w1). rewrite Hf, Hbody.
    unfold rangeResult. cbv zeta.
    set (size := Z.of_nat (String.length body)) in *.
    set (length' := if length <? 0 then size - offset else length).
    assert (Hl : (if length <? 0 then GoInt64.sub size offset else length) = length').
    { unfold length'. destruct (length <? 0); [|reflexivity].
      unfold GoInt64.sub. apply wrap_small.
      unfold GoInt64.MinInt64, GoInt64.MaxInt64 in *. lia. }
    rewrite Hl.
    destruct (Z.gtb_spec offset size) as [E1|E1]; [reflexivity|]. cbn [orb].
    assert (H0 : 0 ≤ length' ≤ GoInt64.MaxInt64).
    { unfold length'. destruct (length <? 0) eqn:El; lia. }
    destruct (Z.gtb_spec (offset + length') GoInt64.MaxInt64) as [E2|E2].
    - (* the sum wraps around and passes the check *)
      unfold GoInt64.add. rewrite wrap_over by lia.
      assert (Hneg : offset + length' - 2 ^ 64 < 0).
      { unfold GoInt64.MaxInt64 in *.
        change (2 ^ 63) with 9223372036854775808 in *.
        change (2 ^ 64) with 18446744073709551616. lia. }
      destruct (Z.gtb_spec (offset + length' - 2 ^ 64) size) as [E3|E3]; [lia|].
      unfold ret. cbn [fst]. f_equal.
      rewrite substring_whole.
      + f_equal. unfold size. lia.
      + pose proof (substring_length_le body (Z.to_nat offset)
                      (String.length body - Z.to_nat offset)) as Hle.
        unfold size in *. lia.
    - unfold GoInt64.add. rewrite wrap_small
        by (unfold GoInt64.MinInt64, GoInt64.MaxInt64 in *; lia).
      destruct (Z.gtb_spec (offset + length') size) as [E3|E3]; [reflexivity|].
      unfold ret. cbn [fst]. f_equal.
      apply substring_substring. unfold size in *. lia. }
  assert (HD : ∀ (d : M unit) (b : M string) w1 r, fst (b w1) = r → fst (defer d b w1) = r).
  { intros d b w1 r Hb. unfold defer. destruct (b w1). exact Hb. }
  destruct (negb (String.eqb bucket minioMetaBucket) && true).
  - unfold bind at 1, try at 1, rwPool_Open, io. rewrite Hio.
    change (isRegular (log _ (log _ (log _ (set_nsLocks l w)))) (fsMetaPathOf fs bucket object))
      with (isRegular w (fsMetaPathOf fs bucket object)).
    destruct (isRegular w (fsMetaPathOf fs bucket object)).
    + apply HD. apply HB; reflexivity.
    + destruct Hmeta as [Hmeta|Hmeta]; [discriminate|].
      change (isDirectory (log _ (log _ (log _ (set_nsLocks l w)))) (fsMetaPathOf fs bucket object))
        with (isDirectory w (fsMetaPathOf fs bucket object)).
      rewrite Hmeta. destruct (decide (errFileNotFound = errFileNotFound)); [|contradiction].
      apply HD. apply HB; reflexivity.
  - apply HB; reflexivity.
Qed.

(** A GetObject that nothing hinders - arguments accepted, the object
    not locked for writing, the bucket there, a plain key whose bytes
    are stored and whose sidecar path is no directory, no etag to match,
    no failing helper, a writer that takes what it is given, offset,
    length and size in the range of [int64]: it answers InvalidRange,
    with the offset, the length and the size, when the offset is past
    the end or the range runs past it, and else writes exactly the bytes
    of the range; a negative length stands for all that follow the
    offset.  The end of the range is an [int64] sum: when offset plus
    length is above the largest [int64] the sum wraps around, the range
    is not refused, and all bytes from the offset on are written. *)
Theorem GetObject_range (bucket object body : string) (offset length : Z)
    (objInfo : ObjectInfo) (w : World) :
  checkGetObjArgs deps bucket object = None →
  nsLocks w !! (bucket, object) ≠ Some WriteLocked →
  isCompressed deps (userDefinedOf objInfo) = false →
  (∀ c, ioFault deps c = None) →
  getBucketDir fs bucket = Ok (pathJoin [fsPath fs; bucket]) →
  isDirectory w (pathJoin [fsPath fs; bucket]) = true →
  hasSuffix object slashSeparator = false →
  isRegular w (fsMetaPathOf fs bucket object) = true
  ∨ isDirectory w (fsMetaPathOf fs bucket object) = false →
  files w !! fskey (pathJoin [fsPath fs; bucket; object]) = Some (Bytes body) →
  0 ≤ offset ≤ GoInt64.MaxInt64 →
  GoInt64.MinInt64 ≤ length ≤ GoInt64.MaxInt64 →
  Z.of_nat (String.length body) ≤ GoInt64.MaxInt64 →
  let size := Z.of_nat (String.length body) in
  let length' := if length <? 0 then size - offset else length in
  fst (GetObject deps fs bucket object offset length GoodWriter "" objInfo w)
  = if offset >? size then Err (InvalidRange offset length' size)
    else if offset + length' >? GoInt64.MaxInt64
    then Ok (String.substring (Z.to_nat offset) (Z.to_nat (size - offset)) body)
    else if offset + length' >? size then Err (InvalidRange offset length' size)
    else Ok (String.substring (Z.to_nat offset) (Z.to_nat length') body).
Proof.
  intros Hargs Hlock Hplain Hio Hbucket Hdir Hkey Hmeta Hbody Hoff Hlen Hsize.
  exact (GetObject_range_run bucket object body offset length objInfo w Hargs Hlock Hplain
           Hio Hbucket Hdir Hkey Hmeta Hbody Hoff Hlen Hsize).
Qed.

(** A key that ends in a slash is a directory request: GetObject
    writes the empty body, for any offset and length, without looking
    at what is stored at the key, in a bucket that is there and with the
    key not locked for writing. *)
Theorem GetObject_directory_key (bucket object : string) (offset length : Z)
    (etag : string) (objInfo : ObjectInfo) (w : World) :
  checkGetObjArgs deps bucket object = None →
  nsLocks w !! (bucket, object) ≠ Some WriteLocked →
  isCompressed deps (userDefinedOf objInfo) = false →
  ioFault deps (IOStatVolume (pathJoin [fsPath fs; bucket])) = None →
  getBucketDir fs bucket = Ok (pathJoin [fsPath fs; bucket]) →
  isDirectory w (pathJoin [fsPath fs; bucket]) = true →
  hasSuffix object slashSeparator = true →
  0 ≤ offset →
  fst (GetObject deps fs bucket object offset length GoodWriter etag objInfo w) = Ok "".
Proof.
  intros Hargs Hlock Hplain Hio Hbucket Hdir Hkey Hoff.
  unfold GetObject. unfold bind at 1, check at 1. rewrite Hargs.
  unfold bind at 1.
  assert (HL : ∃ l, GetRLock bucket object w
                    = (Ok tt, log (EvRLock bucket object) (set_nsLocks l w))).
  { unfold GetRLock. destruct (nsLocks w !! (bucket, object)) as [[|n]|]; eauto.
    contradiction. }
  destruct HL as (l & ->). unfold defer. rewrite Hplain. cbn [negb].
  unfold getObject. cbv zeta.
  unfold bind at 1, toErr at 1, mapErr at 1, statBucketDir, bind at 1, lift.
  rewrite Hbucket. unfold fsStatVolume, io. rewrite Hio.
  change (isDirectory (log _ (log _ (set_nsLocks l w))) (pathJoin [fsPath fs; bucket]))
    with (isDirectory w (pathJoin [fsPath fs; bucket])).
  rewrite Hdir.
  destruct (offset <? 0) eqn:Eo; [lia|].
  destruct (decide (GoodWriter = NilWriter)) as [Hn|_]; [discriminate|].
  rewrite Hkey. reflexivity.
Qed.

End GetObjectRange.

(** Three bytes of [docs/a.txt], from the second on; and, asked for the
    largest [int64] of bytes from the second on, all that follow it. *)
Lemma GetObject_range_witness :
  fst (GetObject (Demo.deps Demo.noFaults false) Demo.fs "b1" "docs/a.txt" 1 3 GoodWriter ""
         (mkObjectInfo "b1" "docs/a.txt" 5 false "" "" None [] false 5) Demo.world)
  = Ok "lai"
  ∧ fst (GetObject (Demo.deps Demo.noFaults false) Demo.fs "b1" "docs/a.txt" 1
           9223372036854775807 GoodWriter ""
           (mkObjectInfo "b1" "docs/a.txt" 5 false "" "" None [] false 5) Demo.world)
    = Ok "lain".
Proof.
  assert (H : ∀ length, GoInt64.MinInt64 ≤ length ≤ GoInt64.MaxInt64 →
            fst (GetObject (Demo.deps Demo.noFaults false) Demo.fs "b1" "docs/a.txt" 1 length
                   GoodWriter ""
                   (mkObjectInfo "b1" "docs/a.txt" 5 false "" "" None [] false 5) Demo.world)
            = if 1 >? 5 then Err (InvalidRange 1 (if length <? 0 then 5 - 1 else length) 5)
              else if 1 + (if length <? 0 then 5 - 1 else length) >? GoInt64.MaxInt64
              then Ok (String.substring (Z.to_nat 1) (Z.to_nat (5 - 1)) "plain")
              else if 1 + (if length <? 0 then 5 - 1 else length) >? 5
              then Err (InvalidRange 1 (if length <? 0 then 5 - 1 else length) 5)
              else Ok (String.substring (Z.to_nat 1)
                         (Z.to_nat (if length <? 0 then 5 - 1 else length)) "plain")).
  { intros length Hlen.
    apply (GetObject_range (Demo.deps Demo.noFaults false) Demo.fs "b1" "docs/a.txt"
             "plain" 1 length (mkObjectInfo "b1" "docs/a.txt" 5 false "" "" None [] false 5)
             Demo.world).
    - reflexivity.
    - vm_compute. discriminate.
    - vm_compute. reflexivity.
    - intros c. reflexivity.
    - reflexivity.
    - vm_compute. reflexivity.
    - reflexivity.
    - right. vm_compute. reflexivity.
    - vm_compute. reflexivity.
    - unfold GoInt64.MaxInt64. lia.
    - exact Hlen.
    - unfold GoInt64.MaxInt64. cbn. lia. }
  split.
  - rewrite H by (unfold GoInt64.MinInt64, GoInt64.MaxInt64; lia). reflexivity.
  - rewrite H by (unfold GoInt64.MinInt64, GoInt64.MaxInt64; lia). reflexivity.
Defined.

(** The key [nothing/] names nothing in [b1]; the answer is the empty
    body all the same. *)
Lemma GetObject_directory_key_witness :
  fst (GetObject (Demo.deps Demo.noFaults false) Demo.fs "b1" "nothing/" 7 (-1) GoodWriter
         "some-etag" (mkObjectInfo "b1" "nothing/" 0 true "" "" None [] false 0) Demo.world)
  = Ok "".
Proof.
  apply (GetObject_directory_key (Demo.deps Demo.noFaults false) Demo.fs).
  - reflexivity.
  - vm_compute. discriminate.
  - vm_compute. reflexivity.
  - reflexivity.
  - reflexivity.
  - vm_compute. reflexivity.
  - reflexivity.
  - lia.
Defined.

(** ** What DeleteObject removes *)

Section DeleteEffects.

Context (deps : Deps) (fs : FSObjects).

(** A delete that went through removed the key, unless the key is the
    base itself. *)
Lemma fsDeleteFile_Ok (base p : string) (w w' : World) :
  fskey p ≠ fskey base →
  fsDeleteFile deps base p w = (Ok tt, w') →
  files w' = delete (fskey p) (files w).
Proof.
  intros Hne. unfold fsDeleteFile, io. destruct (ioFault deps _); [discriminate|].
  unfold deleteFileIn. apply String.eqb_neq in Hne. rewrite Hne.
  destruct (isRegular _ p) eqn:Er.
  { intros H. inversion H. rewrite pruneDirs_files. reflexivity. }
  apply isRegular_lookup in Er. cbn in Er.
  destruct (isDirectory _ p); intros H; inversion H.
  rewrite pruneDirs_files. cbn. symmetry. apply delete_id. exact Er.
Qed.

(** A delete that failed, the call itself going through, found nothing
    at the key and changed nothing. *)
Lemma fsDeleteFile_Err (base p : string) (w w' : World) (e : error) :
  ioFault deps (IODeleteFile base p) = None →
  fsDeleteFile deps base p w = (Err e, w') →
  files w !! fskey p = None ∧ files w' = files w.
Proof.
  intros Hio. unfold fsDeleteFile, io. rewrite Hio. unfold deleteFileIn.
  destruct (String.eqb _ _); [discriminate|].
  destruct (isRegular _ p) eqn:Er; [discriminate|].
  apply isRegular_lookup in Er. cbn in Er.
  destruct (isDirectory _ p); intros H; inversion H. split; [exact Er|reflexivity].
Qed.

Context (bucket object : string).

(** The sidecar as [DeleteObject] spells its path. *)
Definition deleteMetaPath : string :=
  pathJoin [pathJoin [fsPath fs; minioMetaBucket]; bucketMetaPrefix; bucket; object;
            metaJSONFile fs].

(** After a DeleteObject that succeeded, in a bucket other than the
    meta bucket and with the delete of the sidecar not failing on its
    own, neither the object nor its sidecar is a file any more, and
    every other file is what it was. *)
Theorem DeleteObject_removes_object_and_sidecar (w w' : World) :
  DeleteObject deps fs bucket object w = (Ok tt, w') →
  String.eqb bucket minioMetaBucket = false →
  ioFault deps (IODeleteFile (pathJoin [fsPath fs; minioMetaBucket]) deleteMetaPath) = None →
  fskey (putDataPath fs bucket object) ≠ fskey (pathJoin [fsPath fs; bucket]) →
  fskey deleteMetaPath ≠ fskey (pathJoin [fsPath fs; minioMetaBucket]) →
  files w' = delete (fskey deleteMetaPath)
               (delete (fskey (putDataPath fs bucket object)) (files w)).
Proof.
  intros H Hb Hio Hd Hm. unfold DeleteObject in H.
  apply bind_Ok in H as ([] & w1 & H1 & H).
  pose proof (GetLock_files bucket object w) as F1. rewrite H1 in F1. cbn in F1. clear H1.
  apply defer_inv in H as (w2 & H & ->). rewrite Unlock_files. cbv zeta in H.
  apply bind_Ok in H as ([] & w3 & H1 & H).
  assert (w3 = w1) as ->.
  { unfold check in H1. destruct (checkDelObjArgs _ _ _); inversion H1. reflexivity. }
  clear H1.
  apply bind_Ok in H as (fi & w4 & H1 & H). apply mapErr_Ok in H1.
  pose proof (statBucketDir_files deps fs bucket w1) as F2. rewrite H1 in F2. cbn in F2.
  clear H1. rewrite Hb in H. cbn [negb] in H.
  assert (Hin : ∀ wa wb,
             files wa = files w →
             (do toErr deps [bucket; object]
                   (fsDeleteFile deps (pathJoin [fsPath fs; bucket])
                      (pathJoin [fsPath fs; bucket; object])) in
              let* err := try (fsDeleteFile deps (pathJoin [fsPath fs; minioMetaBucket])
                                 (pathJoin [pathJoin [fsPath fs; minioMetaBucket];
                                            bucketMetaPrefix; bucket; object;
                                            metaJSONFile fs])) in
              match err with
              | inr e =>
                  if decide (e = errFileNotFound) then ret tt
                  else fail (toObjectErr deps e [bucket; object])
              | inl _ => ret tt
              end) wa = (Ok tt, wb) →
             files wb = delete (fskey deleteMetaPath)
                          (delete (fskey (putDataPath fs bucket object)) (files w))).
  { intros wa wb Fa Hrun.
    apply bind_Ok in Hrun as ([] & wc & Hc & Hrun). apply mapErr_Ok in Hc.
    apply fsDeleteFile_Ok in Hc; [|exact Hd].
    apply bind_Ok in Hrun as (err & wd & Hd' & Hrun). apply try_Ok in Hd'.
    destruct err as [[]|e].
    - apply fsDeleteFile_Ok in Hd'; [|exact Hm].
      inversion Hrun; subst wb. rewrite Hd', Hc, Fa. reflexivity.
    - destruct (decide (e = errFileNotFound)); [|discriminate].
      inversion Hrun; subst wb.
      apply fsDeleteFile_Err in Hd' as (Hnone & Fd); [|exact Hio].
      rewrite Fd. unfold putDataPath. rewrite <- Fa, <- Hc. symmetry.
      apply delete_id. exact Hnone. }
  apply bind_Ok in H as (lerr & w5 & H1 & H). apply try_Ok in H1.
  destruct lerr as [rwlk|e].
  - pose proof (rwPool_Write_files deps (pathJoin [pathJoin [fsPath fs; minioMetaBucket];
                   bucketMetaPrefix; bucket; object; metaJSONFile fs]) w4) as F3.
    rewrite H1 in F3. cbn in F3.
    apply defer_inv in H as (w6 & H & ->). rewrite lockedFile_Close_files.
    eapply Hin; [|exact H]. congruence.
  - pose proof (rwPool_Write_files deps (pathJoin [pathJoin [fsPath fs; minioMetaBucket];
                   bucketMetaPrefix; bucket; object; metaJSONFile fs]) w4) as F3.
    rewrite H1 in F3. cbn in F3.
    destruct (decide (e = errFileNotFound)); [|discriminate].
    eapply Hin; [|exact H]. congruence.
Qed.

(** DeleteObject of a key at which there is neither a file nor a
    directory, with no helper failing on its own: the answer is the
    object-layer form of errFileNotFound, and no file and no directory
    has changed - a sidecar left at the key stays where it is. *)
Theorem DeleteObject_missing_object (w : World) :
  nsLocks w !! (bucket, object) = None →
  checkDelObjArgs deps bucket object = None →
  (∀ c, ioFault deps c = None) →
  getBucketDir fs bucket = Ok (pathJoin [fsPath fs; bucket]) →
  isDirectory w (pathJoin [fsPath fs; bucket]) = true →
  isRegular w (putDataPath fs bucket object) = false →
  isDirectory w (putDataPath fs bucket object) = false →
  isRegular w deleteMetaPath = true ∨ isDirectory w deleteMetaPath = false →
  fst (DeleteObject deps fs bucket object w)
  = Err (toObjectErr deps errFileNotFound [bucket; object])
  ∧ tree (snd (DeleteObject deps fs bucket object w)) = tree w.
Proof.
  intros Hlock Hargs Hio Hbucket Hdir Hreg Hnodir Hmeta.
  assert (Hne : String.eqb (fskey (pathJoin [fsPath fs; bucket; object]))
                           (fskey (pathJoin [fsPath fs; bucket])) = false).
  { apply String.eqb_neq. intros Heq. unfold isDirectory, putDataPath in *.
    rewrite Heq in Hnodir. congruence. }
  assert (HB : ∀ w1, tree w1 = tree w →
            ∃ w2, (do toErr deps [bucket; object]
                        (fsDeleteFile deps (pathJoin [fsPath fs; bucket])
                           (pathJoin [fsPath fs; bucket; object])) in
                   (if negb (String.eqb bucket minioMetaBucket) then
                      let* err := try (fsDeleteFile deps (pathJoin [fsPath fs; minioMetaBucket])
                                         deleteMetaPath) in
                      match err with
                      | inr e =>
                          if decide (e = errFileNotFound) then ret tt
                          else fail (toObjectErr deps e [bucket; object])
                      | inl _ => ret tt
                      end
                    else ret tt)) w1
                  = (Err (toObjectErr deps errFileNotFound [bucket; object]), w2)
                  ∧ tree w2 = tree w).
  { intros w1 Ht. unfold bind at 1, toErr, mapErr, fsDeleteFile, io. rewrite Hio.
    unfold deleteFileIn. rewrite Hne.
    assert (Hr1 : isRegular (log (EvIO (IODeleteFile (pathJoin [fsPath fs; bucket])
                                          (pathJoin [fsPath fs; bucket; object]))) w1)
                    (pathJoin [fsPath fs; bucket; object]) = false).
    { unfold isRegular in *. cbn [files log]. unfold tree in Ht.
      replace (files w1) with (files w) by congruence. exact Hreg. }
    assert (Hd1 : isDirectory (log (EvIO (IODeleteFile (pathJoin [fsPath fs; bucket])
                                            (pathJoin [fsPath fs; bucket; object]))) w1)
                    (pathJoin [fsPath fs; bucket; object]) = false).
    { unfold isDirectory in *. cbn [dirs log]. unfold tree in Ht.
      replace (dirs w1) with (dirs w) by congruence. exact Hnodir. }
    rewrite Hr1, Hd1. eexists. split; [reflexivity|]. exact Ht. }
  assert (Hrun : ∃ w', DeleteObject deps fs bucket object w
                       = (Err (toObjectErr deps errFileNotFound [bucket; object]), w')
                       ∧ tree w' = tree w);
    [|destruct Hrun as (w' & -> & Ht); split; [reflexivity|exact Ht]].
  unfold DeleteObject. cbv zeta. fold deleteMetaPath.
  unfold bind at 1, GetLock at 1. rewrite Hlock. unfold defer.
  unfold bind at 1, check at 1. rewrite Hargs.
  unfold bind at 1, toErr at 1, mapErr at 1, statBucketDir, bind at 1, lift.
  rewrite Hbucket. unfold fsStatVolume, io. rewrite Hio.
  match goal with
  | |- context [isDirectory ?w1 (pathJoin [fsPath fs; bucket])] =>
      change (isDirectory w1 (pathJoin [fsPath fs; bucket]))
        with (isDirectory w (pathJoin [fsPath fs; bucket]))
  end.
  rewrite Hdir.
  destruct (negb (String.eqb bucket minioMetaBucket)) eqn:Eb.
  - unfold bind at 1, try at 1, rwPool_Write, io. rewrite Hio.
    match goal with
    | |- context [isRegular ?w1 deleteMetaPath] =>
        change (isRegular w1 deleteMetaPath) with (isRegular w deleteMetaPath);
        change (isDirectory w1 deleteMetaPath) with (isDirectory w deleteMetaPath)
    end.
    destruct (isRegular w deleteMetaPath).
    + unfold defer.
      match goal with
      | |- context [bind ?m ?k ?w1] =>
          destruct (HB w1 eq_refl) as (w2 & -> & Ht)
      end.
      eexists; split; [reflexivity|cbn; exact Ht].
    + destruct Hmeta as [Hmeta|Hmeta]; [discriminate|]. rewrite Hmeta.
      destruct (decide (errFileNotFound = errFileNotFound)); [|contradiction].
      match goal with
      | |- context [bind ?m ?k ?w1] =>
          destruct (HB w1 eq_refl) as (w2 & -> & Ht)
      end.
      eexists; split; [reflexivity|cbn; exact Ht].
  - match goal with
    | |- context [bind ?m ?k ?w1] =>
        destruct (HB w1 eq_refl) as (w2 & Hrun & Ht)
    end.
    rewrite Hrun. eexists; split; [reflexivity|cbn; exact Ht].
Qed.

End DeleteEffects.

(** [hello] deleted from [b1]: the object and its sidecar are gone,
    [docs/a.txt] is there. *)
Lemma DeleteObject_removes_object_and_sidecar_witness :
  files (snd (DeleteObject (Demo.deps Demo.noFaults false) Demo.fs "b1" "hello" Demo.world))
    !! "/export/b1/hello" = None
  ∧ files (snd (DeleteObject (Demo.deps Demo.noFaults false) Demo.fs "b1" "hello" Demo.world))
      !! "/export/.minio.sys/buckets/b1/hello/fs.json" = None
  ∧ files (snd (DeleteObject (Demo.deps Demo.noFaults false) Demo.fs "b1" "hello" Demo.world))
      !! "/export/b1/docs/a.txt" = Some (Bytes "plain").
Proof.
  rewrite (DeleteObject_removes_object_and_sidecar (Demo.deps Demo.noFaults false) Demo.fs
             "b1" "hello" Demo.world
             (snd (DeleteObject (Demo.deps Demo.noFaults false) Demo.fs "b1" "hello"
                     Demo.world))).
  - vm_compute. repeat split; reflexivity.
  - vm_compute. reflexivity.
  - reflexivity.
  - reflexivity.
  - vm_compute. discriminate.
  - vm_compute. discriminate.
Defined.

(** Nothing is stored at [nothing] in [b1]. *)
Lemma DeleteObject_missing_object_witness :
  fst (DeleteObject (Demo.deps Demo.noFaults false) Demo.fs "b1" "nothing" Demo.world)
  = Err (ObjectNotFound "b1" "nothing")
  ∧ files (snd (DeleteObject (Demo.deps Demo.noFaults false) Demo.fs "b1" "nothing"
                  Demo.world))
    = files Demo.world.
Proof.
  destruct (DeleteObject_missing_object (Demo.deps Demo.noFaults false) Demo.fs
              "b1" "nothing" Demo.world) as (Hr & Ht).
  - vm_compute. reflexivity.
  - reflexivity.
  - intros c. reflexivity.
  - reflexivity.
  - vm_compute. reflexivity.
  - vm_compute. reflexivity.
  - vm_compute. reflexivity.
  - right. vm_compute. reflexivity.
  - split; [rewrite Hr; vm_compute; reflexivity|].
    unfold tree in Ht. congruence.
Defined.

(** ** What PutObject stores *)

Lemma mkdirAllIn_dirs (p : string) (w w' : World) :
  mkdirAllIn p w = Some w' → dirs w ⊆ dirs w'.
Proof.
  unfold mkdirAllIn. destruct (existsb _ _); intros H; inversion H. cbn.
  apply union_subseteq_l.
Qed.

Lemma mkdirAllIn_rndNext (p : string) (w w' : World) :
  mkdirAllIn p w = Some w' → rndNext w' = rndNext w.
Proof. unfold mkdirAllIn. destruct (existsb _ _); intros H; inversion H; reflexivity. Qed.

Section WriteSuccess.

Context (deps : Deps).

Lemma rwPool_Create_Ok (p lk : string) (w w1 : World) :
  rwPool_Create deps p w = (Ok lk, w1) →
  lk = p ∧ dirs w ⊆ dirs w1 ∧ rndNext w1 = rndNext w
  ∧ is_Some (files w1 !! fskey p)
  ∧ ∀ k, k ≠ fskey p → files w1 !! k = files w !! k.
Proof.
  unfold rwPool_Create, io. destruct (ioFault deps _); [discriminate|].
  destruct (mkdirAllIn _ _) as [w2|] eqn:Em; [|discriminate].
  pose proof (mkdirAllIn_files _ _ _ Em) as Hf. pose proof (mkdirAllIn_dirs _ _ _ Em) as Hd.
  pose proof (mkdirAllIn_rndNext _ _ _ Em) as Hr. cbn in Hf, Hd, Hr.
  destruct (isDirectory w2 p); [discriminate|].
  destruct (isRegular w2 p) eqn:Er; intros H; inversion H; subst; cbn.
  - repeat split; try assumption.
    + apply isRegular_true in Er. exact Er.
    + intros k _. rewrite Hf. reflexivity.
  - repeat split; try assumption.
    + rewrite lookup_insert_eq. eauto.
    + intros k Hk. rewrite lookup_insert_ne by congruence. rewrite Hf. reflexivity.
Qed.

Lemma fsCreateFile_Ok (p : string) (data : Reader) (n : Z) (w w1 : World) :
  fsCreateFile deps p data w = (Ok n, w1) →
  files w1 = <[fskey p := Bytes (rd_body data)]> (files w)
  ∧ dirs w ⊆ dirs w1 ∧ rndNext w1 = rndNext w
  ∧ n = Z.of_nat (String.length (rd_body data)).
Proof.
  unfold fsCreateFile, io. destruct (ioFault deps _); [discriminate|].
  destruct (mkdirAllIn _ _) as [w2|] eqn:Em; [|discriminate].
  pose proof (mkdirAllIn_files _ _ _ Em) as Hf. pose proof (mkdirAllIn_dirs _ _ _ Em) as Hd.
  pose proof (mkdirAllIn_rndNext _ _ _ Em) as Hr. cbn in Hf, Hd, Hr.
  destruct (isDirectory w2 p); [discriminate|].
  destruct (rd_err data); intros H; inversion H; subst; cbn.
  rewrite Hf. repeat split; assumption.
Qed.

Lemma fsRenameFile_Ok (src dst : string) (w w1 : World) :
  fsRenameFile deps src dst w = (Ok tt, w1) →
  ∃ b, files w !! fskey src = Some b
       ∧ files w1 = <[fskey dst := b]> (delete (fskey src) (files w))
       ∧ dirs w ⊆ dirs w1.
Proof.
  unfold fsRenameFile, io. destruct (ioFault deps _); [discriminate|]. cbn.
  destruct (files w !! fskey src) as [b|] eqn:Eb; [|discriminate].
  destruct (mkdirAllIn _ _) as [w2|] eqn:Em; [|discriminate].
  pose proof (mkdirAllIn_files _ _ _ Em) as Hf. pose proof (mkdirAllIn_dirs _ _ _ Em) as Hd.
  cbn in Hf, Hd.
  destruct (isDirectory w2 dst); [discriminate|].
  intros H; inversion H; subst; cbn. exists b. rewrite Hf. repeat split; assumption.
Qed.

Lemma fsRemoveFile_dirs (p d : string) (w : World) :
  d ∈ dirs w → d ≠ fskey p → d ∈ dirs (snd (fsRemoveFile deps p w)).
Proof.
  intros Hd Hne. unfold fsRemoveFile, io. destruct (ioFault deps _); [exact Hd|]. cbn [snd].
  destruct (isRegular _ p); [exact Hd|].
  destruct (isDirectory _ p); [|exact Hd].
  destruct (childrenOf _ p); [|exact Hd]. cbn. set_solver.
Qed.

Lemma fsStatFile_Ok_info (p : string) (fi : FileInfo) (w w1 : World) :
  fsStatFile deps p w = (Ok fi, w1) →
  ∃ b, files w !! fskey p = Some b ∧ fi = mkFileInfo (bodySize b) false
       ∧ files w1 = files w ∧ dirs w1 = dirs w.
Proof.
  unfold fsStatFile, io. destruct (ioFault deps _); [discriminate|]. cbn.
  destruct (files w !! fskey p) as [b|]; [|destruct (isDirectory _ _); discriminate].
  intros H; inversion H. exists b. repeat split; reflexivity.
Qed.

End WriteSuccess.

Section PutSuccess.

Context (deps : Deps) (fs : FSObjects).
Context (bucket object : string) (data : Reader) (metadata : gmap string string).

(** The sidecar [putObject] writes: the metadata of the request and the
    etag of the bytes. *)
Definition storedFsMeta : fsMetaV1 :=
  set_Meta (newFSMetaV1 deps) (<["etag" := md5hex deps (rd_body data)]> metadata).

(** The info [putObject] returns. *)
Definition storedInfo : ObjectInfo :=
  ToObjectInfo deps storedFsMeta bucket object
    (mkFileInfo (Z.of_nat (String.length (rd_body data))) false).

(** The files and directories after a successful put, against those
    before it. *)
Definition stored (tmpPath : string) (w w' : World) : Prop :=
  files w' !! fskey (putDataPath fs bucket object) = Some (Bytes (rd_body data))
  ∧ files w' !! fskey (putMetaPath fs bucket object) = Some (FsJSON storedFsMeta)
  ∧ files w' !! fskey tmpPath = None
  ∧ (∀ k, k ≠ fskey (putDataPath fs bucket object) →
          k ≠ fskey (putMetaPath fs bucket object) →
          k ≠ fskey tmpPath → files w' !! k = files w !! k)
  ∧ (∀ d, d ∈ dirs w → d ≠ fskey tmpPath → d ∈ dirs w').

Lemma fsMeta_WriteTo_dirs m lk : preserves dirs (fsMeta_WriteTo deps m lk).
Proof. intros w. unfold fsMeta_WriteTo, io. destruct (ioFault deps _); reflexivity. Qed.

Lemma isParentDirObject_tree fuel :
  ∀ p, preserves tree (isParentDirObject deps fs fuel bucket p).
Proof.
  induction fuel as [|n IH]; intros p; simpl; frame. apply fsIsFile_tree.
Qed.

Lemma putObject_stream_Ok (w w' : World) (oi : ObjectInfo) :
  putObject_stream deps fs bucket object data metadata
    (Some (putMetaPath fs bucket object)) w = (Ok oi, w') →
  fskey (putTmpPath deps fs w) ≠ fskey (putDataPath fs bucket object) →
  fskey (putTmpPath deps fs w) ≠ fskey (putMetaPath fs bucket object) →
  fskey (putDataPath fs bucket object) ≠ fskey (putMetaPath fs bucket object) →
  oi = storedInfo ∧ stored (putTmpPath deps fs w) w w'.
Proof.
  intros H HTD HTS HDS. unfold putObject_stream in H. cbv zeta in H.
  apply bind_Ok in H as (tempObj & w1 & H1 & H).
  unfold mustGetUUID in H1. inversion H1; subst tempObj w1; clear H1.
  fold (putTmpPath deps fs w) in H.
  set (tmpPath := putTmpPath deps fs w) in *.
  apply bind_Ok in H as (written & w2 & H2 & H). apply try_Ok in H2.
  destruct written as [bytesWritten|err].
  2:{ apply bind_Ok in H as (? & ? & _ & H). discriminate. }
  apply fsCreateFile_Ok in H2 as (F2 & D2 & _ & _). cbn in F2, D2.
  destruct (negb _ && _).
  { apply bind_Ok in H as (? & ? & _ & H). discriminate. }
  apply defer_inv in H as (w3 & H & ->).
  apply bind_Ok in H as (denied & w4 & H4 & H).
  assert (T4 : tree w4 = tree w2).
  { destruct (globalWORMEnabled deps); [|inversion H4; reflexivity].
    apply bind_Ok in H4 as (st & w5 & H5 & H4). inversion H4; subst w5.
    apply try_Ok in H5.
    pose proof (fsStatFile_tree deps (pathJoin [fsPath fs; bucket; object]) w2) as X.
    destruct st; rewrite H5 in X; exact X. }
  clear H4. unfold tree in T4. injection T4 as F4 D4.
  destruct denied; [discriminate|].
  apply bind_Ok in H as ([] & w5 & H5 & H). apply mapErr_Ok in H5.
  apply fsRenameFile_Ok in H5 as (b & Hb & F5 & D5).
  rewrite F4, F2, lookup_insert_eq in Hb. injection Hb as <-.
  apply bind_Ok in H as ([] & w6 & H6 & H). apply mapErr_Ok in H6.
  match type of H6 with
  | fsMeta_WriteTo _ ?m ?lk _ = _ =>
      pose proof (fsMeta_WriteTo_dirs m lk w5) as D6; rewrite H6 in D6; cbn in D6
  end.
  apply fsMeta_WriteTo_Ok in H6 as (F6 & _).
  apply bind_Ok in H as (fi & w7 & H7 & H). apply mapErr_Ok in H7.
  apply fsStatFile_Ok_info in H7 as (b & Hb & -> & F7 & D7).
  inversion H; subst oi w3; clear H.
  fold (putDataPath fs bucket object) in *.
  assert (F6' : ∀ k, files w6 !! k
                     = if decide (k = fskey (putMetaPath fs bucket object))
                       then Some (FsJSON storedFsMeta)
                       else if decide (k = fskey (putDataPath fs bucket object))
                       then Some (Bytes (rd_body data))
                       else if decide (k = fskey tmpPath) then None
                       else files w !! k).
  { intros k. rewrite F6, F5, F4, F2.
    destruct (decide (k = fskey (putMetaPath fs bucket object))) as [->|HkS].
    { rewrite lookup_insert_eq. reflexivity. }
    rewrite lookup_insert_ne by congruence.
    destruct (decide (k = fskey (putDataPath fs bucket object))) as [->|HkD].
    { rewrite lookup_insert_eq. reflexivity. }
    rewrite lookup_insert_ne by congruence.
    destruct (decide (k = fskey tmpPath)) as [->|HkT].
    { apply lookup_delete_eq. }
    rewrite lookup_delete_ne by congruence. rewrite lookup_insert_ne by congruence.
    reflexivity. }
  split.
  - rewrite F6' in Hb.
    destruct (decide _) as [Heq|_]; [contradiction|].
    destruct (decide _) as [_|Hne]; [|contradiction].
    injection Hb as <-. reflexivity.
  - unfold stored.
    destruct (fsRemoveFile_effect deps tmpPath w7) as (_ & Hother & Habs & _).
    split; [|split; [|split; [|split]]].
    + rewrite Hother by congruence. rewrite F7, F6'.
      destruct (decide _) as [Heq|_]; [contradiction|].
      destruct (decide _) as [_|Hne]; [reflexivity|contradiction].
    + rewrite Hother by congruence. rewrite F7, F6'.
      destruct (decide _) as [_|Hne]; [reflexivity|contradiction].
    + apply Habs. rewrite F7, F6'.
      destruct (decide _) as [Heq|_]; [congruence|].
      destruct (decide _) as [Heq|_]; [congruence|].
      destruct (decide _) as [_|Hne]; [reflexivity|contradiction].
    + intros k HkD HkS HkT. rewrite Hother by exact HkT. rewrite F7, F6'.
      repeat (destruct (decide _) as [Heq|_]; [contradiction|]). reflexivity.
    + intros d Hd Hne. apply fsRemoveFile_dirs; [|exact Hne].
      rewrite D7, D6. apply D5. rewrite D4. apply D2. exact Hd.
Qed.

Lemma statBucketDir_Ok_dir (fi : FileInfo) (w w1 : World) :
  statBucketDir deps fs bucket w = (Ok fi, w1) →
  getBucketDir fs bucket = Ok (pathJoin [fsPath fs; bucket])
  ∧ isDirectory w (pathJoin [fsPath fs; bucket]) = true
  ∧ tree w1 = tree w ∧ rndNext w1 = rndNext w.
Proof.
  unfold statBucketDir, getBucketDir, bind, lift.
  destruct (_ || _); [discriminate|].
  unfold fsStatVolume, io. destruct (ioFault deps _); [discriminate|].
  change (isDirectory (log _ w) (pathJoin [fsPath fs; bucket]))
    with (isDirectory w (pathJoin [fsPath fs; bucket])).
  destruct (isDirectory w _) eqn:Ed; [|destruct (isRegular _ _); discriminate].
  intros H; inversion H. repeat split; reflexivity.
Qed.

Lemma putObject_Ok (w w' : World) (oi : ObjectInfo) :
  putObject deps fs bucket object data metadata w = (Ok oi, w') →
  isObjectDir object (rd_Size data) = false →
  String.eqb bucket minioMetaBucket = false →
  fskey (putTmpPath deps fs w) ≠ fskey (putDataPath fs bucket object) →
  fskey (putTmpPath deps fs w) ≠ fskey (putMetaPath fs bucket object) →
  fskey (putDataPath fs bucket object) ≠ fskey (putMetaPath fs bucket object) →
  oi = storedInfo ∧ stored (putTmpPath deps fs w) w w'
  ∧ getBucketDir fs bucket = Ok (pathJoin [fsPath fs; bucket])
  ∧ isDirectory w (pathJoin [fsPath fs; bucket]) = true.
Proof.
  intros H Hdir Hb HTD HTS HDS. unfold putObject in H. cbv zeta in H.
  apply bind_Ok in H as (fi & w1 & H1 & H). apply mapErr_Ok in H1.
  apply statBucketDir_Ok_dir in H1 as (Hbucket & Hthere & T1 & R1).
  rewrite Hdir in H.
  apply bind_Ok in H as ([] & w2 & H2 & H).
  unfold check in H2. destruct (checkPutObjectArgs _ _ _ _ _); inversion H2. subst w2.
  clear H2.
  apply bind_Ok in H as (isObj & w2 & H2 & H).
  pose proof (isParentDirObject_tree (S (String.length (GoPath.Dir object)))
                (GoPath.Dir object) w1) as T2.
  fold (parentDirIsObject deps fs bucket (GoPath.Dir object)) in T2.
  pose proof (parentDirIsObject_rndNext deps fs bucket (GoPath.Dir object) w1) as R2.
  rewrite H2 in T2, R2. cbn in T2, R2.
  rewrite T1 in T2. rewrite R1 in R2. clear H2 T1 R1 w1.
  destruct isObj; [discriminate|].
  destruct (rd_Size data <? 0); [discriminate|].
  fold (putMetaDir fs) in H. fold (putMetaPath fs bucket object) in H.
  rewrite Hb in H. cbn [negb] in H.
  apply bind_Ok in H as (lk & w3 & H3 & H). apply mapErr_Ok in H3.
  apply rwPool_Create_Ok in H3 as (-> & D3 & R3 & _ & K3).
  apply defer_inv in H as (w4 & H & ->).
  apply deferOnErr_inv in H as (w5 & H & ->).
  change (putObject_stream deps fs bucket object data metadata
            (Some (putMetaPath fs bucket object)) w3 = (Ok oi, w5)) in H.
  apply putObject_stream_Ok in H as (-> & HD & HS & HT & HK & Hdirs);
    unfold putTmpPath in *; rewrite ?R3, ?R2; try assumption.
  rewrite R3, R2 in HT, HK, Hdirs.
  unfold tree in T2. injection T2 as F2 D2.
  split; [reflexivity|]. split; [|split; assumption].
  unfold stored.
  assert (Fc : files (snd (lockedFile_Close (putMetaPath fs bucket object) w5)) = files w5)
    by reflexivity.
  assert (Dc : dirs (snd (lockedFile_Close (putMetaPath fs bucket object) w5)) = dirs w5)
    by reflexivity.
  rewrite Fc, Dc. split; [exact HD|]. split; [exact HS|]. split; [exact HT|]. split.
  - intros k HkD HkS HkT. rewrite HK by assumption. rewrite K3 by assumption.
    rewrite F2. reflexivity.
  - intros d Hd Hne. apply Hdirs; [|exact Hne]. apply D3. rewrite D2. exact Hd.
Qed.

Lemma PutObject_Ok (w w' : World) (oi : ObjectInfo) :
  PutObject deps fs bucket object data metadata w = (Ok oi, w') →
  isObjectDir object (rd_Size data) = false →
  String.eqb bucket minioMetaBucket = false →
  fskey (putTmpPath deps fs w) ≠ fskey (putDataPath fs bucket object) →
  fskey (putTmpPath deps fs w) ≠ fskey (putMetaPath fs bucket object) →
  fskey (putDataPath fs bucket object) ≠ fskey (putMetaPath fs bucket object) →
  oi = storedInfo ∧ stored (putTmpPath deps fs w) w w'
  ∧ getBucketDir fs bucket = Ok (pathJoin [fsPath fs; bucket])
  ∧ isDirectory w (pathJoin [fsPath fs; bucket]) = true
  ∧ nsLocks w !! (bucket, object) = None.
Proof.
  intros H Hdir Hb HTD HTS HDS. unfold PutObject in H.
  apply bind_Ok in H as ([] & w1 & H1 & H).
  unfold check in H1. destruct (checkPutObjectArgs _ _ _ _ _); inversion H1. subst w1.
  clear H1.
  apply bind_Ok in H as ([] & w1 & H1 & H).
  assert (T1 : tree w1 = tree w ∧ rndNext w1 = rndNext w
               ∧ nsLocks w !! (bucket, object) = None).
  { unfold GetLock in H1. destruct (nsLocks w !! (bucket, object)); inversion H1.
    repeat split; reflexivity. }
  destruct T1 as (T1 & R1 & Hlock). unfold tree in T1. injection T1 as F1 D1. clear H1.
  apply defer_inv in H as (w2 & H & ->).
  apply putObject_Ok in H as (-> & (HD & HS & HT & HK & Hdirs) & Hbucket & Hthere);
    unfold putTmpPath in *; rewrite ?R1; try assumption.
  rewrite R1 in HT, HK, Hdirs.
  split; [reflexivity|]. split; [|split; [exact Hbucket|split; [|exact Hlock]]].
  - unfold stored.
    change (files (snd (Unlock bucket object w2))) with (files w2).
    change (dirs (snd (Unlock bucket object w2))) with (dirs w2).
    split; [exact HD|]. split; [exact HS|]. split; [exact HT|]. split.
    + intros k HkD HkS HkT. rewrite HK by assumption. rewrite F1. reflexivity.
    + intros d Hd Hne. apply Hdirs; [|exact Hne]. rewrite D1. exact Hd.
  - unfold isDirectory in *. rewrite <- D1. exact Hthere.
Qed.

(** After a PutObject that succeeded - of an object that is no
    directory, in a bucket other than the meta bucket, the temporary
    object, the object and its sidecar at three different paths - the
    info returned is that of the bytes of the request; the object holds
    these bytes; its sidecar holds the metadata of the request with the
    etag of the bytes; no temporary file is left; every other file is
    what it was; and no directory but one at the temporary path has been
    removed. *)
Theorem PutObject_stores (w w' : World) (oi : ObjectInfo) :
  PutObject deps fs bucket object data metadata w = (Ok oi, w') →
  isObjectDir object (rd_Size data) = false →
  String.eqb bucket minioMetaBucket = false →
  fskey (putTmpPath deps fs w) ≠ fskey (putDataPath fs bucket object) →
  fskey (putTmpPath deps fs w) ≠ fskey (putMetaPath fs bucket object) →
  fskey (putDataPath fs bucket object) ≠ fskey (putMetaPath fs bucket object) →
  oi = ToObjectInfo deps storedFsMeta bucket object
         (mkFileInfo (Z.of_nat (String.length (rd_body data))) false)
  ∧ files w' !! fskey (putDataPath fs bucket object) = Some (Bytes (rd_body data))
  ∧ files w' !! fskey (putMetaPath fs bucket object) = Some (FsJSON storedFsMeta)
  ∧ files w' !! fskey (putTmpPath deps fs w) = None
  ∧ (∀ k, k ≠ fskey (putDataPath fs bucket object) →
          k ≠ fskey (putMetaPath fs bucket object) →
          k ≠ fskey (putTmpPath deps fs w) → files w' !! k = files w !! k)
  ∧ (∀ d, d ∈ dirs w → d ≠ fskey (putTmpPath deps fs w) → d ∈ dirs w').
Proof.
  intros H Hdir Hb HTD HTS HDS.
  destruct (PutObject_Ok w w' oi H Hdir Hb HTD HTS HDS) as (-> & Hst & _).
  split; [reflexivity|exact Hst].
Qed.

Lemma substring_all (s : string) : String.substring 0 (String.length s) s = s.
Proof. induction s as [|a s IH]; [reflexivity|]. cbn. rewrite IH. reflexivity. Qed.

(** What PutObject stored, GetObject reads: after a PutObject that
    succeeded, of a key that does not end in a slash, a GetObject of
    the whole object - arguments accepted, the caller's object info
    not marked compressed, no helper failing on its own, the two
    spellings of the sidecar path naming one file, a bucket other than
    the meta bucket, a body whose length fits an [int64] - writes the
    bytes of the request. *)
Theorem PutObject_then_GetObject (w w' : World) (oi objInfo : ObjectInfo) :
  PutObject deps fs bucket object data metadata w = (Ok oi, w') →
  hasSuffix object slashSeparator = false →
  String.eqb bucket minioMetaBucket = false →
  fskey (putTmpPath deps fs w) ≠ fskey (putDataPath fs bucket object) →
  fskey (putTmpPath deps fs w) ≠ fskey (putMetaPath fs bucket object) →
  fskey (putDataPath fs bucket object) ≠ fskey (putMetaPath fs bucket object) →
  fskey (putTmpPath deps fs w) ≠ fskey (pathJoin [fsPath fs; bucket]) →
  fskey (fsMetaPathOf fs bucket object) = fskey (putMetaPath fs bucket object) →
  checkGetObjArgs deps bucket object = None →
  isCompressed deps (userDefinedOf objInfo) = false →
  (∀ c, ioFault deps c = None) →
  Z.of_nat (String.length (rd_body data)) ≤ GoInt64.MaxInt64 →
  fst (GetObject deps fs bucket object 0 (-1) GoodWriter "" objInfo w') = Ok (rd_body data).
Proof.
  intros H Hkey Hb HTD HTS HDS HTB Hsame Hargs Hplain Hio Hfits.
  assert (Hdir : isObjectDir object (rd_Size data) = false).
  { unfold isObjectDir. rewrite Hkey. reflexivity. }
  destruct (PutObject_Ok w w' oi H Hdir Hb HTD HTS HDS)
    as (_ & (HD & HS & _ & _ & Hdirs) & Hbucket & Hthere & Hlock).
  pose proof (PutObject_nsLocks deps fs bucket object data metadata w) as L.
  rewrite H in L. cbn in L.
  pose proof (GetObject_range_run deps fs bucket object (rd_body data) 0 (-1) objInfo w')
    as HG.
  rewrite HG; try assumption.
  - unfold rangeResult. cbv zeta. change (-1 <? 0) with true. cbv iota.
    replace (Z.of_nat (String.length (rd_body data)) - 0)
      with (Z.of_nat (String.length (rd_body data))) by lia.
    destruct (Z.gtb_spec 0 (Z.of_nat (String.length (rd_body data)))); [lia|].
    destruct (Z.gtb_spec (0 + Z.of_nat (String.length (rd_body data))) GoInt64.MaxInt64);
      [lia|].
    destruct (Z.gtb_spec (0 + Z.of_nat (String.length (rd_body data)))
                (Z.of_nat (String.length (rd_body data)))); [lia|].
    rewrite Nat2Z.id. change (Z.to_nat 0) with 0%nat.
    rewrite substring_all. reflexivity.
  - rewrite L, Hlock. discriminate.
  - unfold isDirectory in *. apply bool_decide_eq_true. apply bool_decide_eq_true in Hthere.
    apply Hdirs; [exact Hthere|]. congruence.
  - left. unfold isRegular. rewrite Hsame, HS. apply bool_decide_eq_true. eauto.
  - unfold GoInt64.MaxInt64. lia.
  - unfold GoInt64.MinInt64, GoInt64.MaxInt64. lia.
Qed.

End PutSuccess.

(** [new.txt] put into [b1]: the bytes are at the key, the sidecar holds
    their etag, the temporary file is gone, [hello] is what it was. *)
Lemma PutObject_stores_witness :
  files (snd (PutObject (Demo.deps Demo.noFaults false) Demo.fs "b1" "new.txt"
                (mkReader 3 "abc" None) ∅ Demo.world))
    !! "/export/b1/new.txt" = Some (Bytes "abc")
  ∧ files (snd (PutObject (Demo.deps Demo.noFaults false) Demo.fs "b1" "new.txt"
                  (mkReader 3 "abc" None) ∅ Demo.world))
      !! "/export/.minio.sys/buckets/b1/new.txt/fs.json"
    = Some (FsJSON {| Version := "1.0.1"; Format := "fs";
                      Meta := {[ "etag" := "md5(abc)" ]}; Parts := [] |})
  ∧ files (snd (PutObject (Demo.deps Demo.noFaults false) Demo.fs "b1" "new.txt"
                  (mkReader 3 "abc" None) ∅ Demo.world))
      !! "/export/.minio.sys/tmp/srv/uuid0" = None
  ∧ files (snd (PutObject (Demo.deps Demo.noFaults false) Demo.fs "b1" "new.txt"
                  (mkReader 3 "abc" None) ∅ Demo.world))
      !! "/export/b1/hello" = Some (Bytes "hi").
Proof.
  assert (E : fst (PutObject (Demo.deps Demo.noFaults false) Demo.fs "b1" "new.txt"
                     (mkReader 3 "abc" None) ∅ Demo.world)
              = Ok (storedInfo (Demo.deps Demo.noFaults false) "b1" "new.txt"
                      (mkReader 3 "abc" None) ∅))
    by (vm_compute; reflexivity).
  destruct (PutObject_stores (Demo.deps Demo.noFaults false) Demo.fs "b1" "new.txt"
              (mkReader 3 "abc" None) ∅ Demo.world
              (snd (PutObject (Demo.deps Demo.noFaults false) Demo.fs "b1" "new.txt"
                      (mkReader 3 "abc" None) ∅ Demo.world))
              (storedInfo (Demo.deps Demo.noFaults false) "b1" "new.txt"
                 (mkReader 3 "abc" None) ∅))
    as (_ & HD & HS & HT & HK & _).
  - rewrite <- E. apply surjective_pairing.
  - reflexivity.
  - reflexivity.
  - vm_compute. discriminate.
  - vm_compute. discriminate.
  - vm_compute. discriminate.
  - split; [exact HD|]. split; [|split; [exact HT|]].
    + transitivity (Some (FsJSON (storedFsMeta (Demo.deps Demo.noFaults false)
                                    (mkReader 3 "abc" None) ∅)));
        [exact HS|vm_compute; reflexivity].
    + transitivity (files Demo.world !! "/export/b1/hello");
        [|vm_compute; reflexivity].
      apply HK; vm_compute; discriminate.
Defined.

(** [new.txt] put into [b1] and read back. *)
Lemma PutObject_then_GetObject_witness :
  fst (GetObject (Demo.deps Demo.noFaults false) Demo.fs "b1" "new.txt" 0 (-1) GoodWriter ""
         (mkObjectInfo "b1" "new.txt" 3 false "" "" None [] false 3)
         (snd (PutObject (Demo.deps Demo.noFaults false) Demo.fs "b1" "new.txt"
                 (mkReader 3 "abc" None) ∅ Demo.world)))
  = Ok "abc".
Proof.
  assert (E : fst (PutObject (Demo.deps Demo.noFaults false) Demo.fs "b1" "new.txt"
                     (mkReader 3 "abc" None) ∅ Demo.world)
              = Ok (storedInfo (Demo.deps Demo.noFaults false) "b1" "new.txt"
                      (mkReader 3 "abc" None) ∅))
    by (vm_compute; reflexivity).
  apply (PutObject_then_GetObject (Demo.deps Demo.noFaults false) Demo.fs "b1" "new.txt"
           (mkReader 3 "abc" None) ∅ Demo.world
           (snd (PutObject (Demo.deps Demo.noFaults false) Demo.fs "b1" "new.txt"
                   (mkReader 3 "abc" None) ∅ Demo.world))
           (storedInfo (Demo.deps Demo.noFaults false) "b1" "new.txt"
              (mkReader 3 "abc" None) ∅)).
  - rewrite <- E. apply surjective_pairing.
  - reflexivity.
  - reflexivity.
  - vm_compute. discriminate.
  - vm_compute. discriminate.
  - vm_compute. discriminate.
  - vm_compute. discriminate.
  - vm_compute. reflexivity.
  - reflexivity.
  - vm_compute. reflexivity.
  - intros c. reflexivity.
  - unfold GoInt64.MaxInt64. cbn. lia.
Defined.

(** ** Buckets made and deleted *)

Section Buckets.

Context (deps : Deps) (fs : FSObjects) (bucket : string).

(** The directory of the bucket, and the directory of its metadata. *)
Definition bucketDirOf : string := pathJoin [fsPath fs; bucket].
Definition bucketMetaDirOf : string :=
  pathJoin [fsPath fs; minioMetaBucket; bucketMetaPrefix; bucket].

(** A MakeBucketWithLocation that succeeded was given a valid name that
    was free, has made the directory of the bucket and nothing else,
    and has changed no file; a GetBucketInfo that follows it finds the
    bucket, the stat not failing on its own. *)
Theorem MakeBucketWithLocation_then_GetBucketInfo (location : string) (w w' : World) :
  MakeBucketWithLocation deps fs bucket location w = (Ok tt, w') →
  ioFault deps (IOStatVolume bucketDirOf) = None →
  IsValidBucketName deps bucket = true
  ∧ isDirectory w bucketDirOf = false ∧ isRegular w bucketDirOf = false
  ∧ files w' = files w ∧ dirs w' = dirs w ∪ {[fskey bucketDirOf]}
  ∧ fst (GetBucketInfo deps fs bucket w') = Ok (mkBucketInfo bucket).
Proof.
  intros H Hio. unfold MakeBucketWithLocation in H.
  apply bind_Ok in H as ([] & w1 & H1 & H).
  assert (L1 : nsLocks w !! (bucket, "") = None
               ∧ w1 = log (EvLock bucket "")
                        (set_nsLocks (<[(bucket, "") := WriteLocked]> (nsLocks w)) w)).
  { unfold GetLock in H1. destruct (nsLocks w !! (bucket, "")); inversion H1.
    split; reflexivity. }
  destruct L1 as (Hlock & ->). clear H1.
  apply defer_inv in H as (w2 & H & ->).
  destruct (IsValidBucketName deps bucket) eqn:Ev; [|discriminate]. cbn [negb] in H.
  apply bind_Ok in H as (bucketDir & w3 & H3 & H). apply mapErr_Ok in H3.
  unfold lift in H3. injection H3 as H3 <-. apply mapErr_Ok in H.
  assert (Hb : getBucketDir fs bucket = Ok bucketDirOf).
  { rewrite H3. f_equal. unfold getBucketDir in H3. destruct (_ || _); [discriminate|].
    injection H3 as <-. reflexivity. }
  assert (bucketDir = bucketDirOf) as -> by congruence.
  unfold fsMkdir, io in H. destruct (ioFault deps (IOMkdir bucketDirOf)); [discriminate|].
  match type of H with
  | (if ?d || ?r then _ else _) = _ =>
      change d with (isDirectory w bucketDirOf) in H;
      change r with (isRegular w bucketDirOf) in H
  end.
  destruct (isDirectory w bucketDirOf) eqn:Ed; [discriminate|].
  destruct (isRegular w bucketDirOf) eqn:Er; [discriminate|].
  injection H as <-. cbn [snd Unlock].
  split; [reflexivity|]. split; [reflexivity|]. split; [reflexivity|].
  split; [reflexivity|]. split; [reflexivity|].
  unfold GetBucketInfo. unfold bind at 1, GetRLock at 1. cbn [nsLocks log set_nsLocks set_dirs].
  rewrite delete_insert_id by exact Hlock. rewrite Hlock. unfold defer.
  unfold bind at 1, toErr at 1, mapErr at 1, statBucketDir, bind at 1, lift. rewrite Hb.
  unfold fsStatVolume, io. rewrite Hio.
  match goal with
  | |- context [isDirectory ?w0 bucketDirOf] =>
      replace (isDirectory w0 bucketDirOf) with true
  end.
  - reflexivity.
  - symmetry. unfold isDirectory. apply bool_decide_eq_true. cbn. set_solver.
Qed.

(** A DeleteBucket that succeeded found the bucket empty, and has
    removed its directory and everything under the directory of its
    metadata, and nothing else.  A DeleteBucket that failed has changed
    no file and no directory, unless it is the clean-up of the metadata
    that failed on its own: the bucket is not removed while anything is
    in it, and its metadata is not touched before the bucket is gone. *)
Theorem DeleteBucket_effect (r : Res error unit) (w w' : World) :
  DeleteBucket deps fs bucket w = (r, w') →
  match r with
  | Ok _ =>
      isDirectory w bucketDirOf = true ∧ childrenOf w bucketDirOf = []
      ∧ dirs w' = filter (fun q => ¬ under bucketMetaDirOf q) (dirs w ∖ {[fskey bucketDirOf]})
      ∧ files w' = filter (fun kv => ¬ under bucketMetaDirOf kv.1) (files w)
  | Err _ => ioFault deps (IORemoveAll bucketMetaDirOf) = None → tree w' = tree w
  | Panic _ => False
  end.
Proof.
  intros H. unfold DeleteBucket in H.
  apply bind_inv in H as [([] & w1 & H1 & H)|[(e & H1 & ->)|(msg & H1 & ->)]].
  2:{ intros _. unfold GetLock in H1. destruct (nsLocks w !! (bucket, "")); inversion H1.
      reflexivity. }
  2:{ unfold GetLock in H1. destruct (nsLocks w !! (bucket, "")); inversion H1. }
  assert (T1 : tree w1 = tree w).
  { unfold GetLock in H1. destruct (nsLocks w !! (bucket, "")); inversion H1. reflexivity. }
  clear H1. apply defer_inv in H as (w2 & H & ->).
  assert (Hu : tree (snd (Unlock bucket "" w2)) = tree w2) by reflexivity.
  cbv zeta in H. fold bucketMetaDirOf in H.
  apply bind_inv in H as [(bucketDir & w3 & H3 & H)|[(e & H3 & ->)|(msg & H3 & ->)]].
  2:{ intros _. apply mapErr_inv in H3 as (r0 & H3 & _). unfold lift in H3.
      injection H3 as _ <-. rewrite Hu. exact T1. }
  2:{ apply mapErr_inv in H3 as (r0 & H3 & Hr). unfold lift in H3. injection H3 as <- _.
      unfold getBucketDir in Hr. destruct (_ || _); discriminate. }
  apply mapErr_Ok in H3. unfold lift in H3. injection H3 as H3 <-.
  assert (bucketDir = bucketDirOf) as ->.
  { unfold getBucketDir in H3. destruct (_ || _); [discriminate|]. injection H3 as <-.
    reflexivity. }
  clear H3.
  apply bind_inv in H as [([] & w3 & H3 & H)|[(e & H3 & ->)|(msg & H3 & ->)]].
  2,3: apply mapErr_inv in H3 as (r0 & H3 & Hr);
       unfold fsRemoveDir, io in H3;
       destruct (ioFault deps (IORemoveDir bucketDirOf));
       [|destruct (negb _); [|destruct (childrenOf _ _)]];
       injection H3 as <- <-; try discriminate Hr; intros _; rewrite Hu; exact T1.
  apply mapErr_Ok in H3. unfold fsRemoveDir, io in H3.
  destruct (ioFault deps (IORemoveDir bucketDirOf)); [discriminate|].
  match type of H3 with
  | (if negb ?d then _ else match ?c with _ => _ end) = _ =>
      change d with (isDirectory w1 bucketDirOf) in H3;
      change c with (childrenOf w1 bucketDirOf) in H3
  end.
  unfold tree in T1. injection T1 as F1 D1.
  assert (Hd : isDirectory w1 bucketDirOf = isDirectory w bucketDirOf)
    by (unfold isDirectory; rewrite D1; reflexivity).
  assert (Hc : childrenOf w1 bucketDirOf = childrenOf w bucketDirOf)
    by (unfold childrenOf; rewrite D1, F1; reflexivity).
  rewrite Hd, Hc in H3.
  destruct (isDirectory w bucketDirOf); [|discriminate]. cbn [negb] in H3.
  destruct (childrenOf w bucketDirOf); [|discriminate].
  injection H3 as <-.
  apply bind_inv in H as [([] & w4 & H4 & H)|[(e & H4 & ->)|(msg & H4 & ->)]].
  2,3: apply mapErr_inv in H4 as (r0 & H4 & Hr); unfold fsRemoveAll, io in H4;
       destruct (ioFault deps (IORemoveAll bucketMetaDirOf)) eqn:Ef;
       injection H4 as <- <-; try discriminate Hr; intros Hn; discriminate Hn.
  apply mapErr_Ok in H4. unfold fsRemoveAll, io in H4.
  destruct (ioFault deps (IORemoveAll bucketMetaDirOf)); [discriminate|].
  injection H4 as <-. unfold deleteBucketMetadata in H. injection H as <- <-.
  cbn. rewrite D1, F1. repeat split; reflexivity.
Qed.

End Buckets.

(** [bucket2] made in the export, then asked for. *)
Lemma MakeBucketWithLocation_then_GetBucketInfo_witness :
  fst (GetBucketInfo (Demo.deps Demo.noFaults false) Demo.fs "bucket2"
         (snd (MakeBucketWithLocation (Demo.deps Demo.noFaults false) Demo.fs "bucket2" ""
                 Demo.world)))
  = Ok (mkBucketInfo "bucket2").
Proof.
  destruct (MakeBucketWithLocation_then_GetBucketInfo (Demo.deps Demo.noFaults false) Demo.fs
              "bucket2" "" Demo.world
              (snd (MakeBucketWithLocation (Demo.deps Demo.noFaults false) Demo.fs "bucket2" ""
                      Demo.world)))
    as (_ & _ & _ & _ & _ & H).
  - vm_compute. reflexivity.
  - reflexivity.
  - exact H.
Defined.

(** [b1] holds [hello]: it is not deleted, and nothing of it is. *)
Lemma DeleteBucket_effect_witness :
  fst (DeleteBucket (Demo.deps Demo.noFaults false) Demo.fs "b1" Demo.world)
  = Err (BucketNotEmpty "b1")
  ∧ tree (snd (DeleteBucket (Demo.deps Demo.noFaults false) Demo.fs "b1" Demo.world))
    = tree Demo.world.
Proof.
  assert (E : fst (DeleteBucket (Demo.deps Demo.noFaults false) Demo.fs "b1" Demo.world)
              = Err (BucketNotEmpty "b1")) by (vm_compute; reflexivity).
  split; [exact E|].
  pose proof (DeleteBucket_effect (Demo.deps Demo.noFaults false) Demo.fs "b1"
                (Err (BucketNotEmpty "b1")) Demo.world
                (snd (DeleteBucket (Demo.deps Demo.noFaults false) Demo.fs "b1" Demo.world)))
    as X.
  cbv beta iota in X. apply X.
  - rewrite <- E. apply surjective_pairing.
  - reflexivity.
Defined.

(** ** Pages of a listing *)

(** [m] never panics. *)
Definition nopanic {A} (m : M A) : Prop := ∀ w msg, fst (m w) ≠ Panic msg.

Section NoPanic.

Lemma nopanic_ret {A} (a : A) : nopanic (ret a).
Proof. intros w msg. discriminate. Qed.

Lemma nopanic_fail {A} (e : error) : nopanic (@fail World error A e).
Proof. intros w msg. discriminate. Qed.

Lemma nopanic_bind {A B} (m : M A) (k : A → M B) :
  nopanic m → (∀ a, nopanic (k a)) → nopanic (bind m k).
Proof.
  intros Hm Hk w msg. unfold bind. specialize (Hm w).
  destruct (m w) as [[a|e|msg'] w1]; cbn in *; [apply Hk|discriminate|].
  exfalso. eapply Hm. reflexivity.
Qed.

Lemma nopanic_defer {A B} (d : M B) (body : M A) : nopanic body → nopanic (defer d body).
Proof.
  intros Hb w msg. unfold defer. specialize (Hb w msg). destruct (body w). exact Hb.
Qed.

Lemma nopanic_try {A} (m : M A) : nopanic m → nopanic (try m).
Proof.
  intros Hm w msg. unfold try. specialize (Hm w). destruct (m w) as [[a|e|msg'] w1];
    cbn in *; [discriminate|discriminate|]. exfalso. eapply Hm. reflexivity.
Qed.

Lemma nopanic_io (deps : Deps) {A} (c : IOCall) (body : M A) :
  nopanic body → nopanic (io deps c body).
Proof. intros Hb w msg. unfold io. destruct (ioFault deps c); [discriminate|apply Hb]. Qed.

End NoPanic.

Ltac nopanic_prim :=
  intros w msg; autounfold with helpers; cbn;
  repeat match goal with
         | |- context [match ?x with _ => _ end] => destruct x; cbn
         end;
  discriminate.

Section ListingPages.

Context (deps : Deps) (fs : FSObjects).

Lemma getObjectInfo_nopanic bucket object : nopanic (getObjectInfo deps fs bucket object).
Proof.
  unfold getObjectInfo. destruct (hasSuffix object slashSeparator).
  - apply nopanic_bind; [nopanic_prim|]. intros isdir. destruct (negb isdir).
    + apply nopanic_fail.
    + apply nopanic_bind; [nopanic_prim|]. intros fi. apply nopanic_ret.
  - cbv zeta. apply nopanic_bind; [apply nopanic_try; nopanic_prim|]. intros rlk.
    apply nopanic_bind.
    + destruct rlk as [lk|err].
      * apply nopanic_bind; [apply nopanic_try; nopanic_prim|]. intros rerr.
        apply nopanic_bind; [nopanic_prim|]. intros _.
        destruct rerr; [apply nopanic_ret|apply nopanic_fail].
      * destruct (decide _); [apply nopanic_ret|apply nopanic_fail].
    + intros m. apply nopanic_bind; [nopanic_prim|]. intros fi. apply nopanic_ret.
Qed.

Lemma entryToObjectInfo_nopanic bucket entry :
  nopanic (entryToObjectInfo deps fs bucket entry).
Proof.
  unfold entryToObjectInfo. apply nopanic_bind; [nopanic_prim|]. intros _.
  apply nopanic_defer. apply getObjectInfo_nopanic.
Qed.

(** An entry locked for writing within the page: the loop returns the
    page it was given and no error, whatever was gathered before. *)
Lemma listLoop_locked (bucket prefix : string) (loi : ListObjectsInfo) (wr : walkResult)
    (post : list walkResult) (pre : list walkResult) :
  ∀ n objInfos nm w,
    (length pre < n)%nat →
    Forall (fun r => walk_err r = None ∧ walk_end r = false) pre →
    walk_err wr = None →
    nsLocks w !! (bucket, entry wr) = Some WriteLocked →
    fst (listLoop deps fs n bucket prefix loi (pre ++ wr :: post) objInfos nm w)
    = Ok (LoopReturn loi None).
Proof.
  induction pre as [|r pre IH]; intros n objInfos nm w Hn Hpre Hwr Hlock.
  - destruct n as [|n]; [cbn in Hn; lia|]. cbn [app listLoop]. rewrite Hwr.
    unfold bind at 1, try, entryToObjectInfo. unfold bind at 1, GetRLock. rewrite Hlock.
    reflexivity.
  - destruct n as [|n]; [cbn in Hn; lia|]. cbn [app listLoop].
    apply Forall_cons in Hpre as ((Hr & He) & Hpre). rewrite Hr, He.
    unfold bind at 1.
    pose proof (entryToObjectInfo_nopanic bucket (entry r) w) as Hnp.
    pose proof (entryToObjectInfo_nsLocks deps fs bucket (entry r) w) as Hl.
    unfold try. destruct (entryToObjectInfo deps fs bucket (entry r) w) as [[oi|e|msg] w1].
    + cbn in Hl. apply IH; [cbn in Hn; lia|exact Hpre|exact Hwr|].
      rewrite Hl. exact Hlock.
    + reflexivity.
    + exfalso. eapply Hnp. reflexivity.
Qed.

(** The walker a ListObjects call reads from, once its arguments are
    accepted and its bucket found: the one parked for its parameters,
    or else a new one. *)
Definition listingChannel (bucket prefix marker delimiter : string) (w : World)
  : list walkResult :=
  let recursive := negb (String.eqb delimiter slashSeparator) in
  let w1 := log (EvIO (IOStatVolume (pathJoin [fsPath fs; bucket]))) w in
  match poolRelease (mkListParams bucket recursive marker prefix false) (listPool w1) with
  | (Some ch, _) => ch
  | (None, pool') => startTreeWalk deps (set_listPool pool' w1) bucket prefix marker recursive
  end.

(** A listing that meets, within its page, an entry locked for
    writing returns the empty page and no error: the entries read
    before it are dropped.  The arguments are taken to be accepted, the
    bucket to be there, the page size not 0, and delimiter and prefix
    not both "/". *)
Theorem ListObjects_locked_entry (bucket prefix marker delimiter : string) (maxKeys : Z)
    (pre post : list walkResult) (wr : walkResult) (w : World) :
  checkListObjsArgs deps w bucket prefix marker delimiter = None →
  marker = "" ∨ hasPrefix marker prefix = true →
  getBucketDir fs bucket = Ok (pathJoin [fsPath fs; bucket]) →
  ioFault deps (IOStatVolume (pathJoin [fsPath fs; bucket])) = None →
  isDirectory w (pathJoin [fsPath fs; bucket]) = true →
  maxKeys ≠ 0 →
  String.eqb delimiter slashSeparator && String.eqb prefix slashSeparator = false →
  listingChannel bucket prefix marker delimiter w = (pre ++ wr :: post)%list →
  (length pre < Z.to_nat (effectiveMaxKeys maxKeys))%nat →
  Forall (fun r => walk_err r = None ∧ walk_end r = false) pre →
  walk_err wr = None →
  nsLocks w !! (bucket, entry wr) = Some WriteLocked →
  fst (ListObjects deps fs bucket prefix marker delimiter maxKeys w)
  = Ok (emptyListObjectsInfo, None).
Proof.
  intros Hargs Hmarker Hbucket Hio Hdir Hmax Hslash Hch Hn Hpre Hwr Hlock.
  unfold ListObjects. cbv zeta. unfold bind at 1, get at 1. rewrite Hargs.
  assert (negb (String.eqb marker "") && negb (hasPrefix marker prefix) = false) as ->.
  { destruct Hmarker as [->| ->]; [reflexivity|]. apply andb_false_r. }
  unfold bind at 1, try at 1, statBucketDir, bind at 1, lift. rewrite Hbucket.
  unfold fsStatVolume, io. rewrite Hio.
  change (isDirectory (log _ w) (pathJoin [fsPath fs; bucket]))
    with (isDirectory w (pathJoin [fsPath fs; bucket])).
  rewrite Hdir. apply Z.eqb_neq in Hmax. rewrite Hmax, Hslash.
  unfold listingChannel in Hch. cbv zeta in Hch.
  unfold bind at 1, listPool_Release.
  destruct (poolRelease _ _) as [[ch|] pool'].
  - subst ch. unfold bind at 1, ret at 1. unfold bind at 1.
    match goal with
    | |- context [listLoop deps fs ?n bucket prefix ?loi _ [] "" ?w3] =>
        pose proof (listLoop_locked bucket prefix loi wr post pre n [] "" w3
                      Hn Hpre Hwr Hlock) as HL;
        destruct (listLoop deps fs n bucket prefix loi (pre ++ wr :: post) [] "" w3)
          as [r w4]
    end.
    cbn in HL. subst r. reflexivity.
  - unfold bind at 1, bind at 1, get at 1, bind at 1, modify at 1, ret at 1.
    rewrite Hch. unfold bind at 1.
    match goal with
    | |- context [listLoop deps fs ?n bucket prefix ?loi _ [] "" ?w3] =>
        pose proof (listLoop_locked bucket prefix loi wr post pre n [] "" w3
                      Hn Hpre Hwr Hlock) as HL;
        destruct (listLoop deps fs n bucket prefix loi (pre ++ wr :: post) [] "" w3)
          as [r w4]
    end.
    cbn in HL. subst r. reflexivity.
Qed.

(** *** A truncated page and the page after it *)

Lemma fsIsDir_pool p : preserves listPool (fsIsDir deps p).
Proof. intros w. unfold fsIsDir. destruct (ioFault deps _); reflexivity. Qed.
Lemma fsStatDir_pool p : preserves listPool (fsStatDir deps p).
Proof.
  intros w. unfold fsStatDir, io. destruct (ioFault deps _); [reflexivity|].
  destruct (isDirectory _ _); [reflexivity|]. destruct (isRegular _ _); reflexivity.
Qed.
Lemma fsStatFile_pool p : preserves listPool (fsStatFile deps p).
Proof.
  intros w. unfold fsStatFile, io. destruct (ioFault deps _); [reflexivity|].
  destruct (files _ !! _); [reflexivity|]. destruct (isDirectory _ _); reflexivity.
Qed.
Lemma rwPool_Open_pool p : preserves listPool (rwPool_Open deps p).
Proof.
  intros w. unfold rwPool_Open, io. destruct (ioFault deps _); [reflexivity|].
  destruct (isRegular _ _); [reflexivity|]. destruct (isDirectory _ _); reflexivity.
Qed.
Lemma rwPool_Close_pool p : preserves listPool (rwPool_Close p).
Proof. intros w. reflexivity. Qed.
Lemma fsMeta_ReadFrom_pool p : preserves listPool (fsMeta_ReadFrom deps p).
Proof.
  intros w. unfold fsMeta_ReadFrom, io. destruct (ioFault deps _); [reflexivity|].
  destruct (files _ !! _) as [[s|m]|]; [destruct (String.eqb s "")| |]; try reflexivity.
  destruct (isFSMetaValid deps _); reflexivity.
Qed.
Lemma GetRLock_pool b o : preserves listPool (GetRLock b o).
Proof. intros w. unfold GetRLock. destruct (nsLocks w !! _) as [[|n]|]; reflexivity. Qed.
Lemma RUnlock_pool b o : preserves listPool (RUnlock b o).
Proof. intros w. reflexivity. Qed.

Hint Resolve fsIsDir_pool fsStatDir_pool fsStatFile_pool rwPool_Open_pool rwPool_Close_pool
  fsMeta_ReadFrom_pool GetRLock_pool RUnlock_pool : frames.

Lemma entryToObjectInfo_pool bucket entry :
  preserves listPool (entryToObjectInfo deps fs bucket entry).
Proof. unfold entryToObjectInfo, getObjectInfo. frame. Qed.

(** The name of the last object info gathered. *)
Definition lastName (objInfos : list ObjectInfo) : string :=
  match last objInfos with
  | Some o => Name o
  | None => ""
  end.

(** A loop that ran out of iterations has read one entry in each, has
    gathered an object info for each, and leaves the rest of the
    channel. *)
Lemma listLoop_full (n : nat) :
  ∀ bucket prefix loi ch objInfos nm w objs nm' ch' w',
    listLoop deps fs n bucket prefix loi ch objInfos nm w
      = (Ok (LoopDone objs false nm' ch'), w') →
    nm = lastName objInfos →
    ch' = drop n ch ∧ length objs = (length objInfos + n)%nat ∧ nm' = lastName objs
    ∧ listPool w' = listPool w.
Proof.
  induction n as [|n IH]; intros bucket prefix loi ch objInfos nm w objs nm' ch' w' H Hnm.
  - simpl in H. unfold ret in H. inversion H; subst.
    repeat split; try reflexivity. lia.
  - simpl in H. destruct ch as [|res ch]; [unfold ret in H; inversion H|].
    destruct (walk_err res) as [e|].
    { destruct (decide (e = errFileNotFound)); unfold ret in H; inversion H. }
    unfold bind in H at 1.
    pose proof (entryToObjectInfo_pool bucket (entry res) w) as Hp.
    unfold try in H.
    destruct (entryToObjectInfo deps fs bucket (entry res) w) as [[objInfo|err|msg] w1];
      try discriminate.
    cbn in Hp. destruct (walk_end res); [unfold ret in H; inversion H|].
    apply IH in H as (-> & Hlen & -> & Hpool).
    + rewrite length_app in Hlen. cbn in Hlen.
      repeat split; [lia|congruence].
    + unfold lastName. rewrite last_snoc. reflexivity.
Qed.

Lemma fillResult_page (delimiter : string) (objInfos : list ObjectInfo) :
  ∀ result,
    IsTruncated (fillResult delimiter objInfos result) = IsTruncated result
    ∧ NextMarker (fillResult delimiter objInfos result)
      = match last objInfos with
        | Some o => Name o
        | None => NextMarker result
        end.
Proof.
  induction objInfos as [|o rest IH]; intros result; [split; reflexivity|].
  cbn [fillResult]. destruct (IH (if IsDir o && String.eqb delimiter slashSeparator
        then {| IsTruncated := IsTruncated result; NextMarker := Name o;
                Objects := Objects result; Prefixes := (Prefixes result ++ [Name o])%list |}
        else {| IsTruncated := IsTruncated result; NextMarker := Name o;
                Objects := (Objects result ++ [o])%list; Prefixes := Prefixes result |}))
    as (H1 & H2).
  rewrite H1, H2. split.
  - destruct (_ && _); reflexivity.
  - destruct rest as [|o' rest]; [destruct (_ && _); reflexivity|].
    rewrite last_cons_cons. destruct (last (o' :: rest)) eqn:E; [reflexivity|].
    apply last_None in E. discriminate.
Qed.

Lemma statBucketDir_Ok_world (bucket : string) (fi : FileInfo) (w w1 : World) :
  statBucketDir deps fs bucket w = (Ok fi, w1) →
  w1 = log (EvIO (IOStatVolume (pathJoin [fsPath fs; bucket]))) w.
Proof.
  unfold statBucketDir, getBucketDir, bind, lift.
  destruct (_ || _); [discriminate|].
  unfold fsStatVolume, io. destruct (ioFault deps _); [discriminate|].
  destruct (isDirectory _ _); [|destruct (isRegular _ _); discriminate].
  intros H; inversion H. reflexivity.
Qed.

(** A page that comes back truncated is full, comes without an error,
    and has parked its walker under its NextMarker: the call for the
    next page, made with that marker, reads on where this one stopped. *)
Theorem ListObjects_truncated_page (bucket prefix marker delimiter : string) (maxKeys : Z)
    (res : ListObjectsInfo) (e : option error) (w w' : World) :
  ListObjects deps fs bucket prefix marker delimiter maxKeys w = (Ok (res, e), w') →
  IsTruncated res = true →
  e = None
  ∧ (length (Objects res) + length (Prefixes res))%nat = Z.to_nat (effectiveMaxKeys maxKeys)
  ∧ listingChannel bucket prefix (NextMarker res) delimiter w'
    = drop (Z.to_nat (effectiveMaxKeys maxKeys))
        (listingChannel bucket prefix marker delimiter w).
Proof.
  intros H Ht. unfold ListObjects in H. unfold bind at 1 in H. simpl in H.
  destruct (checkListObjsArgs deps w bucket prefix marker delimiter).
  { inversion H; subst. discriminate. }
  destruct (negb (String.eqb marker "") && negb (hasPrefix marker prefix)).
  { inversion H; subst. discriminate. }
  unfold bind at 1 in H.
  destruct (try (statBucketDir deps fs bucket) w) as [[[st|err]| |] w1] eqn:Est;
    try discriminate.
  2:{ inversion H; subst. discriminate. }
  apply try_Ok in Est. apply statBucketDir_Ok_world in Est. subst w1.
  destruct (maxKeys =? 0). { inversion H; subst. discriminate. }
  destruct (String.eqb delimiter slashSeparator && String.eqb prefix slashSeparator).
  { inversion H; subst. discriminate. }
  unfold bind at 1 in H. unfold listPool_Release in H.
  assert (Hch : ∃ ch w3,
            listPool w3 = snd (poolRelease
                                 (mkListParams bucket (negb (String.eqb delimiter slashSeparator))
                                    marker prefix false)
                                 (listPool w))
            ∧ ch = listingChannel bucket prefix marker delimiter w
            ∧ (let* out := listLoop deps fs (Z.to_nat (effectiveMaxKeys maxKeys)) bucket prefix
                             emptyListObjectsInfo ch [] "" in
               match out with
               | LoopReturn l e => ret (l, e)
               | LoopDone objInfos eof nextMarker ch =>
                   do (if negb eof
                       then listPool_Set
                              (mkListParams bucket (negb (String.eqb delimiter slashSeparator))
                                 nextMarker prefix false) ch
                       else ret tt) in
                   ret (fillResult delimiter objInfos
                          {| IsTruncated := negb eof; NextMarker := ""; Objects := [];
                             Prefixes := [] |}, None)
               end) w3 = (Ok (res, e), w')).
  { unfold listingChannel. cbv zeta.
    change (listPool (log (EvIO (IOStatVolume (pathJoin [fsPath fs; bucket]))) w))
      with (listPool w) in *.
    destruct (poolRelease _ (listPool w)) as [[ch|] pool'].
    - unfold bind at 1, ret at 1 in H. eexists _, _. split; [|split; [reflexivity|exact H]].
      reflexivity.
    - unfold bind at 1, bind at 1, get at 1, bind at 1, modify at 1, ret at 1 in H.
      eexists _, _. split; [|split; [reflexivity|exact H]]. reflexivity. }
  clear H. destruct Hch as (ch & w3 & Hpool & Hch & H).
  apply bind_Ok in H as (out & w4 & Hloop & H).
  destruct out as [l e0|objInfos eof nm ch'].
  { apply listLoop_return in Hloop. unfold ret in H. inversion H; subst. discriminate. }
  apply bind_Ok in H as ([] & w5 & Hset & H). unfold ret in H. inversion H; subst res e w5.
  clear H.
  destruct (fillResult_page delimiter objInfos
              {| IsTruncated := negb eof; NextMarker := ""; Objects := []; Prefixes := [] |})
    as (HT & HN).
  rewrite HT in Ht. cbn in Ht. destruct eof; [discriminate|]. cbn [negb] in Hset.
  apply listLoop_full in Hloop as (-> & Hlen & -> & Hp4); [|reflexivity].
  unfold listPool_Set in Hset. inversion Hset; subst w'. clear Hset.
  split; [reflexivity|]. split.
  - rewrite fillResult_length. cbn. cbn in Hlen. lia.
  - rewrite HN. cbn [NextMarker]. fold (lastName objInfos).
    unfold listingChannel at 1. cbv zeta. cbn [listPool log set_listPool poolRelease].
    destruct (decide _) as [_|Hne]; [|contradiction]. rewrite Hch. reflexivity.
Qed.

End ListingPages.

(** [hello] is locked for writing: the listing of [b1] is empty, though
    [docs/a.txt], read before it, is not locked. *)
Lemma ListObjects_locked_entry_witness :
  fst (ListObjects (Demo.deps Demo.noFaults false) Demo.fs "b1" "" "" "" 10
         (set_nsLocks {[ ("b1", "hello") := WriteLocked ]} Demo.world))
  = Ok (emptyListObjectsInfo, None).
Proof.
  apply (ListObjects_locked_entry (Demo.deps Demo.noFaults false) Demo.fs "b1" "" "" "" 10
           [mkWalkResult "docs/a.txt" None false] [] (mkWalkResult "hello" None true)).
  - reflexivity.
  - left. reflexivity.
  - reflexivity.
  - reflexivity.
  - vm_compute. reflexivity.
  - lia.
  - reflexivity.
  - vm_compute. reflexivity.
  - vm_compute. lia.
  - constructor; [split; reflexivity|constructor].
  - reflexivity.
  - vm_compute. reflexivity.
Defined.

(** The page a call returned, or the empty page. *)
Definition pageOf (r : Res error (ListObjectsInfo * option error)) : ListObjectsInfo :=
  match r with
  | Ok (res, _) => res
  | _ => emptyListObjectsInfo
  end.

(** [b1] listed one key at a time: the second page starts at [hello]. *)
Lemma ListObjects_truncated_page_witness :
  NextMarker (pageOf (fst (ListObjects (Demo.deps Demo.noFaults false) Demo.fs
                             "b1" "" "" "" 1 Demo.world)))
  = "docs/a.txt"
  ∧ listingChannel (Demo.deps Demo.noFaults false) Demo.fs "b1" "" "docs/a.txt" ""
      (snd (ListObjects (Demo.deps Demo.noFaults false) Demo.fs "b1" "" "" "" 1 Demo.world))
    = [mkWalkResult "hello" None true].
Proof.
  assert (E : NextMarker (pageOf (fst (ListObjects (Demo.deps Demo.noFaults false) Demo.fs
                                         "b1" "" "" "" 1 Demo.world)))
              = "docs/a.txt") by (vm_compute; reflexivity).
  split; [exact E|].
  destruct (ListObjects_truncated_page (Demo.deps Demo.noFaults false) Demo.fs
              "b1" "" "" "" 1
              (pageOf (fst (ListObjects (Demo.deps Demo.noFaults false) Demo.fs
                              "b1" "" "" "" 1 Demo.world)))
              None Demo.world
              (snd (ListObjects (Demo.deps Demo.noFaults false) Demo.fs "b1" "" "" "" 1
                      Demo.world)))
    as (_ & _ & H).
  - vm_compute. reflexivity.
  - vm_compute. reflexivity.
  - rewrite E in H. rewrite H. vm_compute. reflexivity.
Defined.

(** ** What GetObjectInfo returns *)

Section GetInfo.

Context (deps : Deps) (fs : FSObjects).

(** The metadata [getObjectInfo] works with: that of the sidecar when
    it is there, the default one when nothing is at its path. *)
Definition sidecarOf (bucket object : string) (w : World) : option fsMetaV1 :=
  match files w !! fskey (fsMetaPathOf fs bucket object) with
  | Some (FsJSON m) => if isFSMetaValid deps (Version m) then Some m else None
  | Some (Bytes _) => None
  | None =>
      if isDirectory w (fsMetaPathOf fs bucket object) then None
      else Some (defaultFsJSON deps object)
  end.

Lemma getObjectInfoWithLock_plain (bucket object : string) (b : FileBody) (m : fsMetaV1)
    (w : World) :
  checkGetObjArgs deps bucket object = None →
  nsLocks w !! (bucket, object) ≠ Some WriteLocked →
  (∀ c, ioFault deps c = None) →
  getBucketDir fs bucket = Ok (pathJoin [fsPath fs; bucket]) →
  isDirectory w (pathJoin [fsPath fs; bucket]) = true →
  hasSuffix object slashSeparator = false →
  files w !! fskey (pathJoin [fsPath fs; bucket; object]) = Some b →
  sidecarOf bucket object w = Some m →
  fst (getObjectInfoWithLock deps fs bucket object w)
  = Ok (ToObjectInfo deps m bucket object (mkFileInfo (bodySize b) false)).
Proof.
  intros Hargs Hlock Hio Hbucket Hdir Hkey Hbody Hside.
  unfold getObjectInfoWithLock. unfold bind at 1.
  assert (HL : ∃ l, GetRLock bucket object w
                    = (Ok tt, log (EvRLock bucket object) (set_nsLocks l w))).
  { unfold GetRLock. destruct (nsLocks w !! (bucket, object)) as [[|n]|]; eauto.
    contradiction. }
  destruct HL as (l & ->).
  assert (HD : ∀ (d : M unit) (body : M ObjectInfo) w1 r,
             fst (body w1) = r → fst (defer d body w1) = r).
  { intros d body w1 r Hb. unfold defer. destruct (body w1). exact Hb. }
  apply HD. unfold bind at 1, check at 1. rewrite Hargs.
  unfold bind at 1, toErr at 1, mapErr at 1, statBucketDir, bind at 1, lift.
  rewrite Hbucket. unfold fsStatVolume, io. rewrite Hio.
  change (isDirectory (log _ (log _ (set_nsLocks l w))) (pathJoin [fsPath fs; bucket]))
    with (isDirectory w (pathJoin [fsPath fs; bucket])).
  rewrite Hdir. rewrite Hkey. unfold bind at 1, ret at 1. cbn [andb].
  unfold getObjectInfo. rewrite Hkey. cbv zeta.
  unfold sidecarOf in Hside.
  unfold bind at 1, try at 1, rwPool_Open, io. rewrite Hio.
  match goal with
  | |- context [isRegular ?w1 (fsMetaPathOf fs bucket object)] =>
      change (isRegular w1 (fsMetaPathOf fs bucket object))
        with (isRegular w (fsMetaPathOf fs bucket object));
      change (isDirectory w1 (fsMetaPathOf fs bucket object))
        with (isDirectory w (fsMetaPathOf fs bucket object))
  end.
  unfold isRegular.
  destruct (files w !! fskey (fsMetaPathOf fs bucket object)) as [[s|m0]|] eqn:Es;
    [discriminate| |].
  - (* the sidecar is there *)
    destruct (isFSMetaValid deps (Version m0)) eqn:Ev; [|discriminate].
    injection Hside as ->.
    rewrite bool_decide_eq_true_2 by eauto.
    unfold bind at 1. unfold bind at 1, try at 1, fsMeta_ReadFrom, io. rewrite Hio.
    match goal with
    | |- context [files ?w1 !! fskey (fsMetaPathOf fs bucket object)] =>
        change (files w1 !! fskey (fsMetaPathOf fs bucket object))
          with (files w !! fskey (fsMetaPathOf fs bucket object))
    end.
    rewrite Es, Ev. unfold bind at 1, rwPool_Close. unfold ret at 1.
    unfold bind at 1, fsStatFile, io. rewrite Hio.
    match goal with
    | |- context [files ?w1 !! fskey (pathJoin [fsPath fs; bucket; object])] =>
        change (files w1 !! fskey (pathJoin [fsPath fs; bucket; object]))
          with (files w !! fskey (pathJoin [fsPath fs; bucket; object]))
    end.
    rewrite Hbody. reflexivity.
  - (* nothing at its path *)
    destruct (isDirectory w (fsMetaPathOf fs bucket object)) eqn:Ed; [discriminate|].
    injection Hside as <-.
    rewrite bool_decide_eq_false_2 by (intros [x Hx]; discriminate).
    unfold bind at 1.
    destruct (decide (errFileNotFound = errFileNotFound)); [|contradiction].
    unfold ret at 1.
    unfold bind at 1, fsStatFile, io. rewrite Hio.
    match goal with
    | |- context [files ?w1 !! fskey (pathJoin [fsPath fs; bucket; object])] =>
        change (files w1 !! fskey (pathJoin [fsPath fs; bucket; object]))
          with (files w !! fskey (pathJoin [fsPath fs; bucket; object]))
    end.
    rewrite Hbody. reflexivity.
Qed.

Lemma GetObjectInfo_run (bucket object : string) (b : FileBody) (m : fsMetaV1)
    (w : World) :
  checkGetObjArgs deps bucket object = None →
  nsLocks w !! (bucket, object) ≠ Some WriteLocked →
  (∀ c, ioFault deps c = None) →
  getBucketDir fs bucket = Ok (pathJoin [fsPath fs; bucket]) →
  isDirectory w (pathJoin [fsPath fs; bucket]) = true →
  hasSuffix object slashSeparator = false →
  files w !! fskey (pathJoin [fsPath fs; bucket; object]) = Some b →
  sidecarOf bucket object w = Some m →
  fst (GetObjectInfo deps fs bucket object w)
  = Ok (ToObjectInfo deps m bucket object (mkFileInfo (bodySize b) false))
  ∧ tree (snd (GetObjectInfo deps fs bucket object w)) = tree w.
Proof.
  intros Hargs Hlock Hio Hbucket Hdir Hkey Hbody Hside.
  pose proof (getObjectInfoWithLock_plain bucket object b m w Hargs Hlock Hio Hbucket Hdir
                Hkey Hbody Hside) as H.
  pose proof (getObjectInfoWithLock_tree deps fs bucket object w) as T.
  unfold GetObjectInfo, bind, try.
  destruct (getObjectInfoWithLock deps fs bucket object w) as [r w1].
  cbn [fst snd] in H, T. subst r. split; [reflexivity|exact T].
Qed.


End GetInfo.

Section PutThenInfo.

Context (deps : Deps) (fs : FSObjects).
Context (bucket object : string) (data : Reader) (metadata : gmap string string).

(** What PutObject returned, GetObjectInfo returns: after a PutObject
    that succeeded, of a key that does not end in a slash, in a bucket
    other than the meta bucket (for which no sidecar is written), a
    GetObjectInfo of the key answers with the very info the PutObject
    gave - arguments accepted, no helper failing on its own, the sidecar
    written in a version that is read back, the temporary object, the
    object, its sidecar and the bucket at different paths, the two
    spellings of the sidecar path naming one file. *)
Theorem PutObject_then_GetObjectInfo (w w' : World) (oi : ObjectInfo) :
  PutObject deps fs bucket object data metadata w = (Ok oi, w') →
  hasSuffix object slashSeparator = false →
  String.eqb bucket minioMetaBucket = false →
  fskey (putTmpPath deps fs w) ≠ fskey (putDataPath fs bucket object) →
  fskey (putTmpPath deps fs w) ≠ fskey (putMetaPath fs bucket object) →
  fskey (putDataPath fs bucket object) ≠ fskey (putMetaPath fs bucket object) →
  fskey (putTmpPath deps fs w) ≠ fskey (pathJoin [fsPath fs; bucket]) →
  fskey (fsMetaPathOf fs bucket object) = fskey (putMetaPath fs bucket object) →
  checkGetObjArgs deps bucket object = None →
  isFSMetaValid deps (Version (newFSMetaV1 deps)) = true →
  (∀ c, ioFault deps c = None) →
  fst (GetObjectInfo deps fs bucket object w') = Ok oi.
Proof.
  intros H Hkey Hb HTD HTS HDS HTB Hsame Hargs Hvalid Hio.
  assert (Hdir : isObjectDir object (rd_Size data) = false).
  { unfold isObjectDir. rewrite Hkey. reflexivity. }
  destruct (PutObject_Ok deps fs bucket object data metadata w w' oi H Hdir Hb HTD HTS HDS)
    as (-> & (HD & HS & _ & _ & Hdirs) & Hbucket & Hthere & Hlock).
  pose proof (PutObject_nsLocks deps fs bucket object data metadata w) as L.
  rewrite H in L. cbn in L.
  assert (Hfree : nsLocks w' !! (bucket, object) ≠ Some WriteLocked).
  { rewrite L, Hlock. discriminate. }
  assert (Hthere' : isDirectory w' (pathJoin [fsPath fs; bucket]) = true).
  { unfold isDirectory in *. apply bool_decide_eq_true. apply bool_decide_eq_true in Hthere.
    apply Hdirs; [exact Hthere|]. intros Heq. apply HTB. symmetry. exact Heq. }
  assert (Hside : sidecarOf deps fs bucket object w' = Some (storedFsMeta deps data metadata)).
  { unfold sidecarOf. rewrite Hsame, HS.
    change (Version (storedFsMeta deps data metadata)) with (Version (newFSMetaV1 deps)).
    rewrite Hvalid. reflexivity. }
  exact (proj1 (GetObjectInfo_run deps fs bucket object (Bytes (rd_body data))
                  (storedFsMeta deps data metadata) w' Hargs Hfree Hio Hbucket Hthere' Hkey
                  HD Hside)).
Qed.

End PutThenInfo.


(** [new.txt] put into [b1]: its info is the one the put returned. *)
Lemma PutObject_then_GetObjectInfo_witness :
  fst (GetObjectInfo (Demo.deps Demo.noFaults false) Demo.fs "b1" "new.txt"
         (snd (PutObject (Demo.deps Demo.noFaults false) Demo.fs "b1" "new.txt"
                 (mkReader 3 "abc" None) ∅ Demo.world)))
  = Ok (mkObjectInfo "b1" "new.txt" 3 false "md5(abc)" "" (Some ∅) [] false 0).
Proof.
  assert (E : fst (PutObject (Demo.deps Demo.noFaults false) Demo.fs "b1" "new.txt"
                     (mkReader 3 "abc" None) ∅ Demo.world)
              = Ok (mkObjectInfo "b1" "new.txt" 3 false "md5(abc)" "" (Some ∅) [] false 0))
    by (vm_compute; reflexivity).
  apply (PutObject_then_GetObjectInfo (Demo.deps Demo.noFaults false) Demo.fs "b1" "new.txt"
           (mkReader 3 "abc" None) ∅ Demo.world
           (snd (PutObject (Demo.deps Demo.noFaults false) Demo.fs "b1" "new.txt"
                   (mkReader 3 "abc" None) ∅ Demo.world))).
  - rewrite <- E. apply surjective_pairing.
  - reflexivity.
  - reflexivity.
  - vm_compute. discriminate.
  - vm_compute. discriminate.
  - vm_compute. discriminate.
  - vm_compute. discriminate.
  - vm_compute. reflexivity.
  - reflexivity.
  - reflexivity.
  - intros c. reflexivity.
Defined.

(** ** The gateway's metadata and errors *)

Section GatewayMetadata.

Import GCS.
Context (gdeps : GDeps).

(** The keys of the metadata that GCS stores as attributes of their own. *)
Definition uniqueAttributes : list string :=
  ["content-type"; "content-encoding"; "cache-control"; "content-disposition";
   "content-language"].

(** applyMetadataToGCSAttrs applies metadata to a GCS ObjectAttrs
    instance; [metadata[k]] of a missing key is the empty string. *)
Definition applyMetadataToGCSAttrs (metadata : gmap string string) (attrs : ObjectAttrs)
  : ObjectAttrs :=
  {| ContentType := default "" (metadata !! "content-type");
     ContentEncoding := default "" (metadata !! "content-encoding");
     CacheControl := default "" (metadata !! "cache-control");
     ContentDisposition := default "" (metadata !! "content-disposition");
     ContentLanguage := default "" (metadata !! "content-language");
     (* Filter metadata which is stored as a unique attribute *)
     Metadata := foldl (fun m key => delete key m) metadata uniqueAttributes |}.

Lemma lookup_setIfNonEmpty (k v k' : string) (m : gmap string string) :
  setIfNonEmpty k v m !! k'
  = if decide (k = k') then (if String.eqb v "" then m !! k' else Some v) else m !! k'.
Proof.
  unfold setIfNonEmpty. destruct (String.eqb v "") eqn:E.
  - destruct (decide (k = k')); reflexivity.
  - destruct (decide (k = k')) as [->|Hne].
    + apply lookup_insert_eq.
    + apply lookup_insert_ne. exact Hne.
Qed.

(** The metadata a client sends with an object comes back with its
    info: every entry is returned as it was sent, except that one of
    the five attributes GCS keeps apart is dropped when its value is
    empty. *)
Theorem metadata_round_trip (metadata : gmap string string) (attrs : ObjectAttrs)
    (bucket name bytes : string) (size : Z) (k : string) :
  oi_UserDefined (fromGCSAttrsToObjectInfo gdeps bucket name bytes
                    (applyMetadataToGCSAttrs metadata attrs) size) !! k
  = if bool_decide (k ∈ uniqueAttributes ∧ metadata !! k = Some "")
    then None else metadata !! k.
Proof.
  unfold fromGCSAttrsToObjectInfo, applyMetadataToGCSAttrs. cbn.
  rewrite !lookup_setIfNonEmpty.
  destruct (decide (k ∈ uniqueAttributes)) as [Hin|Hout].
  - (* one of the five: what the attribute holds, unless it is empty *)
    unfold uniqueAttributes in Hin.
    repeat (apply elem_of_cons in Hin as [->|Hin]); [..|apply elem_of_nil in Hin; contradiction];
      repeat (destruct (decide _) as [?|?]; try discriminate; try contradiction);
      rewrite ?lookup_delete_ne by discriminate; rewrite ?lookup_delete_eq;
      match goal with
      | |- context [metadata !! ?key] => destruct (metadata !! key) as [v|] eqn:E
      end; cbn;
      try (destruct (String.eqb_spec v ""); subst);
      first [ rewrite bool_decide_eq_true_2
                by (split; [unfold uniqueAttributes; repeat constructor|reflexivity]);
              reflexivity
            | rewrite bool_decide_eq_false_2 by (intros [_ Heq]; congruence);
              reflexivity ].
  - (* any other key: stored with the object's own metadata *)
    assert (Hne : ∀ a, a ∈ uniqueAttributes → a ≠ k) by (intros a Ha ->; contradiction).
    repeat (destruct (decide _) as [Heq|_];
            [exfalso; eapply Hne; [|exact Heq]; unfold uniqueAttributes; repeat constructor|]).
    rewrite !lookup_delete_ne
      by (apply Hne; unfold uniqueAttributes; repeat constructor).
    rewrite bool_decide_eq_false_2 by (intros [Hin _]; contradiction). reflexivity.
Qed.

End GatewayMetadata.

Section GatewayErrors.

Import GCS.
Context (gdeps : GDeps).

(** The two texts [gcsToObjectError] looks for. *)
Definition isStorageSentinel (text : string) : bool :=
  String.eqb text "storage: bucket doesn't exist"
  || String.eqb text "storage: object doesn't exist".

(** The errors that are not made from a plain message. *)
Definition isTyped (err : gerror) : bool :=
  match err with ErrNew _ => false | _ => true end.

Lemma gcsToObjectError_plain (err : gerror) (params : list string) :
  isStorageSentinel (Error gdeps err) = false →
  (∀ errors, err ≠ GoogleAPIError errors) →
  gcsToObjectError gdeps err params = err.
Proof.
  unfold isStorageSentinel. intros Hs Hg. apply orb_false_elim in Hs as (H1 & H2).
  unfold gcsToObjectError. rewrite H1, H2.
  destruct err; try reflexivity. exfalso. eapply Hg. reflexivity.
Qed.

(** An error that went through [gcsToObjectError] goes through it
    again unchanged (as the error of [cleanupMultipartUpload] does in
    [CompleteMultipartUpload]), provided no typed error prints as one
    of the two texts of the storage client. *)
Theorem gcsToObjectError_idempotent (err : gerror) (params params' : list string) :
  (∀ e, isTyped e = true → isStorageSentinel (Error gdeps e) = false) →
  gcsToObjectError gdeps (gcsToObjectError gdeps err params) params'
  = gcsToObjectError gdeps err params.
Proof.
  intros Htyped.
  assert (Hkeep : ∀ e, isTyped e = true → (∀ errors, e ≠ GoogleAPIError errors) →
                       gcsToObjectError gdeps e params' = e).
  { intros e He Hg. apply gcsToObjectError_plain; [apply Htyped; exact He|exact Hg]. }
  remember (gcsToObjectError gdeps err params) as r eqn:Hr.
  unfold gcsToObjectError in Hr.
  destruct (String.eqb (Error gdeps err) "storage: bucket doesn't exist") eqn:E1.
  { subst r. apply Hkeep; [reflexivity|discriminate]. }
  destruct (String.eqb (Error gdeps err) "storage: object doesn't exist") eqn:E2.
  { subst r. destruct (negb _); apply Hkeep; first [reflexivity|discriminate]. }
  assert (Hplain : isStorageSentinel (Error gdeps err) = false).
  { unfold isStorageSentinel. rewrite E1, E2. reflexivity. }
  destruct err as [msg|errors| | | | | | | | | |];
    try (subst r; apply gcsToObjectError_plain; [exact Hplain|discriminate]).
  destruct errors as [|first rest].
  { subst r. unfold gcsToObjectError. rewrite E1, E2. reflexivity. }
  cbv zeta in Hr.
  destruct (String.eqb (Reason first) "required" || String.eqb (Reason first) "keyInvalid"
            || String.eqb (Reason first) "forbidden").
  { subst r. apply Hkeep; [reflexivity|discriminate]. }
  destruct (String.eqb (Reason first) "invalid").
  { subst r. apply Hkeep; [reflexivity|discriminate]. }
  destruct (String.eqb (Reason first) "notFound").
  { subst r. destruct (negb _); apply Hkeep; first [reflexivity|discriminate]. }
  destruct (String.eqb (Reason first) "conflict").
  { subst r.
    repeat match goal with |- context [if ?b then _ else _] => destruct b end;
      apply Hkeep; first [reflexivity|discriminate]. }
  subst r. apply gcsToObjectError_plain; [reflexivity|discriminate].
Qed.

End GatewayErrors.

(** A "notFound" of the client, converted for an object and converted
    again for a bucket alone, stays the ObjectNotFound of the first
    conversion. *)
Lemma gcsToObjectError_idempotent_witness :
  GCS.gcsToObjectError GCSDemo.gdeps
    (GCS.gcsToObjectError GCSDemo.gdeps
       (GCS.GoogleAPIError [GCS.mkErrorItem "notFound" "No such object"]) ["b"; "k"])
    ["other"]
  = GCS.ObjectNotFound "b" "k".
Proof.
  rewrite (gcsToObjectError_idempotent GCSDemo.gdeps).
  - reflexivity.
  - intros e He. destruct e; try discriminate He; reflexivity.
Defined.

Section GatewayAbort.

Import GCS.
Context (gdeps : GDeps).

(** The prefix of the objects of an upload. *)
Definition uploadPrefix (uploadID : string) : string :=
  gcsMinioMultipartPathV1 +:+ "/" +:+ uploadID +:+ "/".

Lemma cleanupMultipartUpload_Ok (bucket key uploadID : string) (s s' : Store) :
  cleanupMultipartUpload gdeps bucket key uploadID s = (Ok tt, s') →
  objects s' = filter (fun kv => ¬ (kv.1.1 = bucket
                                    ∧ hasPrefix kv.1.2 (uploadPrefix uploadID) = true))
                      (objects s).
Proof.
  unfold cleanupMultipartUpload, mapErr, call.
  destruct (clientFault gdeps _); intros H; inversion H. reflexivity.
Qed.

(** AbortMultipartUpload of an upload whose [gcs.json] is not there,
    the call that looks for it not failing on its own, fails after that
    one call: nothing is listed and nothing is deleted.  The error is
    InvalidUploadID with the upload id; for the empty upload id it is
    ObjectNotFound with the bucket and an empty object name, the key
    being left out when three names are passed to [gcsToObjectError]. *)
Theorem AbortMultipartUpload_unknown_upload (bucket key uploadID : string) (s : Store) :
  objects s !! (bucket, gcsMultipartMetaName uploadID) = None →
  clientFault gdeps (CallAttrs bucket (gcsMultipartMetaName uploadID)) = None →
  AbortMultipartUpload gdeps bucket key uploadID s
  = (Err (if String.eqb uploadID "" then ObjectNotFound bucket ""
          else InvalidUploadID uploadID),
     logCall (CallAttrs bucket (gcsMultipartMetaName uploadID)) s).
Proof.
  intros Hnone Hfault.
  unfold AbortMultipartUpload, checkUploadIDExists. unfold bind at 1 2.
  unfold mapErr, object_Attrs, call. rewrite Hfault. cbn. rewrite Hnone.
  unfold gcsToObjectError. cbn.
  destruct (decide (3%nat = 3%nat)) as [_|Hn]; [|contradiction].
  destruct (String.eqb uploadID ""); reflexivity.
Qed.

(** When AbortMultipartUpload succeeds, and no delete failed on the
    client (the code does not look at the result of a delete), the
    [gcs.json] of the upload was there, no object is left under the
    prefix of the upload in the bucket, and every other object is what
    it was. *)
Theorem AbortMultipartUpload_removes_upload (bucket key uploadID : string) (s s' : Store) :
  (∀ name, clientFault gdeps (CallDelete bucket name) = None) →
  AbortMultipartUpload gdeps bucket key uploadID s = (Ok tt, s') →
  is_Some (objects s !! (bucket, gcsMultipartMetaName uploadID))
  ∧ (∀ name, hasPrefix name (uploadPrefix uploadID) = true →
             objects s' !! (bucket, name) = None)
  ∧ (∀ b name, ¬ (b = bucket ∧ hasPrefix name (uploadPrefix uploadID) = true) →
               objects s' !! (b, name) = objects s !! (b, name)).
Proof.
  intros _ H. unfold AbortMultipartUpload in H.
  apply bind_Ok in H as ([] & s1 & H1 & H).
  unfold checkUploadIDExists in H1. apply bind_Ok in H1 as ([a sz] & s2 & H1 & H2).
  inversion H2; subst s2; clear H2. apply mapErr_Ok in H1.
  apply object_Attrs_inv in H1 as (-> & Hst). destruct (Hst _ _ eq_refl) as (o & Ho & _).
  apply cleanupMultipartUpload_Ok in H. cbn in H.
  split; [eauto|]. split.
  - intros name Hname. rewrite H. apply map_lookup_filter_None. right.
    intros o' _ Hnot. apply Hnot. split; [reflexivity|exact Hname].
  - intros b name Hnot. rewrite H.
    destruct (objects s !! (b, name)) as [o'|] eqn:E.
    + apply map_lookup_filter_Some. split; [exact E|exact Hnot].
    + apply map_lookup_filter_None. left. exact E.
Qed.

(** The composed objects of an upload are kept under another prefix
    than its parts: cleaning up an upload deletes none of them, of this
    upload or of any other. *)
Theorem cleanupMultipartUpload_keeps_composed (bucket key uploadID : string) (s : Store)
    (b other : string) (composeNumber : Z) :
  objects (snd (cleanupMultipartUpload gdeps bucket key uploadID s))
    !! (b, gcsMultipartComposeName other composeNumber)
  = objects s !! (b, gcsMultipartComposeName other composeNumber).
Proof.
  unfold cleanupMultipartUpload, mapErr, call.
  destruct (clientFault gdeps _); [reflexivity|]. cbn [snd].
  cbn [objects set_objects logCall].
  destruct (objects s !! (b, gcsMultipartComposeName other composeNumber)) as [o|] eqn:E.
  - apply map_lookup_filter_Some. split; [exact E|]. intros [_ Hp]. cbn in Hp. discriminate.
  - apply map_lookup_filter_None. left. exact E.
Qed.

End GatewayAbort.

(** The upload "u2" was never started: nothing of "u1" is touched;
    and the empty upload id. *)
Lemma AbortMultipartUpload_unknown_upload_witness :
  GCS.AbortMultipartUpload GCSDemo.gdeps "b" "obj" "u2" GCSDemo.store
  = (Err (GCS.InvalidUploadID "u2"),
     GCS.logCall (GCS.CallAttrs "b" (GCS.gcsMultipartMetaName "u2")) GCSDemo.store)
  ∧ fst (GCS.AbortMultipartUpload GCSDemo.gdeps "b" "obj" "" GCSDemo.store)
    = Err (GCS.ObjectNotFound "b" "").
Proof.
  split.
  - apply (AbortMultipartUpload_unknown_upload GCSDemo.gdeps "b" "obj" "u2" GCSDemo.store).
    + vm_compute. reflexivity.
    + reflexivity.
  - rewrite (AbortMultipartUpload_unknown_upload GCSDemo.gdeps "b" "obj" "" GCSDemo.store).
    + reflexivity.
    + vm_compute. reflexivity.
    + reflexivity.
Defined.

(** The upload "u1" aborted: its first part is gone. *)
Lemma AbortMultipartUpload_removes_upload_witness :
  GCS.objects (snd (GCS.AbortMultipartUpload GCSDemo.gdeps "b" "obj" "u1" GCSDemo.store))
    !! ("b", GCS.gcsMultipartDataName "u1" 1 "e1") = None.
Proof.
  destruct (AbortMultipartUpload_removes_upload GCSDemo.gdeps "b" "obj" "u1" GCSDemo.store
              (snd (GCS.AbortMultipartUpload GCSDemo.gdeps "b" "obj" "u1" GCSDemo.store)))
    as (_ & Hgone & _).
  - intros name. reflexivity.
  - vm_compute. reflexivity.
  - apply Hgone. vm_compute. reflexivity.
Defined.

Section GatewayComplete.

Import GCS.
Context (gdeps : GDeps).

(** The name of the object of a part. *)
Definition partName (uploadID : string) (p : CompletePart) : string :=
  gcsMultipartDataName uploadID (PartNumber p) (ETag p).

(** The bytes of the parts, one after the other. *)
Fixpoint joinedParts (s : Store) (bucket uploadID : string) (ps : list CompletePart)
  : string :=
  match ps with
  | [] => ""
  | p :: rest =>
      match objects s !! (bucket, partName uploadID p) with
      | Some o => bytesOf (content o) +:+ joinedParts s bucket uploadID rest
      | None => joinedParts s bucket uploadID rest
      end
  end.

Definition partsStored (s : Store) (bucket uploadID : string) (ps : list CompletePart) : Prop :=
  Forall (fun p => is_Some (objects s !! (bucket, partName uploadID p))) ps.

Definition partSizesOf (s : Store) (bucket uploadID : string) (ps : list CompletePart)
  : list Z :=
  map (fun p => match objects s !! (bucket, partName uploadID p) with
                | Some o => sizeOf o
                | None => 0
                end) ps.

Lemma logCalls_objects (cs : list Call) (s : Store) :
  objects (foldl (fun s c => logCall c s) s cs) = objects s.
Proof. revert s. induction cs as [|c cs IH]; intros s; cbn; [reflexivity|]. rewrite IH. reflexivity. Qed.

(** The loop over the parts, when every part is there and the client
    does not fail. *)
Lemma partAttrs_run (bucket key uploadID : string) (ps : list CompletePart) :
  (∀ c, clientFault gdeps c = None) →
  ∀ s0 s, objects s = objects s0 →
    partsStored s0 bucket uploadID ps →
    ∃ s', partAttrs gdeps bucket key uploadID ps s
          = (Ok (map (partName uploadID) ps, partSizesOf s0 bucket uploadID ps), s')
          ∧ objects s' = objects s0.
Proof.
  intros Hf s0. induction ps as [|p rest IH]; intros s Hobj Hall.
  - cbn. unfold ret. eauto.
  - inversion Hall as [|? ? (o & Ho) Hrest]; subst.
    cbn [partAttrs]. unfold bind at 1. unfold mapErr, object_Attrs, call. rewrite Hf.
    cbn [objects logCall]. fold (partName uploadID p). rewrite Hobj, Ho.
    destruct (IH (logCall (CallAttrs bucket (partName uploadID p)) s) Hobj Hrest)
      as (s' & E & Hs').
    unfold bind at 1. rewrite E. unfold ret. cbn [map partSizesOf].
    fold (partSizesOf s0 bucket uploadID rest). rewrite Ho. eauto.
Qed.

Lemma gather_parts (bucket uploadID : string) (ps : list CompletePart) (s0 s : Store) :
  objects s = objects s0 →
  partsStored s0 bucket uploadID ps →
  gather s bucket (map (partName uploadID) ps) = Some (joinedParts s0 bucket uploadID ps).
Proof.
  intros Hobj. induction ps as [|p rest IH]; intros Hall; cbn; [reflexivity|].
  inversion Hall as [|? ? (o & Ho) Hrest]; subst.
  rewrite Hobj, Ho, (IH Hrest). reflexivity.
Qed.

(** The size check passes when every part but the last has 5 MiB. *)
Lemma checkPartSizes_large (ps : list CompletePart) :
  ∀ sizes, length sizes = length ps →
    (∀ i size, sizes !! i = Some size → (S i < length sizes)%nat → 5 * MiByte ≤ size) →
    checkPartSizes ps sizes = Ok tt.
Proof.
  induction ps as [|p rest IH]; intros sizes Hlen Hbig.
  - destruct sizes; reflexivity.
  - destruct sizes as [|sz szs]; [reflexivity|].
    destruct szs as [|sz' szs']; [reflexivity|].
    cbn [checkPartSizes].
    assert (Hsz : 5 * MiByte ≤ sz) by (apply (Hbig 0%nat); [reflexivity|cbn; lia]).
    destruct (sz <? 5 * MiByte) eqn:E; [lia|].
    apply IH; [cbn in *; lia|].
    intros i size Hi Hlt. apply (Hbig (S i)); [exact Hi|cbn in *; lia].
Qed.

Lemma CompleteMultipartUpload_run (bucket key uploadID : string)
    (uploadedParts : list CompletePart) (s : Store) (o : StoredObject) :
  (∀ c, clientFault gdeps c = None) →
  objects s !! (bucket, gcsMultipartMetaName uploadID) = Some o →
  content o = MetaJSON (mkMultipartMeta gcsMinioMultipartMetaCurrentVersion bucket key) →
  partsStored s bucket uploadID uploadedParts →
  (∀ i size, partSizesOf s bucket uploadID uploadedParts !! i = Some size →
             (S i < length uploadedParts)%nat → 5 * MiByte ≤ size) →
  (1 <= length uploadedParts <= 32)%nat →
  let bytes := joinedParts s bucket uploadID uploadedParts in
  let stored := mkStored (attrs o) (Data bytes) in
  fst (CompleteMultipartUpload gdeps bucket key uploadID uploadedParts s)
  = Ok (fromGCSAttrsToObjectInfo gdeps bucket key bytes (attrs o) (sizeOf stored))
  ∧ objects (snd (CompleteMultipartUpload gdeps bucket key uploadID uploadedParts s))
    = filter (fun kv => ¬ (kv.1.1 = bucket ∧ hasPrefix kv.1.2 (uploadPrefix uploadID) = true))
             (<[(bucket, key) := stored]> (objects s)).
Proof.
  intros Hf Ho Hc Hall Hbig Hlen bytes stored.
  destruct (sidecar_read gdeps bucket key uploadID s o _ Ho Hc (Hf _) (Hf _)) as (E1 & E2).
  destruct (partAttrs_run bucket key uploadID uploadedParts Hf s
              (logCall (CallNewReader bucket (gcsMultipartMetaName uploadID))
                 (logCall (CallAttrs bucket (gcsMultipartMetaName uploadID)) s))
              eq_refl Hall) as (s3 & E3 & Hobj3).
  assert (E4 : checkPartSizes uploadedParts (partSizesOf s bucket uploadID uploadedParts)
               = Ok tt).
  { apply checkPartSizes_large; [unfold partSizesOf; apply length_map|].
    intros i size Hi Hlt. apply (Hbig i size Hi).
    unfold partSizesOf in Hlt. rewrite length_map in Hlt. exact Hlt. }
  assert (E5 : ((Z.of_nat (length (map (partName uploadID) uploadedParts))
                 + gcsMaxComponents - 1) / gcsMaxComponents >? 1) = false).
  { rewrite length_map. unfold gcsMaxComponents.
    assert ((Z.of_nat (length uploadedParts) + 32 - 1) / 32 = 1).
    { symmetry. apply Z.div_unique with (r := Z.of_nat (length uploadedParts) - 1); lia. }
    lia. }
  assert (E6 : composer_Run gdeps bucket key (map (partName uploadID) uploadedParts)
                 (attrs o) s3
               = (Ok (attrs o, sizeOf stored),
                  set_objects (<[(bucket, key) := stored]> (objects s))
                    (logCall (CallCompose bucket key (map (partName uploadID) uploadedParts))
                       s3))).
  { unfold composer_Run, call. rewrite Hf.
    rewrite decide_False by (rewrite length_map; lia).
    rewrite (gather_parts bucket uploadID uploadedParts s) by (assumption || exact Hobj3).
    cbn [objects logCall]. rewrite Hobj3. reflexivity. }
  assert (Hrun : ∃ s5,
            CompleteMultipartUpload gdeps bucket key uploadID uploadedParts s
            = (Ok (fromGCSAttrsToObjectInfo gdeps bucket key bytes (attrs o) (sizeOf stored)),
               s5)
            ∧ objects s5
              = filter (fun kv => ¬ (kv.1.1 = bucket
                                     ∧ hasPrefix kv.1.2 (uploadPrefix uploadID) = true))
                       (<[(bucket, key) := stored]> (objects s)));
    [|destruct Hrun as (s5 & -> & Hs5); split; [reflexivity|exact Hs5]].
  eexists.
  unfold CompleteMultipartUpload.
  unfold bind at 1. rewrite E1. unfold bind at 1. rewrite E2.
  unfold bind at 1. cbn [mapErr lift decodeMultipartMeta Version Bucket Object].
  unfold mapErr at 1, lift at 1. cbn [Version Bucket Object].
  rewrite !String.eqb_refl. cbn [negb orb].
  unfold bind at 1. rewrite E3.
  destruct (partSizesOf s bucket uploadID uploadedParts) as [|sz szs] eqn:Esz.
  { exfalso. apply (f_equal length) in Esz. unfold partSizesOf in Esz.
    rewrite length_map in Esz. cbn in Esz. lia. }
  unfold bind at 1. cbv beta. rewrite E4.
  rewrite E5. unfold bind at 1, ret at 1.
  unfold bind at 1. cbv beta. rewrite E6.
  unfold bind at 1, get at 1.
  cbn [objects set_objects]. rewrite lookup_insert_eq. cbn [content bytesOf stored].
  unfold bind at 1, mapErr at 1, cleanupMultipartUpload, mapErr, call. rewrite Hf.
  unfold ret. split; reflexivity.
Qed.

(** CompleteMultipartUpload of up to 32 parts that are all there, every
    part but the last of 5 MiB at least, on an upload whose [gcs.json]
    is that of the request, with a client that does not fail and a key
    outside the prefix of the upload: the object is stored at the key
    with the attributes of the [gcs.json] and the bytes of the parts in
    the order given; nothing is left under the prefix of the upload;
    every other object is what it was. *)
Theorem CompleteMultipartUpload_composes (bucket key uploadID : string)
    (uploadedParts : list CompletePart) (s : Store) (o : StoredObject) :
  (∀ c, clientFault gdeps c = None) →
  objects s !! (bucket, gcsMultipartMetaName uploadID) = Some o →
  content o = MetaJSON (mkMultipartMeta gcsMinioMultipartMetaCurrentVersion bucket key) →
  partsStored s bucket uploadID uploadedParts →
  (∀ i size, partSizesOf s bucket uploadID uploadedParts !! i = Some size →
             (S i < length uploadedParts)%nat → 5 * MiByte ≤ size) →
  (1 <= length uploadedParts <= 32)%nat →
  hasPrefix key (uploadPrefix uploadID) = false →
  fst (CompleteMultipartUpload gdeps bucket key uploadID uploadedParts s)
  = Ok (fromGCSAttrsToObjectInfo gdeps bucket key
          (joinedParts s bucket uploadID uploadedParts) (attrs o)
          (Z.of_nat (String.length (joinedParts s bucket uploadID uploadedParts))))
  ∧ objects (snd (CompleteMultipartUpload gdeps bucket key uploadID uploadedParts s))
      !! (bucket, key)
    = Some (mkStored (attrs o) (Data (joinedParts s bucket uploadID uploadedParts)))
  ∧ (∀ name, hasPrefix name (uploadPrefix uploadID) = true →
       objects (snd (CompleteMultipartUpload gdeps bucket key uploadID uploadedParts s))
         !! (bucket, name) = None)
  ∧ (∀ b name, (b, name) ≠ (bucket, key) →
       ¬ (b = bucket ∧ hasPrefix name (uploadPrefix uploadID) = true) →
       objects (snd (CompleteMultipartUpload gdeps bucket key uploadID uploadedParts s))
         !! (b, name) = objects s !! (b, name)).
Proof.
  intros Hf Ho Hc Hall Hbig Hlen Hkey.
  destruct (CompleteMultipartUpload_run bucket key uploadID uploadedParts s o
              Hf Ho Hc Hall Hbig Hlen) as (Hr & Hs).
  split; [exact Hr|]. rewrite Hs. split; [|split].
  - apply map_lookup_filter_Some. split; [apply lookup_insert_eq|].
    cbn [fst snd]. intros [_ Hp]. congruence.
  - intros name Hname. apply map_lookup_filter_None. right.
    intros o' _ Hnot. apply Hnot. split; [reflexivity|exact Hname].
  - intros b name Hne Hnot.
    destruct (objects s !! (b, name)) as [o'|] eqn:E.
    + apply map_lookup_filter_Some. split; [|exact Hnot].
      rewrite lookup_insert_ne by congruence. exact E.
    + apply map_lookup_filter_None. left. rewrite lookup_insert_ne by congruence. exact E.
Qed.

End GatewayComplete.

(** The upload "u1" completed with its second part alone: the object
    holds the three bytes of that part. *)
Lemma CompleteMultipartUpload_composes_witness :
  GCS.objects (snd (GCS.CompleteMultipartUpload GCSDemo.gdeps "b" "obj" "u1"
                      [GCS.mkCompletePart 2 "e2"] GCSDemo.store))
    !! ("b", "obj")
  = Some (GCS.mkStored GCSDemo.noAttrs (GCS.Data "bbb")).
Proof.
  destruct (CompleteMultipartUpload_composes GCSDemo.gdeps "b" "obj" "u1"
              [GCS.mkCompletePart 2 "e2"] GCSDemo.store
              (GCS.mkStored GCSDemo.noAttrs
                 (GCS.MetaJSON (GCS.mkMultipartMeta "1" "b" "obj"))))
    as (_ & Hobj & _).
  - intros c. reflexivity.
  - vm_compute. reflexivity.
  - reflexivity.
  - constructor; [vm_compute; eauto|constructor].
  - intros i size _ Hlt. cbn in Hlt. lia.
  - cbn. lia.
  - vm_compute. reflexivity.
  - rewrite Hobj. vm_compute. reflexivity.
Defined.

(** ** The gateway's listings *)

(** [base64.StdEncoding.EncodeToString], on bytes given as numbers below
    256. *)
Module Base64.

Definition alphabet : string :=
  "ABCDEFGHIJKLMNOPQRSTUVWXYZabcdefghijklmnopqrstuvwxyz0123456789+/".

Definition digit (n : Z) : ascii :=
  default "A"%char (String.get (Z.to_nat n) alphabet).

Fixpoint EncodeToString (bs : list Z) : string :=
  match bs with
  | [] => ""
  | [a] =>
      String (digit (a / 4)) (String (digit ((a mod 4) * 16)) "==")
  | [a; b] =>
      String (digit (a / 4))
        (String (digit ((a mod 4) * 16 + b / 16))
           (String (digit ((b mod 16) * 4)) "="))
  | a :: b :: c :: rest =>
      String (digit (a / 4))
        (String (digit ((a mod 4) * 16 + b / 16))
           (String (digit ((b mod 16) * 4 + c / 64))
              (String (digit (c mod 64)) (EncodeToString rest))))
  end.

End Base64.

(** The bytes of a string. *)
Definition bytesOfString (s : string) : list Z :=
  map (fun a => Z.of_N (N_of_ascii a)) (list_ascii_of_string s).

Module GCSListing.

Import GCS.

Section Listing.

Context (gdeps : GDeps).

(** token prefixed with GCS returned marker to differentiate from user
    supplied marker. *)
Definition gcsTokenPrefix : string := "{minio}".

Definition toGCSPageToken (name : string) : string :=
  let length := Z.of_nat (String.length name) mod 65536 in
  let b := [10; Z.land length 255] in
  let length := Z.shiftr length 7 in
  let b := if length >? 0 then (b ++ [Z.land length 255])%list else b in
  Base64.EncodeToString (b ++ bytesOfString name)%list.

(** Returns true if marker was returned by GCS, i.e prefixed with
    [gcsTokenPrefix]. *)
Definition isGCSMarker (marker : string) : bool := hasPrefix marker gcsTokenPrefix.

(** What the iterator over a bucket hands out: the attributes of an
    object, or of a common prefix ([Prefix] set). *)
Record ListAttrs := mkListAttrs {
  la_Bucket : string;
  la_Name : string;
  la_Prefix : string;
  la_object : StoredObject }.

(** [it.Next()] returns attributes or an error; the end of the list is
    [iterator.Done]. *)
Definition Iterator : Type := list (gerror + ListAttrs).

(** The object info [ListObjects] makes of the attributes. *)
Definition listedInfo (a : ListAttrs) : ObjectInfo :=
  {| oi_Name := la_Name a; oi_Bucket := la_Bucket a; oi_Size := sizeOf (la_object a);
     oi_ETag := crcETag gdeps (bytesOf (content (la_object a)));
     oi_UserDefined := Metadata (attrs (la_object a));
     oi_ContentType := ContentType (attrs (la_object a));
     oi_ContentEncoding := ContentEncoding (attrs (la_object a)) |}.

Record ListObjectsInfo := mkListObjectsInfo {
  lo_IsTruncated : bool;
  lo_NextMarker : string;
  lo_Prefixes : list string;
  lo_Objects : list ObjectInfo }.

(** Entries of the metadata folder, hidden from a listing outside it. *)
Definition hiddenEntry (prefix : string) (a : ListAttrs) : bool :=
  String.eqb (la_Prefix a) GatewayMinioSysTmp
  || (negb (hasPrefix prefix GatewayMinioSysTmp)
      && (hasPrefix (la_Prefix a) GatewayMinioSysTmp
          || hasPrefix (la_Name a) GatewayMinioSysTmp)).

(** The loop of [ListObjects] over the iterator. *)
Fixpoint listObjectsLoop (bucket prefix marker : string) (gcsMarker : bool) (maxKeys : Z)
    (it : Iterator) (nextMarker : string) (prefixes : list string)
    (objects : list ObjectInfo) : gerror + ListObjectsInfo :=
  if Z.of_nat (length objects) >=? maxKeys then
    (* check if there is one next object and if that one next object is
       our hidden metadata folder, then just break otherwise we've
       truncated the output *)
    let isTruncated :=
      match it with
      | inr attrs :: _ => negb (String.eqb (la_Prefix attrs) GatewayMinioSysTmp)
      | _ => true
      end in
    inr (mkListObjectsInfo isTruncated (gcsTokenPrefix +:+ nextMarker) prefixes objects)
  else
    match it with
    | [] => inr (mkListObjectsInfo false (gcsTokenPrefix +:+ nextMarker) prefixes objects)
    | inl err :: _ => inl (gcsToObjectError gdeps err [bucket; prefix])
    | inr attrs :: rest =>
        let nextMarker := toGCSPageToken (la_Name attrs) in
        if String.eqb (la_Prefix attrs) GatewayMinioSysTmp then
          (* We don't return our metadata prefix. *)
          listObjectsLoop bucket prefix marker gcsMarker maxKeys rest nextMarker prefixes objects
        else if negb (hasPrefix prefix GatewayMinioSysTmp)
                && (hasPrefix (la_Prefix attrs) GatewayMinioSysTmp
                    || hasPrefix (la_Name attrs) GatewayMinioSysTmp) then
          listObjectsLoop bucket prefix marker gcsMarker maxKeys rest nextMarker prefixes objects
        else if negb (String.eqb (la_Prefix attrs) "") then
          listObjectsLoop bucket prefix marker gcsMarker maxKeys rest nextMarker
            (prefixes ++ [la_Prefix attrs]) objects
        else if negb gcsMarker && String.leb (la_Name attrs) marker then
          (* if user supplied a marker don't append objects until we
             reach marker (and skip it). *)
          listObjectsLoop bucket prefix marker gcsMarker maxKeys rest nextMarker prefixes objects
        else
          listObjectsLoop bucket prefix marker gcsMarker maxKeys rest nextMarker prefixes
            (objects ++ [listedInfo attrs])
    end.

(** ListObjects - lists all blobs in GCS bucket filtered by prefix.
    [objectsOf] is the client: the entries it delivers for a bucket, a
    delimiter and a prefix, from a page token on. *)
Definition ListObjects (objectsOf : string → string → string → string → Iterator)
    (bucket prefix marker delimiter : string) (maxKeys : Z) : gerror + ListObjectsInfo :=
  let gcsMarker := isGCSMarker marker in
  let token := if gcsMarker then GoStrings.TrimPrefix marker gcsTokenPrefix else "" in
  listObjectsLoop bucket prefix marker gcsMarker maxKeys
    (objectsOf bucket delimiter prefix token) "" [] [].

(** *** ListObjectsV2 *)

Record ListObjectsV2Info := mkListObjectsV2Info {
  v2_IsTruncated : bool;
  v2_ContinuationToken : string;
  v2_NextContinuationToken : string;
  v2_Prefixes : list string;
  v2_Objects : list ObjectInfo }.

(** The object info [fromGCSAttrsToObjectInfo] makes of listed attributes. *)
Definition listedInfoV2 (a : ListAttrs) : ObjectInfo :=
  fromGCSAttrsToObjectInfo gdeps (la_Bucket a) (la_Name a)
    (bytesOf (content (la_object a))) (attrs (la_object a)) (sizeOf (la_object a)).

(** The loop of [ListObjectsV2]: it runs to the end of the iterator. *)
Fixpoint listObjectsV2Loop (bucket prefix : string) (it : Iterator)
    (prefixes : list string) (objects : list ObjectInfo)
  : gerror + (list string * list ObjectInfo) :=
  match it with
  | [] => inr (prefixes, objects)
  | inl err :: _ => inl (gcsToObjectError gdeps err [bucket; prefix])
  | inr attrs :: rest =>
      if String.eqb (la_Prefix attrs) GatewayMinioSysTmp then
        listObjectsV2Loop bucket prefix rest prefixes objects
      else if negb (hasPrefix prefix GatewayMinioSysTmp)
              && (hasPrefix (la_Prefix attrs) GatewayMinioSysTmp
                  || hasPrefix (la_Name attrs) GatewayMinioSysTmp) then
        listObjectsV2Loop bucket prefix rest prefixes objects
      else if negb (String.eqb (la_Prefix attrs) "") then
        listObjectsV2Loop bucket prefix rest (prefixes ++ [la_Prefix attrs]) objects
      else
        listObjectsV2Loop bucket prefix rest prefixes (objects ++ [listedInfoV2 attrs])
  end.

(** ListObjectsV2 - lists all blobs in GCS bucket filtered by prefix.
    [pageToken] is the token a new iterator holds before its first
    page is fetched. *)
Definition ListObjectsV2 (objectsOf : string → string → string → string → Iterator)
    (pageToken : string) (bucket prefix continuationToken delimiter : string) (maxKeys : Z)
    (fetchOwner : bool) (startAfter : string) : gerror + ListObjectsV2Info :=
  let sent := negb (String.eqb continuationToken "") in
  let token := if sent then continuationToken else pageToken in
  let isTruncated := if sent then false else negb (String.eqb pageToken "") in
  let continuationToken := token in
  match listObjectsV2Loop bucket prefix (objectsOf bucket delimiter prefix token) [] [] with
  | inl err => inl err
  | inr (prefixes, objects) =>
      inr (mkListObjectsV2Info isTruncated continuationToken continuationToken
             prefixes objects)
  end.

Lemma isGCSMarker_token (token : string) : isGCSMarker (gcsTokenPrefix +:+ token) = true.
Proof. destruct token; reflexivity. Qed.

(** What the loop keeps true of the prefixes and objects it gathers. *)
Definition pageInvariant (prefix marker : string) (gcsMarker : bool) (maxKeys : Z)
    (prefixes : list string) (objects : list ObjectInfo) : Prop :=
  (0 ≤ maxKeys → (length objects ≤ Z.to_nat maxKeys)%nat)
  ∧ Forall (fun p => p ≠ GatewayMinioSysTmp) prefixes
  ∧ (hasPrefix prefix GatewayMinioSysTmp = false →
     Forall (fun o => hasPrefix (oi_Name o) GatewayMinioSysTmp = false) objects
     ∧ Forall (fun p => hasPrefix p GatewayMinioSysTmp = false) prefixes)
  ∧ (gcsMarker = false → Forall (fun o => String.leb (oi_Name o) marker = false) objects).

Lemma listObjectsLoop_invariant (bucket prefix marker : string) (gcsMarker : bool)
    (maxKeys : Z) (it : Iterator) :
  ∀ nextMarker prefixes objects res,
    listObjectsLoop bucket prefix marker gcsMarker maxKeys it nextMarker prefixes objects
    = inr res →
    pageInvariant prefix marker gcsMarker maxKeys prefixes objects →
    pageInvariant prefix marker gcsMarker maxKeys (lo_Prefixes res) (lo_Objects res)
    ∧ isGCSMarker (lo_NextMarker res) = true.
Proof.
  induction it as [|x rest IH]; intros nextMarker prefixes objects res H Hinv.
  - cbn in H. destruct (_ >=? _); injection H as <-;
      (split; [exact Hinv|apply isGCSMarker_token]).
  - cbn [listObjectsLoop] in H. destruct (Z.of_nat (length objects) >=? maxKeys) eqn:Efull.
    { injection H as <-. split; [exact Hinv|apply isGCSMarker_token]. }
    destruct x as [err|a]; [discriminate|]. cbv zeta in H.
    destruct Hinv as (Hlen & Hsys & Hhid & Hmark).
    destruct (String.eqb (la_Prefix a) GatewayMinioSysTmp) eqn:E1.
    { eapply IH; [exact H|]. exact (conj Hlen (conj Hsys (conj Hhid Hmark))). }
    destruct (negb (hasPrefix prefix GatewayMinioSysTmp)
              && (hasPrefix (la_Prefix a) GatewayMinioSysTmp
                  || hasPrefix (la_Name a) GatewayMinioSysTmp)) eqn:E2.
    { eapply IH; [exact H|]. exact (conj Hlen (conj Hsys (conj Hhid Hmark))). }
    destruct (negb (String.eqb (la_Prefix a) "")) eqn:E3.
    { eapply IH; [exact H|]. split; [exact Hlen|]. split; [|split; [|exact Hmark]].
      - apply Forall_app. split; [exact Hsys|]. apply Forall_singleton.
        apply String.eqb_neq. exact E1.
      - intros Hp. destruct (Hhid Hp) as (Ho & Hps). split; [exact Ho|].
        apply Forall_app. split; [exact Hps|]. apply Forall_singleton.
        rewrite Hp in E2. cbn in E2. apply orb_false_elim in E2 as (E2 & _). exact E2. }
    destruct (negb gcsMarker && String.leb (la_Name a) marker) eqn:E4.
    { eapply IH; [exact H|]. exact (conj Hlen (conj Hsys (conj Hhid Hmark))). }
    eapply IH; [exact H|]. split; [|split; [exact Hsys|split]].
    + intros Hmax. rewrite length_app. cbn. specialize (Hlen Hmax).
      destruct (Z.geb_spec (Z.of_nat (length objects)) maxKeys); [discriminate|]. lia.
    + intros Hp. destruct (Hhid Hp) as (Ho & Hps). split; [|exact Hps].
      apply Forall_app. split; [exact Ho|]. apply Forall_singleton.
      rewrite Hp in E2. cbn in E2. apply orb_false_elim in E2 as (_ & E2). exact E2.
    + intros Hg. apply Forall_app. split; [apply Hmark; exact Hg|]. apply Forall_singleton.
      rewrite Hg in E4. exact E4.
Qed.

(** A page of ListObjects: its NextMarker is one the gateway takes for
    a marker of its own; it holds no more objects than asked for
    (common prefixes are not counted); the metadata prefix is never
    among its prefixes, and, listed from outside the metadata folder,
    nothing of that folder is in the page; and with a marker of the
    application no object at or before the marker is in it. *)
Theorem ListObjects_page (objectsOf : string → string → string → string → Iterator)
    (bucket prefix marker delimiter : string) (maxKeys : Z) (res : ListObjectsInfo) :
  ListObjects objectsOf bucket prefix marker delimiter maxKeys = inr res →
  isGCSMarker (lo_NextMarker res) = true
  ∧ (0 ≤ maxKeys → (length (lo_Objects res) ≤ Z.to_nat maxKeys)%nat)
  ∧ Forall (fun p => p ≠ GatewayMinioSysTmp) (lo_Prefixes res)
  ∧ (hasPrefix prefix GatewayMinioSysTmp = false →
     Forall (fun o => hasPrefix (oi_Name o) GatewayMinioSysTmp = false) (lo_Objects res)
     ∧ Forall (fun p => hasPrefix p GatewayMinioSysTmp = false) (lo_Prefixes res))
  ∧ (isGCSMarker marker = false →
     Forall (fun o => String.leb (oi_Name o) marker = false) (lo_Objects res)).
Proof.
  intros H. unfold ListObjects in H. cbv zeta in H.
  apply listObjectsLoop_invariant in H as ((H1 & H2 & H3 & H4) & H5).
  - split; [exact H5|]. split; [exact H1|]. split; [exact H2|]. split; [exact H3|exact H4].
  - unfold pageInvariant. split; [intros _; cbn; lia|]. split; [constructor|].
    split; [intros _; split; constructor|intros _; constructor].
Qed.

(** The objects left, when all of them are to be listed. *)
Definition plainObject (prefix marker : string) (gcsMarker : bool) (a : ListAttrs) : bool :=
  negb (hiddenEntry prefix a) && String.eqb (la_Prefix a) ""
  && negb (negb gcsMarker && String.leb (la_Name a) marker).

Lemma listObjectsLoop_exact (bucket prefix marker : string) (gcsMarker : bool)
    (maxKeys : Z) (entries : list ListAttrs) :
  ∀ nextMarker prefixes objects,
    forallb (plainObject prefix marker gcsMarker) entries = true →
    Z.of_nat (length objects + length entries) = maxKeys →
    listObjectsLoop bucket prefix marker gcsMarker maxKeys (map inr entries)
      nextMarker prefixes objects
    = inr (mkListObjectsInfo true
             (gcsTokenPrefix
              +:+ match last entries with
                  | Some a => toGCSPageToken (la_Name a)
                  | None => nextMarker
                  end)
             prefixes (objects ++ map listedInfo entries)).
Proof.
  induction entries as [|a rest IH]; intros nextMarker prefixes objects Hall Hlen.
  - cbn. cbn in Hlen.
    destruct (Z.geb_spec (Z.of_nat (length objects)) maxKeys); [|lia].
    rewrite app_nil_r. reflexivity.
  - cbn [map listObjectsLoop]. cbn [length] in Hlen.
    destruct (Z.geb_spec (Z.of_nat (length objects)) maxKeys); [lia|].
    cbn [forallb] in Hall. apply andb_prop in Hall as (Ha & Hall).
    unfold plainObject, hiddenEntry in Ha.
    apply andb_prop in Ha as (Ha & Hm). apply andb_prop in Ha as (Hh & He).
    apply negb_true_iff in Hh. apply orb_false_elim in Hh as (Hh1 & Hh2).
    apply negb_true_iff in Hm. cbv zeta. rewrite Hh1, Hh2, He, Hm. cbn [negb].
    rewrite IH; [|exact Hall|rewrite length_app; cbn; lia].
    rewrite <- app_assoc. cbn [app map]. f_equal. f_equal.
    destruct rest as [|a' rest]; [reflexivity|]. rewrite last_cons_cons.
    destruct (last (a' :: rest)) eqn:E; [reflexivity|]. apply last_None in E. discriminate.
Qed.

(** A page that holds exactly the objects that were left is reported
    as truncated, though nothing follows it: when the client delivers
    [maxKeys] entries, all of them objects to be listed, and then ends,
    the page has these objects and IsTruncated set. A page of size 0 of
    an empty listing is reported as truncated as well. *)
Theorem ListObjects_exact_page_is_truncated
    (objectsOf : string → string → string → string → Iterator)
    (bucket prefix marker delimiter : string) (entries : list ListAttrs) :
  objectsOf bucket delimiter prefix
    (if isGCSMarker marker then GoStrings.TrimPrefix marker gcsTokenPrefix else "")
  = map inr entries →
  forallb (plainObject prefix marker (isGCSMarker marker)) entries = true →
  ∃ res, ListObjects objectsOf bucket prefix marker delimiter (Z.of_nat (length entries))
         = inr res
         ∧ lo_IsTruncated res = true
         ∧ lo_Objects res = map listedInfo entries
         ∧ lo_Prefixes res = [].
Proof.
  intros Hit Hall. unfold ListObjects. cbv zeta. rewrite Hit.
  rewrite (listObjectsLoop_exact bucket prefix marker (isGCSMarker marker)
             (Z.of_nat (length entries)) entries "" [] [] Hall eq_refl).
  eexists. split; [reflexivity|]. repeat split; reflexivity.
Qed.

(** *** ListObjectsV2 *)

Lemma listObjectsV2Loop_all (bucket prefix : string) (it : Iterator) :
  ∀ prefixes objects prefixes' objects',
    listObjectsV2Loop bucket prefix it prefixes objects = inr (prefixes', objects') →
    ∃ entries,
      it = map inr entries
      ∧ objects'
        = (objects
           ++ map listedInfoV2
                (List.filter (fun a => negb (hiddenEntry prefix a)
                                       && String.eqb (la_Prefix a) "") entries))%list
      ∧ prefixes'
        = (prefixes
           ++ map la_Prefix
                (List.filter (fun a => negb (hiddenEntry prefix a)
                                       && negb (String.eqb (la_Prefix a) "")) entries))%list.
Proof.
  induction it as [|x rest IH]; intros prefixes objects prefixes' objects' H.
  - cbn in H. injection H as <- <-. exists []. cbn. rewrite !app_nil_r. repeat split.
  - cbn [listObjectsV2Loop] in H. destruct x as [err|a]; [discriminate|].
    unfold hiddenEntry.
    destruct (String.eqb (la_Prefix a) GatewayMinioSysTmp) eqn:E1.
    { apply IH in H as (entries & -> & -> & ->). exists (a :: entries).
      cbn [map List.filter]. rewrite E1. cbn. repeat split. }
    destruct (negb (hasPrefix prefix GatewayMinioSysTmp)
              && (hasPrefix (la_Prefix a) GatewayMinioSysTmp
                  || hasPrefix (la_Name a) GatewayMinioSysTmp)) eqn:E2.
    { apply IH in H as (entries & -> & -> & ->). exists (a :: entries).
      cbn [map List.filter]. rewrite E1, E2. cbn. repeat split. }
    destruct (negb (String.eqb (la_Prefix a) "")) eqn:E3.
    { apply IH in H as (entries & -> & -> & ->). exists (a :: entries).
      cbn [map List.filter]. rewrite E1, E2, E3. apply negb_true_iff in E3. rewrite E3.
      cbn. rewrite <- app_assoc. repeat split. }
    apply IH in H as (entries & -> & -> & ->). exists (a :: entries).
    cbn [map List.filter]. rewrite E1, E2, E3. apply negb_false_iff in E3. rewrite E3.
    cbn. rewrite <- app_assoc. repeat split.
Qed.

(** A page of ListObjectsV2 holds every entry the client delivers that
    is not hidden, whatever [maxKeys], [fetchOwner] and [startAfter]
    are; the token it hands out for the next page is the token of this
    page; and when the caller sent a token the page is never reported
    as truncated. *)
Theorem ListObjectsV2_page (objectsOf : string → string → string → string → Iterator)
    (pageToken bucket prefix continuationToken delimiter : string) (maxKeys : Z)
    (fetchOwner : bool) (startAfter : string) (res : ListObjectsV2Info) :
  ListObjectsV2 objectsOf pageToken bucket prefix continuationToken delimiter maxKeys
    fetchOwner startAfter = inr res →
  v2_NextContinuationToken res = v2_ContinuationToken res
  ∧ (continuationToken ≠ "" →
     v2_IsTruncated res = false ∧ v2_NextContinuationToken res = continuationToken)
  ∧ ∃ entries,
      objectsOf bucket delimiter prefix (v2_ContinuationToken res) = map inr entries
      ∧ v2_Objects res
        = map listedInfoV2
            (List.filter (fun a => negb (hiddenEntry prefix a)
                                   && String.eqb (la_Prefix a) "") entries)
      ∧ v2_Prefixes res
        = map la_Prefix
            (List.filter (fun a => negb (hiddenEntry prefix a)
                                   && negb (String.eqb (la_Prefix a) "")) entries).
Proof.
  intros H. unfold ListObjectsV2 in H. cbv zeta in H.
  destruct (listObjectsV2Loop _ _ _ _ _) as [err|[prefixes objects]] eqn:E; [discriminate|].
  injection H as <-. cbn.
  apply listObjectsV2Loop_all in E as (entries & Hit & -> & ->).
  split; [reflexivity|]. split.
  - intros Hne. apply String.eqb_neq in Hne. rewrite Hne. split; reflexivity.
  - exists entries. split; [exact Hit|]. split; reflexivity.
Qed.

End Listing.

(** A bucket of the remote store as the client lists it: the metadata
    prefix, then the objects "a", "b" and "c". *)
Definition demoListing : string → string → string → string → Iterator :=
  fun bucket _ _ _ =>
    [ inr (mkListAttrs bucket "" GCS.GatewayMinioSysTmp
             (GCS.mkStored GCSDemo.noAttrs (GCS.Data "")));
      inr (mkListAttrs bucket "a" "" (GCS.mkStored GCSDemo.noAttrs (GCS.Data "1")));
      inr (mkListAttrs bucket "b" "" (GCS.mkStored GCSDemo.noAttrs (GCS.Data "22")));
      inr (mkListAttrs bucket "c" "" (GCS.mkStored GCSDemo.noAttrs (GCS.Data "333"))) ].

(** The names of the objects of a page. *)
Definition namesOf (r : GCS.gerror + ListObjectsInfo) : list string :=
  match r with
  | inr res => map GCS.oi_Name (lo_Objects res)
  | inl _ => []
  end.

(** The page a listing returned, or the empty page. *)
Definition gcsPageOf (r : GCS.gerror + ListObjectsInfo) : ListObjectsInfo :=
  match r with
  | inr res => res
  | inl _ => mkListObjectsInfo false "" [] []
  end.

(** Listed after the marker "a", two keys at most: "b" and "c", both
    after the marker, and a NextMarker of the gateway's own. *)
Lemma ListObjects_page_witness :
  namesOf (ListObjects GCSDemo.gdeps demoListing "b" "" "a" "" 2) = ["b"; "c"]
  ∧ isGCSMarker (lo_NextMarker (gcsPageOf (ListObjects GCSDemo.gdeps demoListing
                                              "b" "" "a" "" 2))) = true
  ∧ Forall (fun o => String.leb (GCS.oi_Name o) "a" = false)
      (lo_Objects (gcsPageOf (ListObjects GCSDemo.gdeps demoListing "b" "" "a" "" 2))).
Proof.
  split; [vm_compute; reflexivity|].
  destruct (ListObjects_page GCSDemo.gdeps demoListing "b" "" "a" "" 2
              (gcsPageOf (ListObjects GCSDemo.gdeps demoListing "b" "" "a" "" 2)))
    as (H1 & _ & _ & _ & H5).
  - vm_compute. reflexivity.
  - split; [exact H1|]. apply H5. reflexivity.
Defined.

(** Three objects and nothing else, listed three at a time: all three
    are in the page, and the page says there is more. *)
Lemma ListObjects_exact_page_is_truncated_witness :
  ∃ res, ListObjects GCSDemo.gdeps (fun bucket _ _ _ => drop 1 (demoListing bucket "" "" ""))
           "b" "" "" "" 3 = inr res
         ∧ lo_IsTruncated res = true
         ∧ map GCS.oi_Name (lo_Objects res) = ["a"; "b"; "c"].
Proof.
  destruct (ListObjects_exact_page_is_truncated GCSDemo.gdeps
              (fun bucket _ _ _ => drop 1 (demoListing bucket "" "" "")) "b" "" "" ""
              [ mkListAttrs "b" "a" "" (GCS.mkStored GCSDemo.noAttrs (GCS.Data "1"));
                mkListAttrs "b" "b" "" (GCS.mkStored GCSDemo.noAttrs (GCS.Data "22"));
                mkListAttrs "b" "c" "" (GCS.mkStored GCSDemo.noAttrs (GCS.Data "333")) ])
    as (res & Hres & Ht & Ho & _).
  - reflexivity.
  - reflexivity.
  - exists res. split; [exact Hres|]. split; [exact Ht|]. rewrite Ho. reflexivity.
Defined.

(** The page of ListObjectsV2, or an empty one. *)
Definition gcsPageV2Of (r : GCS.gerror + ListObjectsV2Info) : ListObjectsV2Info :=
  match r with
  | inr res => res
  | inl _ => mkListObjectsV2Info false "" "" [] []
  end.

(** Asked for one key after the token "tok": all three objects come
    back, not truncated, and the next token is "tok" again. *)
Lemma ListObjectsV2_page_witness :
  map GCS.oi_Name
    (v2_Objects (gcsPageV2Of (ListObjectsV2 GCSDemo.gdeps demoListing "" "b" "" "tok" "" 1
                                false "b")))
  = ["a"; "b"; "c"]
  ∧ v2_IsTruncated (gcsPageV2Of (ListObjectsV2 GCSDemo.gdeps demoListing "" "b" "" "tok" ""
                                   1 false "b")) = false
  ∧ v2_NextContinuationToken
      (gcsPageV2Of (ListObjectsV2 GCSDemo.gdeps demoListing "" "b" "" "tok" "" 1 false "b"))
    = "tok".
Proof.
  split; [vm_compute; reflexivity|].
  destruct (ListObjectsV2_page GCSDemo.gdeps demoListing "" "b" "" "tok" "" 1 false "b"
              (gcsPageV2Of (ListObjectsV2 GCSDemo.gdeps demoListing "" "b" "" "tok" "" 1
                              false "b")))
    as (_ & H & _).
  - vm_compute. reflexivity.
  - apply H. discriminate.
Defined.

End GCSListing.

(** ** The gateway's DeleteBucket *)

Module GCSBuckets.

Import GCS GCSListing.

Section Buckets.

Context (gdeps : GDeps).

(** The calls DeleteBucket makes that change the bucket. *)
Inductive BucketCall : Type :=
  | ObjectDelete (name : string)
  | BucketDelete.

(** The first loop: whether the metadata prefix was found, and whether
    anything else was. *)
Fixpoint scanBucket (it : Iterator) (gcsMinioPathFound : bool) : gerror + (bool * bool) :=
  match it with
  | [] => inr (gcsMinioPathFound, false)
  | inl err :: _ => inl (gcsToObjectError gdeps err [])
  | inr objAttrs :: rest =>
      if String.eqb (la_Prefix objAttrs) GatewayMinioSysTmp then scanBucket rest true
      else inr (gcsMinioPathFound, true)
  end.

(** The second loop: every object under the metadata prefix is deleted;
    the first delete that fails ends the call. *)
Fixpoint removeMinioSysTmp (deleteFault : string → option gerror) (it : Iterator)
  : list BucketCall * option gerror :=
  match it with
  | [] => ([], None)
  | inl err :: _ => ([], Some (gcsToObjectError gdeps err []))
  | inr objAttrs :: rest =>
      match deleteFault (la_Name objAttrs) with
      | Some err => ([ObjectDelete (la_Name objAttrs)], Some (gcsToObjectError gdeps err []))
      | None =>
          let '(calls, err) := removeMinioSysTmp deleteFault rest in
          (ObjectDelete (la_Name objAttrs) :: calls, err)
      end
  end.

(** DeleteBucket delete a bucket on GCS.  [objectsOf] lists the bucket,
    [deleteFault] and [bucketDeleteFault] are the deletes that fail.
    Returns the deletes it asked for, in order, and its error. *)
Definition DeleteBucket (objectsOf : string → string → string → string → Iterator)
    (deleteFault : string → option gerror) (bucketDeleteFault : option gerror)
    (bucket : string) : list BucketCall * option gerror :=
  match scanBucket (objectsOf bucket "/" "" "") false with
  | inl err => ([], Some err)
  | inr (gcsMinioPathFound, nonGCSMinioPathFound) =>
      if nonGCSMinioPathFound then ([], Some (gcsToObjectError gdeps (BucketNotEmpty "") []))
      else
        let '(calls, err) :=
          if gcsMinioPathFound
          then removeMinioSysTmp deleteFault (objectsOf bucket "" GatewayMinioSysTmp "")
          else ([], None) in
        match err with
        | Some e => (calls, Some e)
        | None =>
            ((calls ++ [BucketDelete])%list,
             match bucketDeleteFault with
             | Some e => Some (gcsToObjectError gdeps e [bucket])
             | None => None
             end)
        end
  end.

Lemma scanBucket_inv (it : Iterator) :
  ∀ found found' other,
    scanBucket it found = inr (found', other) →
    if other
    then ∃ pre a post, it = (map inr pre ++ inr a :: post)%list
                       ∧ Forall (fun a => la_Prefix a = GatewayMinioSysTmp) pre
                       ∧ la_Prefix a ≠ GatewayMinioSysTmp
    else ∃ entries, it = map inr entries
                    ∧ Forall (fun a => la_Prefix a = GatewayMinioSysTmp) entries.
Proof.
  induction it as [|x rest IH]; intros found found' other H.
  - cbn in H. injection H as <- <-. exists []. split; [reflexivity|constructor].
  - cbn [scanBucket] in H. destruct x as [err|a]; [discriminate|].
    destruct (String.eqb (la_Prefix a) GatewayMinioSysTmp) eqn:E.
    + apply String.eqb_eq in E. apply IH in H. destruct other.
      * destruct H as (pre & a' & post & -> & Hpre & Hne).
        exists (a :: pre), a', post. split; [reflexivity|]. split; [|exact Hne].
        constructor; assumption.
      * destruct H as (entries & -> & Hall). exists (a :: entries).
        split; [reflexivity|]. constructor; assumption.
    + injection H as <- <-. apply String.eqb_neq in E. exists [], a, rest.
      split; [reflexivity|]. split; [constructor|exact E].
Qed.

(** DeleteBucket deletes nothing unless the bucket, listed by
    directory, holds nothing but the metadata prefix: when it asks for
    any delete, every entry of that listing was the metadata prefix.
    And when the listing shows anything else, before any error, the
    answer is BucketNotEmpty - without the name of the bucket - and no
    delete is asked for. *)
Theorem DeleteBucket_only_when_empty
    (objectsOf : string → string → string → string → Iterator)
    (deleteFault : string → option gerror) (bucketDeleteFault : option gerror)
    (bucket : string) :
  (fst (DeleteBucket objectsOf deleteFault bucketDeleteFault bucket) ≠ [] →
   ∃ entries, objectsOf bucket "/" "" "" = map inr entries
              ∧ Forall (fun a => la_Prefix a = GatewayMinioSysTmp) entries)
  ∧ (∀ pre a post,
       objectsOf bucket "/" "" "" = (map inr pre ++ inr a :: post)%list →
       Forall (fun a => la_Prefix a = GatewayMinioSysTmp) pre →
       la_Prefix a ≠ GatewayMinioSysTmp →
       DeleteBucket objectsOf deleteFault bucketDeleteFault bucket
       = ([], Some (gcsToObjectError gdeps (BucketNotEmpty "") []))).
Proof.
  split.
  - unfold DeleteBucket.
    destruct (scanBucket _ false) as [err|[found other]] eqn:E; [intros H; contradiction|].
    destruct other; [intros H; contradiction|].
    intros _. apply scanBucket_inv in E. exact E.
  - intros pre a post Hit Hpre Hne. unfold DeleteBucket. rewrite Hit.
    assert (Hscan : ∀ found, ∃ found',
               scanBucket (map inr pre ++ inr a :: post)%list found = inr (found', true)).
    { clear Hit. induction pre as [|p pre IH]; intros found.
      - cbn. apply String.eqb_neq in Hne. rewrite Hne. eauto.
      - apply Forall_cons in Hpre as (Hp & Hpre). cbn. rewrite Hp, String.eqb_refl.
        apply IH. exact Hpre. }
    destruct (Hscan false) as (found' & ->). reflexivity.
Qed.

End Buckets.

(** The bucket of [demoListing] holds objects: DeleteBucket refuses and
    asks for no delete. *)
Lemma DeleteBucket_only_when_empty_witness :
  DeleteBucket GCSDemo.gdeps demoListing (fun _ => None) None "b"
  = ([], Some (GCS.BucketNotEmpty "")).
Proof.
  destruct (DeleteBucket_only_when_empty GCSDemo.gdeps demoListing (fun _ => None) None "b")
    as (_ & H).
  rewrite (H [mkListAttrs "b" "" GCS.GatewayMinioSysTmp
                (GCS.mkStored GCSDemo.noAttrs (GCS.Data ""))]
             (mkListAttrs "b" "a" "" (GCS.mkStored GCSDemo.noAttrs (GCS.Data "1")))
             [ inr (mkListAttrs "b" "b" "" (GCS.mkStored GCSDemo.noAttrs (GCS.Data "22")));
               inr (mkListAttrs "b" "c" "" (GCS.mkStored GCSDemo.noAttrs (GCS.Data "333"))) ]).
  - reflexivity.
  - reflexivity.
  - constructor; [reflexivity|constructor].
  - discriminate.
Defined.

End GCSBuckets.

(** ** Uploads of more than 32 parts *)

Lemma append_inv_head (p a b : string) : p +:+ a = p +:+ b → a = b.
Proof. induction p as [|c p IH]; cbn; intros H; [exact H|]. injection H as H. auto. Qed.

Lemma append_assoc_go (a b c : string) : (a +:+ b) +:+ c = a +:+ (b +:+ c).
Proof.
  induction a as [|x a IH]; [reflexivity|].
  change (String x ((a +:+ b) +:+ c) = String x (a +:+ (b +:+ c))). rewrite IH. reflexivity.
Qed.

Section GatewayTiers.

Import GCS.
Context (gdeps : GDeps).

(** The numbers of the composed objects are told apart by their names. *)
Lemma fmt05d_small_inj (i j : nat) :
  (i < 32)%nat → (j < 32)%nat → fmt05d (Z.of_nat i) = fmt05d (Z.of_nat j) → i = j.
Proof.
  intros Hi Hj H.
  assert (Hall : forallb (fun a => forallb (fun b =>
                    Nat.eqb a b
                    || negb (String.eqb (fmt05d (Z.of_nat a)) (fmt05d (Z.of_nat b))))
                    (seq 0 32)) (seq 0 32) = true) by (vm_compute; reflexivity).
  rewrite forallb_forall in Hall.
  specialize (Hall i). rewrite forallb_forall in Hall.
  assert (Hin : ∀ k, (k < 32)%nat → In k (seq 0 32)) by (intros k Hk; apply in_seq; lia).
  specialize (Hall (Hin i Hi) j (Hin j Hj)).
  apply orb_true_iff in Hall as [Heq|Hne]; [apply Nat.eqb_eq; exact Heq|].
  apply negb_true_iff, String.eqb_neq in Hne. contradiction.
Qed.

Lemma composeName_inj (uploadID : string) (i j : nat) :
  (i < 32)%nat → (j < 32)%nat →
  gcsMultipartComposeName uploadID (Z.of_nat i) = gcsMultipartComposeName uploadID (Z.of_nat j) →
  i = j.
Proof.
  intros Hi Hj H. unfold gcsMultipartComposeName in H.
  repeat apply append_inv_head in H. apply fmt05d_small_inj; assumption.
Qed.

(** A composed object is no part of any upload. *)
Lemma composeName_not_part (uploadID other : string) (n : Z) (p : CompletePart) :
  gcsMultipartComposeName uploadID n ≠ partName other p.
Proof.
  unfold gcsMultipartComposeName, partName, gcsMultipartDataName. cbn. discriminate.
Qed.

Context (bucket key uploadID : string) (ps : list CompletePart) (s0 : Store).

(** The parts of the [k]-th compose, the name of its object, and the
    attributes it is given. *)
Definition chunk (k : nat) : list CompletePart := take 32 (drop (k * 32) ps).

Definition composedName (k : nat) : string := gcsMultipartComposeName uploadID (Z.of_nat k).

Definition tierAttrs (partZeroAttrs : ObjectAttrs) : ObjectAttrs :=
  {| ContentType := ContentType partZeroAttrs; ContentEncoding := "";
     CacheControl := ""; ContentDisposition := ""; ContentLanguage := "";
     Metadata := Metadata partZeroAttrs |}.

Fixpoint composedNames (n i : nat) : list string :=
  match n with
  | O => []
  | S n' => composedName i :: composedNames n' (S i)
  end.

(** The bytes of the composes [i], ..., [i + n - 1], one after the other. *)
Fixpoint chunksFrom (n i : nat) : string :=
  match n with
  | O => ""
  | S n' => joinedParts s0 bucket uploadID (chunk i) +:+ chunksFrom n' (S i)
  end.

Lemma composeSlice_chunk (k : nat) :
  composeSlice (map (partName uploadID) ps) k = map (partName uploadID) (chunk k).
Proof.
  unfold composeSlice, chunk. change (Z.to_nat gcsMaxComponents) with 32%nat.
  rewrite List.skipn_map, List.firstn_map. reflexivity.
Qed.

Lemma joinedParts_app (l1 l2 : list CompletePart) :
  joinedParts s0 bucket uploadID (l1 ++ l2)
  = joinedParts s0 bucket uploadID l1 +:+ joinedParts s0 bucket uploadID l2.
Proof.
  induction l1 as [|p l1 IH]; cbn; [reflexivity|].
  destruct (objects s0 !! _); rewrite IH; [|reflexivity].
  symmetry. apply append_assoc_go.
Qed.

Lemma chunksFrom_joined (n : nat) :
  ∀ i, (length ps ≤ (i + n) * 32)%nat →
    chunksFrom n i = joinedParts s0 bucket uploadID (drop (i * 32) ps).
Proof.
  induction n as [|n IH]; intros i Hlen.
  - cbn. rewrite drop_ge by lia. reflexivity.
  - cbn [chunksFrom]. rewrite IH by lia. rewrite <- joinedParts_app. f_equal.
    unfold chunk. replace (S i * 32)%nat with (i * 32 + 32)%nat by lia.
    rewrite <- drop_drop. apply take_drop.
Qed.

Lemma gather_agree (s : Store) (l : list CompletePart) :
  (∀ p, p ∈ l → objects s !! (bucket, partName uploadID p)
                = objects s0 !! (bucket, partName uploadID p)) →
  partsStored s0 bucket uploadID l →
  gather s bucket (map (partName uploadID) l) = Some (joinedParts s0 bucket uploadID l).
Proof.
  induction l as [|p rest IH]; intros Hag Hall; cbn; [reflexivity|].
  inversion Hall as [|? ? (o & Ho) Hrest]; subst.
  rewrite (Hag p) by (left). rewrite Ho. rewrite IH; [reflexivity| |exact Hrest].
  intros q Hq. apply Hag. right. exact Hq.
Qed.

Lemma chunk_sub (k : nat) (p : CompletePart) : p ∈ chunk k → p ∈ ps.
Proof.
  unfold chunk. intros H. apply elem_of_take in H as (j & Hj & _).
  rewrite lookup_drop in Hj. eapply list_elem_of_lookup_2. exact Hj.
Qed.

Lemma chunk_stored (k : nat) :
  partsStored s0 bucket uploadID ps → partsStored s0 bucket uploadID (chunk k).
Proof.
  unfold partsStored, chunk. intros H. apply Forall_take, Forall_drop. exact H.
Qed.

Lemma chunk_length (k : nat) :
  (k * 32 < length ps)%nat → (1 ≤ length (chunk k) ≤ 32)%nat.
Proof. intros H. unfold chunk. rewrite length_take, length_drop. lia. Qed.

(** The loop over the composes, when every part is there and the
    client does not fail: the composed objects are stored under their
    names, and no other object is touched. *)
Lemma composeTiers_run (partZeroAttrs : ObjectAttrs) (n : nat) :
  (∀ c, clientFault gdeps c = None) →
  partsStored s0 bucket uploadID ps →
  ∀ i s,
    (∀ p, p ∈ ps → objects s !! (bucket, partName uploadID p)
                   = objects s0 !! (bucket, partName uploadID p)) →
    (∀ k, (i ≤ k < i + n)%nat → (k * 32 < length ps)%nat) →
    (i + n ≤ 32)%nat →
    ∃ s', composeTiers gdeps n i bucket key uploadID (map (partName uploadID) ps)
            partZeroAttrs s
          = (Ok (composedNames n i), s')
          ∧ (∀ k, (i ≤ k < i + n)%nat →
               objects s' !! (bucket, composedName k)
               = Some (mkStored (tierAttrs partZeroAttrs)
                         (Data (joinedParts s0 bucket uploadID (chunk k)))))
          ∧ (∀ b name, (∀ k, (i ≤ k < i + n)%nat → (b, name) ≠ (bucket, composedName k)) →
               objects s' !! (b, name) = objects s !! (b, name)).
Proof.
  intros Hf Hall. induction n as [|n IH]; intros i s Hag Hin Hmax.
  - cbn. unfold ret. eexists. split; [reflexivity|]. split; [intros k Hk; lia|reflexivity].
  - cbn [composeTiers composedNames]. cbv zeta. fold (composedName i).
    fold (tierAttrs partZeroAttrs).
    unfold bind at 1, mapErr at 1, composer_Run, call. rewrite Hf.
    rewrite composeSlice_chunk.
    pose proof (chunk_length i (Hin i ltac:(lia))) as Hlen.
    rewrite decide_False by (rewrite length_map; lia).
    rewrite (gather_agree (logCall _ s) (chunk i))
      by (first [apply chunk_stored; exact Hall
                |intros p Hp; apply Hag; eapply chunk_sub; exact Hp]).
    match goal with
    | |- context [bind (composeTiers gdeps n (S i) bucket key uploadID _ partZeroAttrs)
                    _ ?s1] =>
        destruct (IH (S i) s1) as (s' & E & Hk & Ho)
    end.
    + intros p Hp. cbn [objects set_objects logCall].
      rewrite lookup_insert_ne; [apply Hag; exact Hp|].
      intros Heq. apply (f_equal snd) in Heq. cbn [snd] in Heq.
      eapply composeName_not_part. exact Heq.
    + intros k Hk. apply Hin. lia.
    + lia.
    + unfold bind at 1. rewrite E. unfold ret. eexists. split; [reflexivity|]. split.
      * intros k Hk'. destruct (decide (k = i)) as [->|Hne].
        -- rewrite Ho.
           ++ cbn [objects set_objects logCall]. apply lookup_insert_eq.
           ++ intros k Hk'' Heq. apply (f_equal snd) in Heq. cbn [snd] in Heq.
              apply composeName_inj in Heq; lia.
        -- apply Hk. lia.
      * intros b name Hne. rewrite Ho by (intros k Hk'; apply Hne; lia).
        cbn [objects set_objects logCall]. apply lookup_insert_ne.
        intros Heq. eapply (Hne i); [lia|]. symmetry. exact Heq.
Qed.

(** The final compose reads the composed objects in order. *)
Lemma gather_composed (s : Store) (partZeroAttrs : ObjectAttrs) (n : nat) :
  ∀ i, (∀ k, (i ≤ k < i + n)%nat →
          objects s !! (bucket, composedName k)
          = Some (mkStored (tierAttrs partZeroAttrs)
                    (Data (joinedParts s0 bucket uploadID (chunk k))))) →
    gather s bucket (composedNames n i) = Some (chunksFrom n i).
Proof.
  induction n as [|n IH]; intros i H; cbn; [reflexivity|].
  rewrite (H i) by lia. rewrite IH by (intros k Hk; apply H; lia). reflexivity.
Qed.

Lemma composedNames_length (n i : nat) : length (composedNames n i) = n.
Proof. revert i. induction n as [|n IH]; intros i; cbn; [reflexivity|]. rewrite IH. reflexivity. Qed.

Lemma composedName_outside (k : nat) :
  hasPrefix (composedName k) (uploadPrefix uploadID) = false.
Proof. reflexivity. Qed.

(** The number of composes of the first tier. *)
Definition composeCountOf : nat := ((length ps + 31) / 32)%nat.

(** CompleteMultipartUpload of more than 32 parts, and of 1024 at most,
    that are all there, every part but the last of 5 MiB at least, on
    an upload whose [gcs.json] is that of the request, with a client
    that does not fail and a key outside the prefix of the upload: the
    parts are composed 32 at a time and the composed objects composed
    again; the object at the key holds the bytes of all the parts in
    the order given; nothing is left under the prefix of the upload; but
    the composed objects of the first tier are left where they were
    made; every other object is what it was. *)
Theorem CompleteMultipartUpload_composes_in_tiers (o : StoredObject) :
  (∀ c, clientFault gdeps c = None) →
  objects s0 !! (bucket, gcsMultipartMetaName uploadID) = Some o →
  content o = MetaJSON (mkMultipartMeta gcsMinioMultipartMetaCurrentVersion bucket key) →
  partsStored s0 bucket uploadID ps →
  (∀ i size, partSizesOf s0 bucket uploadID ps !! i = Some size →
             (S i < length ps)%nat → 5 * MiByte ≤ size) →
  (32 < length ps <= 1024)%nat →
  hasPrefix key (uploadPrefix uploadID) = false →
  fst (CompleteMultipartUpload gdeps bucket key uploadID ps s0)
  = Ok (fromGCSAttrsToObjectInfo gdeps bucket key (joinedParts s0 bucket uploadID ps)
          (attrs o) (Z.of_nat (String.length (joinedParts s0 bucket uploadID ps))))
  ∧ objects (snd (CompleteMultipartUpload gdeps bucket key uploadID ps s0)) !! (bucket, key)
    = Some (mkStored (attrs o) (Data (joinedParts s0 bucket uploadID ps)))
  ∧ (∀ name, hasPrefix name (uploadPrefix uploadID) = true →
       objects (snd (CompleteMultipartUpload gdeps bucket key uploadID ps s0))
         !! (bucket, name) = None)
  ∧ (∀ k, (k < composeCountOf)%nat → composedName k ≠ key →
       objects (snd (CompleteMultipartUpload gdeps bucket key uploadID ps s0))
         !! (bucket, composedName k)
       = Some (mkStored (tierAttrs (attrs o))
                 (Data (joinedParts s0 bucket uploadID (chunk k)))))
  ∧ (∀ b name, (b, name) ≠ (bucket, key) →
       ¬ (b = bucket ∧ hasPrefix name (uploadPrefix uploadID) = true) →
       (∀ k, (k < composeCountOf)%nat → (b, name) ≠ (bucket, composedName k)) →
       objects (snd (CompleteMultipartUpload gdeps bucket key uploadID ps s0)) !! (b, name)
       = objects s0 !! (b, name)).
Proof.
  intros Hf Ho Hc Hall Hbig Hlen Hkey.
  set (bytes := joinedParts s0 bucket uploadID ps).
  set (stored := mkStored (attrs o) (Data bytes)).
  destruct (sidecar_read gdeps bucket key uploadID s0 o _ Ho Hc (Hf _) (Hf _)) as (E1 & E2).
  destruct (partAttrs_run gdeps bucket key uploadID ps Hf s0
              (logCall (CallNewReader bucket (gcsMultipartMetaName uploadID))
                 (logCall (CallAttrs bucket (gcsMultipartMetaName uploadID)) s0))
              eq_refl Hall) as (s3 & E3 & Hobj3).
  assert (E4 : checkPartSizes ps (partSizesOf s0 bucket uploadID ps) = Ok tt).
  { apply checkPartSizes_large; [unfold partSizesOf; apply length_map|].
    intros i size Hi Hlt. apply (Hbig i size Hi).
    unfold partSizesOf in Hlt. rewrite length_map in Hlt. exact Hlt. }
  assert (Hcount : (Z.of_nat (length (map (partName uploadID) ps)) + gcsMaxComponents - 1)
                   / gcsMaxComponents = Z.of_nat composeCountOf).
  { rewrite length_map. unfold gcsMaxComponents, composeCountOf.
    rewrite Nat2Z.inj_div, Nat2Z.inj_add. f_equal. lia. }
  assert (Hc2 : (2 ≤ composeCountOf ≤ 32)%nat
                ∧ (length ps ≤ composeCountOf * 32)%nat
                ∧ ∀ k, (k < composeCountOf)%nat → (k * 32 < length ps)%nat).
  { unfold composeCountOf.
    pose proof (Nat.div_mod_eq (length ps + 31) 32) as Hdm.
    pose proof (Nat.mod_upper_bound (length ps + 31) 32 ltac:(lia)) as Hm.
    split; [lia|]. split; [lia|]. intros k Hk. nia. }
  destruct Hc2 as (Hrange & Hcover & Hnonempty).
  destruct (composeTiers_run (attrs o) composeCountOf Hf Hall 0%nat s3) as (s4 & E5 & Hk4 & Ho4).
  { intros p _. rewrite Hobj3. reflexivity. }
  { intros k Hk. apply Hnonempty. lia. }
  { lia. }
  assert (E6 : composer_Run gdeps bucket key (composedNames composeCountOf 0) (attrs o) s4
               = (Ok (attrs o, sizeOf stored),
                  set_objects (<[(bucket, key) := stored]> (objects s4))
                    (logCall (CallCompose bucket key (composedNames composeCountOf 0)) s4))).
  { unfold composer_Run, call. rewrite Hf.
    rewrite decide_False by (rewrite composedNames_length; lia).
    rewrite (gather_composed (logCall _ s4) (attrs o) composeCountOf 0)
      by (intros k Hk; apply Hk4; exact Hk).
    rewrite (chunksFrom_joined composeCountOf 0) by lia.
    cbn [drop Nat.mul]. reflexivity. }
  assert (Hrun : ∃ s5,
            CompleteMultipartUpload gdeps bucket key uploadID ps s0
            = (Ok (fromGCSAttrsToObjectInfo gdeps bucket key bytes (attrs o) (sizeOf stored)),
               s5)
            ∧ objects s5
              = filter (fun kv => ¬ (kv.1.1 = bucket
                                     ∧ hasPrefix kv.1.2 (uploadPrefix uploadID) = true))
                       (<[(bucket, key) := stored]> (objects s4))).
  { eexists.
    unfold CompleteMultipartUpload.
    unfold bind at 1. rewrite E1. unfold bind at 1. rewrite E2.
    unfold bind at 1. cbn [mapErr lift decodeMultipartMeta Version Bucket Object].
    unfold mapErr at 1, lift at 1. cbn [Version Bucket Object].
    rewrite !String.eqb_refl. cbn [negb orb].
    unfold bind at 1. rewrite E3.
    destruct (partSizesOf s0 bucket uploadID ps) as [|sz szs] eqn:Esz.
    { exfalso. apply (f_equal length) in Esz. unfold partSizesOf in Esz.
      rewrite length_map in Esz. cbn in Esz. lia. }
    unfold bind at 1. cbv beta. rewrite E4. cbv zeta.
    rewrite Hcount.
    replace (Z.of_nat composeCountOf >? 1) with true by (symmetry; apply Z.gtb_lt; lia).
    rewrite Nat2Z.id.
    unfold bind at 1. rewrite E5.
    unfold bind at 1. cbv beta. rewrite E6.
    unfold bind at 1, get at 1.
    cbn [objects set_objects]. rewrite lookup_insert_eq. cbn [content bytesOf stored].
    unfold bind at 1, mapErr at 1, cleanupMultipartUpload, mapErr, call. rewrite Hf.
    unfold ret. split; reflexivity. }
  destruct Hrun as (s5 & -> & Hs5). cbn [fst snd]. rewrite Hs5.
  split; [reflexivity|]. split; [|split; [|split]].
  - apply map_lookup_filter_Some. split; [apply lookup_insert_eq|].
    cbn [fst snd]. intros [_ Hp]. congruence.
  - intros name Hname. apply map_lookup_filter_None. right.
    intros o' _ Hnot. apply Hnot. split; [reflexivity|exact Hname].
  - intros k Hk Hne. apply map_lookup_filter_Some. split.
    + rewrite lookup_insert_ne by congruence. apply Hk4. lia.
    + cbn [fst snd]. intros [_ Hp]. rewrite composedName_outside in Hp. discriminate.
  - intros b name Hne Hnot Hcomp.
    assert (E : objects s4 !! (b, name) = objects s0 !! (b, name)).
    { rewrite Ho4 by (intros k Hk; apply Hcomp; lia). rewrite Hobj3. reflexivity. }
    destruct (objects s0 !! (b, name)) as [o'|] eqn:E0.
    + apply map_lookup_filter_Some. split; [|exact Hnot].
      rewrite lookup_insert_ne by congruence. exact E.
    + apply map_lookup_filter_None. left. rewrite lookup_insert_ne by congruence. exact E.
Qed.

End GatewayTiers.

Lemma length_iter_String (a : ascii) (n : N) :
  String.length (N.iter n (String a) "") = N.to_nat n.
Proof.
  induction n as [|n IH] using N.peano_ind; [reflexivity|].
  rewrite N.iter_succ, N2Nat.inj_succ. cbn. rewrite IH. reflexivity.
Qed.

(** A part of 5 MiB: the letter a, 5242880 times.  It is kept behind
    its length, so that no proof unfolds it. *)
Lemma fiveMiB : { bytes : string | String.length bytes = N.to_nat 5242880 }.
Proof. exists (N.iter 5242880 (String "a"%char) ""). apply length_iter_String. Qed.

Definition bigPart : string := proj1_sig fiveMiB.

Lemma bigPart_size : Z.of_nat (String.length bigPart) = 5 * GCS.MiByte.
Proof. unfold bigPart. rewrite (proj2_sig fiveMiB), N_nat_Z. reflexivity. Qed.

(** An upload "u9" of object "obj" in bucket "b" with 33 parts of that
    size. *)
Definition tierParts : list GCS.CompletePart :=
  map (fun i => GCS.mkCompletePart (Z.of_nat i) "e") (seq 1 33).

Definition tierStore : GCS.Store :=
  {| GCS.objects :=
       list_to_map
         ((("b", GCS.gcsMultipartMetaName "u9"),
           GCS.mkStored GCSDemo.noAttrs (GCS.MetaJSON (GCS.mkMultipartMeta "1" "b" "obj")))
          :: map (fun p => (("b", partName "u9" p),
                            GCS.mkStored GCSDemo.noAttrs (GCS.Data bigPart))) tierParts);
     GCS.calls := [] |}.

Lemma tierStore_parts :
  Forall (fun p => GCS.objects tierStore !! ("b", partName "u9" p)
                   = Some (GCS.mkStored GCSDemo.noAttrs (GCS.Data bigPart))) tierParts.
Proof. repeat (constructor; [vm_compute; reflexivity|]). constructor. Qed.

Lemma tierStore_sizes :
  Forall (fun size => 5 * GCS.MiByte ≤ size) (partSizesOf tierStore "b" "u9" tierParts).
Proof.
  unfold partSizesOf. apply List.Forall_map.
  eapply Forall_impl; [apply tierStore_parts|]. intros p Hp. cbv beta in Hp. rewrite Hp.
  unfold GCS.sizeOf. cbn [GCS.content GCS.bytesOf]. rewrite bigPart_size. lia.
Qed.

(** The upload "u9" completed: its first part is gone, its second
    compose - the 33rd part alone - is left behind. *)
Lemma CompleteMultipartUpload_composes_in_tiers_witness :
  GCS.objects (snd (GCS.CompleteMultipartUpload GCSDemo.gdeps "b" "obj" "u9" tierParts
                      tierStore))
    !! ("b", partName "u9" (GCS.mkCompletePart 1 "e")) = None
  ∧ GCS.objects (snd (GCS.CompleteMultipartUpload GCSDemo.gdeps "b" "obj" "u9" tierParts
                        tierStore))
      !! ("b", composedName "u9" 1)
    = Some (GCS.mkStored (tierAttrs GCSDemo.noAttrs) (GCS.Data (bigPart +:+ ""))).
Proof.
  destruct (CompleteMultipartUpload_composes_in_tiers GCSDemo.gdeps "b" "obj" "u9" tierParts
              tierStore
              (GCS.mkStored GCSDemo.noAttrs
                 (GCS.MetaJSON (GCS.mkMultipartMeta "1" "b" "obj"))))
    as (_ & _ & Hgone & Hleft & _).
  - intros c. reflexivity.
  - vm_compute. reflexivity.
  - reflexivity.
  - unfold partsStored. eapply Forall_impl; [apply tierStore_parts|].
    intros p Hp. cbv beta in Hp. rewrite Hp. eauto.
  - intros i size Hi _. eapply Forall_lookup_1 in Hi; [|apply tierStore_sizes]. exact Hi.
  - unfold tierParts. rewrite length_map, length_seq. lia.
  - reflexivity.
  - split.
    + apply Hgone. reflexivity.
    + rewrite (Hleft 1%nat).
      * vm_compute. reflexivity.
      * unfold composeCountOf, tierParts. rewrite length_map, length_seq. cbn. lia.
      * discriminate.
Defined.
